(** * A shallow embedding of the slot round engine

    The development follows the TypeScript sources: the state machine
    ([core/state/StateMachine.ts]), the math-spec loader and the spin
    generator ([game/math]), the hold-aware composer ([game/spinLogic.ts]),
    the evaluator ([game/evaluators.ts]), the bonus accountant
    ([game/bonus.ts]) and the round sequencing of [SlotScene]; then the
    view side: the easings and the tween runner ([core/tween]), the reel
    strip and the machine view ([game/slot]) and the layout scaler
    ([core/layout/FitScaler.ts]).

    Conventions.
    - A JavaScript [number] is an exact rational ([Q]); the values NaN and
      the infinities are named where the code tests for them.  Rounding of
      binary floating point is not modelled.
    - [undefined] read from an array is [None].
    - The columns of the grids that are kept from one spin to the next
      are objects with an identity and live in a store; arrays that are
      created and used inside one call are plain lists. *)

From Stdlib Require Import QArith Qround Qminmax ZArith Lia Lqa Ascii String.
From stdpp Require Import base option list strings gmap.

Local Open Scope Z_scope.

(** ** Numbers *)

Abbreviation number := Q.

Definition Qlt_bool (x y : Q) : bool := negb (Qle_bool y x).

(** [Math.round]: the nearest integer, halves towards plus infinity. *)
Definition Math_round (x : number) : Z := Qfloor (x + (1 # 2))%Q.

(** The integer part of a rational, towards zero. *)
Definition Qtrunc (x : Q) : Z := Z.quot (Qnum x) (Z.pos (Qden x)).

(** [x | 0]: truncate towards zero, then wrap to a signed 32-bit integer. *)
Definition toInt32 (x : number) : Z :=
  let m := Qtrunc x mod 2 ^ 32 in
  if m <? 2 ^ 31 then m else m - 2 ^ 32.

Definition ofNat (n : nat) : number := inject_Z (Z.of_nat n).

(** ** Symbols ([game/slot/SymbolIds.ts]) *)

Module Sym.
Inductive SymbolId :=
| A | K | Q | J | T | CROWN | SKULL | PARROT | CANNON | CHEST_GOLD
| COMPASS | WILD | SCATTER.

#[global] Instance SymbolId_eq_dec : EqDecision SymbolId.
Proof. solve_decision. Defined.

Definition DefaultSymbolIds : list SymbolId :=
  [A; K; Q; J; T; CROWN; SKULL; PARROT; CANNON; CHEST_GOLD; COMPASS; WILD;
   SCATTER].
End Sym.

Abbreviation SymbolId := Sym.SymbolId.

(** A cell read: [Some s], or [None] for [undefined]. *)
Abbreviation Cell := (option SymbolId).

Definition isSym (c : Cell) (s : SymbolId) : bool := bool_decide (c = Some s).

(** [Grid] is indexed [reel][row]. *)
Abbreviation Grid := (list (list SymbolId)).

(** ** State machine ([core/state/StateMachine.ts]) *)

Module StateMachine.
Section Machine.
Context {S : Type} `{EqDecision S}.
(** The callbacks stored in the hook maps; calling one is recorded in the
    order of the calls.  A hook belongs to the owner of the machine: it may
    read the state but does not call [set] itself (the scene's hooks only
    refresh the display). *)
Context {H : Type}.

Record StateMachineHooks := {
  onEnter : S -> option H;
  onExit : S -> option H;
}.

Record t := {
  allowed : S -> option (list S);
  hooks : StateMachineHooks;
  _state : S;
}.

Definition state (m : t) : S := _state m.

Definition can (m : t) (next : S) : bool :=
  if decide (next = _state m) then true
  else match allowed m (_state m) with
       | Some list => bool_decide (next ∈ list)
       | None => false
       end.

(** [hook?.()] *)
Definition call (h : option H) : list H :=
  match h with Some f => [f] | None => [] end.

(** [set] returns the machine after the request and the hooks it called. *)
Definition set (m : t) (next : S) : t * list H :=
  if negb (can m next) then (m, [])
  else if decide (next = _state m) then (m, [])
  else
    let prev := _state m in
    let fired := call (onExit (hooks m) prev) in
    let m' := {| allowed := allowed m; hooks := hooks m; _state := next |} in
    (m', fired ++ call (onEnter (hooks m) next)).

(** The states visited by a run of requests, the start included. *)
Fixpoint visited (m : t) (reqs : list S) : list S :=
  match reqs with
  | [] => [_state m]
  | next :: rest => _state m :: visited (fst (set m next)) rest
  end.

(** [s -> s'] is an edge of the whitelist. *)
Definition edge (m : t) (s s' : S) : Prop :=
  exists list, allowed m s = Some list /\ s' ∈ list.
End Machine.
Arguments t : clear implicits.
Arguments StateMachineHooks : clear implicits.
End StateMachine.

(** ** The math specification ([game/math/EnvMathSpec.ts]) *)

(** [PayCount] is the type [3 | 4 | 5]; at run time a number used as a key. *)
Abbreviation PayCount := nat (only parsing).

Record EnvMathSpec := {
  reels : number;
  rows : number;
  betMin : number;
  betMax : number;
  betStep : number;
  hitRate : number;
  bonusTargetFrequency : number;
  symbols : list SymbolId;
  weights : SymbolId -> number;
  wildSubstitutes : bool;
  wildPaysItself : bool;
  scatterSymbol : SymbolId;
  bonusEnabled : bool;
  bonusTriggerCount : number;
  scatterPays : bool;
  scatterPay : PayCount -> option number;
  paytable : SymbolId -> option (PayCount -> option number);
  freeSpinsAward : number;
  freeSpinsWinMult : number;
  freeSpinsRetriggerEnabled : bool;
  freeSpinsRetriggerCount : number;
  freeSpinsRetriggerAward : number;
  bigWinThresholdXBet : number;
  rngSeed : number;
  qaForceBonus : bool;
  qaForceWin : bool;
  qaForceSymbol : option SymbolId;
  qaLog : bool;
}.

(** ** Paylines ([game/paylines.ts]) *)

Record Payline := { id : nat; line_rows : list nat }.

Definition PAYLINES_5X3 : list Payline :=
  [ {| id := 1; line_rows := [1; 1; 1; 1; 1]%nat |};
    {| id := 2; line_rows := [0; 0; 0; 0; 0]%nat |};
    {| id := 3; line_rows := [2; 2; 2; 2; 2]%nat |};
    {| id := 4; line_rows := [0; 1; 2; 1; 0]%nat |};
    {| id := 5; line_rows := [2; 1; 0; 1; 2]%nat |};
    {| id := 6; line_rows := [0; 0; 1; 0; 0]%nat |};
    {| id := 7; line_rows := [2; 2; 1; 2; 2]%nat |} ]%nat.

(** ** The evaluator ([game/evaluators.ts]) *)

(** [{ reel, row }]; [row] is [path[r]], which is [undefined] past the end
    of the path. *)
Record Position := { reel : nat; row : option nat }.

Record WinLine := {
  lineId : nat;
  pathRows : list nat;
  fromReel : nat;
  toReel : Z;
  symbol : Cell;
  count : PayCount;
  usedWild : bool;
  amount : number;
  positions : list Position;
}.

Record EvaluatedSpin := {
  winAmount : Z;
  winLines : list WinLine;
  scatterCount : nat;
  scatterWinAmount : number;
  scatterPositions : list Position;
  heldReelsNext : list bool;
}.

Module Evaluator.

(** [grid[0]?.length ?? 0] *)
Definition rowsOf (grid : Grid) : nat :=
  match grid with col :: _ => length col | [] => 0%nat end.

(** The cells [(r, y)] with [y < rows] of one column that hold [s]. *)
Definition columnHits (s : SymbolId) (rows : nat) (r : nat)
    (col : list SymbolId) : list Position :=
  omap (fun y => if isSym (col !! y) s
                 then Some {| reel := r; row := Some y |} else None)
       (seq 0 rows).

(** The double loop over [r < reels], [y < rows]. *)
Definition scatterScan (grid : Grid) (s : SymbolId) : list Position :=
  concat (imap (columnHits s (rowsOf grid)) grid).

(** [symbols[r] = grid[r][path[r]]] for [r < reels]. *)
Definition lineSymbols (grid : Grid) (path : list nat) : list Cell :=
  imap (fun r col => path !! r ≫= fun y => col !! y) grid.

(** The loop that looks for the base of a line that starts with WILD, over
    [symbols[1..]]. *)
Fixpoint wildBase (rest : list Cell) : Cell :=
  match rest with
  | [] => Some Sym.WILD
  | s :: rest' =>
      if isSym s Sym.SCATTER then Some Sym.WILD
      else if negb (isSym s Sym.WILD) then s
      else wildBase rest'
  end.

(** The counting loop from reel [r] on: the count, [usedWild] and the
    positions pushed. *)
Fixpoint scan (math : EnvMathSpec) (path : list nat) (base : Cell)
    (r : nat) (symbols : list Cell) : nat * bool * list Position :=
  match symbols with
  | [] => (0%nat, false, [])
  | s :: rest =>
      if isSym s Sym.SCATTER then (0%nat, false, [])
      else if bool_decide (s = base) then
        let '(c, u, ps) := scan math path base (S r) rest in
        (S c, (isSym s Sym.WILD && isSym base Sym.WILD) || u,
         {| reel := r; row := path !! r |} :: ps)
      else if wildSubstitutes math && isSym s Sym.WILD
              && negb (isSym base Sym.WILD) then
        let '(c, u, ps) := scan math path base (S r) rest in
        (S c, true, {| reel := r; row := path !! r |} :: ps)
      else (0%nat, false, [])
  end.

(** [(math.paytable as any)?.[baseSym]?.[c] ?? 0] *)
Definition payMult (math : EnvMathSpec) (base : Cell) (c : PayCount)
    : number :=
  match base with
  | Some b =>
      match paytable math b with
      | Some entry => default 0%Q (entry c)
      | None => 0%Q
      end
  | None => 0%Q
  end.

(** One iteration of the payline loop: the win line it pushes, if any. *)
Definition evalLine (grid : Grid) (bet : number) (math : EnvMathSpec)
    (line : Payline) : option WinLine :=
  let path := line_rows line in
  let symbols := lineSymbols grid path in
  let s0 : Cell := mjoin (symbols !! 0%nat) in
  if isSym s0 Sym.SCATTER then None
  else
    let base := if isSym s0 Sym.WILD then wildBase (drop 1 symbols) else s0 in
    if isSym s0 Sym.WILD && isSym base Sym.WILD && negb (wildPaysItself math)
    then None
    else
      let '(count, usedWild, positions) := scan math path base 0 symbols in
      if (3 <=? count)%nat then
        let c := Nat.min 5 count in
        let amount := (bet * payMult math base c)%Q in
        if Qlt_bool 0 amount then
          Some {| lineId := id line;
                  pathRows := path;
                  fromReel := 0;
                  toReel := Z.of_nat count - 1;
                  symbol := base;
                  count := c;
                  usedWild := usedWild;
                  amount := amount;
                  positions := positions |}
        else None
      else None.

(** The payline loop, with its two accumulators. *)
Definition lineLoop (grid : Grid) (bet : number) (math : EnvMathSpec)
    (lines : list Payline) : number * list WinLine :=
  fold_left
    (fun '(winAmount, winLines) line =>
       match evalLine grid bet math line with
       | Some w => ((winAmount + amount w)%Q, winLines ++ [w])
       | None => (winAmount, winLines)
       end)
    lines (0%Q, []).

(** [heldReelsNext[r]]: some cell [y < rows] of column [r] is WILD. *)
Definition columnHasWild (rows : nat) (col : list SymbolId) : bool :=
  existsb (fun y => isSym (col !! y) Sym.WILD) (seq 0 rows).

Definition evaluateGrid (grid : Grid) (bet : number) (math : EnvMathSpec)
    (inFreeSpins : bool) : EvaluatedSpin :=
  let rows := rowsOf grid in
  let scatterPositions := scatterScan grid (scatterSymbol math) in
  let scatterCount := length scatterPositions in
  let '(winAmount, winLines) := lineLoop grid bet math PAYLINES_5X3 in
  let scatterWinAmount :=
    if scatterPays math && (3 <=? scatterCount)%nat
    then (bet * default 0%Q (scatterPay math (Nat.min 5 scatterCount)))%Q
    else 0%Q in
  let total :=
    ((winAmount + scatterWinAmount)
     * (if inFreeSpins then freeSpinsWinMult math else 1))%Q in
  {| winAmount := Math_round total;
     winLines := winLines;
     scatterCount := scatterCount;
     scatterWinAmount := scatterWinAmount;
     scatterPositions := scatterPositions;
     heldReelsNext := map (columnHasWild rows) grid |}.

End Evaluator.

(** ** The bonus accountant ([game/bonus.ts]) *)

Definition shouldTriggerBonus (scatterCount : nat) (math : EnvMathSpec) : bool :=
  bonusEnabled math && Qle_bool (bonusTriggerCount math) (ofNat scatterCount).

Definition getBonusFreeSpinsAward (scatterCount : nat) (math : EnvMathSpec)
    : number :=
  if shouldTriggerBonus scatterCount math then freeSpinsAward math else 0%Q.

Definition getRetriggerFreeSpinsAward (scatterCount : nat) (math : EnvMathSpec)
    : number :=
  if negb (freeSpinsRetriggerEnabled math) then 0%Q
  else if Qle_bool (freeSpinsRetriggerCount math) (ofNat scatterCount)
       then freeSpinsRetriggerAward math else 0%Q.

(** ** The random source

    [rng: () => number] is one shared sequential stream: the sequence of its
    draws and the number of draws taken so far. *)

Record Rng := { draws : nat -> number; cursor : nat }.

Definition rng_next (g : Rng) : number * Rng :=
  (draws g (cursor g), {| draws := draws g; cursor := S (cursor g) |}).

(** Code that draws from the stream and may stop with a [TypeError], or
    with a write outside the bounds of an array (JavaScript would grow the
    array or add a property; such a value is no [Grid]): [None] in both
    cases. *)
Definition Gen (X : Type) : Type := Rng -> option (X * Rng).

Definition gret {X} (x : X) : Gen X := fun g => Some (x, g).

Definition gbind {X Y} (m : Gen X) (k : X -> Gen Y) : Gen Y :=
  fun g => match m g with Some (x, g') => k x g' | None => None end.

Definition gfail {X} : Gen X := fun _ => None.

Definition glift {X} (f : Rng -> X * Rng) : Gen X := fun g => Some (f g).

Definition gopt {X} (o : option X) : Gen X :=
  fun g => match o with Some x => Some (x, g) | None => None end.

Declare Scope gen_scope.
Delimit Scope gen_scope with gen.
Notation "x <- m ;; k" := (gbind m (fun x => k))
  (at level 90, m at next level, right associativity) : gen_scope.

(** [arr[i]] for reading, with a numeric index. *)
Definition arr_get {X} (l : list X) (i : Z) : option X :=
  if decide (0 <= i) then l !! Z.to_nat i else None.

(** [arr[i] = x] inside the bounds of [arr]. *)
Definition arr_set {X} (l : list X) (i : Z) (x : X) : option (list X) :=
  if decide (0 <= i < Z.of_nat (length l)) then Some (<[Z.to_nat i := x]> l)
  else None.

(** [grid[r][y] = x]; [grid[r]] must exist. *)
Definition grid_set (grid : Grid) (r y : Z) (x : SymbolId) : option Grid :=
  col ← arr_get grid r; col' ← arr_set col y x; arr_set grid r col'.

(** [grid[r][y]]: [None] when [grid[r]] does not exist (a [TypeError]),
    otherwise the cell read. *)
Definition grid_get (grid : Grid) (r y : Z) : option Cell :=
  col ← arr_get grid r; Some (arr_get col y).

(** ** The spin generator ([game/math/SpinGenerator.ts]) *)

Module SpinGenerator.
Local Open Scope gen_scope.

Record GeneratedSpin := {
  grid : Grid;
  forcedWin : bool;
  forcedScatter : bool;
}.

Record Overrides := {
  o_hitRate : option number;
  o_bonusTargetFrequency : option number;
}.

(** [for (...) total += w[symbols[i]] ?? 0]; [weights] has every symbol
    as a key. *)
Definition totalWeight (math : EnvMathSpec) : number :=
  fold_left (fun total s => (total + weights math s)%Q) (symbols math) 0%Q.

(** The subtraction loop; [None] when it runs off the end of the list. *)
Fixpoint pickLoop (math : EnvMathSpec) (roll : number)
    (symbols : list SymbolId) : option SymbolId :=
  match symbols with
  | [] => None
  | id :: rest =>
      let roll' := (roll - weights math id)%Q in
      if Qle_bool roll' 0 then Some id else pickLoop math roll' rest
  end.

Definition pickWeightedSymbol (math : EnvMathSpec) (g : Rng)
    : SymbolId * Rng :=
  let total := totalWeight math in
  let '(u, g') := rng_next g in
  let roll := (u * total)%Q in
  match pickLoop math roll (symbols math) with
  | Some id => (id, g')
  | None => (Sym.A, g')
  end.

Definition pickMatchCount (g : Rng) : PayCount * Rng :=
  let w3 := 82%Q in
  let w4 := 16%Q in
  let w5 := 2%Q in
  let total := (w3 + w4 + w5)%Q in
  let '(u, g') := rng_next g in
  let roll := (u * total)%Q in
  let roll := (roll - w3)%Q in
  if Qle_bool roll 0 then (3%nat, g')
  else
    let roll := (roll - w4)%Q in
    if Qle_bool roll 0 then (4%nat, g') else (5%nat, g').

(** [new Array(n)] filled by [n] successive calls. *)
Fixpoint fillArray {X} (n : nat) (f : Rng -> X * Rng) (g : Rng)
    : list X * Rng :=
  match n with
  | O => ([], g)
  | S n' =>
      let '(x, g1) := f g in
      let '(xs, g2) := fillArray n' f g1 in
      (x :: xs, g2)
  end.

Definition createWeightedGrid (math : EnvMathSpec) (reels rows : nat)
    (g : Rng) : Grid * Rng :=
  fillArray reels (fillArray rows (pickWeightedSymbol math)) g.

(** The loop of at most [tries] draws that looks for a symbol that is
    neither the scatter symbol nor WILD; [sym] is the value kept when
    none is found. *)
Fixpoint pickFruit (math : EnvMathSpec) (tries : nat) (sym : SymbolId)
    (g : Rng) : SymbolId * Rng :=
  match tries with
  | O => (sym, g)
  | S tries' =>
      let '(s, g') := pickWeightedSymbol math g in
      if negb (bool_decide (s = scatterSymbol math))
         && negb (bool_decide (s = Sym.WILD))
      then (s, g')
      else pickFruit math tries' sym g'
  end.

(** [for (r = 0; r < maxCount; r++) grid[r][row] = sym], from reel [r]. *)
Fixpoint writeRow (n : nat) (r : Z) (row : Z) (sym : SymbolId)
    (grid : Grid) : option Grid :=
  match n with
  | O => Some grid
  | S n' => grid' ← grid_set grid r row sym; writeRow n' (r + 1) row sym grid'
  end.

Definition applyForcedWinLine (math : EnvMathSpec) (grid : Grid) : Gen Grid :=
  let reels := length grid in
  col0 <- gopt (grid !! 0%nat) ;;
  let rows := length col0 in
  u <- glift rng_next ;;
  let row := toInt32 (u * ofNat rows)%Q in
  count <- glift pickMatchCount ;;
  sym <- glift (pickFruit math 10 Sym.A) ;;
  let maxCount := Nat.min reels count in
  gopt (writeRow maxCount 0 row sym grid).

Fixpoint pickDifferentLoop (math : EnvMathSpec) (tries : nat)
    (notThis : Cell) (g : Rng) : option SymbolId * Rng :=
  match tries with
  | O => (None, g)
  | S tries' =>
      let '(s, g') := pickWeightedSymbol math g in
      if negb (bool_decide (s = scatterSymbol math))
         && negb (bool_decide (Some s = notThis))
      then (Some s, g')
      else pickDifferentLoop math tries' notThis g'
  end.

(** [notThis] is a cell read, so it may be [undefined]. *)
Definition pickDifferentNonScatter (math : EnvMathSpec) (notThis : Cell)
    (g : Rng) : SymbolId * Rng :=
  match pickDifferentLoop math 20 notThis g with
  | (Some s, g') => (s, g')
  | (None, g') => (if isSym notThis Sym.A then Sym.K else Sym.A, g')
  end.

(** The run length at [row] from reel 1 on: [count] starts at 1 and grows
    while [grid[r][row] === first]. *)
Fixpoint runFrom (first : Cell) (row : nat) (cols : list (list SymbolId))
    : nat :=
  match cols with
  | [] => 0%nat
  | col :: rest =>
      if bool_decide (col !! row = first) then S (runFrom first row rest)
      else 0%nat
  end.

(** The body of the row loop of [breakAccidentalWins]. *)
Definition breakRow (math : EnvMathSpec) (row : nat) (grid : Grid)
    : Gen Grid :=
  col0 <- gopt (grid !! 0%nat) ;;
  let first : Cell := col0 !! row in
  if isSym first (scatterSymbol math) then gret grid
  else
    let count := S (runFrom first row (drop 1 grid)) in
    if (3 <=? count)%nat then
      let breakReel := 2 in
      s <- glift (pickDifferentNonScatter math first) ;;
      gopt (grid_set grid breakReel (Z.of_nat row) s)
    else gret grid.

Fixpoint breakRows (math : EnvMathSpec) (rows : list nat) (grid : Grid)
    : Gen Grid :=
  match rows with
  | [] => gret grid
  | row :: rest => grid' <- breakRow math row grid ;; breakRows math rest grid'
  end.

Definition breakAccidentalWins (math : EnvMathSpec) (grid : Grid)
    : Gen Grid :=
  col0 <- gopt (grid !! 0%nat) ;;
  let rows := length col0 in
  breakRows math (seq 0 rows) grid.

Definition countScatter (grid : Grid) (scatterSymbol : SymbolId) : nat :=
  fold_left
    (fun c col =>
       fold_left (fun c s => if bool_decide (s = scatterSymbol)
                             then S c else c) col c)
    grid 0%nat.

(** The [while (c < desired && guard++ < 200)] loop; [budget] is
    [200 - guard]. *)
Fixpoint forceScatterLoop (math : EnvMathSpec) (reels rows : nat)
    (desired : number) (budget : nat) (c : Z) (grid : Grid) : Gen Grid :=
  match budget with
  | O => gret grid
  | S budget' =>
      if Qlt_bool (inject_Z c) desired then
        u1 <- glift rng_next ;;
        let r := toInt32 (u1 * ofNat reels)%Q in
        u2 <- glift rng_next ;;
        let y := toInt32 (u2 * ofNat rows)%Q in
        cell <- gopt (grid_get grid r y) ;;
        if negb (isSym cell (scatterSymbol math)) then
          grid' <- gopt (grid_set grid r y (scatterSymbol math)) ;;
          forceScatterLoop math reels rows desired budget' (c + 1) grid'
        else forceScatterLoop math reels rows desired budget' c grid
      else gret grid
  end.

Definition applyForcedScatter (math : EnvMathSpec) (grid : Grid)
    (desired : number) : Gen Grid :=
  let reels := length grid in
  col0 <- gopt (grid !! 0%nat) ;;
  let rows := length col0 in
  let c := Z.of_nat (countScatter grid (scatterSymbol math)) in
  forceScatterLoop math reels rows desired 200 c grid.

(** The [while (c >= limit && guard++ < 300)] loop; [budget] is
    [300 - guard]. *)
Fixpoint limitScatterLoop (math : EnvMathSpec) (reels rows : nat)
    (limit : number) (budget : nat) (c : Z) (grid : Grid) : Gen Grid :=
  match budget with
  | O => gret grid
  | S budget' =>
      if Qle_bool limit (inject_Z c) then
        u1 <- glift rng_next ;;
        let r := toInt32 (u1 * ofNat reels)%Q in
        u2 <- glift rng_next ;;
        let y := toInt32 (u2 * ofNat rows)%Q in
        cell <- gopt (grid_get grid r y) ;;
        if isSym cell (scatterSymbol math) then
          s <- glift (pickDifferentNonScatter math
                        (Some (scatterSymbol math))) ;;
          grid' <- gopt (grid_set grid r y s) ;;
          limitScatterLoop math reels rows limit budget' (c - 1) grid'
        else limitScatterLoop math reels rows limit budget' c grid
      else gret grid
  end.

Definition limitScatterBelow (math : EnvMathSpec) (grid : Grid)
    (limit : number) : Gen Grid :=
  let c := Z.of_nat (countScatter grid (scatterSymbol math)) in
  if Qlt_bool (inject_Z c) limit then gret grid
  else
    let reels := length grid in
    col0 <- gopt (grid !! 0%nat) ;;
    let rows := length col0 in
    limitScatterLoop math reels rows limit 300 c grid.

Definition generateSpin (math : EnvMathSpec) (reels rows : nat)
    (overrides : option Overrides) : Gen GeneratedSpin :=
  let hitRate := default (hitRate math) (overrides ≫= o_hitRate) in
  let bonusFreq :=
    default (bonusTargetFrequency math)
            (overrides ≫= o_bonusTargetFrequency) in
  forceScatter <-
    (if qaForceBonus math then gret true
     else u <- glift rng_next ;; gret (Qlt_bool u bonusFreq)) ;;
  forceWin <-
    (if qaForceWin math then gret true
     else u <- glift rng_next ;; gret (Qlt_bool u hitRate)) ;;
  grid <- glift (createWeightedGrid math reels rows) ;;
  let grid :=
    match qaForceSymbol math with
    | Some sym => map (map (fun _ => sym)) grid
    | None => grid
    end in
  grid <- (if forceWin : bool then applyForcedWinLine math grid
           else breakAccidentalWins math grid) ;;
  grid <- (if forceScatter : bool
           then applyForcedScatter math grid (bonusTriggerCount math)
           else limitScatterBelow math grid (bonusTriggerCount math)) ;;
  gret {| grid := grid; forcedWin := forceWin;
          forcedScatter := forceScatter |}.
End SpinGenerator.

(** ** The store of reel columns

    A grid handed from one spin to the next is an array of column arrays.
    Columns are objects with an identity: a grid value is the list of the
    locations of its columns, and the store gives their contents. *)

Abbreviation loc := nat (only parsing).
Abbreviation GridRef := (list nat) (only parsing).

Record World := { heap : gmap loc (list SymbolId); rng : Rng }.

(** A new array object with the given contents. *)
Definition alloc (h : gmap loc (list SymbolId)) (col : list SymbolId)
    : loc * gmap loc (list SymbolId) :=
  let l := fresh (dom h) in (l, <[l := col]> h).

Arguments alloc : simpl never.

Fixpoint allocGrid (h : gmap loc (list SymbolId)) (g : Grid)
    : GridRef * gmap loc (list SymbolId) :=
  match g with
  | [] => ([], h)
  | col :: rest =>
      let '(l, h1) := alloc h col in
      let '(ls, h2) := allocGrid h1 rest in
      (l :: ls, h2)
  end.

(** The contents of a grid; [None] if a column is not in the store. *)
Definition readGrid (h : gmap loc (list SymbolId)) (g : GridRef)
    : option Grid :=
  mapM (fun l => h !! l) g.

(** ** The slot model ([game/slot/SlotModel.ts]) *)

(** [SlotConfig.reels]: the two entries that the model reads are parameters
    here; the table itself is given with the machine view. *)
Record SlotConfig := { reels_count : nat; reels_rows : nat }.

Record SlotModel := { config : SlotConfig; model_math : EnvMathSpec }.

(** [model.spin(opts)]: the generator runs on the shared random stream and
    returns a grid of new arrays. *)
Definition spin (model : SlotModel) (opts : option SpinGenerator.Overrides)
    (w : World) : option (GridRef * World) :=
  match SpinGenerator.generateSpin (model_math model)
          (reels_count (config model)) (reels_rows (config model)) opts
          (rng w) with
  | Some (gs, g') =>
      let '(refs, h') := allocGrid (heap w) (SpinGenerator.grid gs) in
      Some (refs, {| heap := h'; rng := g' |})
  | None => None
  end.

(** ** The hold-aware composer ([game/spinLogic.ts]) *)

(** One iteration of the loop over [r < next.length]:
    [if (heldReels[r]) next[r] = previousGrid[r].slice()]. *)
Definition holdStep (previousGrid : GridRef) (heldReels : list bool)
    (r : nat) (st : GridRef * gmap loc (list SymbolId))
    : option (GridRef * gmap loc (list SymbolId)) :=
  let '(next, h) := st in
  if default false (heldReels !! r) then
    pcol ← previousGrid !! r;
    contents ← h !! pcol;
    let '(l, h') := alloc h contents in
    Some (<[r := l]> next, h')
  else Some (next, h).

Fixpoint holdLoop (previousGrid : GridRef) (heldReels : list bool)
    (rs : list nat) (st : GridRef * gmap loc (list SymbolId))
    : option (GridRef * gmap loc (list SymbolId)) :=
  match rs with
  | [] => Some st
  | r :: rest =>
      st' ← holdStep previousGrid heldReels r st;
      holdLoop previousGrid heldReels rest st'
  end.

Definition spinGrid (model : SlotModel) (previousGrid : option GridRef)
    (heldReels : option (list bool)) (opts : option SpinGenerator.Overrides)
    (w : World) : option (GridRef * World) :=
  '(next, w1) ← spin model opts w;
  match previousGrid, heldReels with
  | Some prev, Some held =>
      let reels := length next in
      '(next', h') ← holdLoop prev held (seq 0 reels) (next, heap w1);
      Some (next', {| heap := h'; rng := rng w1 |})
  | _, _ => Some (next, w1)
  end.

(** ** The round sequencing of the slot scene ([scenes/SlotScene.ts]) *)

Module SlotScene.

Inductive SlotState := IDLE | SPINNING | RESULT | BONUS | WIN_PRESENTATION.

#[global] Instance SlotState_eq_dec : EqDecision SlotState.
Proof. solve_decision. Defined.

(** The calls to the presentation collaborators (HUD, reel view, overlays,
    presenter), in the order they are made.  Texts, tweens and console
    output are left out. *)
Inductive Effect :=
| SyncUi
| ShakeLose
| FlashWin
| HudSetBalance (v : number)
| HudSetBet (v : number)
| HudSetWin (v : number)
| HudSetFreeSpins (v : number)
| HudSetSpins (v : Z)
| ChainSetHeld (mask : option (list bool))
| HoldOverlaySetHeld (mask : option (list bool))
| SpinTo (grid : GridRef) (freezeReels : option (list bool))
| ShowBonusPopup (freeSpins : number)
| Present (winLines : list WinLine) (totalWin : Z) (bet : number)
| ScheduleRequestSpin.

Definition transitions (s : SlotState) : option (list SlotState) :=
  match s with
  | IDLE => Some [SPINNING]
  | SPINNING => Some [RESULT]
  | RESULT => Some [BONUS; WIN_PRESENTATION; IDLE]
  | BONUS => Some [WIN_PRESENTATION]
  | WIN_PRESENTATION => Some [IDLE; SPINNING]
  end.

Definition sceneHooks : StateMachine.StateMachineHooks SlotState Effect :=
  {| StateMachine.onEnter := fun _ => Some SyncUi;
     StateMachine.onExit := fun _ => None |}.

(** The scene's machine: its transition map and hooks are fixed when the
    scene is built; only the current state varies. *)
Definition machineAt (st : SlotState) : StateMachine.t SlotState Effect :=
  {| StateMachine.allowed := transitions;
     StateMachine.hooks := sceneHooks;
     StateMachine._state := st |}.

Record t := {
  model : SlotModel;
  prevGrid : option GridRef;
  heldReels : option (list bool);
  balance : number;
  bet : number;
  lastWin : number;
  freeSpins : number;
  totalSpins : Z;
  state : SlotState; (* the current state of the scene's machine *)
  world : World;
}.

Definition math (s : t) : EnvMathSpec := model_math (model s).

Definition machine (s : t) : StateMachine.t SlotState Effect :=
  machineAt (state s).

Definition with_prevGrid v (s : t) : t :=
  {| model := model s; prevGrid := v; heldReels := heldReels s;
     balance := balance s; bet := bet s; lastWin := lastWin s;
     freeSpins := freeSpins s; totalSpins := totalSpins s;
     state := state s; world := world s |}.
Definition with_heldReels v (s : t) : t :=
  {| model := model s; prevGrid := prevGrid s; heldReels := v;
     balance := balance s; bet := bet s; lastWin := lastWin s;
     freeSpins := freeSpins s; totalSpins := totalSpins s;
     state := state s; world := world s |}.
Definition with_balance v (s : t) : t :=
  {| model := model s; prevGrid := prevGrid s; heldReels := heldReels s;
     balance := v; bet := bet s; lastWin := lastWin s;
     freeSpins := freeSpins s; totalSpins := totalSpins s;
     state := state s; world := world s |}.
Definition with_lastWin v (s : t) : t :=
  {| model := model s; prevGrid := prevGrid s; heldReels := heldReels s;
     balance := balance s; bet := bet s; lastWin := v;
     freeSpins := freeSpins s; totalSpins := totalSpins s;
     state := state s; world := world s |}.
Definition with_freeSpins v (s : t) : t :=
  {| model := model s; prevGrid := prevGrid s; heldReels := heldReels s;
     balance := balance s; bet := bet s; lastWin := lastWin s;
     freeSpins := v; totalSpins := totalSpins s;
     state := state s; world := world s |}.
Definition with_totalSpins v (s : t) : t :=
  {| model := model s; prevGrid := prevGrid s; heldReels := heldReels s;
     balance := balance s; bet := bet s; lastWin := lastWin s;
     freeSpins := freeSpins s; totalSpins := v;
     state := state s; world := world s |}.
Definition with_state v (s : t) : t :=
  {| model := model s; prevGrid := prevGrid s; heldReels := heldReels s;
     balance := balance s; bet := bet s; lastWin := lastWin s;
     freeSpins := freeSpins s; totalSpins := totalSpins s;
     state := v; world := world s |}.
Definition with_world v (s : t) : t :=
  {| model := model s; prevGrid := prevGrid s; heldReels := heldReels s;
     balance := balance s; bet := bet s; lastWin := lastWin s;
     freeSpins := freeSpins s; totalSpins := totalSpins s;
     state := state s; world := v |}.

(** [this.state.set(next)] *)
Definition setState (next : SlotState) (s : t) : t * list Effect :=
  let '(m, fired) := StateMachine.set (machine s) next in
  (with_state (StateMachine.state m) s, fired).

(** What the callback given to [machine.spinTo] has captured. *)
Record Pending := {
  p_grid : GridRef;
  p_freezeReels : option (list bool);
}.

(** The part of [startSpinFlow] that runs before the reels turn. *)
Definition startSpinFlow (s : t)
    : option (t * list Effect * Pending) :=
  let '(s1, e1) := setState SPINNING s in
  let freezeReels := heldReels s1 in
  '(grid, w') ← spinGrid (model s1) (prevGrid s1) (heldReels s1) None
                  (world s1);
  Some (with_world w' s1,
        e1 ++ [ChainSetHeld freezeReels; SpinTo grid freezeReels],
        {| p_grid := grid; p_freezeReels := freezeReels |}).

(** [requestSpin(forceFree)]: the scene after the call, the calls made to
    the collaborators, and the spin that was started, if one was. *)
Definition requestSpin (forceFree : bool) (s : t)
    : option (t * list Effect * option Pending) :=
  if negb (StateMachine.can (machine s) SPINNING) then Some (s, [], None)
  else if negb (bool_decide (StateMachine.state (machine s) = IDLE))
  then Some (s, [], None)
  else
    let isFreeSpin := Qlt_bool 0 (freeSpins s) in
    let isRespin := forceFree && Qle_bool (freeSpins s) 0 in
    let isAnyFree := isFreeSpin || isRespin in
    if negb isAnyFree && Qlt_bool (balance s) (bet s)
    then Some (s, [ShakeLose], None)
    else
      let '(s1, e1) :=
        if isFreeSpin then
          let s' := with_freeSpins (freeSpins s - 1)%Q s in
          (s', [HudSetFreeSpins (freeSpins s')])
        else if negb isRespin then
          let s' := with_balance (balance s - bet s)%Q s in
          (s', [HudSetBalance (balance s')])
        else (s, []) in
      let s2 := with_totalSpins (totalSpins s1 + 1) s1 in
      let s3 := with_lastWin 0%Q s2 in
      let e2 := [HudSetSpins (totalSpins s2); HudSetWin (lastWin s3)] in
      '(s4, e3, p) ← startSpinFlow s3;
      Some (s4, e1 ++ e2 ++ e3, Some p).

(** [for (i < nextHeld.length) if (freezeReels[i]) nextHeld[i] = false] *)
Definition clearFrozen (freezeReels : list bool) (nextHeld : list bool)
    : list bool :=
  imap (fun i v => if default false (freezeReels !! i) then false else v)
       nextHeld.

(** The hold mask stored when the reels have stopped. *)
Definition nextHeldReels (inFreeSpins : bool) (grid : GridRef)
    (evaluated : EvaluatedSpin) (freezeReels : option (list bool))
    : list bool :=
  if inFreeSpins then replicate (length grid) false
  else
    let nextHeld := heldReelsNext evaluated in
    match freezeReels with
    | Some fr => clearFrozen fr nextHeld
    | None => nextHeld
    end.

(** The callback run when the reels have stopped.  Its waits on the
    presentation (popup, presenter, settle delay) are points where no
    round computation can run, since the machine is not in [IDLE]; the
    callback is one step here. *)
Definition onStopped (p : Pending) (s : t) : option (t * list Effect) :=
  let grid := p_grid p in
  let freezeReels := p_freezeReels p in
  let '(s1, e1) := setState RESULT s in
  let inFreeSpins := Qlt_bool 0 (freeSpins s1) in
  cells ← readGrid (heap (world s1)) grid;
  let evaluated := Evaluator.evaluateGrid cells (bet s1) (math s1) inFreeSpins in
  let bonusAward := getBonusFreeSpinsAward (scatterCount evaluated) (math s1) in
  let retriggerAward :=
    if inFreeSpins
    then getRetriggerFreeSpinsAward (scatterCount evaluated) (math s1)
    else 0%Q in
  let award := (bonusAward + retriggerAward)%Q in
  let s2 :=
    with_heldReels
      (Some (nextHeldReels inFreeSpins grid evaluated freezeReels)) s1 in
  let e2 := [HoldOverlaySetHeld (heldReels s2); ChainSetHeld (heldReels s2)] in
  let '(s3, e3) :=
    if Qlt_bool 0 award then
      let '(s', e') := setState BONUS s2 in
      let popup :=
        if shouldTriggerBonus (scatterCount evaluated) (math s')
           || Qlt_bool 0 retriggerAward
        then [ShowBonusPopup award] else [] in
      let s'' := with_freeSpins (freeSpins s' + award)%Q s' in
      (s'', e' ++ popup ++ [HudSetFreeSpins (freeSpins s'')])
    else (s2, []) in
  let e4 :=
    if (0 <? winAmount evaluated) then [FlashWin]
    else if Qle_bool award 0 then [ShakeLose] else [] in
  let '(s5, e5) := setState WIN_PRESENTATION s3 in
  let e5' := [Present (winLines evaluated) (winAmount evaluated) (bet s5)] in
  let '(s6, e6) :=
    if (0 <? winAmount evaluated) then
      let s' :=
        with_balance (balance s5 + inject_Z (winAmount evaluated))%Q s5 in
      (with_lastWin (inject_Z (winAmount evaluated)) s',
       [HudSetBalance (balance s')])
    else (s5, []) in
  let '(s7, e7) := setState IDLE s6 in
  let e7' :=
    [SyncUi; HudSetBalance (balance s7); HudSetBet (bet s7);
     HudSetWin (lastWin s7); HudSetFreeSpins (freeSpins s7);
     HudSetSpins (totalSpins s7)] in
  let s8 := with_prevGrid (Some grid) s7 in
  let e8 := if Qlt_bool 0 (freeSpins s8) then [ScheduleRequestSpin] else [] in
  Some (s8, e1 ++ e2 ++ e3 ++ e4 ++ e5 ++ e5' ++ e6 ++ e7 ++ e7' ++ e8).

(** One whole round: the request and, if a spin started, its end. *)
Definition playRound (forceFree : bool) (s : t)
    : option (t * list Effect) :=
  '(s1, e1, started) ← requestSpin forceFree s;
  match started with
  | Some p => '(s2, e2) ← onStopped p s1; Some (s2, e1 ++ e2)
  | None => Some (s1, e1)
  end.

Definition clampToStep (v min max step : number) : number :=
  let clamped := Qmax min (Qmin max v) in
  let s := Qmax 1 step in
  (inject_Z (Math_round (clamped / s)) * s)%Q.

(** The scene's fields when [enter] has built the model: the field
    initialisers, and the bet clamped to the spec's bounds. *)
Definition enter (model : SlotModel) (w : World) : t :=
  {| model := model; prevGrid := None; heldReels := None;
     balance := 1000%Q;
     bet := clampToStep 10%Q (betMin (model_math model))
              (betMax (model_math model)) (betStep (model_math model));
     lastWin := 0%Q; freeSpins := 0%Q; totalSpins := 0;
     state := IDLE; world := w |}.

Definition with_bet v (s : t) : t :=
  {| model := model s; prevGrid := prevGrid s; heldReels := heldReels s;
     balance := balance s; bet := v; lastWin := lastWin s;
     freeSpins := freeSpins s; totalSpins := totalSpins s;
     state := state s; world := world s |}.

(** [addCredits(amount)] *)
Definition addCredits (amount : number) (s : t) : t * list Effect :=
  let s' := with_balance (balance s + amount)%Q s in
  (s', [HudSetBalance (balance s')]).

(** [changeBet(delta)] *)
Definition changeBet (delta : number) (s : t) : t * list Effect :=
  if negb (bool_decide (StateMachine.state (machine s) = IDLE)) then (s, [])
  else if Qlt_bool 0 (freeSpins s) then (s, [])
  else
    let next :=
      clampToStep (bet s + delta)%Q (betMin (math s)) (betMax (math s))
                  (betStep (math s)) in
    if Qeq_bool next (bet s) then (s, [])
    else
      let s' := with_bet next s in
      (s', [HudSetBet (bet s')]).

(** What [syncUi] passes to the HUD: whether the controls are shown and
    enabled, and the label of the spin button. *)
Inductive SpinLabel := LabelFreeSpins | LabelSpin | LabelSpinning.

Definition syncUi (s : t) : bool * SpinLabel :=
  let idle := bool_decide (StateMachine.state (machine s) = IDLE) in
  let canManualSpin := idle && Qle_bool (freeSpins s) 0 in
  (canManualSpin,
   if Qlt_bool 0 (freeSpins s) then LabelFreeSpins
   else if idle then LabelSpin else LabelSpinning).
End SlotScene.

(** ** The math-spec loader ([game/math/EnvMathSpec.ts])

    Strings are sequences of ASCII characters; case mapping and trimming
    are those of ASCII.  [Number(text)] of a matched decimal numeral is its
    exact value. *)

Module EnvLoader.
Local Open Scope string_scope.

(** What a key of [import.meta.env as any] can hold. *)
Inductive EnvValue :=
| VUndefined
| VNull
| VNumber (n : option number) (* [None]: NaN or an infinity *)
| VBoolean (b : bool)
| VString (s : string).

#[global] Instance EnvValue_inhabited : Inhabited EnvValue :=
  populate VUndefined.

Abbreviation Env := (gmap string EnvValue).

(** [e.KEY] *)
Definition env_get (e : gmap string EnvValue) (k : string) : EnvValue :=
  default VUndefined (e !! k).

(** [a ?? b] *)
Definition coalesce (a b : EnvValue) : EnvValue :=
  match a with VUndefined | VNull => b | _ => a end.

Definition isDigit (c : ascii) : bool :=
  (48 <=? nat_of_ascii c)%nat && (nat_of_ascii c <=? 57)%nat.

Definition isSpace (c : ascii) : bool :=
  let n := nat_of_ascii c in
  ((9 <=? n)%nat && (n <=? 13)%nat) || (n =? 32)%nat.

Definition toUpper (c : ascii) : ascii :=
  let n := nat_of_ascii c in
  if (97 <=? n)%nat && (n <=? 122)%nat then ascii_of_nat (n - 32) else c.

Definition toLower (c : ascii) : ascii :=
  let n := nat_of_ascii c in
  if (65 <=? n)%nat && (n <=? 90)%nat then ascii_of_nat (n + 32) else c.

Definition chars (s : string) : list ascii := list_ascii_of_string s.
Definition text (cs : list ascii) : string := string_of_list_ascii cs.

Definition toUpperCase (s : string) : string := text (map toUpper (chars s)).
Definition toLowerCase (s : string) : string := text (map toLower (chars s)).

Fixpoint dropSpaces (cs : list ascii) : list ascii :=
  match cs with
  | c :: rest => if isSpace c then dropSpaces rest else cs
  | [] => []
  end.

Definition trim (s : string) : string :=
  text (rev (dropSpaces (rev (dropSpaces (chars s))))).

(** The longest run of digits at the head, and what follows it. *)
Fixpoint takeDigits (cs : list ascii) : list ascii * list ascii :=
  match cs with
  | c :: rest =>
      if isDigit c then
        let '(ds, tl) := takeDigits rest in (c :: ds, tl)
      else ([], cs)
  | [] => ([], [])
  end.

(** A match of [-?\d+(\.\d+)?] that starts at the head of [cs]: the sign,
    the integer digits and the fraction digits. *)
Definition matchNumberAt (cs : list ascii)
    : option (bool * list ascii * list ascii) :=
  let '(neg, body) :=
    match cs with
    | "-"%char :: rest => (true, rest)
    | _ => (false, cs)
    end in
  match takeDigits body with
  | ([], _) => None
  | (ds, "."%char :: rest) =>
      match takeDigits rest with
      | ([], _) => Some (neg, ds, [])
      | (fs, _) => Some (neg, ds, fs)
      end
  | (ds, _) => Some (neg, ds, [])
  end.

(** [s.match(/-?\d+(\.\d+)?/)]: the leftmost match. *)
Fixpoint matchNumber (cs : list ascii)
    : option (bool * list ascii * list ascii) :=
  match matchNumberAt cs with
  | Some m => Some m
  | None =>
      match cs with
      | _ :: rest => matchNumber rest
      | [] => None
      end
  end.

Definition digitsValue (ds : list ascii) : Z :=
  fold_left (fun acc c => 10 * acc + (Z.of_nat (nat_of_ascii c) - 48))%Z
            ds 0%Z.

(** [Number(m[0])] *)
Definition numeralValue (m : bool * list ascii * list ascii) : number :=
  let '(neg, ds, fs) := m in
  let v := (inject_Z (digitsValue ds)
            + inject_Z (digitsValue fs) / inject_Z (10 ^ Z.of_nat (length fs)))%Q in
  if neg then (- v)%Q else v.

(** [String(v)] for a boolean or a string. *)
Definition stringOf (v : EnvValue) : string :=
  match v with
  | VBoolean true => "true"
  | VBoolean false => "false"
  | VString s => s
  | VUndefined => "undefined"
  | VNull => "null"
  | VNumber _ => "" (* not used: numbers are handled before *)
  end.

Definition num (v : EnvValue) (def : number) : number :=
  match v with
  | VUndefined | VNull => def
  | VNumber (Some n) => n
  | VNumber None => def
  | _ =>
      let s := trim (stringOf v) in
      if bool_decide (s = "") then def
      else match matchNumber (chars s) with
           | None => def
           | Some m => numeralValue m
           end
  end.

Definition bool (v : EnvValue) (def : Datatypes.bool) : Datatypes.bool :=
  match v with
  | VUndefined | VNull | VString "" => def
  | VBoolean b => b
  | VNumber n =>
      (* the decimal text of a number is "1" exactly for the number 1 *)
      match n with Some q => Qeq_bool q 1 | None => false end
  | VString s =>
      let s := toLowerCase (trim s) in
      bool_decide (s = "1") || bool_decide (s = "true")
      || bool_decide (s = "yes") || bool_decide (s = "on")
  end.

Definition mapEnvSymbol (id : string) : option SymbolId :=
  let u := toUpperCase id in
  if bool_decide (u = "T") then Some Sym.T
  else if bool_decide (u = "A") then Some Sym.A
  else if bool_decide (u = "K") then Some Sym.K
  else if bool_decide (u = "Q") then Some Sym.Q
  else if bool_decide (u = "J") then Some Sym.J
  else if bool_decide (u = "STAR") then Some Sym.SCATTER
  else if bool_decide (u = "SCATTER") then Some Sym.SCATTER
  else if bool_decide (u = "WILD") then Some Sym.WILD
  else if bool_decide (u = "10") then Some Sym.T
  else if bool_decide (u = "CROWN") then Some Sym.CROWN
  else if bool_decide (u = "SKULL") then Some Sym.SKULL
  else if bool_decide (u = "PARROT") then Some Sym.PARROT
  else if bool_decide (u = "CANNON") then Some Sym.CANNON
  else if bool_decide (u = "CHEST_GOLD") then Some Sym.CHEST_GOLD
  else if bool_decide (u = "COMPASS") then Some Sym.COMPASS
  else None.

(** [mapEnvSymbol(v ?? fallback)] on a value of any type: [id.toUpperCase]
    is a [TypeError] ([None]) unless the value is a string. *)
Definition mapEnvSymbolOf (v : EnvValue) (fallback : string)
    : option (option SymbolId) :=
  match v with
  | VUndefined | VNull => Some (mapEnvSymbol fallback)
  | VString s => Some (mapEnvSymbol s)
  | VNumber _ | VBoolean _ => None
  end.

(** [s.split(',')] *)
Fixpoint splitComma (cs : list ascii) (cur : list ascii) : list string :=
  match cs with
  | [] => [text (rev cur)]
  | c :: rest =>
      if bool_decide (c = ","%char) then text (rev cur) :: splitComma rest []
      else splitComma rest (c :: cur)
  end.

Definition symList (v : EnvValue) (fallback : list SymbolId)
    : list SymbolId :=
  let s := match v with VString s => s | _ => "" end in
  if bool_decide (s = "") then fallback
  else
    omap mapEnvSymbol
      (filter (fun x => x <> "") (map trim (splitComma (chars s) []))).

Definition symName (s : SymbolId) : string :=
  match s with
  | Sym.A => "A" | Sym.K => "K" | Sym.Q => "Q" | Sym.J => "J"
  | Sym.T => "T" | Sym.CROWN => "CROWN" | Sym.SKULL => "SKULL"
  | Sym.PARROT => "PARROT" | Sym.CANNON => "CANNON"
  | Sym.CHEST_GOLD => "CHEST_GOLD" | Sym.COMPASS => "COMPASS"
  | Sym.WILD => "WILD" | Sym.SCATTER => "SCATTER"
  end.

Definition payCounts : list PayCount := [3; 4; 5]%nat.

Definition countName (c : PayCount) : string :=
  match c with 3%nat => "3" | 4%nat => "4" | 5%nat => "5" | _ => "" end.

Definition baseSyms : list SymbolId :=
  [Sym.A; Sym.K; Sym.Q; Sym.J; Sym.T; Sym.CROWN; Sym.SKULL; Sym.PARROT;
   Sym.CANNON; Sym.CHEST_GOLD; Sym.COMPASS; Sym.WILD].

(** The table [defaults]; rows are [3, 4, 5]. *)
Definition defaults (s : SymbolId) (c : PayCount) : number :=
  let row (a b d : Q) :=
    match c with 3%nat => a | 4%nat => b | _ => d end in
  match s with
  | Sym.A | Sym.K => row 1 3 8
  | Sym.Q | Sym.J => row 1 4 10
  | Sym.T => row 2 6 15
  | Sym.CROWN => row 2 6 16
  | Sym.SKULL | Sym.PARROT => row 3 10 25
  | Sym.CANNON | Sym.COMPASS => row 4 12 30
  | Sym.CHEST_GOLD => row 5 15 40
  | Sym.WILD => row 5 20 100
  | Sym.SCATTER => 0
  end%Q.

(** A pay cell after both loops: the configured value where the key is
    present and not the empty string, the default otherwise. *)
Definition payCell (v : EnvValue) (def : number) : number :=
  match v with
  | VUndefined | VString "" => def
  | _ => num v 0%Q
  end.

Definition paytableOf (e : gmap string EnvValue) (s : SymbolId)
    : option (PayCount -> option number) :=
  if bool_decide (s ∈ baseSyms) then
    Some (fun c =>
      if bool_decide (c ∈ payCounts) then
        Some (payCell (env_get e ("PAY_" ++ symName s ++ "_" ++ countName c))
                      (defaults s c))
      else None)
  else None.

Definition scatterPayOf (e : gmap string EnvValue) (c : PayCount)
    : option number :=
  if bool_decide (c ∈ payCounts) then
    let v := coalesce (env_get e ("PAY_SCATTER_" ++ countName c))
                      (env_get e ("PAY_STAR_" ++ countName c)) in
    Some (payCell v (match c with 3%nat => 2 | 4%nat => 10 | _ => 50 end)%Q)
  else None.

Definition weightsOf (e : gmap string EnvValue) (s : SymbolId) : number :=
  match s with
  | Sym.A => num (env_get e "W_A") 18
  | Sym.K => num (env_get e "W_K") 18
  | Sym.Q => num (env_get e "W_Q") 16
  | Sym.J => num (env_get e "W_J") 16
  | Sym.T => num (env_get e "W_T") 16
  | Sym.CROWN => num (env_get e "W_CROWN") 8
  | Sym.SKULL => num (env_get e "W_SKULL") 6
  | Sym.PARROT => num (env_get e "W_PARROT") 6
  | Sym.CANNON => num (env_get e "W_CANNON") 5
  | Sym.CHEST_GOLD => num (env_get e "W_CHEST_GOLD") 4
  | Sym.COMPASS => num (env_get e "W_COMPASS") 5
  | Sym.SCATTER =>
      num (coalesce (env_get e "W_SCATTER") (env_get e "W_STAR")) 3
  | Sym.WILD => num (env_get e "W_WILD") 2
  end%Q.

(** The object literal returned by [loadEnvMathSpec], given the results of
    the two [mapEnvSymbol] calls. *)
Definition buildSpec (e : gmap string EnvValue)
    (scatter force : option SymbolId) : EnvMathSpec :=
  let symbols :=
    symList (env_get e "SYMBOLS")
      [Sym.A; Sym.K; Sym.Q; Sym.J; Sym.T; Sym.CROWN; Sym.SKULL; Sym.PARROT;
       Sym.CANNON; Sym.CHEST_GOLD; Sym.COMPASS; Sym.WILD; Sym.SCATTER] in
  {| reels := num (env_get e "REELS") 5;
     rows := num (env_get e "ROWS") 3;
     betMin := num (env_get e "BET_MIN") 10;
     betMax := num (env_get e "BET_MAX") 1000;
     betStep := num (env_get e "BET_STEP") 10;
     hitRate := num (env_get e "MATH_TARGET_HIT_RATE") (32 # 100);
     bonusTargetFrequency :=
       num (env_get e "BONUS_TARGET_FREQUENCY") (2 # 100);
     symbols := symbols;
     weights := weightsOf e;
     wildSubstitutes := bool (env_get e "WILD_SUBSTITUTES") true;
     wildPaysItself := bool (env_get e "WILD_PAYS_ITSELF") false;
     scatterSymbol := default Sym.SCATTER scatter;
     bonusEnabled := bool (env_get e "BONUS_ENABLED") true;
     bonusTriggerCount := num (env_get e "BONUS_TRIGGER_COUNT") 3;
     scatterPays := bool (env_get e "SCATTER_PAYS") false;
     scatterPay := scatterPayOf e;
     paytable := paytableOf e;
     freeSpinsAward := num (env_get e "FREESPINS_AWARD") 5;
     freeSpinsWinMult := num (env_get e "FREESPINS_WIN_MULT") 1;
     freeSpinsRetriggerEnabled :=
       bool (env_get e "FREESPINS_RETRIGGER_ENABLED") true;
     freeSpinsRetriggerCount := num (env_get e "FREESPINS_RETRIGGER_COUNT") 3;
     freeSpinsRetriggerAward := num (env_get e "FREESPINS_RETRIGGER_AWARD") 3;
     bigWinThresholdXBet := num (env_get e "BIG_WIN_THRESHOLD_XBET") 10;
     rngSeed := num (env_get e "RNG_SEED") 0;
     qaForceBonus := bool (env_get e "QA_FORCE_BONUS") false;
     qaForceWin := bool (env_get e "QA_FORCE_WIN") false;
     qaForceSymbol := force;
     qaLog := bool (env_get e "QA_LOG") false |}%Q.

(** [None]: a [TypeError] from [toUpperCase] on a symbol key that holds
    a number or a boolean. *)
Definition loadEnvMathSpec (e : gmap string EnvValue) : option EnvMathSpec :=
  scatter ← mapEnvSymbolOf (env_get e "BONUS_SCATTER_SYMBOL") "SCATTER";
  force ← mapEnvSymbolOf (env_get e "QA_FORCE_SYMBOL") "";
  Some (buildSpec e scatter force).
End EnvLoader.

(** ** Random symbols ([game/slot/SymbolIds.ts]) *)

(** [DefaultSymbolIds[(rng() * DefaultSymbolIds.length) | 0]]: a cell read,
    [undefined] when the index leaves the list. *)
Definition randomSymbol (g : Rng) : Cell * Rng :=
  let '(u, g') := rng_next g in
  (arr_get Sym.DefaultSymbolIds
     (toInt32 (u * ofNat (length Sym.DefaultSymbolIds))%Q),
   g').

(** ** Easing functions ([core/tween/Easings.ts]) *)

Module Easings.
Local Open Scope Q_scope.

Definition linear (t : number) : number := t.

Definition outCubic (t : number) : number := 1 - (1 - t) ^ 3.

Definition inCubic (t : number) : number := t * t * t.

Definition inOutCubic (t : number) : number :=
  if Qlt_bool t (1 # 2) then 4 * t * t * t
  else 1 - (-2 * t + 2) ^ 3 / 2.

Definition outQuint (t : number) : number := 1 - (1 - t) ^ 5.

Definition outBack (t : number) : number :=
  let c1 := 17 # 10 in
  let c3 := c1 + 1 in
  1 + c3 * (t - 1) ^ 3 + c1 * (t - 1) ^ 2.

(** In [n1 * (t -= c) * t + b] the second [t] is read after the
    assignment. *)
Definition outBounce (t : number) : number :=
  let n1 := 756 # 100 in
  let d1 := 27 # 10 in
  if Qlt_bool t (1 / d1) then n1 * t * t
  else if Qlt_bool t (2 / d1) then
    let t := t - (15 # 10) / d1 in n1 * t * t + (75 # 100)
  else if Qlt_bool t ((25 # 10) / d1) then
    let t := t - (225 # 100) / d1 in n1 * t * t + (93 # 100)
  else
    let t := t - (2625 # 1000) / d1 in n1 * t * t + (984375 # 1000000).
End Easings.

(** ** The tween runner ([core/tween/TweenManager.ts])

    The targets of the tweens are objects, compared by identity; they live,
    with everything else the callbacks can reach, in a heap of type [H]
    read and written through [getProp] and [setProp].  A property that is
    [undefined] or not a number is [None], and so is the result of
    arithmetic on it (NaN).  [setProp] gives [None] for a write that the
    heap at hand does not model.  A callback is a value of type [C] that
    [run] executes on the whole state, the manager included: a callback may
    call [to] and [killTweensOf].  [None] as a result of [run] is an
    exception thrown by the callback. *)

Module TweenManager.
Section Manager.
Context {Obj : Type} `{EqDecision Obj}.
Context {C : Type}.
Context {H : Type}.
Variable getProp : H -> Obj -> string -> option number.
Variable setProp : H -> Obj -> string -> option number -> option H.

(** [TweenProps]: the keys in the order of [for (const k in to)]. *)
Record TweenOptions := {
  o_ease : option (number -> number);
  o_delay : option number;
  o_onUpdate : option C;
  o_onComplete : option C;
}.

Record TweenItem := {
  t_target : Obj;
  t_from : list (string * option number);
  t_to : list (string * number);
  t_duration : number;
  t_elapsed : number;
  t_delay : number;
  t_ease : number -> number;
  t_onUpdate : option C;
  t_onComplete : option C;
  t_active : bool;
}.

Record State := { objects : H; tweens : list TweenItem }.

Variable run : C -> State -> option State.

Definition with_objects (h : H) (st : State) : State :=
  {| objects := h; tweens := tweens st |}.

Definition with_tweens (l : list TweenItem) (st : State) : State :=
  {| objects := objects st; tweens := l |}.

Definition with_delay (v : number) (t : TweenItem) : TweenItem :=
  {| t_target := t_target t; t_from := t_from t; t_to := t_to t;
     t_duration := t_duration t; t_elapsed := t_elapsed t; t_delay := v;
     t_ease := t_ease t; t_onUpdate := t_onUpdate t;
     t_onComplete := t_onComplete t; t_active := t_active t |}.

Definition with_elapsed (v : number) (t : TweenItem) : TweenItem :=
  {| t_target := t_target t; t_from := t_from t; t_to := t_to t;
     t_duration := t_duration t; t_elapsed := v; t_delay := t_delay t;
     t_ease := t_ease t; t_onUpdate := t_onUpdate t;
     t_onComplete := t_onComplete t; t_active := t_active t |}.

Definition with_active (v : bool) (t : TweenItem) : TweenItem :=
  {| t_target := t_target t; t_from := t_from t; t_to := t_to t;
     t_duration := t_duration t; t_elapsed := t_elapsed t;
     t_delay := t_delay t; t_ease := t_ease t; t_onUpdate := t_onUpdate t;
     t_onComplete := t_onComplete t; t_active := v |}.

(** [obj[k]] on a record of properties. *)
Fixpoint prop {X} (k : string) (l : list (string * X)) : option X :=
  match l with
  | [] => None
  | (k', v) :: rest => if decide (k' = k) then Some v else prop k rest
  end.

(** [to(target, to, duration, options)] *)
Definition to (target : Obj) (props : list (string * number))
    (duration : number) (options : TweenOptions) (st : State) : State :=
  let from :=
    map (fun kv => (fst kv, getProp (objects st) target (fst kv))) props in
  let item :=
    {| t_target := target; t_from := from; t_to := props;
       t_duration := Qmax (1 # 10000) duration;
       t_elapsed := 0;
       t_delay := Qmax 0 (default 0%Q (o_delay options));
       t_ease := default Easings.outCubic (o_ease options);
       t_onUpdate := o_onUpdate options;
       t_onComplete := o_onComplete options;
       t_active := true |} in
  with_tweens (tweens st ++ [item]) st.

(** [killTweensOf(target)] *)
Definition killTweensOf (target : Obj) (st : State) : State :=
  with_tweens
    (map (fun t => if t_active t && bool_decide (t_target t = target)
                   then with_active false t else t)
         (tweens st))
    st.

(** [for (const k in to) target[k] = ...] *)
Fixpoint writeProps (target : Obj) (vals : list (string * option number))
    (h : H) : option H :=
  match vals with
  | [] => Some h
  | (k, v) :: rest => h' ← setProp h target k v; writeProps target rest h'
  end.

(** [from[k] + (to[k] - from[k]) * e] for every key of [to]. *)
Definition eased (t : TweenItem) (e : number)
    : list (string * option number) :=
  map (fun kv =>
         (fst kv,
          match prop (fst kv) (t_from t) with
          | Some (Some f) => Some (f + (snd kv - f) * e)%Q
          | _ => None
          end))
      (t_to t).

Definition final (t : TweenItem) : list (string * option number) :=
  map (fun kv => (fst kv, Some (snd kv))) (t_to t).

(** [hook?.()] *)
Definition runOpt (c : option C) (st : State) : option State :=
  match c with Some c => run c st | None => Some st end.

(** The body of the loop of [update] for [t = list[i]].  The item is an
    object that stays at index [i] while the loop runs: callbacks reach the
    list only through [to], which appends, and [killTweensOf], which
    changes a flag. *)
Definition stepItem (dt : number) (i : nat) (t : TweenItem) (st : State)
    : option State :=
  if negb (t_active t) then Some st
  else if Qlt_bool 0 (t_delay t) then
    Some (with_tweens
            (alter (fun t => with_delay (t_delay t - dt)%Q t) i (tweens st))
            st)
  else
    let st1 :=
      with_tweens
        (alter (fun t => with_elapsed (t_elapsed t + dt)%Q t) i (tweens st))
        st in
    let p := Qmin 1 ((t_elapsed t + dt) / t_duration t)%Q in
    let e := t_ease t p in
    h2 ← writeProps (t_target t) (eased t e) (objects st1);
    st3 ← runOpt (t_onUpdate t) (with_objects h2 st1);
    if Qle_bool 1 p then
      h4 ← writeProps (t_target t) (final t) (objects st3);
      let st4 := with_objects h4 st3 in
      let st5 := with_tweens (alter (with_active false) i (tweens st4)) st4 in
      runOpt (t_onComplete t) st5
    else Some st3.

(** [for (let i = 0; i < list.length; i++)], the length read again at
    every turn; [None] is an exception of a callback, a write outside the
    heap, or the end of the fuel. *)
Fixpoint updateLoop (fuel : nat) (dt : number) (i : nat) (st : State)
    : option State :=
  match tweens st !! i with
  | None => Some st
  | Some t =>
      match fuel with
      | O => None
      | S fuel' =>
          st' ← stepItem dt i t st; updateLoop fuel' dt (S i) st'
      end
  end.

(** The compaction at the end of [update]. *)
Definition compact (st : State) : State :=
  let list := tweens st in
  let dead := length (filter (fun t => t_active t = false) list) in
  if (0 <? dead)%nat
     && (Z.max 8 (toInt32 (ofNat (length list) * (35 # 100))%Q)
         <=? Z.of_nat dead)%Z
  then with_tweens (filter (fun t => t_active t = true) list) st
  else st.

Definition update (fuel : nat) (dt : number) (st : State) : option State :=
  st' ← updateLoop fuel dt 0 st; Some (compact st').
End Manager.
Arguments TweenItem : clear implicits.
Arguments TweenOptions : clear implicits.
Arguments State : clear implicits.
End TweenManager.

(** ** The reel strip ([game/slot/ReelView.ts])

    A reel is a fixed pool of symbol views used as a ring: [topIndex] is
    the cell drawn at the top, and a step forward takes the next symbol of
    the queue into the cell that becomes the bottom one. *)

Module ReelView.

(** The fields of a [SymbolView] that the reel reads and writes: the symbol
    shown ([_id], which the texture follows) and the vertical position. *)
Record SymbolView := { sv_id : Cell; sv_y : number }.

Definition setId (id : Cell) (s : SymbolView) : SymbolView :=
  {| sv_id := id; sv_y := sv_y s |}.

Definition setY (y : number) (s : SymbolView) : SymbolView :=
  {| sv_id := sv_id s; sv_y := y |}.

Record t := {
  index : nat;
  rows : nat;
  buffer : nat;
  stepHeight : number;
  symbols : list SymbolView;
  topIndex : nat;
  queue : list Cell;
  queueRead : nat;
  spinPos : number;
  prevSpinPos : number;
  kick : number;
  scale_x : number;
}.

Definition with_symbols v (r : t) : t :=
  {| index := index r; rows := rows r; buffer := buffer r;
     stepHeight := stepHeight r; symbols := v; topIndex := topIndex r;
     queue := queue r; queueRead := queueRead r; spinPos := spinPos r;
     prevSpinPos := prevSpinPos r; kick := kick r; scale_x := scale_x r |}.
Definition with_topIndex v (r : t) : t :=
  {| index := index r; rows := rows r; buffer := buffer r;
     stepHeight := stepHeight r; symbols := symbols r; topIndex := v;
     queue := queue r; queueRead := queueRead r; spinPos := spinPos r;
     prevSpinPos := prevSpinPos r; kick := kick r; scale_x := scale_x r |}.
Definition with_queue v (n : nat) (r : t) : t :=
  {| index := index r; rows := rows r; buffer := buffer r;
     stepHeight := stepHeight r; symbols := symbols r;
     topIndex := topIndex r; queue := v; queueRead := n;
     spinPos := spinPos r; prevSpinPos := prevSpinPos r; kick := kick r;
     scale_x := scale_x r |}.
Definition with_spinPos v (r : t) : t :=
  {| index := index r; rows := rows r; buffer := buffer r;
     stepHeight := stepHeight r; symbols := symbols r;
     topIndex := topIndex r; queue := queue r; queueRead := queueRead r;
     spinPos := v; prevSpinPos := prevSpinPos r; kick := kick r;
     scale_x := scale_x r |}.
Definition with_prevSpinPos v (r : t) : t :=
  {| index := index r; rows := rows r; buffer := buffer r;
     stepHeight := stepHeight r; symbols := symbols r;
     topIndex := topIndex r; queue := queue r; queueRead := queueRead r;
     spinPos := spinPos r; prevSpinPos := v; kick := kick r;
     scale_x := scale_x r |}.
Definition with_kick v (r : t) : t :=
  {| index := index r; rows := rows r; buffer := buffer r;
     stepHeight := stepHeight r; symbols := symbols r;
     topIndex := topIndex r; queue := queue r; queueRead := queueRead r;
     spinPos := spinPos r; prevSpinPos := prevSpinPos r; kick := v;
     scale_x := scale_x r |}.
Definition with_scale_x v (r : t) : t :=
  {| index := index r; rows := rows r; buffer := buffer r;
     stepHeight := stepHeight r; symbols := symbols r;
     topIndex := topIndex r; queue := queue r; queueRead := queueRead r;
     spinPos := spinPos r; prevSpinPos := prevSpinPos r; kick := kick r;
     scale_x := v |}.

(** The loop of the constructor: cell [i] is placed at
    [(i - buffer) * stepHeight] and shows a random symbol. *)
Fixpoint newSymbols (n i : nat) (buffer : nat) (stepHeight : number)
    (g : Rng) : list SymbolView * Rng :=
  match n with
  | O => ([], g)
  | S n' =>
      let '(id, g1) := randomSymbol g in
      let s :=
        {| sv_id := id;
           sv_y := (inject_Z (Z.of_nat i - Z.of_nat buffer) * stepHeight)%Q |} in
      let '(rest, g2) := newSymbols n' (S i) buffer stepHeight g1 in
      (s :: rest, g2)
  end.

(** [new ReelView(opts)] *)
Definition create (index rows buffer : nat) (symbolSize symbolGap : number)
    (g : Rng) : t * Rng :=
  let stepHeight := (symbolSize + symbolGap)%Q in
  let total := (rows + buffer * 2)%nat in
  let '(symbols, g') := newSymbols total 0 buffer stepHeight g in
  ({| index := index; rows := rows; buffer := buffer;
      stepHeight := stepHeight; symbols := symbols; topIndex := 0;
      queue := []; queueRead := 0; spinPos := 0; prevSpinPos := 0;
      kick := 0; scale_x := 1 |},
   g').

(** The place in the pool of the symbol view of a visible row:
    [(topIndex + buffer + row) % symbols.length]; with an empty pool the
    index is NaN and there is no such view. *)
Definition visibleIndex (r : t) (row : nat) : option nat :=
  let total := length (symbols r) in
  if (total =? 0)%nat then None
  else Some ((topIndex r + (buffer r + row)) mod total)%nat.

(** [getVisibleSymbol(row)] *)
Definition getVisibleSymbol (r : t) (row : nat) : option SymbolView :=
  i ← visibleIndex r row; symbols r !! i.

(** [getVisibleColumn()]; reading [.id] of a view that does not exist is a
    [TypeError]. *)
Definition getVisibleColumn (r : t) : option (list Cell) :=
  mapM (fun row => sv_id <$> getVisibleSymbol r row) (seq 0 (rows r)).

(** The loop of [applyFinalColumn] over the rows [rs]. *)
Fixpoint applyFinalLoop (finalColumn : list SymbolId) (rs : list nat)
    (r : t) : option t :=
  match rs with
  | [] => Some r
  | row :: rest =>
      i ← visibleIndex r row;
      _ ← symbols r !! i;
      applyFinalLoop finalColumn rest
        (with_symbols (alter (setId (finalColumn !! row)) i (symbols r)) r)
  end.

(** [applyFinalColumn(finalColumn)] *)
Definition applyFinalColumn (finalColumn : list SymbolId) (r : t)
    : option t :=
  applyFinalLoop finalColumn (seq 0 (rows r)) r.

(** [prepareSpin(finalColumn, randomSteps)] *)
Definition prepareSpin (finalColumn : list SymbolId) (randomSteps : nat)
    (r : t) (g : Rng) : t * Rng :=
  let '(pre, g1) := SpinGenerator.fillArray randomSteps randomSymbol g in
  let '(post, g2) := SpinGenerator.fillArray (buffer r) randomSymbol g1 in
  (with_queue (pre ++ map Some finalColumn ++ post) 0 r, g2).

(** [shiftOne()]; [None] with an empty pool, where the index arithmetic
    gives NaN. *)
Definition shiftOne (r : t) : option t :=
  let total := length (symbols r) in
  if (total =? 0)%nat then None
  else
    let top := ((topIndex r + 1) mod total)%nat in
    let bottom := ((top + total - 1) mod total)%nat in
    let nextId : Cell := mjoin (queue r !! queueRead r) in
    let syms :=
      match nextId with
      | Some id => alter (setId (Some id)) bottom (symbols r)
      | None => symbols r
      end in
    Some (with_symbols syms
            (with_queue (queue r) (S (queueRead r)) (with_topIndex top r))).

(** [for (n = 0; n < crossed; n++) this.shiftOne()] *)
Fixpoint shiftN (n : nat) (r : t) : option t :=
  match n with
  | O => Some r
  | S n' => r' ← shiftOne r; shiftN n' r'
  end.

(** The loop that places the cells: the cell [i] places below the top one
    gets [(i - buffer) * stepHeight + offsetY]. *)
Definition placeSymbols (offsetY : number) (r : t) : t :=
  let total := length (symbols r) in
  with_symbols
    (fold_left
       (fun syms i =>
          alter (setY (inject_Z (Z.of_nat i - Z.of_nat (buffer r))
                       * stepHeight r + offsetY)%Q)
                ((topIndex r + i) mod total)%nat syms)
       (seq 0 total) (symbols r))
    r.

(** [syncStrip()] *)
Definition syncStrip (r : t) : option t :=
  let curr := spinPos r in
  let prev := prevSpinPos r in
  let crossed := (toInt32 curr - toInt32 prev)%Z in
  r1 ← (if (0 <? crossed)%Z then shiftN (Z.to_nat crossed) r else Some r);
  let r2 := with_prevSpinPos curr r1 in
  let frac := (curr - inject_Z (toInt32 curr))%Q in
  let offsetY := (- frac * stepHeight r2)%Q in
  Some (placeSymbols offsetY r2).

(** [update(dt)]: the idle animation of the symbol views touches none of
    the fields kept here. *)
Definition update (dt : number) (r : t) : option t :=
  syncStrip (with_scale_x (1 + kick r * (3 # 100))%Q r).
End ReelView.

(** ** The machine view ([game/slot/SlotMachineView.ts], [SlotConfig.ts])
    and the frame ([app/GameApp.ts]) *)

Module SlotMachineView.
Import TweenManager.

(** [SlotConfig.reels] *)
Module Config.
Definition count : nat := 5.
Definition rows : nat := 3.
Definition symbolSize : number := 140.
Definition symbolGap : number := 18.
Definition buffer : nat := 2.
Definition baseSteps : number := 24.
Definition stepStagger : number := 6.
Definition baseDuration : number := 125 # 100.
Definition durationStagger : number := 18 # 100.
End Config.

(** The targets of the tweens of the scene: the reels of the machine, by
    their place in [this.reels], and the other objects. *)
Inductive Target := Reel (i : nat) | Other (o : nat).

#[global] Instance Target_eq_dec : EqDecision Target.
Proof. solve_decision. Defined.

(** The callbacks of the tweens of a spin: [() => this.syncStrip()] of the
    reel [i], and the closure [done] of [spinTo]. *)
Inductive Callback := SyncStrip (i : nat) | Done.

(** What the tweens and their callbacks reach.  Of a reel the tweens of
    this program read and write [kick] and [spinPos]; the other targets
    are tables of properties.  [remaining] is the counter of the closure
    [done].  [onAllComplete] is an argument of [spinTo]: the model records
    each call of it with the reels as they are at that moment. *)
Record View := {
  reels : list ReelView.t;
  others : nat -> string -> option number;
  remaining : Z;
  completions : list (list ReelView.t);
}.

Definition with_reels v (m : View) : View :=
  {| reels := v; others := others m; remaining := remaining m;
     completions := completions m |}.
Definition with_others v (m : View) : View :=
  {| reels := reels m; others := v; remaining := remaining m;
     completions := completions m |}.
Definition with_remaining v (m : View) : View :=
  {| reels := reels m; others := others m; remaining := v;
     completions := completions m |}.
Definition with_completions v (m : View) : View :=
  {| reels := reels m; others := others m; remaining := remaining m;
     completions := v |}.

Abbreviation St := (State Target Callback View).

(** [target[k]] *)
Definition getProp (m : View) (target : Target) (k : string)
    : option number :=
  match target with
  | Reel i =>
      r ← reels m !! i;
      if decide (k = "kick"%string) then Some (ReelView.kick r)
      else if decide (k = "spinPos"%string) then Some (ReelView.spinPos r)
      else None
  | Other o => others m o k
  end.

(** [target[k] = v] *)
Definition setProp (m : View) (target : Target) (k : string)
    (v : option number) : option View :=
  match target with
  | Reel i =>
      r ← reels m !! i;
      x ← v;
      if decide (k = "kick"%string)
      then Some (with_reels (<[i := ReelView.with_kick x r]> (reels m)) m)
      else if decide (k = "spinPos"%string)
      then Some (with_reels (<[i := ReelView.with_spinPos x r]> (reels m)) m)
      else None
  | Other o =>
      Some (with_others
              (fun o' k' =>
                 if decide (o' = o /\ k' = k) then v else others m o' k')
              m)
  end.

(** [done] of [spinTo]: [remaining--; if (remaining === 0) onAllComplete()] *)
Definition done (st : St) : St :=
  let m := with_remaining (remaining (objects st) - 1) (objects st) in
  with_objects
    (if (remaining m =? 0)%Z
     then with_completions (completions m ++ [reels m]) m
     else m)
    st.

Definition run (c : Callback) (st : St) : option St :=
  match c with
  | SyncStrip i =>
      r ← reels (objects st) !! i;
      r' ← ReelView.syncStrip r;
      Some (with_objects (with_reels (<[i := r']> (reels (objects st)))
                            (objects st)) st)
  | Done => Some (done st)
  end.

(** [ReelView.spin(duration, onComplete)] of the reel [i] *)
Definition spin (i : nat) (duration : number) (onComplete : Callback)
    (st : St) : option St :=
  r ← reels (objects st) !! i;
  let steps :=
    (Z.of_nat (length (ReelView.queue r)) - Z.of_nat (ReelView.queueRead r))%Z in
  if (steps <=? 0)%Z then run onComplete st
  else
    let st1 := killTweensOf (Reel i) st in
    let st2 :=
      with_objects
        (with_reels (<[i := ReelView.with_kick 0 r]> (reels (objects st1)))
                    (objects st1))
        st1 in
    let st3 :=
      to getProp (Reel i) [("kick"%string, 1%Q)] (12 # 100)
         {| o_ease := Some Easings.outBack; o_delay := None;
            o_onUpdate := None; o_onComplete := None |} st2 in
    let st4 :=
      to getProp (Reel i) [("kick"%string, 0%Q)] (18 # 100)
         {| o_ease := Some Easings.outCubic; o_delay := Some (12 # 100)%Q;
            o_onUpdate := None; o_onComplete := None |} st3 in
    let target := (ReelView.spinPos r + inject_Z steps)%Q in
    Some (to getProp (Reel i) [("spinPos"%string, target)] duration
             {| o_ease := Some Easings.outQuint; o_delay := None;
                o_onUpdate := Some (SyncStrip i);
                o_onComplete := Some onComplete |} st4).

(** [freeze?.[i]] *)
Definition frozen (freeze : option (list bool)) (i : nat) : bool :=
  default false (freeze ≫= (.!! i)).

(** The loop of [spinTo] over the reels from [i] on.  Reading the length of
    a column that [resultGrid] does not have is a [TypeError]. *)
Fixpoint spinToLoop (resultGrid : Grid) (freeze : option (list bool))
    (speedMul stepsMul : number) (n i : nat) (st : St) (g : Rng)
    : option (St * Rng) :=
  match n with
  | O => Some (st, g)
  | S n' =>
      r ← reels (objects st) !! i;
      if frozen freeze i
      then spinToLoop resultGrid freeze speedMul stepsMul n' (S i) (done st) g
      else
        finalCol ← resultGrid !! i;
        let randomSteps :=
          Z.to_nat
            (Z.max 0
               (Math_round
                  ((Config.baseSteps + ofNat i * Config.stepStagger)
                   * stepsMul)%Q)) in
        let '(r', g') := ReelView.prepareSpin finalCol randomSteps r g in
        let st1 :=
          with_objects (with_reels (<[i := r']> (reels (objects st)))
                          (objects st)) st in
        st2 ← spin i ((Config.baseDuration + ofNat i * Config.durationStagger)
                      * speedMul)%Q
                   Done st1;
        spinToLoop resultGrid freeze speedMul stepsMul n' (S i) st2 g'
  end.

(** [spinTo(resultGrid, onAllComplete, options)] *)
Definition spinTo (resultGrid : Grid) (freeze : option (list bool))
    (speedMul stepsMul : option number) (st : St) (g : Rng)
    : option (St * Rng) :=
  let n := length (reels (objects st)) in
  spinToLoop resultGrid freeze (default 1%Q speedMul) (default 1%Q stepsMul)
    n 0
    (with_objects (with_remaining (Z.of_nat n) (objects st)) st) g.

(** [update(dt)] *)
Definition update (dt : number) (m : View) : option View :=
  rs ← mapM (ReelView.update dt) (reels m); Some (with_reels rs m).

(** [getColumn(reelIndex)] *)
Definition getColumn (m : View) (reelIndex : nat) : option (list Cell) :=
  r ← reels m !! reelIndex; ReelView.getVisibleColumn r.

(** The loop of the constructor over the reels from [i] on. *)
Fixpoint newReels (n i : nat) (g : Rng) : list ReelView.t * Rng :=
  match n with
  | O => ([], g)
  | S n' =>
      let '(r, g1) :=
        ReelView.create i Config.rows Config.buffer Config.symbolSize
          Config.symbolGap g in
      let '(rest, g2) := newReels n' (S i) g1 in
      (r :: rest, g2)
  end.

(** One tick of [GameApp.update]: the tweens, then the scene, which ticks
    the machine.  The other views that the scene ticks are outside the
    state kept here. *)
Definition frame (fuel : nat) (dt : number) (st : St) : option St :=
  st1 ← TweenManager.update setProp run fuel dt st;
  m ← update dt (objects st1);
  Some (with_objects m st1).

Fixpoint frames (fuel : nat) (dts : list number) (st : St) : option St :=
  match dts with
  | [] => Some st
  | dt :: rest => st' ← frame fuel dt st; frames fuel rest st'
  end.
End SlotMachineView.

(** ** Fitting the design to the viewport ([core/layout/FitScaler.ts]) *)

Module FitScaler.
Inductive FitScaleMode := contain | cover.

Record t := {
  designWidth : number;
  designHeight : number;
  mode : FitScaleMode;
}.

(** The fields of the root container that [apply] writes: the two
    components of [scale], and the position. *)
Record Root := {
  scale_x : number;
  scale_y : number;
  x : number;
  y : number;
}.

(** [apply(root, viewportWidth, viewportHeight)] *)
Definition apply (s : t) (root : Root) (viewportWidth viewportHeight : number)
    : Root :=
  let dw := designWidth s in
  let dh := designHeight s in
  if Qle_bool dw 0 || Qle_bool dh 0 || Qle_bool viewportWidth 0
     || Qle_bool viewportHeight 0
  then root
  else
    let sx := (viewportWidth / dw)%Q in
    let sy := (viewportHeight / dh)%Q in
    let scale := match mode s with
                 | cover => Qmax sx sy
                 | contain => Qmin sx sy
                 end in
    {| scale_x := scale; scale_y := scale;
       x := ((viewportWidth - dw * scale) * (5 # 10))%Q;
       y := ((viewportHeight - dh * scale) * (5 # 10))%Q |}.
End FitScaler.

(** * Vocabulary of the statements *)

(** The cell of [grid] at a position. *)
Definition cellAt (grid : Grid) (p : Position) : Cell :=
  col ← grid !! reel p; y ← row p; col !! y.

(** The cell of [grid] on a payline path at reel [k]. *)
Definition lineCell (grid : Grid) (path : list nat) (k : nat) : Cell :=
  mjoin (Evaluator.lineSymbols grid path !! k).

(** Symbol [s] takes no part in the line wins of an evaluation: it is at
    none of the positions of a win line, a payline whose leftmost cell is
    [s] has no win line, and the reels counted by a win line end before
    any cell of its path that holds [s]. *)
Definition breaksLines (s : SymbolId) (grid : Grid) (bet : number)
    (math : EnvMathSpec) (inFreeSpins : bool) : Prop :=
  let r := Evaluator.evaluateGrid grid bet math inFreeSpins in
  (forall w p, w ∈ winLines r -> p ∈ positions w -> cellAt grid p <> Some s)
  /\ (forall line w, line ∈ PAYLINES_5X3 ->
        lineCell grid (line_rows line) 0 = Some s ->
        w ∈ winLines r -> lineId w <> id line)
  /\ (forall w k, w ∈ winLines r ->
        lineCell grid (pathRows w) k = Some s -> (toReel w < Z.of_nat k)%Z).

(** The sum of the recorded line amounts. *)
Definition sumAmounts (ws : list WinLine) : number :=
  foldr (fun w acc => (amount w + acc)%Q) 0%Q ws.

(** Every column has the height of the first one. *)
Definition rectangular (cells : Grid) : Prop :=
  Forall (fun col => length col = Evaluator.rowsOf cells) cells.

(** Reel [r] was frozen on the spin: the hold mask used for it marks [r]. *)
Definition frozenOn (freezeReels : option (list bool)) (r : nat) : bool :=
  match freezeReels with
  | Some fr => default false (fr !! r)
  | None => false
  end.

(** The rule for the hold mask stored after a round: one entry per reel;
    all false when [allFalse]; otherwise reel [r] is held exactly when its
    stopped column has a WILD and the reel was not frozen on this spin. *)
Definition holdMaskRule (allFalse : bool) (cells : Grid)
    (freezeReels : option (list bool)) (mask : list bool) : Prop :=
  length mask = length cells
  /\ forall r col, cells !! r = Some col ->
       mask !! r
       = Some (if allFalse then false
               else bool_decide (Sym.WILD ∈ col) && negb (frozenOn freezeReels r)).

(** The rule for the free-spin award of a round with [sc] scatters; the
    retrigger part counts only when [inSequence]. *)
Definition awardRule (inSequence : bool) (sc : nat) (math : EnvMathSpec)
    : number :=
  ((if bonusEnabled math && Qle_bool (bonusTriggerCount math) (ofNat sc)
    then freeSpinsAward math else 0)
   + (if inSequence
      then (if freeSpinsRetriggerEnabled math
               && Qle_bool (freeSpinsRetriggerCount math) (ofNat sc)
            then freeSpinsRetriggerAward math else 0)
      else 0))%Q.

(** The cell of [grid] at reel [r] and row [y]. *)
Definition cellRC (grid : Grid) (r y : nat) : Cell :=
  grid !! r ≫= fun col => col !! y.

(** Row [y] begins at reel 0 with three cells that hold [f]. *)
Definition tripleAt (grid : Grid) (y : nat) (f : SymbolId) : Prop :=
  cellRC grid 0 y = Some f /\ cellRC grid 1 y = Some f
  /\ cellRC grid 2 y = Some f.

(** The running remainders of the subtraction loop, one per symbol. *)
Fixpoint remainders (math : EnvMathSpec) (roll : number)
    (symbols : list SymbolId) : list number :=
  match symbols with
  | [] => []
  | id :: rest =>
      let roll' := (roll - weights math id)%Q in
      roll' :: remainders math roll' rest
  end.

(** The loop of [pickWeightedSymbol] on random stream [g] runs through all
    symbols: no running remainder reaches zero or less. *)
Definition exhausts (math : EnvMathSpec) (g : Rng) : Prop :=
  Forall (fun r => (0 < r)%Q)
    (remainders math (fst (rng_next g) * SpinGenerator.totalWeight math)%Q
                (symbols math)).

(** Column [l] of store [h'] is a copy of column [pl]: [l] is not a
    column of the store [h] from before the copy was made, so it is another
    object than [pl] and than every column that existed then, and it has
    the contents that [pl] has in [h]. *)
Definition isCopyOf (h h' : gmap nat (list SymbolId)) (l pl : nat) : Prop :=
  (l ∉ dom h) /\ l <> pl
  /\ exists c, h !! pl = Some c /\ h' !! l = Some c.




(** The heights of the columns of a grid. *)
Definition dims (grid : Grid) : list nat := map length grid.



(** The random source keeps its contract: every draw lies in [0, 1). *)
Definition rngValid (g : Rng) : Prop :=
  forall n, (0 <= draws g n < 1)%Q.

(** Configurations and grids used as concrete inputs. *)

(** The configuration with [BONUS_SCATTER_SYMBOL=A] and nothing else. *)
Definition envScatterA : gmap string EnvLoader.EnvValue :=
  {[ "BONUS_SCATTER_SYMBOL"%string := EnvLoader.VString "A" ]}.

(** A 5x3 grid with the same symbol in every cell. *)
Definition uniformGrid (s : SymbolId) : Grid := replicate 5 (replicate 3 s).

(** The specification resolved from an empty configuration. *)
Definition defaultMath : EnvMathSpec :=
  EnvLoader.buildSpec ∅ (Some Sym.SCATTER) None.

(** A random source whose every draw is one half. *)
Definition halves : Rng := {| draws := fun _ => (1 # 2)%Q; cursor := 0 |}.

Definition emptyWorld : World := {| heap := ∅; rng := halves |}.

Definition config5x3 : SlotConfig := {| reels_count := 5; reels_rows := 3 |}.

(** A scene that has just been entered, with the default specification. *)
Definition freshScene : SlotScene.t :=
  SlotScene.enter {| config := config5x3; model_math := defaultMath |}
                  emptyWorld.

(** A random source whose draws run through 0/7, 1/7, ..., 6/7 again and
    again. *)
Definition sevenths : Rng :=
  {| draws := fun n => (Z.of_nat (n mod 7) # 7)%Q; cursor := 0 |}.

(** The configuration [QA_FORCE_SYMBOL=WILD], [QA_FORCE_BONUS=1],
    [FREESPINS_AWARD=1]: every generated cell starts as WILD, scatters are
    forced up to the trigger count, and a bonus awards one free spin. *)
Definition envWildBonus : gmap string EnvLoader.EnvValue :=
  <[ "QA_FORCE_SYMBOL"%string := EnvLoader.VString "WILD" ]>
    (<[ "QA_FORCE_BONUS"%string := EnvLoader.VString "1" ]>
       {[ "FREESPINS_AWARD"%string := EnvLoader.VString "1" ]}).

Definition wildBonusMath : EnvMathSpec :=
  EnvLoader.buildSpec envWildBonus (Some Sym.SCATTER) (Some Sym.WILD).

Definition wildBonusScene : SlotScene.t :=
  SlotScene.enter {| config := config5x3; model_math := wildBonusMath |}
                  {| heap := ∅; rng := sevenths |}.

(** The configuration [QA_FORCE_SYMBOL=SCATTER], [FREESPINS_AWARD=1]: every
    generated cell starts as SCATTER and a bonus awards one free spin. *)
Definition envScatterOne : gmap string EnvLoader.EnvValue :=
  <[ "QA_FORCE_SYMBOL"%string := EnvLoader.VString "SCATTER" ]>
    {[ "FREESPINS_AWARD"%string := EnvLoader.VString "1" ]}.

Definition scatterOneMath : EnvMathSpec :=
  EnvLoader.buildSpec envScatterOne (Some Sym.SCATTER) (Some Sym.SCATTER).

Definition scatterOneScene : SlotScene.t :=
  SlotScene.enter {| config := config5x3; model_math := scatterOneMath |}
                  emptyWorld.

(** [n] rounds played one after the other, each started by [requestSpin()]
    (the spin button, or the automatic request while free spins remain). *)
Fixpoint playRounds (n : nat) (s : SlotScene.t) : option SlotScene.t :=
  match n with
  | O => Some s
  | S n' =>
      match SlotScene.playRound false s with
      | Some (s', _) => playRounds n' s'
      | None => None
      end
  end.

(** The configuration [SYMBOLS=K], [W_K=-1]. *)
Definition envNegativeK : gmap string EnvLoader.EnvValue :=
  <[ "W_K"%string := EnvLoader.VString "-1" ]>
    {[ "SYMBOLS"%string := EnvLoader.VString "K" ]}.

Definition negativeKMath : EnvMathSpec :=
  EnvLoader.buildSpec envNegativeK (Some Sym.SCATTER) None.

(** The grid of the third example of the specification: reel 0 holds
    WILD, K, Q.  It is stored as the previous grid of a world, with reel 0
    held. *)
Definition exampleCells : Grid :=
  [[Sym.WILD; Sym.K; Sym.Q]; [Sym.A; Sym.WILD; Sym.J]; [Sym.A; Sym.K; Sym.Q];
   [Sym.SCATTER; Sym.SCATTER; Sym.SCATTER]; [Sym.T; Sym.T; Sym.T]].

Definition exampleWorld : World :=
  {| heap := snd (allocGrid ∅ exampleCells); rng := halves |}.

Definition exampleGrid : list nat := fst (allocGrid ∅ exampleCells).

Definition exampleHeld : list bool := [true; false; false; false; false].

Definition exampleModel : SlotModel :=
  {| config := config5x3; model_math := defaultMath |}.

(** The scene at the moment the reels stop on [exampleGrid], reel 0 having
    been frozen on this spin. *)
Definition stoppedScene : SlotScene.t :=
  SlotScene.with_state SlotScene.SPINNING
    (SlotScene.with_world exampleWorld freshScene).

Definition stoppedPending : SlotScene.Pending :=
  {| SlotScene.p_grid := exampleGrid;
     SlotScene.p_freezeReels := Some exampleHeld |}.

(** The configuration [W_A=-5], [BET_MIN=2000], [BET_STEP=0]. *)
Definition envOutOfRange : gmap string EnvLoader.EnvValue :=
  <[ "W_A"%string := EnvLoader.VString "-5" ]>
    (<[ "BET_MIN"%string := EnvLoader.VString "2000" ]>
       {[ "BET_STEP"%string := EnvLoader.VString "0" ]}).

(** The configuration [PAY_A_5=0.5]: five A on a line pay half the bet. *)
Definition envHalfPay : gmap string EnvLoader.EnvValue :=
  {[ "PAY_A_5"%string := EnvLoader.VString "0.5" ]}.

Definition halfPayMath : EnvMathSpec :=
  EnvLoader.buildSpec envHalfPay (Some Sym.SCATTER) None.

(** The event that asks for the next spin without the player. *)
Definition isSchedule (e : SlotScene.Effect) : bool :=
  match e with SlotScene.ScheduleRequestSpin => true | _ => false end.

(** The step that [clampToStep] uses for a specification. *)
Definition stepOf (m : EnvMathSpec) : number := Qmax 1 (betStep m).

(** The bet bounds of a specification are in order and are whole numbers
    of steps. *)
Definition betGrid (m : EnvMathSpec) : Prop :=
  (betMin m <= betMax m)%Q
  /\ exists a b : Z,
       (betMin m == inject_Z a * stepOf m)%Q
       /\ (betMax m == inject_Z b * stepOf m)%Q.

(** The bet of a scene is inside the bounds and is a whole number of
    steps. *)
Definition betOk (s : SlotScene.t) : Prop :=
  (betMin (SlotScene.math s) <= SlotScene.bet s <= betMax (SlotScene.math s))%Q
  /\ exists k : Z,
       (SlotScene.bet s == inject_Z k * stepOf (SlotScene.math s))%Q.

(** The scenes of a session: what [enter] builds, and what the handlers
    wired in [buildHud] ([changeBet(-10)], [changeBet(+10)],
    [addCredits(1000)], [requestSpin()]) and the stop callback of a
    started spin make of it, in any order.  The second component is the
    spin whose reels are turning, if any. *)
Inductive session (model : SlotModel) (w : World)
    : SlotScene.t -> option SlotScene.Pending -> Prop :=
| session_enter : session model w (SlotScene.enter model w) None
| session_betMinus s q :
    session model w s q ->
    session model w (fst (SlotScene.changeBet (-10) s)) q
| session_betPlus s q :
    session model w s q ->
    session model w (fst (SlotScene.changeBet 10 s)) q
| session_credits s q :
    session model w s q ->
    session model w (fst (SlotScene.addCredits 1000 s)) q
| session_spin s q s1 e started :
    session model w s q ->
    SlotScene.requestSpin false s = Some (s1, e, started) ->
    session model w s1 (match started with Some p => Some p | None => q end)
| session_stop s p s' eff :
    session model w s (Some p) ->
    SlotScene.onStopped p s = Some (s', eff) ->
    session model w s' None.

(** The number of cells of a column that hold [s]. *)
Definition occurrences (s : SymbolId) (col : list SymbolId) : nat :=
  length (filter (fun x => x = s) col).

(** 1 when cell [x] holds [s], 0 otherwise. *)
Definition hit (s x : SymbolId) : nat := if bool_decide (x = s) then 1 else 0.

(** A reel as its constructor builds it: the pool has [rows + 2 * buffer]
    cells, at least one, and [topIndex] points into it. *)
Definition reelOk (r : ReelView.t) : Prop :=
  length (ReelView.symbols r) = (ReelView.rows r + 2 * ReelView.buffer r)%nat
  /\ (0 < length (ReelView.symbols r))%nat
  /\ (ReelView.topIndex r < length (ReelView.symbols r))%nat.

(** What one update of the tween of [spinPos] does to a reel: the position
    is written, then the [onUpdate] callback runs [syncStrip]. *)
Definition moveTo (pos : number) (r : ReelView.t) : option ReelView.t :=
  ReelView.syncStrip (ReelView.with_spinPos pos r).

(** The same, frame after frame, through the positions [ps]. *)
Fixpoint advance (ps : list number) (r : ReelView.t) : option ReelView.t :=
  match ps with
  | [] => Some r
  | p :: rest => r' ← moveTo p r; advance rest r'
  end.

(** The symbol shown in the cell [i] places below the top of the strip. *)
Definition stripId (r : ReelView.t) (i : nat) : option Cell :=
  ReelView.sv_id
    <$> ReelView.symbols r
          !! ((ReelView.topIndex r + i) mod length (ReelView.symbols r))%nat.

(** The positions [ps] never go back from [start] and end at [stop]. *)
Fixpoint climbs (start : number) (ps : list number) (stop : number) : Prop :=
  match ps with
  | [] => (start == stop)%Q
  | p :: rest => (start <= p)%Q /\ climbs p rest stop
  end.

(** Two reels show the same strip: they agree on everything but the
    vertical positions of the cells and the numbers that are tweened. *)
Definition sameStrip (a b : ReelView.t) : Prop :=
  ReelView.topIndex a = ReelView.topIndex b
  /\ map ReelView.sv_id (ReelView.symbols a)
     = map ReelView.sv_id (ReelView.symbols b)
  /\ ReelView.queue a = ReelView.queue b
  /\ ReelView.queueRead a = ReelView.queueRead b
  /\ ReelView.rows a = ReelView.rows b
  /\ ReelView.buffer a = ReelView.buffer b.

(** The last vertical position written to the cell at place [j] of the
    pool by a run of writes, if any. *)
Fixpoint lastWrite (j : nat) (ws : list (nat * number)) : option number :=
  match ws with
  | [] => None
  | (j', y) :: rest =>
      match lastWrite j rest with
      | Some y' => Some y'
      | None => if decide (j' = j) then Some y else None
      end
  end.

(** *** The reels between [spinTo] and the call of [onAllComplete] *)

(** Two reels that show the same strip at the same position. *)
Definition stripEq (a b : ReelView.t) : Prop :=
  sameStrip a b
  /\ (ReelView.spinPos a == ReelView.spinPos b)%Q
  /\ (ReelView.prevSpinPos a == ReelView.prevSpinPos b)%Q.

(** The strip has been synchronised since the position was last written. *)
Definition synced (r : ReelView.t) : Prop :=
  (ReelView.spinPos r == ReelView.prevSpinPos r)%Q.

(** A reel at rest that shows the column [col]. *)
Definition resting (col : list Cell) (r : ReelView.t) : Prop :=
  reelOk r /\ synced r /\ ReelView.getVisibleColumn r = Some col.

(** The position that the tween of a spin from [start] to [target] in the
    time [d] writes when the time [T] has gone by. *)
Definition posAt (start target d T : number) : number :=
  (start + (target - start) * Easings.outQuint (Qmin 1 (T / d)))%Q.

(** A reel on its way: it is where the tween has put it at the time [T],
    its strip is the strip [r1] of the start of the spin moved on by the
    whole positions crossed since, and at [target] that strip shows
    [col]. *)
Definition moving (col : list Cell) (start target d T : number)
    (r : ReelView.t) : Prop :=
  reelOk r /\ synced r
  /\ (0 <= start)%Q /\ (start <= target)%Q
  /\ (target < inject_Z (2 ^ 31))%Q /\ (0 < d)%Q /\ (0 <= T)%Q
  /\ (ReelView.prevSpinPos r == posAt start target d T)%Q
  /\ exists r1,
       reelOk r1
       /\ (exists rs,
             ReelView.shiftN
               (Z.to_nat (Qfloor (ReelView.prevSpinPos r) - Qfloor start)) r1
             = Some rs
             /\ sameStrip r rs)
       /\ (exists r2,
             ReelView.shiftN (Z.to_nat (Qfloor target - Qfloor start)) r1
             = Some r2
             /\ ReelView.getVisibleColumn r2 = Some col).

(** A tween that the spin does not have to know: it has no callback, and
    if its target is a reel it is a tween of [kick]. *)
Definition harmless (m : SlotMachineView.View)
    (t : TweenManager.TweenItem SlotMachineView.Target
           SlotMachineView.Callback) : Prop :=
  TweenManager.t_onUpdate t = None /\ TweenManager.t_onComplete t = None
  /\ match TweenManager.t_target t with
     | SlotMachineView.Other _ => True
     | SlotMachineView.Reel i =>
         (i < length (SlotMachineView.reels m))%nat
         /\ exists x y,
              TweenManager.t_to t = [("kick"%string, x)]
              /\ TweenManager.t_from t = [("kick"%string, Some y)]
     end.

(** The tween manager holds nothing but finished tweens and tweens that
    the spin does not have to know. *)
Definition quiet (st : SlotMachineView.St) : Prop :=
  Forall (fun t => TweenManager.t_active t = false
                   \/ harmless (TweenManager.objects st) t)
         (TweenManager.tweens st).

#[global] Instance Callback_eq_dec : EqDecision SlotMachineView.Callback.
Proof. solve_decision. Defined.

(** The tweens that call [done] when they end. *)
Definition isSpin
    (t : TweenManager.TweenItem SlotMachineView.Target
           SlotMachineView.Callback) : bool :=
  bool_decide (TweenManager.t_onComplete t = Some SlotMachineView.Done).

(** The targets of the running tweens of spins. *)
Definition spinTargets
    (l : list (TweenManager.TweenItem SlotMachineView.Target
                 SlotMachineView.Callback))
    : list SlotMachineView.Target :=
  omap (fun t => if TweenManager.t_active t && isSpin t
                 then Some (TweenManager.t_target t) else None) l.

(** [Math.max(0, Math.round((baseSteps + i * stepStagger) * stepsMul))] *)
Definition randomStepsOf (stepsMul : number) (i : nat) : nat :=
  Z.to_nat
    (Z.max 0
       (Math_round
          ((SlotMachineView.Config.baseSteps
            + ofNat i * SlotMachineView.Config.stepStagger) * stepsMul)%Q)).

(** The time the tween of the spin of the reel [i] runs. *)
Definition spinTime (speedMul : number) (i : nat) : number :=
  Qmax (1 # 10000)
    ((SlotMachineView.Config.baseDuration
      + ofNat i * SlotMachineView.Config.durationStagger) * speedMul)%Q.

(** The tween of the spin of a reel, at the time [T] of its run. *)
Definition spinOk (cols : list (list Cell)) (freeze : option (list bool))
    (speedMul : number) (m : SlotMachineView.View) (T : number)
    (t : TweenManager.TweenItem SlotMachineView.Target
           SlotMachineView.Callback) : Prop :=
  exists i start target col r,
    TweenManager.t_target t = SlotMachineView.Reel i
    /\ TweenManager.t_to t = [("spinPos"%string, target)]
    /\ TweenManager.t_from t = [("spinPos"%string, Some start)]
    /\ TweenManager.t_ease t = Easings.outQuint
    /\ TweenManager.t_onUpdate t = Some (SlotMachineView.SyncStrip i)
    /\ TweenManager.t_onComplete t = Some SlotMachineView.Done
    /\ Qlt_bool 0 (TweenManager.t_delay t) = false
    /\ TweenManager.t_elapsed t = T
    /\ (T < TweenManager.t_duration t)%Q
    /\ SlotMachineView.reels m !! i = Some r
    /\ cols !! i = Some col
    /\ moving col start target (TweenManager.t_duration t) T r
    /\ SlotMachineView.frozen freeze i = false
    /\ TweenManager.t_duration t = spinTime speedMul i.

Definition itemOk (cols : list (list Cell)) (freeze : option (list bool))
    (speedMul : number) (m : SlotMachineView.View) (T : number)
    (t : TweenManager.TweenItem SlotMachineView.Target
           SlotMachineView.Callback) : Prop :=
  TweenManager.t_active t = false \/ harmless m t
  \/ spinOk cols freeze speedMul m T t.

(** A reel before [spinTo] reaches it: a frozen reel shows its column of
    the grid already; another reel is at a position from which the spin
    stays below 2^31, and the grid has a column of its height for it. *)
Definition waiting (grid : Grid) (freeze : option (list bool))
    (stepsMul : number) (i : nat) (r : ReelView.t) : Prop :=
  reelOk r /\ synced r
  /\ exists col,
       grid !! i = Some col
       /\ if SlotMachineView.frozen freeze i
          then ReelView.getVisibleColumn r = Some (map Some col)
          else length col = ReelView.rows r
               /\ (0 <= ReelView.spinPos r)%Q
               /\ (ReelView.spinPos r
                   + ofNat (randomStepsOf stepsMul i + ReelView.rows r
                            + ReelView.buffer r)
                   < inject_Z (2 ^ 31))%Q.

(** The invariant of a spin: [k] reels have been reached by [spinTo], the
    tween at place [j] of the list is at the time [time j] of its run, and
    the reels that are at rest were so at the time [now]. *)
Record spinInv (grid : Grid) (freeze : option (list bool))
    (speedMul stepsMul : number) (log0 : list (list ReelView.t)) (k : nat)
    (now : number) (time : nat -> number) (st : SlotMachineView.St)
    : Prop := {
  inv_items :
    forall j t, TweenManager.tweens st !! j = Some t ->
      itemOk (map (map Some) grid) freeze speedMul (TweenManager.objects st)
        (time j) t;
  inv_nodup : NoDup (spinTargets (TweenManager.tweens st));
  inv_started :
    forall i, SlotMachineView.Reel i ∈ spinTargets (TweenManager.tweens st) ->
      (i < k)%nat;
  inv_remaining :
    SlotMachineView.remaining (TweenManager.objects st)
    = (Z.of_nat (length (SlotMachineView.reels (TweenManager.objects st)) - k)
       + Z.of_nat (length (spinTargets (TweenManager.tweens st))))%Z;
  inv_reels :
    forall i r,
      SlotMachineView.reels (TweenManager.objects st) !! i = Some r ->
      reelOk r /\ synced r
      /\ if decide (i < k)%nat
         then SlotMachineView.Reel i ∉ spinTargets (TweenManager.tweens st) ->
              exists col,
                grid !! i = Some col /\ resting (map Some col) r
                /\ (SlotMachineView.frozen freeze i = true
                    \/ (spinTime speedMul i <= now)%Q)
         else waiting grid freeze stepsMul i r;
  inv_log :
    if (SlotMachineView.remaining (TweenManager.objects st) =? 0)%Z
    then exists snap,
           SlotMachineView.completions (TweenManager.objects st)
           = log0 ++ [snap]
           /\ Forall2 (fun r col => resting (map Some col) r) snap grid
    else SlotMachineView.completions (TweenManager.objects st) = log0;
  inv_grid :
    length grid = length (SlotMachineView.reels (TweenManager.objects st));
  inv_k : (k <= length (SlotMachineView.reels (TweenManager.objects st)))%nat;
}.

(** The time that has gone by after the frames [dts]. *)
Definition elapsedAfter (dts : list number) : number :=
  fold_left Qplus dts 0%Q.

(** The time of the run of the tween at place [j] while [update] goes
    through the list: the tweens before the place [i] have had their
    turn. *)
Definition timeAt (T dt : number) (i j : nat) : number :=
  if (j <? i)%nat then (T + dt)%Q else T.

(** Two states of the machine with the same strips at the same
    positions. *)
Definition viewEq (m m' : SlotMachineView.View) : Prop :=
  Forall2 stripEq (SlotMachineView.reels m) (SlotMachineView.reels m')
  /\ SlotMachineView.remaining m' = SlotMachineView.remaining m
  /\ SlotMachineView.completions m' = SlotMachineView.completions m.

(** The three tweens that [ReelView.spin] of the reel [i] starts at the
    position [start], for [steps] steps in the time [duration]. *)
Definition kickUp (i : nat)
    : TweenManager.TweenItem SlotMachineView.Target SlotMachineView.Callback :=
  {| TweenManager.t_target := SlotMachineView.Reel i;
     TweenManager.t_from := [("kick"%string, Some 0%Q)];
     TweenManager.t_to := [("kick"%string, 1%Q)];
     TweenManager.t_duration := Qmax (1 # 10000) (12 # 100);
     TweenManager.t_elapsed := 0;
     TweenManager.t_delay := Qmax 0 0;
     TweenManager.t_ease := Easings.outBack;
     TweenManager.t_onUpdate := None;
     TweenManager.t_onComplete := None;
     TweenManager.t_active := true |}.

Definition kickDown (i : nat)
    : TweenManager.TweenItem SlotMachineView.Target SlotMachineView.Callback :=
  {| TweenManager.t_target := SlotMachineView.Reel i;
     TweenManager.t_from := [("kick"%string, Some 0%Q)];
     TweenManager.t_to := [("kick"%string, 0%Q)];
     TweenManager.t_duration := Qmax (1 # 10000) (18 # 100);
     TweenManager.t_elapsed := 0;
     TweenManager.t_delay := Qmax 0 (12 # 100);
     TweenManager.t_ease := Easings.outCubic;
     TweenManager.t_onUpdate := None;
     TweenManager.t_onComplete := None;
     TweenManager.t_active := true |}.

Definition spinTween (i : nat) (start : number) (steps : Z)
    (duration : number)
    : TweenManager.TweenItem SlotMachineView.Target SlotMachineView.Callback :=
  {| TweenManager.t_target := SlotMachineView.Reel i;
     TweenManager.t_from := [("spinPos"%string, Some start)];
     TweenManager.t_to := [("spinPos"%string, (start + inject_Z steps)%Q)];
     TweenManager.t_duration := Qmax (1 # 10000) duration;
     TweenManager.t_elapsed := 0;
     TweenManager.t_delay := Qmax 0 0;
     TweenManager.t_ease := Easings.outQuint;
     TweenManager.t_onUpdate := Some (SlotMachineView.SyncStrip i);
     TweenManager.t_onComplete := Some SlotMachineView.Done;
     TweenManager.t_active := true |}.

(** *** A machine used as a concrete input *)

(** The machine as its constructor builds it on the random source
    [halves], with the first tween of the cabinet bump of [startSpinFlow]
    in the manager. *)
Definition freshMachine : SlotMachineView.St :=
  {| TweenManager.objects :=
       {| SlotMachineView.reels :=
            fst (SlotMachineView.newReels SlotMachineView.Config.count 0
                   halves);
          SlotMachineView.others := fun _ _ => None;
          SlotMachineView.remaining := 0;
          SlotMachineView.completions := [] |};
     TweenManager.tweens :=
       [ {| TweenManager.t_target := SlotMachineView.Other 0;
            TweenManager.t_from := [("cabinetBump"%string, Some 0%Q)];
            TweenManager.t_to := [("cabinetBump"%string, 1%Q)];
            TweenManager.t_duration := 12 # 100;
            TweenManager.t_elapsed := 0;
            TweenManager.t_delay := 0;
            TweenManager.t_ease := Easings.outBack;
            TweenManager.t_onUpdate := None;
            TweenManager.t_onComplete := None;
            TweenManager.t_active := true |} ] |}.

(** * Properties *)

(** Replace a closed term by its value. *)
Ltac vm_eval t :=
  let H := fresh "Hval" in
  eassert (H : t = _) by (vm_compute; reflexivity);
  rewrite H; clear H.

(** ** Numbers *)

Lemma Qle_bool_false x y : Qle_bool x y = false <-> (y < x)%Q.
Proof.
  split.
  - intros Hb. apply Qnot_le_lt. intros Hle. apply Qle_bool_iff in Hle.
    congruence.
  - intros Hlt. destruct (Qle_bool x y) eqn:Hb; [|done].
    apply Qle_bool_iff in Hb. by apply Qlt_not_le in Hlt.
Qed.

Lemma Qlt_bool_true x y : Qlt_bool x y = true <-> (x < y)%Q.
Proof. unfold Qlt_bool. rewrite negb_true_iff. apply Qle_bool_false. Qed.

(** ** The state machine *)

Section StateMachineFacts.
Context {S H : Type} `{EqDecision S}.
Implicit Types (m : StateMachine.t S H) (t : S).

Import StateMachine.

Lemma can_spec m t : can m t = true <-> t = state m \/ edge m (state m) t.
Proof.
  unfold can, edge, state. destruct (decide (t = _state m)) as [->|Hne].
  - split; auto.
  - destruct (allowed m (_state m)) as [l|] eqn:Hl.
    + rewrite bool_decide_eq_true. split.
      * intros Hin. right. eauto.
      * intros [?|(l' & Hl' & Hin)]; [done|]. congruence.
    + split; [done|]. intros [?|(l' & Hl' & _)]; [done|discriminate].
Qed.

Lemma set_same m : set m (state m) = (m, []).
Proof.
  unfold set, state. destruct (negb (can m (_state m))); [done|].
  destruct (decide (_state m = _state m)); [done|congruence].
Qed.

Lemma set_refused m t : can m t = false -> set m t = (m, []).
Proof. intros Hc. unfold set. by rewrite Hc. Qed.

Lemma set_moves m t :
  t <> state m -> can m t = true ->
  state (fst (set m t)) = t /\ allowed (fst (set m t)) = allowed m
  /\ hooks (fst (set m t)) = hooks m
  /\ snd (set m t)
     = call (onExit (hooks m) (state m)) ++ call (onEnter (hooks m) t).
Proof.
  intros Hne Hc. unfold set, state in *. rewrite Hc. simpl.
  destruct (decide (t = _state m)); [done|]. done.
Qed.

Lemma set_allowed m t : allowed (fst (set m t)) = allowed m.
Proof.
  unfold set. destruct (negb (can m t)); [done|].
  destruct (decide (t = _state m)); done.
Qed.

Lemma set_step m t :
  state (fst (set m t)) = state m
  \/ edge m (state m) (state (fst (set m t))).
Proof.
  destruct (decide (t = state m)) as [->|Hne].
  - left. by rewrite set_same.
  - destruct (can m t) eqn:Hc.
    + right. destruct (set_moves m t Hne Hc) as (-> & _).
      apply can_spec in Hc as [?|?]; done.
    + left. by rewrite set_refused.
Qed.

Lemma edge_ext m m' s s' :
  allowed m' = allowed m -> edge m' s s' <-> edge m s s'.
Proof. unfold edge. by intros ->. Qed.

Lemma visited_chain m reqs i a b :
  visited m reqs !! i = Some a -> visited m reqs !! Datatypes.S i = Some b ->
  a = b \/ edge m a b.
Proof.
  revert m i. induction reqs as [|t reqs IH]; intros m i Ha Hb.
  - destruct i; simpl in *; discriminate.
  - destruct i as [|i]; simpl in Ha, Hb.
    + injection Ha as <-. destruct reqs; simpl in Hb; injection Hb as <-.
      * destruct (set_step m t) as [Heq|He]; [left; symmetry; exact Heq|by right].
      * destruct (set_step m t) as [Heq|He]; [left; symmetry; exact Heq|by right].
    + destruct (IH _ _ Ha Hb) as [?|He]; [by left|right].
      by apply (proj1 (edge_ext m _ a b (set_allowed m t))).
Qed.

(** C7. A request for the current state succeeds and changes nothing,
    firing no hook; a request for a target outside the whitelist of the
    current state changes nothing and fires no hook; a request that
    changes the state follows an edge of the whitelist to the requested
    target; and along any run of requests two consecutive states are
    equal or joined by a whitelisted edge. *)
Theorem C7_transitions_guarded m :
  (can m (state m) = true /\ set m (state m) = (m, []))
  /\ (forall t, t <> state m -> ~ edge m (state m) t -> set m t = (m, []))
  /\ (forall t, state (fst (set m t)) <> state m ->
        state (fst (set m t)) = t /\ edge m (state m) t)
  /\ (forall reqs i a b,
        visited m reqs !! i = Some a ->
        visited m reqs !! Datatypes.S i = Some b ->
        a = b \/ edge m a b).
Proof.
  split; [split|split; [|split]].
  - apply can_spec. by left.
  - apply set_same.
  - intros t Hne Hnot. apply set_refused.
    destruct (can m t) eqn:Hc; [|done].
    apply can_spec in Hc as [?|?]; done.
  - intros t Hmoved.
    destruct (decide (t = state m)) as [->|Hne].
    { rewrite set_same in Hmoved. done. }
    destruct (can m t) eqn:Hc.
    + destruct (set_moves m t Hne Hc) as (Heq & _). split; [done|].
      apply can_spec in Hc as [?|?]; done.
    + rewrite set_refused in Hmoved; done.
  - apply visited_chain.
Qed.
End StateMachineFacts.

(** ** The evaluator *)

Section EvaluatorFacts.
Import Evaluator.

Lemma isSym_true c s : isSym c s = true <-> c = Some s.
Proof. unfold isSym. apply bool_decide_eq_true. Qed.

Lemma isSym_false c s : isSym c s = false <-> c <> Some s.
Proof. unfold isSym. apply bool_decide_eq_false. Qed.

Lemma scan_spec math path base symbols :
  forall r c u ps,
    scan math path base r symbols = (c, u, ps) ->
    ps = map (fun i => {| reel := i; row := path !! i |}) (seq r c)
    /\ (c <= length symbols)%nat
    /\ (forall i, (i < c)%nat -> symbols !! i <> Some (Some Sym.SCATTER)).
Proof.
  induction symbols as [|s rest IH]; intros r c u ps Hscan; simpl in Hscan.
  - injection Hscan as <- <- <-. repeat split; [simpl; lia|intros; lia].
  - destruct (isSym s Sym.SCATTER) eqn:Hsc.
    { injection Hscan as <- <- <-. repeat split; [simpl; lia|intros; lia]. }
    apply isSym_false in Hsc.
    assert (Hstep : forall c' u' ps',
      scan math path base (S r) rest = (c', u', ps') ->
      c = S c' -> ps = {| reel := r; row := path !! r |} :: ps' ->
      ps = map (fun i => {| reel := i; row := path !! i |}) (seq r c)
      /\ (c <= length (s :: rest))%nat
      /\ (forall i, (i < c)%nat -> (s :: rest) !! i <> Some (Some Sym.SCATTER))).
    { intros c' u' ps' Hrec -> ->. destruct (IH _ _ _ _ Hrec) as (-> & Hlen & Hno).
      repeat split; [simpl; lia|].
      intros [|i] Hi; simpl; [congruence|]. apply Hno. lia. }
    destruct (bool_decide (s = base)).
    + destruct (scan math path base (S r) rest) as [[c' u'] ps'] eqn:Hrec.
      injection Hscan as <- <- <-. by eapply Hstep.
    + destruct (wildSubstitutes math && isSym s Sym.WILD
                && negb (isSym base Sym.WILD)).
      * destruct (scan math path base (S r) rest) as [[c' u'] ps'] eqn:Hrec.
        injection Hscan as <- <- <-. by eapply Hstep.
      * injection Hscan as <- <- <-. repeat split; [simpl; lia|intros; lia].
Qed.

Lemma lineSymbols_length grid path : length (lineSymbols grid path) = length grid.
Proof. unfold lineSymbols. by rewrite length_imap. Qed.

Lemma lineSymbols_lookup grid path k col :
  grid !! k = Some col ->
  lineSymbols grid path !! k = Some (path !! k ≫= fun y => col !! y).
Proof.
  intros Hk. unfold lineSymbols. rewrite list_lookup_imap. by rewrite Hk.
Qed.

Lemma cellAt_line grid path k :
  (k < length grid)%nat ->
  cellAt grid {| reel := k; row := path !! k |} = lineCell grid path k.
Proof.
  intros Hk. destruct (lookup_lt_is_Some_2 grid k Hk) as [col Hcol].
  unfold cellAt, lineCell. simpl. rewrite Hcol. simpl.
  by rewrite (lineSymbols_lookup _ _ _ _ Hcol).
Qed.

(** What a recorded win line says about the payline it comes from. *)
Lemma evalLine_Some grid bet math line w :
  evalLine grid bet math line = Some w ->
  lineId w = id line
  /\ pathRows w = line_rows line
  /\ lineCell grid (line_rows line) 0 <> Some Sym.SCATTER
  /\ (exists n, (3 <= n <= length grid)%nat
        /\ toReel w = (Z.of_nat n - 1)%Z
        /\ count w = Nat.min 5 n
        /\ positions w
           = map (fun i => {| reel := i; row := line_rows line !! i |}) (seq 0 n)
        /\ forall i, (i < n)%nat ->
             lineCell grid (line_rows line) i <> Some Sym.SCATTER)
  /\ amount w = (bet * payMult math (symbol w) (count w))%Q
  /\ (0 < amount w)%Q.
Proof.
  unfold evalLine. fold (lineCell grid (line_rows line) 0).
  set (path := line_rows line). set (symbols := lineSymbols grid path).
  set (s0 := lineCell grid path 0).
  destruct (isSym s0 Sym.SCATTER) eqn:Hs0; [done|].
  apply isSym_false in Hs0.
  set (base := if isSym s0 Sym.WILD then wildBase (drop 1 symbols) else s0).
  destruct (isSym s0 Sym.WILD && isSym base Sym.WILD
            && negb (wildPaysItself math)); [done|].
  destruct (scan math path base 0 symbols) as [[c u] ps] eqn:Hscan.
  destruct (3 <=? c)%nat eqn:Hc; [|done].
  destruct (Qlt_bool 0 (bet * payMult math base (Nat.min 5 c))) eqn:Hpos; [|done].
  assert (Hpos' : (0 < bet * payMult math base (Nat.min 5 c))%Q).
  { unfold Qlt_bool in Hpos. apply negb_true_iff in Hpos.
    apply Qnot_le_lt. intros Hle. apply Qle_bool_iff in Hle. congruence. }
  intros [= <-]. cbn [lineId pathRows toReel count positions amount symbol].
  apply Nat.leb_le in Hc.
  destruct (scan_spec _ _ _ _ _ _ _ _ Hscan) as (Hps & Hlen & Hno).
  unfold symbols in Hlen. rewrite lineSymbols_length in Hlen.
  repeat split; try done.
  - exists c. repeat split; try done; try lia.
    intros i Hi. unfold lineCell. intros Heq. apply (Hno i Hi).
    fold symbols in Heq |- *.
    destruct (symbols !! i) as [cell|]; simpl in Heq; [by subst|done].
Qed.

Lemma sumAmounts_cons w ws :
  sumAmounts (w :: ws) = (amount w + sumAmounts ws)%Q.
Proof. reflexivity. Qed.

Lemma lineLoop_acc grid bet math lines :
  forall a0 ws0,
    let '(a, ws) :=
      fold_left
        (fun '(winAmount, winLines) line =>
           match evalLine grid bet math line with
           | Some w => ((winAmount + amount w)%Q, winLines ++ [w])
           | None => (winAmount, winLines)
           end)
        lines (a0, ws0) in
    ws = ws0 ++ omap (evalLine grid bet math) lines
    /\ (a == a0 + sumAmounts (omap (evalLine grid bet math) lines))%Q.
Proof.
  induction lines as [|line lines IH]; intros a0 ws0; cbn [fold_left].
  - split; [by rewrite app_nil_r|]. unfold sumAmounts. simpl. ring.
  - destruct (evalLine grid bet math line) as [w|] eqn:Hw.
    + assert (Hcons : omap (evalLine grid bet math) (line :: lines)
                      = w :: omap (evalLine grid bet math) lines).
      { simpl. by rewrite Hw. }
      rewrite Hcons.
      specialize (IH (a0 + amount w)%Q (ws0 ++ [w])).
      destruct (fold_left _ lines _) as [a ws]. destruct IH as [-> Ha].
      split; [by rewrite <- app_assoc|].
      rewrite Ha, sumAmounts_cons. ring.
    + assert (Hcons : omap (evalLine grid bet math) (line :: lines)
                      = omap (evalLine grid bet math) lines).
      { simpl. by rewrite Hw. }
      rewrite Hcons. apply IH.
Qed.

Lemma lineLoop_spec grid bet math lines a ws :
  lineLoop grid bet math lines = (a, ws) ->
  ws = omap (evalLine grid bet math) lines /\ (a == sumAmounts ws)%Q.
Proof.
  intros Hloop. pose proof (lineLoop_acc grid bet math lines 0%Q []) as Hacc.
  unfold lineLoop in Hloop. rewrite Hloop in Hacc. destruct Hacc as [-> Ha].
  split; [done|]. rewrite Ha. simpl. ring.
Qed.

Lemma winLines_evaluateGrid grid bet math inFreeSpins :
  winLines (evaluateGrid grid bet math inFreeSpins)
  = omap (evalLine grid bet math) PAYLINES_5X3.
Proof.
  unfold evaluateGrid.
  destruct (lineLoop grid bet math PAYLINES_5X3) as [a ws] eqn:Hloop.
  simpl. by destruct (lineLoop_spec _ _ _ _ _ _ Hloop) as [-> _].
Qed.

Lemma winLine_origin grid bet math inFreeSpins w :
  w ∈ winLines (evaluateGrid grid bet math inFreeSpins) ->
  exists line, line ∈ PAYLINES_5X3 /\ evalLine grid bet math line = Some w.
Proof.
  rewrite winLines_evaluateGrid. intros Hin.
  apply list_elem_of_omap in Hin as (line & Hline & Hw). eauto.
Qed.

Lemma Math_round_comp x y : (x == y)%Q -> Math_round x = Math_round y.
Proof. intros Hxy. unfold Math_round. by rewrite Hxy. Qed.
End EvaluatorFacts.

Section EvaluatorClaims.
Import Evaluator.


(** Seven lines of five A at bet 1 with [PAY_A_5=0.5]: each recorded
    amount is 1/2, and the total is the rounding of 7/2, which is 4;
    rounding each line first would give 7. *)
Lemma rounding_once_example :
  let r := evaluateGrid (uniformGrid Sym.A) 1 halfPayMath false in
  length (winLines r) = 7%nat
  /\ Forall (fun w => (amount w == 1 # 2)%Q) (winLines r)
  /\ winAmount r = 4%Z
  /\ fold_right Z.add 0%Z (map (fun w => Math_round (amount w)) (winLines r))
     = 7%Z.
Proof.
  cbv zeta. split; [vm_compute; reflexivity|]. split.
  - vm_eval (winLines (evaluateGrid (uniformGrid Sym.A) 1 halfPayMath false)).
    repeat constructor.
  - split; vm_compute; reflexivity.
Qed.

Lemma payline_id_inj line line' :
  line ∈ PAYLINES_5X3 -> line' ∈ PAYLINES_5X3 -> id line = id line' ->
  line = line'.
Proof.
  unfold PAYLINES_5X3. rewrite !elem_of_cons, !elem_of_nil.
  intros H1 H2 Hid.
  repeat match goal with
         | H : _ \/ _ |- _ => destruct H as [H|H]
         | H : False |- _ => destruct H
         end; subst; try reflexivity; simpl in Hid; discriminate.
Qed.

(** C2, amended.  The symbol SCATTER itself, whatever scatter symbol is
    configured, takes no part in line wins: it is at no position of a win
    line, a payline whose leftmost cell is SCATTER has no win line, and the
    cells counted by a win line end before any SCATTER on its path. *)
Theorem C2_literal_scatter_breaks_lines grid bet math inFreeSpins :
  breaksLines Sym.SCATTER grid bet math inFreeSpins.
Proof.
  unfold breaksLines. cbv zeta. split; [|split].
  - intros w p Hw Hp. apply winLine_origin in Hw as (line & _ & Hline).
    destruct (evalLine_Some _ _ _ _ _ Hline)
      as (_ & _ & _ & (n & Hn & _ & _ & Hps & Hno) & _).
    rewrite Hps in Hp. apply list_elem_of_fmap in Hp as (i & -> & Hi).
    apply elem_of_seq in Hi. rewrite cellAt_line by lia. apply Hno. lia.
  - intros line w Hline H0 Hw Hid.
    apply winLine_origin in Hw as (line' & Hline' & Hev).
    destruct (evalLine_Some _ _ _ _ _ Hev) as (Hid' & _ & Hleft & _).
    assert (line' = line) as ->.
    { apply payline_id_inj; [done|done|congruence]. }
    done.
  - intros w k Hw Hk. apply winLine_origin in Hw as (line & _ & Hline).
    destruct (evalLine_Some _ _ _ _ _ Hline)
      as (_ & Hpath & _ & (n & Hn & Hto & _ & _ & Hno) & _).
    rewrite Hto. rewrite Hpath in Hk.
    destruct (decide (k < n)%nat) as [Hlt|Hge]; [|lia].
    by destruct (Hno k Hlt).
Qed.
End EvaluatorClaims.

(** C2 as stated fails when the configured scatter symbol is a regular
    symbol.  With [BONUS_SCATTER_SYMBOL=A] and a grid of A in every cell,
    the middle payline starts with the configured scatter symbol and still
    produces a win line. *)
Lemma C2_counterexample :
  match EnvLoader.loadEnvMathSpec envScatterA with
  | Some math =>
      scatterSymbol math = Sym.A
      /\ ~ breaksLines (scatterSymbol math) (uniformGrid Sym.A) 10 math false
  | None => False
  end.
Proof.
  destruct (EnvLoader.loadEnvMathSpec envScatterA) as [math|] eqn:Hload;
    [|vm_compute in Hload; discriminate].
  vm_compute in Hload. injection Hload as <-.
  split; [reflexivity|].
  intros (_ & Hleft & _).
  set (r := Evaluator.evaluateGrid _ _ _ _) in Hleft.
  assert (Hw : exists w ws, winLines r = w :: ws /\ lineId w = 1%nat).
  { vm_compute. eexists _, _. split; reflexivity. }
  destruct Hw as (w & ws & Hws & Hid).
  apply (Hleft {| id := 1; line_rows := [1; 1; 1; 1; 1]%nat |} w).
  - unfold PAYLINES_5X3. apply list_elem_of_here.
  - reflexivity.
  - rewrite Hws. apply list_elem_of_here.
  - exact Hid.
Qed.

(** ** The round sequencing *)

Section SceneFacts.
Import SlotScene.

Lemma setState_fields next s :
  let s' := fst (setState next s) in
  model s' = model s /\ prevGrid s' = prevGrid s /\ heldReels s' = heldReels s
  /\ balance s' = balance s /\ bet s' = bet s /\ lastWin s' = lastWin s
  /\ freeSpins s' = freeSpins s /\ totalSpins s' = totalSpins s
  /\ world s' = world s.
Proof.
  unfold setState. destruct (StateMachine.set (machine s) next). simpl.
  repeat split.
Qed.

(** C3. In IDLE with no free spin left, a request that is not a forced
    respin and finds the balance below the bet returns at once: the round
    state is unchanged (balance, free spins, spin count, machine state, and
    with them bet, last win, previous grid, hold mask, store and random
    stream), nothing is debited, the only call made is the lose shake, and
    no spin starts. *)
Theorem C3_insufficient_balance_rejected (s : SlotScene.t) :
  state s = IDLE -> (freeSpins s == 0)%Q -> (balance s < bet s)%Q ->
  requestSpin false s = Some (s, [ShakeLose], None).
Proof.
  intros Hidle Hfree Hlow. unfold requestSpin, machine.
  rewrite Hidle. cbn [StateMachine.can StateMachine.state machineAt
                      StateMachine._state StateMachine.allowed transitions].
  cbn [negb bool_decide decide_rel]. simpl.
  assert (Hle : Qle_bool (freeSpins s) 0 = true).
  { apply Qle_bool_iff. rewrite Hfree. apply Qle_refl. }
  assert (Hlt : Qlt_bool (balance s) (bet s) = true).
  { unfold Qlt_bool. apply negb_true_iff.
    destruct (Qle_bool (bet s) (balance s)) eqn:Hb; [|done].
    apply Qle_bool_iff in Hb. by apply Qlt_not_le in Hlow. }
  unfold Qlt_bool at 1. rewrite Hle, Hlt. reflexivity.
Qed.

Lemma C3_insufficient_balance_witness :
  SlotScene.requestSpin false (with_balance 5%Q freshScene)
  = Some (with_balance 5%Q freshScene, [ShakeLose], None).
Proof.
  apply C3_insufficient_balance_rejected; reflexivity.
Defined.

(** What the stop callback leaves in the scene. *)
Lemma onStopped_spec p s cells :
  readGrid (heap (world s)) (p_grid p) = Some cells ->
  let inFS := Qlt_bool 0 (freeSpins s) in
  let ev := Evaluator.evaluateGrid cells (bet s) (math s) inFS in
  let award :=
    (getBonusFreeSpinsAward (scatterCount ev) (math s)
     + (if inFS then getRetriggerFreeSpinsAward (scatterCount ev) (math s)
        else 0))%Q in
  exists s' eff,
    onStopped p s = Some (s', eff)
    /\ heldReels s'
       = Some (nextHeldReels inFS (p_grid p) ev (p_freezeReels p))
    /\ freeSpins s'
       = (if Qlt_bool 0 award then freeSpins s + award else freeSpins s)%Q
    /\ balance s'
       = (if (0 <? winAmount ev)%Z
          then balance s + inject_Z (winAmount ev) else balance s)%Q
    /\ prevGrid s' = Some (p_grid p)
    /\ bet s' = bet s /\ totalSpins s' = totalSpins s.
Proof.
  intros Hread. cbv zeta. unfold onStopped, setState, math.
  destruct (StateMachine.set (machine s) RESULT) as [m1 f1]. simpl.
  rewrite Hread. simpl.
  set (inFS := Qlt_bool 0 (freeSpins s)). clearbody inFS.
  set (ev := Evaluator.evaluateGrid _ _ _ _). clearbody ev.
  set (award := (getBonusFreeSpinsAward _ _ + _)%Q). clearbody award.
  destruct (Qlt_bool 0 award); simpl;
    repeat (match goal with
            | |- context [StateMachine.set ?m ?t] =>
                destruct (StateMachine.set m t) as [? ?]; simpl
            end);
    destruct (0 <? winAmount ev)%Z; simpl;
    repeat (match goal with
            | |- context [StateMachine.set ?m ?t] =>
                destruct (StateMachine.set m t) as [? ?]; simpl
            end);
    eexists _, _; (split; [reflexivity|]); simpl; repeat split.
Qed.

Lemma heldReelsNext_evaluateGrid cells bet math inFS :
  heldReelsNext (Evaluator.evaluateGrid cells bet math inFS)
  = map (Evaluator.columnHasWild (Evaluator.rowsOf cells)) cells.
Proof.
  unfold Evaluator.evaluateGrid.
  by destruct (Evaluator.lineLoop cells bet math PAYLINES_5X3).
Qed.

Lemma columnHasWild_spec rows col :
  length col = rows ->
  Evaluator.columnHasWild rows col = bool_decide (Sym.WILD ∈ col).
Proof.
  intros <-. unfold Evaluator.columnHasWild.
  destruct (bool_decide (Sym.WILD ∈ col)) eqn:Hin.
  - apply bool_decide_eq_true in Hin.
    apply list_elem_of_lookup_1 in Hin as [y Hy].
    apply existsb_exists. exists y. split.
    + apply in_seq. apply lookup_lt_Some in Hy. lia.
    + by apply isSym_true.
  - apply bool_decide_eq_false in Hin.
    apply not_true_is_false. intros Hex.
    apply existsb_exists in Hex as (y & _ & Hy). apply isSym_true in Hy.
    apply Hin. by eapply list_elem_of_lookup_2.
Qed.

Lemma nextHeldReels_rule inFS (grid : list nat) cells bet math freeze :
  length grid = length cells -> rectangular cells ->
  holdMaskRule inFS cells freeze
    (nextHeldReels inFS grid (Evaluator.evaluateGrid cells bet math inFS)
                   freeze).
Proof.
  intros Hlen Hrect. unfold holdMaskRule, nextHeldReels.
  rewrite heldReelsNext_evaluateGrid. destruct inFS.
  - split; [by rewrite length_replicate|].
    intros r col Hr. apply lookup_replicate_2.
    rewrite Hlen. by eapply lookup_lt_Some.
  - assert (Hcol : forall r col, cells !! r = Some col ->
              map (Evaluator.columnHasWild (Evaluator.rowsOf cells)) cells !! r
              = Some (bool_decide (Sym.WILD ∈ col))).
    { intros r col Hr. rewrite list_lookup_fmap, Hr. simpl. f_equal.
      apply columnHasWild_spec.
      unfold rectangular in Hrect. rewrite Forall_forall in Hrect.
      apply Hrect. by eapply list_elem_of_lookup_2. }
    destruct freeze as [fr|]; simpl.
    + split; [unfold clearFrozen; by rewrite length_imap, length_map|].
      intros r col Hr. unfold clearFrozen.
      rewrite list_lookup_imap, (Hcol _ _ Hr). simpl.
      by destruct (default false (fr !! r)), (bool_decide (Sym.WILD ∈ col)).
    + split; [by rewrite length_map|].
      intros r col Hr. rewrite (Hcol _ _ Hr).
      by rewrite andb_true_r.
Qed.

(** The hold mask that the code stores.  When the reels have stopped on a
    grid with contents [cells], the mask for the next spin has one entry
    per reel; it is all false if free spins remain in the pool at that
    moment, that is after the free spin of this round was taken from the
    pool and before the awards of this round are added; otherwise reel [r]
    is held exactly when column [r] of [cells] has a WILD and reel [r] was
    not frozen on this spin. *)
Lemma hold_mask_after_round (p : Pending) (s : SlotScene.t) cells :
  readGrid (heap (world s)) (p_grid p) = Some cells ->
  rectangular cells ->
  exists s' eff mask,
    onStopped p s = Some (s', eff)
    /\ heldReels s' = Some mask
    /\ holdMaskRule (Qlt_bool 0 (freeSpins s)) cells (p_freezeReels p) mask.
Proof.
  intros Hread Hrect.
  destruct (onStopped_spec p s cells Hread) as (s' & eff & Hstop & Hheld & _).
  eexists s', eff, _. split; [exact Hstop|]. split; [exact Hheld|].
  apply nextHeldReels_rule; [|done].
  by apply length_mapM in Hread.
Qed.

Lemma awardRule_code (inFS : bool) (sc : nat) (spec : EnvMathSpec) :
  (getBonusFreeSpinsAward sc spec
   + (if inFS then getRetriggerFreeSpinsAward sc spec else 0))%Q
  = awardRule inFS sc spec.
Proof.
  unfold awardRule, getBonusFreeSpinsAward, shouldTriggerBonus,
    getRetriggerFreeSpinsAward.
  destruct inFS; [|done].
  by destruct (freeSpinsRetriggerEnabled spec),
       (Qle_bool (freeSpinsRetriggerCount spec) (ofNat sc)).
Qed.

(** The award that the code credits.  When the reels have stopped, the
    award of the round is the bonus award (if the bonus is enabled and the
    scatter count reaches the trigger count) plus, only if free spins
    remain in the pool at that moment (after the free spin of this round
    was taken), the retrigger award (if retrigger is enabled and the count
    reaches the retrigger count); the two add up.  The pool of free spins
    grows by the award when the award is positive and is left as it is
    otherwise. *)
Lemma free_spin_award_after_round (p : Pending) (s : SlotScene.t) cells :
  readGrid (heap (world s)) (p_grid p) = Some cells ->
  exists s' eff,
    onStopped p s = Some (s', eff)
    /\ let inFS := Qlt_bool 0 (freeSpins s) in
       let sc :=
         scatterCount (Evaluator.evaluateGrid cells (bet s) (math s) inFS) in
       let award := awardRule inFS sc (math s) in
       freeSpins s'
       = (if Qlt_bool 0 award then freeSpins s + award else freeSpins s)%Q.
Proof.
  intros Hread.
  destruct (onStopped_spec p s cells Hread)
    as (s' & eff & Hstop & _ & Hfree & _).
  exists s', eff. split; [exact Hstop|]. cbv zeta.
  rewrite <- awardRule_code. exact Hfree.
Qed.
End SceneFacts.

Section SceneExamples.
Import SlotScene.

Lemma loadEnvMathSpec_default : EnvLoader.loadEnvMathSpec ∅ = Some defaultMath.
Proof. reflexivity. Qed.

Lemma loadEnvMathSpec_wildBonus :
  EnvLoader.loadEnvMathSpec envWildBonus = Some wildBonusMath.
Proof. vm_compute. reflexivity. Qed.

Lemma loadEnvMathSpec_scatterOne :
  EnvLoader.loadEnvMathSpec envScatterOne = Some scatterOneMath.
Proof. vm_compute. reflexivity. Qed.

(** A round that is a free spin takes one free spin from the pool and
    leaves the balance alone, so the pool read when the reels stop is one
    less than when the round was requested. *)
Lemma requestSpin_free_spin (s s1 : SlotScene.t) e p :
  (0 < freeSpins s)%Q ->
  requestSpin false s = Some (s1, e, Some p) ->
  freeSpins s1 = (freeSpins s - 1)%Q /\ balance s1 = balance s
  /\ p_freezeReels p = heldReels s.
Proof.
  intros Hfree. unfold requestSpin.
  destruct (negb (StateMachine.can (machine s) SPINNING)); [done|].
  destruct (negb (bool_decide (StateMachine.state (machine s) = IDLE)));
    [done|].
  assert (Hlt : Qlt_bool 0 (freeSpins s) = true) by (by apply Qlt_bool_true).
  rewrite Hlt. cbn [orb negb andb].
  unfold startSpinFlow, setState.
  destruct (StateMachine.set _ SPINNING) as [m f]. cbn.
  destruct (spinGrid _ _ _ _ _) as [[grid w']|]; [|done].
  cbn. intros [= <- _ <-]. done.
Qed.

(** C1 at the failing input.  With [QA_FORCE_SYMBOL=WILD],
    [QA_FORCE_BONUS=1], [FREESPINS_AWARD=1] and the draws 0/7, 1/7, ...,
    two rounds from the start leave the scene in IDLE with one free spin
    in the pool and no reel held.  The third round is that free spin: it
    takes the free spin and debits nothing.  When its reels stop the pool
    is empty, so the code does not treat the round as a free spin: every
    reel has a WILD and the mask stored holds all five reels, where the
    claim wants an all-false mask after a free spin. *)
Lemma C1_last_free_spin_keeps_holds :
  match playRounds 2 wildBonusScene with
  | Some s2 =>
      state s2 = IDLE /\ (freeSpins s2 == 1)%Q
      /\ match requestSpin false s2 with
         | Some (s3, _, Some p) =>
             balance s3 = balance s2 /\ (freeSpins s3 == 0)%Q
             /\ p_freezeReels p = Some [false; false; false; false; false]
             /\ match onStopped p s3 with
                | Some (s4, _) =>
                    heldReels s4 = Some [true; true; true; true; true]
                | None => False
                end
         | _ => False
         end
  | None => False
  end.
Proof.
  vm_eval (playRounds 2 wildBonusScene).
  split; [reflexivity|]. split; [reflexivity|].
  match goal with |- match ?r with Some _ => _ | None => _ end =>
    vm_eval r end.
  split; [reflexivity|]. split; [reflexivity|]. split; [reflexivity|].
  match goal with |- match ?r with Some _ => _ | None => _ end =>
    vm_eval r end.
  reflexivity.
Qed.

(** C6 at the failing input.  With [QA_FORCE_SYMBOL=SCATTER] and
    [FREESPINS_AWARD=1], the first round from the start is paid, shows 14
    scatters and awards one free spin.  The second round is that free
    spin.  Its grid has 14 scatters again, so the trigger count and the
    retrigger count are both reached and the claim wants 1 + 3 free spins;
    the pool is empty when the reels stop, the retrigger is not looked at,
    and the pool grows by 1. *)
Lemma C6_last_free_spin_no_retrigger :
  match playRounds 1 scatterOneScene with
  | Some s1 =>
      state s1 = IDLE /\ (freeSpins s1 == 1)%Q
      /\ match requestSpin false s1 with
         | Some (s2, _, Some p) =>
             balance s2 = balance s1 /\ (freeSpins s2 == 0)%Q
             /\ match readGrid (heap (world s2)) (p_grid p),
                      onStopped p s2 with
                | Some cells, Some (s3, _) =>
                    let sc :=
                      scatterCount
                        (Evaluator.evaluateGrid cells (bet s2) (math s2) false)
                    in
                    sc = 14%nat
                    /\ (awardRule true sc (math s2) == 4)%Q
                    /\ (freeSpins s3 - freeSpins s2 == 1)%Q
                | _, _ => False
                end
         | _ => False
         end
  | None => False
  end.
Proof.
  vm_eval (playRounds 1 scatterOneScene).
  split; [reflexivity|]. split; [reflexivity|].
  match goal with |- match ?r with Some _ => _ | None => _ end =>
    vm_eval r end.
  split; [reflexivity|]. split; [reflexivity|].
  match goal with |- match ?r with Some _ => _ | None => _ end =>
    vm_eval r end.
  match goal with |- match ?r with Some _ => _ | None => _ end =>
    vm_eval r end.
  cbv zeta.
  match goal with |- ?a = _ /\ _ =>
    eassert (Hsc : a = _) by (vm_compute; reflexivity); rewrite Hsc; clear Hsc
  end.
  split; [reflexivity|]. split; vm_compute; reflexivity.
Qed.
End SceneExamples.

(** ** The spin generator *)

Section GeneratorFacts.
Import SpinGenerator.

(** *** Array indices drawn from the random source *)

Lemma Qtrunc_floor x : (0 <= x)%Q -> Qtrunc x = Qfloor x.
Proof.
  destruct x as [n d]. unfold Qle, Qtrunc, Qfloor. simpl. intros Hn.
  apply Z.quot_div_nonneg; lia.
Qed.

(** [(rng() * n) | 0] is an index below [n]. *)
Lemma toInt32_index u (n : nat) :
  (0 <= u < 1)%Q -> (0 < n)%nat -> (Z.of_nat n < 2 ^ 31)%Z ->
  (0 <= toInt32 (u * ofNat n) < Z.of_nat n)%Z.
Proof.
  intros [Hu0 Hu1] Hn Hbig. unfold toInt32, ofNat.
  set (x := (u * inject_Z (Z.of_nat n))%Q).
  assert (Hn0 : (0 < inject_Z (Z.of_nat n))%Q).
  { rewrite <- (Zlt_Qlt 0). lia. }
  assert (Hx0 : (0 <= x)%Q) by (unfold x; nra).
  assert (Hx1 : (x < inject_Z (Z.of_nat n))%Q) by (unfold x; nra).
  rewrite (Qtrunc_floor x Hx0).
  assert (Hf0 : (0 <= Qfloor x)%Z).
  { change 0%Z with (Qfloor 0). by apply Qfloor_resp_le. }
  assert (Hf1 : (Qfloor x < Z.of_nat n)%Z).
  { rewrite Zlt_Qlt. eapply Qle_lt_trans; [apply Qfloor_le|done]. }
  rewrite Z.mod_small by lia.
  destruct (Qfloor x <? 2 ^ 31)%Z eqn:Hlt; [lia|].
  apply Z.ltb_ge in Hlt. lia.
Qed.

(** *** The passes only move the cursor of the random stream *)

Lemma rng_next_draws g : draws (snd (rng_next g)) = draws g.
Proof. reflexivity. Qed.

Lemma rng_next_valid g :
  rngValid g -> (0 <= fst (rng_next g) < 1)%Q /\ rngValid (snd (rng_next g)).
Proof. intros Hv. split; [apply Hv|exact Hv]. Qed.

Lemma rngValid_draws g g' : draws g' = draws g -> rngValid g -> rngValid g'.
Proof. unfold rngValid. by intros ->. Qed.

Lemma pickWeightedSymbol_draws math g :
  draws (snd (pickWeightedSymbol math g)) = draws g.
Proof. unfold pickWeightedSymbol. simpl. by destruct (pickLoop _ _ _). Qed.

Lemma pickMatchCount_draws g : draws (snd (pickMatchCount g)) = draws g.
Proof.
  unfold pickMatchCount. simpl.
  by repeat match goal with |- context [if ?b then _ else _] => destruct b end.
Qed.

Lemma pickFruit_draws math tries sym :
  forall g, draws (snd (pickFruit math tries sym g)) = draws g.
Proof.
  induction tries as [|tries IH]; intros g; simpl; [done|].
  pose proof (pickWeightedSymbol_draws math g) as Hd.
  destruct (pickWeightedSymbol math g) as [s g1]. simpl in Hd.
  destruct (_ && _); simpl; [done|]. by rewrite IH.
Qed.

Lemma pickDifferentLoop_draws math tries notThis :
  forall g, draws (snd (pickDifferentLoop math tries notThis g)) = draws g.
Proof.
  induction tries as [|tries IH]; intros g; simpl; [done|].
  pose proof (pickWeightedSymbol_draws math g) as Hd.
  destruct (pickWeightedSymbol math g) as [s g1]. simpl in Hd.
  destruct (_ && _); simpl; [done|]. by rewrite IH.
Qed.

Lemma pickDifferentNonScatter_draws math notThis g :
  draws (snd (pickDifferentNonScatter math notThis g)) = draws g.
Proof.
  unfold pickDifferentNonScatter.
  pose proof (pickDifferentLoop_draws math 20 notThis g) as Hd.
  by destruct (pickDifferentLoop math 20 notThis g) as [[s|] g1].
Qed.

Lemma fillArray_draws {X} n (f : Rng -> X * Rng) :
  (forall g, draws (snd (f g)) = draws g) ->
  forall g, draws (snd (fillArray n f g)) = draws g.
Proof.
  intros Hf. induction n as [|n IH]; intros g; simpl; [done|].
  pose proof (Hf g) as Hd. destruct (f g) as [x g1]. simpl in Hd.
  specialize (IH g1). destruct (fillArray n f g1) as [xs g2]. simpl in *.
  congruence.
Qed.

Lemma createWeightedGrid_draws math reels rows g :
  draws (snd (createWeightedGrid math reels rows g)) = draws g.
Proof.
  unfold createWeightedGrid. apply fillArray_draws. intros g0.
  apply fillArray_draws. apply pickWeightedSymbol_draws.
Qed.

Lemma pickLoop_None math symbols :
  forall roll,
    pickLoop math roll symbols = None
    <-> Forall (fun r => (0 < r)%Q) (remainders math roll symbols).
Proof.
  induction symbols as [|id rest IH]; intros roll; simpl.
  - split; [constructor|done].
  - destruct (Qle_bool (roll - weights math id) 0) eqn:Hb.
    + split; [done|]. intros Hall. apply Forall_cons in Hall as [Hpos _].
      apply Qle_bool_iff in Hb. by apply Qlt_not_le in Hpos.
    + rewrite IH. apply Qle_bool_false in Hb. split.
      * intros Hall. by constructor.
      * intros Hall. by apply Forall_cons in Hall as [_ ?].
Qed.

(** C9, amended.  When the subtraction loop runs through all symbols
    without its remainder reaching zero or less, the symbol returned is the
    fixed symbol A, whatever the declared list is; one draw is consumed. *)
Theorem C9_fallback_is_A math g :
  exhausts math g ->
  pickWeightedSymbol math g = (Sym.A, snd (rng_next g)).
Proof.
  unfold exhausts. intros Hex. apply pickLoop_None in Hex.
  unfold pickWeightedSymbol. destruct (rng_next g) as [u g'] eqn:Hnext.
  simpl in Hex |- *. by rewrite Hex.
Qed.

Lemma loadEnvMathSpec_negativeK :
  EnvLoader.loadEnvMathSpec envNegativeK = Some negativeKMath.
Proof. vm_compute. reflexivity. Qed.

Lemma C9_fallback_witness :
  pickWeightedSymbol negativeKMath halves = (Sym.A, snd (rng_next halves)).
Proof.
  apply C9_fallback_is_A. unfold exhausts.
  vm_compute. repeat constructor.
Defined.

(** C9 as stated fails: with [SYMBOLS=K] and [W_K=-1] the loop runs off
    the list (the remainder goes from -1/2 to 1/2), the last declared
    symbol is K, and the symbol returned is A. *)
Lemma C9_counterexample :
  exhausts negativeKMath halves
  /\ last (symbols negativeKMath) = Some Sym.K
  /\ fst (pickWeightedSymbol negativeKMath halves) = Sym.A
  /\ Some (fst (pickWeightedSymbol negativeKMath halves))
     <> last (symbols negativeKMath).
Proof.
  split; [unfold exhausts; vm_compute; repeat constructor|].
  split; [vm_compute; reflexivity|].
  split; [vm_compute; reflexivity|].
  vm_compute. discriminate.
Qed.




(** *** The passes keep the shape of the grid *)

Lemma dims_lookup (g : Grid) n m i col :
  dims g = replicate n m -> g !! i = Some col -> length col = m.
Proof.
  intros Hd Hi. assert (Hl : dims g !! i = Some (length col)).
  { unfold dims. by rewrite list_lookup_fmap, Hi. }
  rewrite Hd in Hl. by apply lookup_replicate in Hl as [-> _].
Qed.

Lemma dims_length (g : Grid) n m : dims g = replicate n m -> length g = n.
Proof.
  intros Hd. apply (f_equal length) in Hd. unfold dims in Hd.
  by rewrite length_map, length_replicate in Hd.
Qed.

Lemma gbind_Some {X Y} (m : Gen X) (k : X -> Gen Y) g y g' :
  gbind m k g = Some (y, g') ->
  exists x g1, m g = Some (x, g1) /\ k x g1 = Some (y, g').
Proof.
  unfold gbind. destruct (m g) as [[x g1]|]; [|done]. intros Hk. eauto.
Qed.

Lemma gopt_Some {X} (o : option X) g x g' :
  gopt o g = Some (x, g') -> o = Some x /\ g' = g.
Proof. unfold gopt. destruct o; [|done]. by intros [= -> ->]. Qed.

Lemma grid_set_dims grid r y x grid' :
  grid_set grid r y x = Some grid' -> dims grid' = dims grid.
Proof.
  unfold grid_set, arr_get, arr_set, dims.
  destruct (decide (0 <= r)%Z); [|done]. simpl.
  destruct (grid !! Z.to_nat r) as [col|] eqn:Hcol; [|done]. simpl.
  destruct (decide (0 <= y < Z.of_nat (length col))%Z); [|done]. simpl.
  destruct (decide (0 <= r < Z.of_nat (length grid))%Z); [|done].
  intros [= <-]. rewrite list_fmap_insert, length_insert.
  apply list_insert_id. by rewrite list_lookup_fmap, Hcol.
Qed.

Lemma writeRow_dims n :
  forall r row sym grid grid',
    writeRow n r row sym grid = Some grid' -> dims grid' = dims grid.
Proof.
  induction n as [|n IH]; intros r row sym grid grid' Hw; simpl in Hw.
  - by injection Hw as <-.
  - destruct (grid_set grid r row sym) as [g1|] eqn:Hset; [|done].
    simpl in Hw. rewrite (IH _ _ _ _ _ Hw). by eapply grid_set_dims.
Qed.

Lemma applyForcedWinLine_dims math grid g grid' g' :
  applyForcedWinLine math grid g = Some (grid', g') -> dims grid' = dims grid.
Proof.
  unfold applyForcedWinLine. intros Hrun.
  apply gbind_Some in Hrun as (col0 & g1 & _ & Hrun).
  apply gbind_Some in Hrun as (u & g2 & _ & Hrun).
  apply gbind_Some in Hrun as (c & g3 & _ & Hrun).
  apply gbind_Some in Hrun as (sym & g4 & _ & Hrun).
  apply gopt_Some in Hrun as [Hw _]. by eapply writeRow_dims.
Qed.

Lemma breakRow_dims math row grid g grid' g' :
  breakRow math row grid g = Some (grid', g') -> dims grid' = dims grid.
Proof.
  unfold breakRow. intros Hrun.
  apply gbind_Some in Hrun as (col0 & g1 & _ & Hrun).
  destruct (isSym (col0 !! row) (scatterSymbol math)).
  { by injection Hrun as <- _. }
  destruct (3 <=? _)%nat.
  - apply gbind_Some in Hrun as (s & g2 & _ & Hrun).
    apply gopt_Some in Hrun as [Hset _]. by eapply grid_set_dims.
  - by injection Hrun as <- _.
Qed.

Lemma breakRows_dims math rows :
  forall grid g grid' g',
    breakRows math rows grid g = Some (grid', g') -> dims grid' = dims grid.
Proof.
  induction rows as [|row rows IH]; intros grid g grid' g' Hrun; simpl in Hrun.
  - by injection Hrun as <- _.
  - apply gbind_Some in Hrun as (g1 & r1 & Hrow & Hrun).
    rewrite (IH _ _ _ _ Hrun). by eapply breakRow_dims.
Qed.

Lemma breakAccidentalWins_dims math grid g grid' g' :
  breakAccidentalWins math grid g = Some (grid', g') -> dims grid' = dims grid.
Proof.
  unfold breakAccidentalWins. intros Hrun.
  apply gbind_Some in Hrun as (col0 & g1 & _ & Hrun).
  by eapply breakRows_dims.
Qed.

Lemma forceScatterLoop_dims math reels rows desired budget :
  forall c grid g grid' g',
    forceScatterLoop math reels rows desired budget c grid g = Some (grid', g')
    -> dims grid' = dims grid.
Proof.
  induction budget as [|budget IH]; intros c grid g grid' g' Hrun;
    simpl in Hrun.
  - by injection Hrun as <- _.
  - destruct (Qlt_bool (inject_Z c) desired); [|by injection Hrun as <- _].
    apply gbind_Some in Hrun as (u1 & g1 & _ & Hrun).
    apply gbind_Some in Hrun as (u2 & g2 & _ & Hrun).
    apply gbind_Some in Hrun as (cell & g3 & _ & Hrun).
    destruct (negb (isSym cell (scatterSymbol math))).
    + apply gbind_Some in Hrun as (grid1 & g4 & Hset & Hrun).
      apply gopt_Some in Hset as [Hset _].
      rewrite (IH _ _ _ _ _ Hrun). by eapply grid_set_dims.
    + by eapply IH.
Qed.

Lemma applyForcedScatter_dims math grid desired g grid' g' :
  applyForcedScatter math grid desired g = Some (grid', g') ->
  dims grid' = dims grid.
Proof.
  unfold applyForcedScatter. intros Hrun.
  apply gbind_Some in Hrun as (col0 & g1 & _ & Hrun).
  by eapply forceScatterLoop_dims.
Qed.

Lemma limitScatterLoop_dims math reels rows limit budget :
  forall c grid g grid' g',
    limitScatterLoop math reels rows limit budget c grid g = Some (grid', g')
    -> dims grid' = dims grid.
Proof.
  induction budget as [|budget IH]; intros c grid g grid' g' Hrun;
    simpl in Hrun.
  - by injection Hrun as <- _.
  - destruct (Qle_bool limit (inject_Z c)); [|by injection Hrun as <- _].
    apply gbind_Some in Hrun as (u1 & g1 & _ & Hrun).
    apply gbind_Some in Hrun as (u2 & g2 & _ & Hrun).
    apply gbind_Some in Hrun as (cell & g3 & _ & Hrun).
    destruct (isSym cell (scatterSymbol math)).
    + apply gbind_Some in Hrun as (s & g4 & _ & Hrun).
      apply gbind_Some in Hrun as (grid1 & g5 & Hset & Hrun).
      apply gopt_Some in Hset as [Hset _].
      rewrite (IH _ _ _ _ _ Hrun). by eapply grid_set_dims.
    + by eapply IH.
Qed.

Lemma limitScatterBelow_dims math grid limit g grid' g' :
  limitScatterBelow math grid limit g = Some (grid', g') ->
  dims grid' = dims grid.
Proof.
  unfold limitScatterBelow. intros Hrun.
  destruct (Qlt_bool _ limit); [by injection Hrun as <- _|].
  apply gbind_Some in Hrun as (col0 & g1 & _ & Hrun).
  by eapply limitScatterLoop_dims.
Qed.

Lemma fillArray_length {X} n (f : Rng -> X * Rng) :
  forall g, length (fst (fillArray n f g)) = n.
Proof.
  induction n as [|n IH]; intros g; simpl; [done|].
  destruct (f g) as [x g1]. specialize (IH g1).
  destruct (fillArray n f g1) as [xs g2]. simpl in *. by rewrite IH.
Qed.

Lemma fillArray_Forall {X} (P : X -> Prop) n (f : Rng -> X * Rng) :
  (forall g, P (fst (f g))) ->
  forall g, Forall P (fst (fillArray n f g)).
Proof.
  intros Hf. induction n as [|n IH]; intros g; simpl; [constructor|].
  pose proof (Hf g) as Hx. destruct (f g) as [x g1]. specialize (IH g1).
  destruct (fillArray n f g1) as [xs g2]. simpl in *. by constructor.
Qed.

Lemma createWeightedGrid_dims math reels rows g :
  dims (fst (createWeightedGrid math reels rows g)) = replicate reels rows.
Proof.
  unfold createWeightedGrid, dims.
  pose proof (fillArray_length reels
                (fillArray rows (pickWeightedSymbol math)) g) as Hlen.
  pose proof (fillArray_Forall (fun col => length col = rows) reels
                (fillArray rows (pickWeightedSymbol math))
                (fillArray_length rows (pickWeightedSymbol math)) g) as Hall.
  destruct (fillArray reels _ g) as [grid g']. simpl in *. subst reels.
  induction Hall as [|col grid Hcol Hall IH]; simpl; [done|].
  by rewrite Hcol, IH.
Qed.

(** A generated grid has [reels] columns of [rows] cells. *)
Lemma generateSpin_dims math reels rows opts g gs g' :
  generateSpin math reels rows opts g = Some (gs, g') ->
  dims (grid gs) = replicate reels rows.
Proof.
  unfold generateSpin. intros Hrun.
  apply gbind_Some in Hrun as (forceScatter & g1 & _ & Hrun).
  apply gbind_Some in Hrun as (forceWin & g2 & _ & Hrun).
  apply gbind_Some in Hrun as (grid0 & g3 & Hgrid & Hrun).
  apply gbind_Some in Hrun as (grid1 & g4 & Hpass1 & Hrun).
  apply gbind_Some in Hrun as (grid2 & g5 & Hpass2 & Hrun).
  injection Hrun as <- _. simpl.
  assert (H0 : dims grid0 = replicate reels rows).
  { unfold glift in Hgrid. injection Hgrid as Hgrid.
    pose proof (createWeightedGrid_dims math reels rows g2) as Hd.
    by rewrite Hgrid in Hd. }
  assert (H0' : dims (match qaForceSymbol math with
                      | Some sym => map (map (fun _ => sym)) grid0
                      | None => grid0
                      end) = replicate reels rows).
  { destruct (qaForceSymbol math); [|done]. rewrite <- H0. unfold dims.
    rewrite <- list_fmap_compose. apply list_fmap_ext. intros ? col _.
    simpl. apply length_map. }
  assert (H1 : dims grid1 = replicate reels rows).
  { rewrite <- H0'. destruct forceWin.
    - by eapply applyForcedWinLine_dims.
    - by eapply breakAccidentalWins_dims. }
  rewrite <- H1. destruct forceScatter.
  - by eapply applyForcedScatter_dims.
  - by eapply limitScatterBelow_dims.
Qed.

Lemma arr_get_nat {X} (l : list X) (i : nat) : arr_get l (Z.of_nat i) = l !! i.
Proof.
  unfold arr_get. destruct (decide (0 <= Z.of_nat i)%Z); [|lia].
  by rewrite Nat2Z.id.
Qed.

Lemma arr_set_nat {X} (l : list X) (i : nat) (x : X) :
  (i < length l)%nat -> arr_set l (Z.of_nat i) x = Some (<[i := x]> l).
Proof.
  intros Hi. unfold arr_set.
  destruct (decide (0 <= Z.of_nat i < Z.of_nat (length l))%Z); [|lia].
  by rewrite Nat2Z.id.
Qed.

Lemma pickDifferentLoop_differs math tries notThis :
  forall g s g',
    pickDifferentLoop math tries notThis g = (Some s, g') ->
    Some s <> notThis /\ s <> scatterSymbol math.
Proof.
  induction tries as [|tries IH]; intros g s g' Hpick; simpl in Hpick;
    [done|].
  destruct (pickWeightedSymbol math g) as [s1 g1].
  destruct (bool_decide (s1 = scatterSymbol math)) eqn:Hsc;
    [by apply IH in Hpick|].
  destruct (bool_decide (Some s1 = notThis)) eqn:Hne;
    [by apply IH in Hpick|].
  simpl in Hpick. injection Hpick as <- <-.
  apply bool_decide_eq_false in Hsc, Hne. done.
Qed.

(** The replacement picker never returns the symbol it was told to
    avoid, whether a draw succeeded or the fallback was taken. *)
Lemma pickDifferentNonScatter_differs math notThis g :
  Some (fst (pickDifferentNonScatter math notThis g)) <> notThis.
Proof.
  unfold pickDifferentNonScatter.
  destruct (pickDifferentLoop math 20 notThis g) as [[s|] g'] eqn:Hpick;
    simpl.
  - by apply pickDifferentLoop_differs in Hpick as [? _].
  - destruct (isSym notThis Sym.A) eqn:HA.
    + apply isSym_true in HA. subst. done.
    + apply isSym_false in HA. done.
Qed.

(** One row of the pass on a grid with at least three reels: either the
    row starts with three equal cells that are not the scatter symbol, and
    the cell of reel 2 is replaced by a picked symbol, or nothing changes. *)
Lemma breakRow_spec math row c0 c1 c2 rest g f :
  c0 !! row = Some f ->
  (f <> scatterSymbol math /\ c1 !! row = Some f /\ c2 !! row = Some f
   /\ breakRow math row (c0 :: c1 :: c2 :: rest) g
      = Some (c0 :: c1
                 :: <[row := fst (pickDifferentNonScatter math (Some f) g)]> c2
                 :: rest,
              snd (pickDifferentNonScatter math (Some f) g)))
  \/ (~ (f <> scatterSymbol math /\ c1 !! row = Some f /\ c2 !! row = Some f)
      /\ breakRow math row (c0 :: c1 :: c2 :: rest) g
         = Some (c0 :: c1 :: c2 :: rest, g)).
Proof.
  intros Hf. unfold breakRow, gbind, gopt, gret, glift. simpl. rewrite Hf.
  destruct (isSym (Some f) (scatterSymbol math)) eqn:Hsc.
  { right. apply isSym_true in Hsc. split; [|done].
    intros (Hne & _). congruence. }
  apply isSym_false in Hsc.
  destruct (bool_decide (c1 !! row = Some f)) eqn:H1; simpl.
  - apply bool_decide_eq_true in H1.
    destruct (bool_decide (c2 !! row = Some f)) eqn:H2; simpl.
    + apply bool_decide_eq_true in H2. left.
      split; [congruence|]. split; [done|]. split; [done|].
      destruct (pickDifferentNonScatter math (Some f) g) as [s g'].
      unfold grid_set. rewrite (arr_get_nat _ 2). simpl.
      rewrite arr_set_nat by (by eapply lookup_lt_Some). simpl.
      by rewrite (arr_set_nat _ 2) by (simpl; lia).
    + apply bool_decide_eq_false in H2. right. split; [|done].
      intros (_ & _ & ?). done.
  - apply bool_decide_eq_false in H1. right. split; [|done].
    intros (_ & ? & _). done.
Qed.

(** The row loop on a grid with at least three reels: only column 2
    changes, and only at the rows visited. *)
Lemma breakRows_spec math c0 c1 rest rows :
  forall c2 g,
    NoDup rows -> (forall y, y ∈ rows -> (y < length c0)%nat) ->
    exists c2' g',
      breakRows math rows (c0 :: c1 :: c2 :: rest) g
      = Some (c0 :: c1 :: c2' :: rest, g')
      /\ (forall y, y ∉ rows -> c2' !! y = c2 !! y)
      /\ (forall y f, y ∈ rows -> c0 !! y = Some f ->
            (f <> scatterSymbol math /\ c1 !! y = Some f /\ c2 !! y = Some f ->
             exists s, c2' !! y = Some s /\ s <> f)
            /\ (~ (f <> scatterSymbol math /\ c1 !! y = Some f
                   /\ c2 !! y = Some f) ->
                c2' !! y = c2 !! y)).
Proof.
  induction rows as [|y0 rows IH]; intros c2 g Hnd Hin.
  { exists c2, g. split; [done|]. split; [done|].
    intros y f Hy. by apply elem_of_nil in Hy. }
  apply NoDup_cons in Hnd as [Hy0 Hnd].
  assert (Hlt : (y0 < length c0)%nat) by (apply Hin; by left).
  destruct (lookup_lt_is_Some_2 c0 y0 Hlt) as [f0 Hf0].
  assert (Hin' : forall y, y ∈ rows -> (y < length c0)%nat).
  { intros y Hy. apply Hin. by right. }
  simpl. unfold gbind at 1.
  destruct (breakRow_spec math y0 c0 c1 c2 rest g f0 Hf0)
    as [(Hne & H1 & H2 & ->)|(Hno & ->)].
  - set (s := fst (pickDifferentNonScatter math (Some f0) g)).
    destruct (IH (<[y0 := s]> c2)
                 (snd (pickDifferentNonScatter math (Some f0) g)) Hnd Hin')
      as (c2' & g' & Hrun & Hout & Hrows).
    exists c2', g'. split; [exact Hrun|]. split.
    + intros y Hy. apply not_elem_of_cons in Hy as [Hyne Hy].
      rewrite (Hout y Hy). by apply list_lookup_insert_ne.
    + intros y f Hy Hf. apply elem_of_cons in Hy as [->|Hy].
      * assert (f = f0) as -> by congruence.
        rewrite (Hout y0 Hy0).
        rewrite list_lookup_insert_eq by (by eapply lookup_lt_Some).
        split; [|intros Hno; by destruct Hno].
        intros _. exists s. split; [done|].
        intros Heq. apply (pickDifferentNonScatter_differs math (Some f0) g).
        fold s. by rewrite Heq.
      * assert (Hyne : y0 <> y) by (intros ->; done).
        destruct (Hrows y f Hy Hf) as [Hyes Hnot].
        rewrite list_lookup_insert_ne in Hyes, Hnot by done. done.
  - destruct (IH c2 g Hnd Hin') as (c2' & g' & Hrun & Hout & Hrows).
    exists c2', g'. split; [exact Hrun|]. split.
    + intros y Hy. apply not_elem_of_cons in Hy as [_ Hy]. by apply Hout.
    + intros y f Hy Hf. apply elem_of_cons in Hy as [->|Hy].
      * assert (f = f0) as -> by congruence.
        rewrite (Hout y0 Hy0). split; [|done]. intros Hyes. by destruct Hno.
      * by apply Hrows.
Qed.

(** C10. On a grid with at least three reels the pass returns a grid in
    which no row begins at reel 0 with three cells that hold the same
    symbol, unless that symbol is the scatter symbol; a row that did begin
    with three equal cells of another symbol has the cell of reel 2
    replaced by a different symbol; only reel 2 is touched; and the
    replacement picker never returns the symbol it must avoid. *)
Theorem C10_accidental_wins_broken math (grid : Grid) g :
  (3 <= length grid)%nat ->
  exists grid' g',
    breakAccidentalWins math grid g = Some (grid', g')
    /\ (forall y f, tripleAt grid' y f -> f = scatterSymbol math)
    /\ (forall y f, tripleAt grid y f -> f <> scatterSymbol math ->
          exists s, cellRC grid' 2 y = Some s /\ s <> f)
    /\ (forall r y, r <> 2%nat -> cellRC grid' r y = cellRC grid r y)
    /\ (forall notThis g0,
          Some (fst (pickDifferentNonScatter math notThis g0)) <> notThis).
Proof.
  intros Hlen. destruct grid as [|c0 [|c1 [|c2 rest]]]; simpl in Hlen; try lia.
  destruct (breakRows_spec math c0 c1 rest (seq 0 (length c0)) c2 g)
    as (c2' & g' & Hrun & Hout & Hrows).
  { apply NoDup_seq. }
  { intros y Hy. apply elem_of_seq in Hy. lia. }
  exists (c0 :: c1 :: c2' :: rest), g'.
  split; [exact Hrun|]. split; [|split; [|split]].
  - intros y f (H0 & H1 & H2). unfold cellRC in H0, H1, H2. simpl in H0, H1, H2.
    assert (Hy : y ∈ seq 0 (length c0)).
    { apply elem_of_seq. apply lookup_lt_Some in H0. lia. }
    destruct (Hrows y f Hy H0) as [Hyes Hnot].
    destruct (decide (f = scatterSymbol math)) as [|Hne]; [done|].
    destruct (decide (c2 !! y = Some f)) as [Hc2|Hc2].
    + destruct Hyes as (s & Hs & Hsf); [done|]. congruence.
    + rewrite Hnot in H2; [done|]. intros (_ & _ & ?). done.
  - intros y f (H0 & H1 & H2) Hne. unfold cellRC in *. simpl in *.
    assert (Hy : y ∈ seq 0 (length c0)).
    { apply elem_of_seq. apply lookup_lt_Some in H0. lia. }
    destruct (Hrows y f Hy H0) as [Hyes _]. by apply Hyes.
  - intros r y Hr. unfold cellRC.
    destruct r as [|[|[|r]]]; simpl; done.
  - intros notThis g0. apply pickDifferentNonScatter_differs.
Qed.

Lemma C10_accidental_wins_witness :
  exists grid' g',
    breakAccidentalWins defaultMath (uniformGrid Sym.A) halves
    = Some (grid', g')
    /\ (forall y f, tripleAt grid' y f -> f = scatterSymbol defaultMath)
    /\ (forall y f, tripleAt (uniformGrid Sym.A) y f ->
          f <> scatterSymbol defaultMath ->
          exists s, cellRC grid' 2 y = Some s /\ s <> f)
    /\ (forall r y, r <> 2%nat ->
          cellRC grid' r y = cellRC (uniformGrid Sym.A) r y)
    /\ (forall notThis g0,
          Some (fst (pickDifferentNonScatter defaultMath notThis g0))
          <> notThis).
Proof.
  apply (C10_accidental_wins_broken defaultMath (uniformGrid Sym.A) halves).
  simpl. lia.
Defined.

(** *** The generator returns

    On a grid of [reels] columns of [rows] cells, with a random source that
    keeps its contract, every pass returns: the indices it draws are inside
    the grid. *)

Lemma grid_get_total (grid : Grid) reels rows r y :
  dims grid = replicate reels rows -> (0 <= r < Z.of_nat reels)%Z ->
  is_Some (grid_get grid r y).
Proof.
  intros Hd Hr. unfold grid_get, arr_get.
  destruct (decide (0 <= r)%Z); [|lia].
  destruct (lookup_lt_is_Some_2 grid (Z.to_nat r)) as [col Hcol].
  { rewrite (dims_length _ _ _ Hd). lia. }
  rewrite Hcol. simpl. by eexists.
Qed.

Lemma grid_set_total (grid : Grid) reels rows r y x :
  dims grid = replicate reels rows ->
  (0 <= r < Z.of_nat reels)%Z -> (0 <= y < Z.of_nat rows)%Z ->
  is_Some (grid_set grid r y x).
Proof.
  intros Hd Hr Hy. unfold grid_set, arr_get, arr_set.
  destruct (decide (0 <= r)%Z); [|lia].
  destruct (lookup_lt_is_Some_2 grid (Z.to_nat r)) as [col Hcol].
  { rewrite (dims_length _ _ _ Hd). lia. }
  rewrite Hcol. simpl. rewrite (dims_lookup _ _ _ _ _ Hd Hcol).
  destruct (decide (0 <= y < Z.of_nat rows)%Z); [|lia]. simpl.
  rewrite (dims_length _ _ _ Hd).
  destruct (decide (0 <= r < Z.of_nat reels)%Z); [|lia]. by eexists.
Qed.

Lemma writeRow_total reels rows row sym n :
  forall r (grid : Grid),
    dims grid = replicate reels rows ->
    (0 <= r)%Z -> (r + Z.of_nat n <= Z.of_nat reels)%Z ->
    (0 <= row < Z.of_nat rows)%Z ->
    is_Some (writeRow n r row sym grid).
Proof.
  induction n as [|n IH]; intros r grid Hd Hr Hn Hrow; simpl; [by eexists|].
  destruct (grid_set_total grid reels rows r row sym Hd) as [g1 Hset];
    [lia|done|].
  rewrite Hset. simpl. apply IH; [|lia|lia|done].
  rewrite <- Hd. by eapply grid_set_dims.
Qed.

Lemma applyForcedWinLine_total math (grid : Grid) reels rows g :
  dims grid = replicate reels rows ->
  (0 < reels)%nat -> (0 < rows)%nat -> (Z.of_nat rows < 2 ^ 31)%Z ->
  rngValid g ->
  exists grid' g',
    applyForcedWinLine math grid g = Some (grid', g')
    /\ draws g' = draws g.
Proof.
  intros Hd Hreels Hrows Hbig Hv. unfold applyForcedWinLine.
  destruct (lookup_lt_is_Some_2 grid 0) as [col0 Hcol0].
  { rewrite (dims_length _ _ _ Hd). lia. }
  unfold gbind, gopt, glift. rewrite Hcol0. cbn [rng_next fst snd].
  rewrite (dims_lookup _ _ _ _ _ Hd Hcol0).
  set (g1 := {| draws := draws g; cursor := S (cursor g) |}).
  pose proof (pickMatchCount_draws g1) as Hd2.
  destruct (pickMatchCount g1) as [count g2]. simpl in Hd2.
  pose proof (pickFruit_draws math 10 Sym.A g2) as Hd3.
  destruct (pickFruit math 10 Sym.A g2) as [sym g3]. simpl in Hd3.
  destruct (writeRow_total reels rows
              (toInt32 (draws g (cursor g) * ofNat rows)) sym
              (Nat.min (length grid) count) 0 grid Hd) as [grid' Hw].
  { lia. }
  { rewrite (dims_length _ _ _ Hd). lia. }
  { apply toInt32_index; [apply Hv|done|done]. }
  rewrite Hw. exists grid', g3. split; [done|]. by rewrite Hd3, Hd2.
Qed.

Lemma breakRow_draws math row grid g grid' g' :
  breakRow math row grid g = Some (grid', g') -> draws g' = draws g.
Proof.
  unfold breakRow. intros Hrun.
  apply gbind_Some in Hrun as (col0 & g1 & Hc & Hrun).
  apply gopt_Some in Hc as [_ ->].
  destruct (isSym (col0 !! row) (scatterSymbol math)).
  { by injection Hrun as _ <-. }
  destruct (3 <=? _)%nat.
  - apply gbind_Some in Hrun as (s & g2 & Hpick & Hrun).
    apply gopt_Some in Hrun as [_ ->].
    unfold glift in Hpick. injection Hpick as Hpick.
    pose proof (pickDifferentNonScatter_draws math (col0 !! row) g) as Hd.
    by rewrite Hpick in Hd.
  - by injection Hrun as _ <-.
Qed.

Lemma breakRows_draws math rows :
  forall grid g grid' g',
    breakRows math rows grid g = Some (grid', g') -> draws g' = draws g.
Proof.
  induction rows as [|row rows IH]; intros grid g grid' g' Hrun; simpl in Hrun.
  - by injection Hrun as _ <-.
  - apply gbind_Some in Hrun as (g1 & r1 & Hrow & Hrun).
    rewrite (IH _ _ _ _ Hrun). by eapply breakRow_draws.
Qed.

Lemma breakAccidentalWins_total math (grid : Grid) g :
  (3 <= length grid)%nat ->
  exists grid' g',
    breakAccidentalWins math grid g = Some (grid', g')
    /\ draws g' = draws g.
Proof.
  intros Hlen. destruct grid as [|c0 [|c1 [|c2 rest]]]; simpl in Hlen; try lia.
  destruct (breakRows_spec math c0 c1 rest (seq 0 (length c0)) c2 g)
    as (c2' & g' & Hrun & _).
  { apply NoDup_seq. }
  { intros y Hy. apply elem_of_seq in Hy. lia. }
  exists (c0 :: c1 :: c2' :: rest), g'. split; [exact Hrun|].
  by eapply breakRows_draws.
Qed.

Lemma forceScatterLoop_total math reels rows desired budget :
  (0 < reels)%nat -> (Z.of_nat reels < 2 ^ 31)%Z ->
  (0 < rows)%nat -> (Z.of_nat rows < 2 ^ 31)%Z ->
  forall c (grid : Grid) g,
    dims grid = replicate reels rows -> rngValid g ->
    exists grid' g',
      forceScatterLoop math reels rows desired budget c grid g
      = Some (grid', g')
      /\ draws g' = draws g.
Proof.
  intros Hreels Hreels' Hrows Hrows'.
  induction budget as [|budget IH]; intros c grid g Hd Hv; simpl.
  { by exists grid, g. }
  destruct (Qlt_bool (inject_Z c) desired); [|by exists grid, g].
  unfold gbind at 1, glift at 1. cbn [rng_next].
  unfold gbind at 1, glift at 1. cbn [rng_next draws cursor].
  set (g2 := {| draws := draws g; cursor := S (S (cursor g)) |}).
  assert (Hv2 : rngValid g2) by (intros n; apply Hv).
  set (r := toInt32 (draws g (cursor g) * ofNat reels)).
  set (y := toInt32 (draws g (S (cursor g)) * ofNat rows)).
  assert (Hr : (0 <= r < Z.of_nat reels)%Z)
    by (apply toInt32_index; [apply Hv|done|done]).
  assert (Hy : (0 <= y < Z.of_nat rows)%Z)
    by (apply toInt32_index; [apply Hv|done|done]).
  destruct (grid_get_total grid reels rows r y Hd Hr) as [cell Hcell].
  unfold gbind at 1, gopt at 1. rewrite Hcell.
  destruct (negb (isSym cell (scatterSymbol math))).
  - destruct (grid_set_total grid reels rows r y (scatterSymbol math)
                Hd Hr Hy) as [grid1 Hset].
    unfold gbind at 1, gopt at 1. rewrite Hset.
    apply (IH (c + 1)%Z grid1 g2); [|done].
    rewrite <- Hd. by eapply grid_set_dims.
  - by apply (IH c grid g2).
Qed.

Lemma applyForcedScatter_total math (grid : Grid) desired reels rows g :
  dims grid = replicate reels rows ->
  (0 < reels)%nat -> (Z.of_nat reels < 2 ^ 31)%Z ->
  (0 < rows)%nat -> (Z.of_nat rows < 2 ^ 31)%Z ->
  rngValid g ->
  exists grid' g',
    applyForcedScatter math grid desired g = Some (grid', g')
    /\ draws g' = draws g.
Proof.
  intros Hd Hreels Hreels' Hrows Hrows' Hv. unfold applyForcedScatter.
  destruct (lookup_lt_is_Some_2 grid 0) as [col0 Hcol0].
  { rewrite (dims_length _ _ _ Hd). lia. }
  unfold gbind at 1, gopt at 1. rewrite Hcol0.
  rewrite (dims_lookup _ _ _ _ _ Hd Hcol0), (dims_length _ _ _ Hd).
  by apply forceScatterLoop_total.
Qed.

Lemma limitScatterLoop_total math reels rows limit budget :
  (0 < reels)%nat -> (Z.of_nat reels < 2 ^ 31)%Z ->
  (0 < rows)%nat -> (Z.of_nat rows < 2 ^ 31)%Z ->
  forall c (grid : Grid) g,
    dims grid = replicate reels rows -> rngValid g ->
    exists grid' g',
      limitScatterLoop math reels rows limit budget c grid g
      = Some (grid', g')
      /\ draws g' = draws g.
Proof.
  intros Hreels Hreels' Hrows Hrows'.
  induction budget as [|budget IH]; intros c grid g Hd Hv; simpl.
  { by exists grid, g. }
  destruct (Qle_bool limit (inject_Z c)); [|by exists grid, g].
  unfold gbind at 1, glift at 1. cbn [rng_next].
  unfold gbind at 1, glift at 1. cbn [rng_next draws cursor].
  set (g2 := {| draws := draws g; cursor := S (S (cursor g)) |}).
  assert (Hv2 : rngValid g2) by (intros n; apply Hv).
  set (r := toInt32 (draws g (cursor g) * ofNat reels)).
  set (y := toInt32 (draws g (S (cursor g)) * ofNat rows)).
  assert (Hr : (0 <= r < Z.of_nat reels)%Z)
    by (apply toInt32_index; [apply Hv|done|done]).
  assert (Hy : (0 <= y < Z.of_nat rows)%Z)
    by (apply toInt32_index; [apply Hv|done|done]).
  destruct (grid_get_total grid reels rows r y Hd Hr) as [cell Hcell].
  unfold gbind at 1, gopt at 1. rewrite Hcell.
  destruct (isSym cell (scatterSymbol math)).
  - unfold gbind at 1, glift at 1.
    pose proof (pickDifferentNonScatter_draws math
                  (Some (scatterSymbol math)) g2) as Hd3.
    destruct (pickDifferentNonScatter math (Some (scatterSymbol math)) g2)
      as [s g3]. simpl in Hd3.
    destruct (grid_set_total grid reels rows r y s Hd Hr Hy)
      as [grid1 Hset].
    unfold gbind at 1, gopt at 1. rewrite Hset.
    destruct (IH (c - 1)%Z grid1 g3) as (grid' & g' & Hrun & Hg').
    { rewrite <- Hd. by eapply grid_set_dims. }
    { intros n. rewrite Hd3. apply Hv. }
    exists grid', g'. split; [exact Hrun|]. by rewrite Hg', Hd3.
  - by apply (IH c grid g2).
Qed.

Lemma limitScatterBelow_total math (grid : Grid) limit reels rows g :
  dims grid = replicate reels rows ->
  (0 < reels)%nat -> (Z.of_nat reels < 2 ^ 31)%Z ->
  (0 < rows)%nat -> (Z.of_nat rows < 2 ^ 31)%Z ->
  rngValid g ->
  exists grid' g',
    limitScatterBelow math grid limit g = Some (grid', g')
    /\ draws g' = draws g.
Proof.
  intros Hd Hreels Hreels' Hrows Hrows' Hv. unfold limitScatterBelow.
  destruct (Qlt_bool _ limit); [by exists grid, g|].
  destruct (lookup_lt_is_Some_2 grid 0) as [col0 Hcol0].
  { rewrite (dims_length _ _ _ Hd). lia. }
  unfold gbind at 1, gopt at 1. rewrite Hcol0.
  rewrite (dims_lookup _ _ _ _ _ Hd Hcol0), (dims_length _ _ _ Hd).
  by apply limitScatterLoop_total.
Qed.

(** [generateSpin] returns: none of its passes reads or writes outside the
    grid. *)
Lemma generateSpin_runs math reels rows opts g :
  (3 <= reels)%nat -> (Z.of_nat reels < 2 ^ 31)%Z ->
  (0 < rows)%nat -> (Z.of_nat rows < 2 ^ 31)%Z ->
  rngValid g ->
  exists gs g',
    generateSpin math reels rows opts g = Some (gs, g')
    /\ draws g' = draws g.
Proof.
  intros Hreels Hreels' Hrows Hrows' Hv.
  assert (Hflag : forall (b : bool) (p : number) g0,
             exists f g1,
               (if b then gret true
                else gbind (glift rng_next) (fun u => gret (Qlt_bool u p))) g0
               = Some (f, g1) /\ draws g1 = draws g0).
  { intros b p g0. destruct b; [by exists true, g0|].
    unfold gbind, glift, gret. cbn [rng_next]. by eexists _, _. }
  assert (Hsome : exists gs g',
             generateSpin math reels rows opts g = Some (gs, g')
             /\ draws g' = draws g).
  { unfold generateSpin.
    destruct (Hflag (qaForceBonus math)
                (default (bonusTargetFrequency math)
                         (opts ≫= o_bonusTargetFrequency)) g)
      as (forceScatter & g1 & H1 & Hd1).
    unfold gbind at 1. rewrite H1.
    destruct (Hflag (qaForceWin math)
                (default (hitRate math) (opts ≫= o_hitRate)) g1)
      as (forceWin & g2 & H2 & Hd2).
    unfold gbind at 1. rewrite H2.
    unfold gbind at 1, glift at 1.
    pose proof (createWeightedGrid_dims math reels rows g2) as Hshape.
    pose proof (createWeightedGrid_draws math reels rows g2) as Hd3.
    destruct (createWeightedGrid math reels rows g2) as [grid0 g3].
    simpl in Hshape, Hd3.
    set (grid0' := match qaForceSymbol math with
                   | Some sym => map (map (fun _ => sym)) grid0
                   | None => grid0
                   end).
    assert (Hshape' : dims grid0' = replicate reels rows).
    { subst grid0'. destruct (qaForceSymbol math); [|done].
      rewrite <- Hshape. unfold dims.
      rewrite <- list_fmap_compose. apply list_fmap_ext. intros ? col _.
      simpl. apply length_map. }
    assert (Hv3 : rngValid g3).
    { intros n. rewrite Hd3, Hd2, Hd1. apply Hv. }
    assert (Hpass1 : exists grid1 g4,
               (if forceWin then applyForcedWinLine math grid0'
                else breakAccidentalWins math grid0') g3 = Some (grid1, g4)
               /\ draws g4 = draws g3).
    { destruct forceWin.
      - apply (applyForcedWinLine_total math grid0' reels rows);
          [done|lia|done|done|done].
      - apply breakAccidentalWins_total.
        rewrite (dims_length _ _ _ Hshape'). lia. }
    destruct Hpass1 as (grid1 & g4 & Hpass1 & Hd4).
    unfold gbind at 1. rewrite Hpass1.
    assert (Hshape1 : dims grid1 = replicate reels rows).
    { rewrite <- Hshape'. destruct forceWin.
      - by eapply applyForcedWinLine_dims.
      - by eapply breakAccidentalWins_dims. }
    assert (Hv4 : rngValid g4).
    { intros n. rewrite Hd4. apply Hv3. }
    assert (Hpass2 : exists grid2 g5,
               (if forceScatter
                then applyForcedScatter math grid1 (bonusTriggerCount math)
                else limitScatterBelow math grid1 (bonusTriggerCount math))
                 g4 = Some (grid2, g5)
               /\ draws g5 = draws g4).
    { destruct forceScatter.
      - apply (applyForcedScatter_total math grid1 _ reels rows);
          [done|lia|done|done|done|done].
      - apply (limitScatterBelow_total math grid1 _ reels rows);
          [done|lia|done|done|done|done]. }
    destruct Hpass2 as (grid2 & g5 & Hpass2 & Hd5).
    unfold gbind at 1. rewrite Hpass2.
    eexists _, g5. split; [reflexivity|].
    by rewrite Hd5, Hd4, Hd3, Hd2, Hd1. }
  exact Hsome.
Qed.

(** [generateSpin] returns a grid on every board of at least three reels and
    one row (sizes within the 32-bit range of [| 0]), whatever the maths and
    the overrides, as long as [rng.next()] stays in [0, 1).  The grid has
    the size asked for, and the random source is the same stream further
    on, so that it still keeps its contract. *)
Theorem generateSpin_total math reels rows opts g :
  (3 <= reels)%nat -> (Z.of_nat reels < 2 ^ 31)%Z ->
  (0 < rows)%nat -> (Z.of_nat rows < 2 ^ 31)%Z ->
  rngValid g ->
  exists gs g',
    generateSpin math reels rows opts g = Some (gs, g')
    /\ dims (grid gs) = replicate reels rows
    /\ draws g' = draws g
    /\ rngValid g'.
Proof.
  intros Hreels Hreels' Hrows Hrows' Hv.
  destruct (generateSpin_runs math reels rows opts g Hreels Hreels' Hrows
              Hrows' Hv) as (gs & g' & Hrun & Hd).
  exists gs, g'. split; [exact Hrun|].
  split; [by eapply generateSpin_dims|]. split; [exact Hd|].
  intros n. rewrite Hd. apply Hv.
Qed.
End GeneratorFacts.

(** ** The hold-aware composer *)

Section ComposerFacts.
Implicit Types (h : gmap nat (list SymbolId)).

Lemma alloc_fresh h col : h !! fst (alloc h col) = None.
Proof. unfold alloc. simpl. apply not_elem_of_dom. apply is_fresh. Qed.

Lemma alloc_subseteq h col : h ⊆ snd (alloc h col).
Proof. unfold alloc. simpl. apply insert_subseteq, (alloc_fresh h col). Qed.

Lemma alloc_lookup h col : snd (alloc h col) !! fst (alloc h col) = Some col.
Proof. unfold alloc. simpl. apply lookup_insert_eq. Qed.

Lemma allocGrid_cons h col rest :
  allocGrid h (col :: rest)
  = let '(l, h1) := alloc h col in
    let '(ls, h2) := allocGrid h1 rest in (l :: ls, h2).
Proof. reflexivity. Qed.

Lemma holdStep_held prev held r (next : list nat) h pl c :
  default false (held !! r) = true -> prev !! r = Some pl -> h !! pl = Some c ->
  holdStep prev held r (next, h)
  = Some (<[r := fst (alloc h c)]> next, snd (alloc h c)).
Proof.
  intros Hh Hpl Hc. unfold holdStep. rewrite Hh, Hpl. simpl. rewrite Hc.
  simpl. by destruct (alloc h c).
Qed.

Lemma holdStep_free prev held r (next : list nat) h :
  default false (held !! r) = false ->
  holdStep prev held r (next, h) = Some (next, h).
Proof. intros Hh. unfold holdStep. by rewrite Hh. Qed.

(** Allocating a grid leaves the store's old columns as they are and
    yields columns that read back as the grid. *)
Lemma allocGrid_spec g :
  forall h, h ⊆ snd (allocGrid h g)
            /\ readGrid (snd (allocGrid h g)) (fst (allocGrid h g)) = Some g
            /\ length (fst (allocGrid h g)) = length g.
Proof.
  induction g as [|col rest IH]; intros h.
  - done.
  - rewrite allocGrid_cons.
    destruct (alloc h col) as [l h1] eqn:Hal.
    destruct (allocGrid h1 rest) as [ls h2] eqn:Hrest.
    destruct (IH h1) as (Hsub & Hread & Hlen). rewrite Hrest in *. simpl in *.
    assert (Hh1 : h ⊆ h1).
    { pose proof (alloc_subseteq h col) as Hs. by rewrite Hal in Hs. }
    assert (Hl : h1 !! l = Some col).
    { pose proof (alloc_lookup h col) as Hs. by rewrite Hal in Hs. }
    split; [by etrans|]. split; [|by rewrite Hlen].
    unfold readGrid in *. simpl.
    rewrite (lookup_weaken _ _ _ _ Hl Hsub). simpl. by rewrite Hread.
Qed.

Lemma spin_frame model opts w next w1 :
  spin model opts w = Some (next, w1) ->
  heap w ⊆ heap w1
  /\ exists gs, SpinGenerator.generateSpin (model_math model)
                  (reels_count (config model)) (reels_rows (config model))
                  opts (rng w) = Some (gs, rng w1)
                /\ readGrid (heap w1) next = Some (SpinGenerator.grid gs).
Proof.
  unfold spin. destruct (SpinGenerator.generateSpin _ _ _ _ _)
    as [[gs g']|] eqn:Hgen; [|done].
  destruct (allocGrid (heap w) (SpinGenerator.grid gs)) as [refs h'] eqn:Hal.
  intros [= <- <-]. simpl.
  destruct (allocGrid_spec (SpinGenerator.grid gs) (heap w)) as (Hsub & Hread & _).
  rewrite Hal in *. simpl in *. split; [done|]. by exists gs.
Qed.

Lemma holdLoop_spec prev held rs :
  forall (next : list nat) h,
    NoDup rs ->
    (forall r, r ∈ rs -> held !! r = Some true ->
       exists pl, prev !! r = Some pl /\ is_Some (h !! pl)) ->
    exists next' h',
      holdLoop prev held rs (next, h) = Some (next', h')
      /\ h ⊆ h'
      /\ length next' = length next
      /\ (forall r, r ∉ rs -> next' !! r = next !! r)
      /\ (forall r, r ∈ rs -> (r < length next)%nat ->
            if default false (held !! r)
            then exists l pl, next' !! r = Some l /\ prev !! r = Some pl
                              /\ isCopyOf h h' l pl
            else next' !! r = next !! r).
Proof.
  induction rs as [|r0 rs IH]; intros next h Hnd Hwf.
  { exists next, h. repeat split; [done|]. intros r Hr. by apply elem_of_nil in Hr. }
  apply NoDup_cons in Hnd as [Hr0 Hnd]. cbn [holdLoop].
  destruct (default false (held !! r0)) eqn:Hheld.
  - assert (Hh : held !! r0 = Some true).
    { destruct (held !! r0) as [[|]|]; simpl in Hheld; congruence. }
    destruct (Hwf r0 (list_elem_of_here _ _) Hh) as (pl & Hpl & [c Hc]).
    rewrite (holdStep_held _ _ _ _ _ _ _ Hheld Hpl Hc).
    destruct (alloc h c) as [l h1] eqn:Hal. simpl.
    assert (Hfresh : h !! l = None).
    { pose proof (alloc_fresh h c) as Hs. by rewrite Hal in Hs. }
    assert (Hsub1 : h ⊆ h1).
    { pose proof (alloc_subseteq h c) as Hs. by rewrite Hal in Hs. }
    assert (Hl1 : h1 !! l = Some c).
    { pose proof (alloc_lookup h c) as Hs. by rewrite Hal in Hs. }
    destruct (IH (<[r0 := l]> next) h1 Hnd) as (next' & h' & Hrun & Hsub & Hlen & Hout & Hin).
    { intros r Hr Hrh. destruct (Hwf r (list_elem_of_further _ _ _ Hr) Hrh)
        as (pl' & Hpl' & [c' Hc']).
      exists pl'. split; [done|]. exists c'. by eapply lookup_weaken. }
    exists next', h'. split; [exact Hrun|]. split; [by etrans|].
    split; [by rewrite Hlen, length_insert|]. split.
    + intros r Hr. apply not_elem_of_cons in Hr as [Hne Hr].
      rewrite (Hout r Hr). by apply list_lookup_insert_ne.
    + intros r Hr Hlt. apply elem_of_cons in Hr as [->|Hr].
      * rewrite Hheld. exists l, pl. rewrite (Hout r0 Hr0).
        rewrite list_lookup_insert_eq by done.
        split; [done|]. split; [done|]. split; [by apply not_elem_of_dom|].
        split; [congruence|]. exists c. split; [done|].
        by eapply lookup_weaken.
      * assert (Hne : r0 <> r) by (intros ->; done).
        specialize (Hin r Hr). rewrite length_insert in Hin.
        specialize (Hin Hlt).
        destruct (default false (held !! r)) eqn:Hhr.
        -- destruct Hin as (l' & pl' & Hl' & Hpl' & Hfr & Hne' & c' & Hc1 & Hc2).
           assert (Hh' : held !! r = Some true).
           { destruct (held !! r) as [[|]|]; simpl in Hhr; congruence. }
           destruct (Hwf r (list_elem_of_further _ _ _ Hr) Hh')
             as (pl'' & Hpl'' & [c'' Hc'']).
           assert (pl'' = pl') as -> by congruence.
           exists l', pl'. split; [done|]. split; [done|]. split.
           { intros Hd. apply Hfr. by apply (subseteq_dom h h1). }
           split; [done|]. exists c''. split; [done|].
           assert (h1 !! pl' = Some c'') by (by eapply lookup_weaken).
           congruence.
        -- rewrite Hin. by apply list_lookup_insert_ne.
  - rewrite (holdStep_free _ _ _ _ _ Hheld). simpl.
    destruct (IH next h Hnd) as (next' & h' & Hrun & Hsub & Hlen & Hout & Hin).
    { intros r Hr Hrh. apply Hwf; [by right|done]. }
    exists next', h'. split; [exact Hrun|]. split; [done|]. split; [done|].
    split.
    + intros r Hr. apply not_elem_of_cons in Hr as [_ Hr]. by apply Hout.
    + intros r Hr Hlt. apply elem_of_cons in Hr as [->|Hr].
      * rewrite Hheld. by apply Hout.
      * by apply Hin.
Qed.

(** C5.  The generator runs first: the composition succeeds whenever the
    generator does and leaves the random stream where the generator left
    it, with or without holds, and the columns that existed before are not
    changed.  If the previous grid or the hold mask is null, the
    generator's grid is returned as it is.  Otherwise, for every reel [r] of
    the new grid, a held reel gets a new column that is a copy of column
    [r] of the previous grid (another object, with the contents that
    column had before the call), and a reel that is not held keeps the
    generated column.  The held reels are assumed to exist in the previous
    grid, as they do for grids of one session. *)
Theorem C5_spinGrid_composes model (previousGrid : option (list nat))
    (heldReels : option (list bool)) opts w next w1 :
  spin model opts w = Some (next, w1) ->
  (forall prev held r,
     previousGrid = Some prev -> heldReels = Some held ->
     (r < length next)%nat -> held !! r = Some true ->
     exists pl, prev !! r = Some pl /\ is_Some (heap w !! pl)) ->
  exists result w2,
    spinGrid model previousGrid heldReels opts w = Some (result, w2)
    /\ rng w2 = rng w1
    /\ heap w1 ⊆ heap w2
    /\ length result = length next
    /\ (previousGrid = None \/ heldReels = None -> result = next /\ w2 = w1)
    /\ (forall prev held r,
          previousGrid = Some prev -> heldReels = Some held ->
          (r < length next)%nat ->
          if default false (held !! r)
          then exists l pl,
                 result !! r = Some l /\ prev !! r = Some pl
                 /\ isCopyOf (heap w1) (heap w2) l pl
                 /\ heap w1 !! pl = heap w !! pl
          else result !! r = next !! r).
Proof.
  intros Hspin Hwf. destruct (spin_frame _ _ _ _ _ Hspin) as [Hsub _].
  unfold spinGrid. rewrite Hspin. simpl.
  destruct previousGrid as [prev|], heldReels as [held|];
    try (exists next, w1; repeat split; try done;
         by intros [?|?]).
  destruct (holdLoop_spec prev held (seq 0 (length next)) next (heap w1))
    as (next' & h' & Hrun & Hsub' & Hlen & _ & Hin).
  { apply NoDup_seq. }
  { intros r Hr Hh. apply elem_of_seq in Hr.
    destruct (Hwf prev held r eq_refl eq_refl) as (pl & Hpl & [c Hc]);
      [lia|done|].
    exists pl. split; [done|]. exists c. by eapply lookup_weaken. }
  rewrite Hrun. simpl. eexists next', _. split; [reflexivity|]. simpl.
  split; [done|]. split; [done|]. split; [done|]. split.
  { by intros [?|?]. }
  intros prev' held' r [= <-] [= <-] Hr.
  assert (Hrin : r ∈ seq 0 (length next)) by (apply elem_of_seq; lia).
  specialize (Hin r Hrin Hr).
  destruct (default false (held !! r)) eqn:Hh; [|done].
  destruct Hin as (l & pl & Hl & Hpl & Hcopy).
  exists l, pl. split; [done|]. split; [done|]. split; [done|].
  assert (Hhr : held !! r = Some true).
  { destruct (held !! r) as [[|]|]; simpl in Hh; congruence. }
  destruct (Hwf prev held r eq_refl eq_refl Hr Hhr) as (pl' & Hpl' & [c Hc]).
  assert (pl' = pl) as -> by congruence.
  rewrite Hc. by eapply lookup_weaken.
Qed.

Lemma spinGrid_generator_fails model previousGrid heldReels opts w :
  spin model opts w = None ->
  spinGrid model previousGrid heldReels opts w = None.
Proof. intros Hspin. unfold spinGrid. by rewrite Hspin. Qed.

End ComposerFacts.

(** ** The math-spec loader *)

Section LoaderFacts.
Import EnvLoader.

Lemma env_get_absent (e : gmap string EnvValue) k :
  e !! k = None -> env_get e k = VUndefined.
Proof. intros Hk. unfold env_get. by rewrite Hk. Qed.





(** The same configuration breaks the two bet conditions as well, and a
    symbol key that holds a number makes the resolver raise. *)
Lemma resolver_out_of_range :
  (weights (buildSpec envOutOfRange (Some Sym.SCATTER) None) Sym.A == -5)%Q
  /\ (betMax (buildSpec envOutOfRange (Some Sym.SCATTER) None)
      < betMin (buildSpec envOutOfRange (Some Sym.SCATTER) None))%Q
  /\ (betStep (buildSpec envOutOfRange (Some Sym.SCATTER) None) < 1)%Q
  /\ loadEnvMathSpec {[ "BONUS_SCATTER_SYMBOL"%string := VNumber (Some 7%Q) ]}
     = None.
Proof. repeat split; vm_compute; reflexivity. Qed.
End LoaderFacts.

(** ** A whole round *)

Section RoundFacts.
Import SlotScene.


Lemma onStopped_returns (p : Pending) (s : SlotScene.t) cells :
  state s = SPINNING ->
  readGrid (heap (world s)) (p_grid p) = Some cells ->
  exists s' eff,
    onStopped p s = Some (s', eff)
    /\ state s' = IDLE /\ world s' = world s /\ model s' = model s
    /\ prevGrid s' = Some (p_grid p).
Proof.
  intros Hst Hread. unfold onStopped, setState, machine. rewrite Hst. simpl.
  rewrite Hread. simpl.
  set (ev := Evaluator.evaluateGrid _ _ _ _). clearbody ev.
  set (award := (getBonusFreeSpinsAward _ _ + _)%Q). clearbody award.
  destruct (Qlt_bool 0 award); simpl;
    destruct (0 <? winAmount ev)%Z; simpl;
    eexists _, _; (split; [reflexivity|]); done.
Qed.


End RoundFacts.

(** ** The claims at concrete inputs *)

Section Witnesses.
Import SlotScene.

Lemma exampleGrid_reads :
  readGrid (heap exampleWorld) exampleGrid = Some exampleCells.
Proof. apply allocGrid_spec. Qed.

Lemma exampleCells_rectangular : rectangular exampleCells.
Proof. unfold rectangular. repeat constructor. Qed.

(** The reels stop on the example grid with reel 0 frozen: reels 0 and 1
    have a WILD, and only reel 1 is held for the next spin. *)
Lemma hold_mask_example :
  exists s' eff mask,
    onStopped stoppedPending stoppedScene = Some (s', eff)
    /\ heldReels s' = Some mask
    /\ holdMaskRule (Qlt_bool 0 (freeSpins stoppedScene)) exampleCells
         (p_freezeReels stoppedPending) mask.
Proof.
  apply (hold_mask_after_round stoppedPending stoppedScene exampleCells).
  - exact exampleGrid_reads.
  - exact exampleCells_rectangular.
Defined.

Lemma free_spin_award_example :
  exists s' eff,
    onStopped stoppedPending stoppedScene = Some (s', eff)
    /\ let inFS := Qlt_bool 0 (freeSpins stoppedScene) in
       let sc :=
         scatterCount (Evaluator.evaluateGrid exampleCells (bet stoppedScene)
                         (math stoppedScene) inFS) in
       let award := awardRule inFS sc (math stoppedScene) in
       freeSpins s'
       = (if Qlt_bool 0 award then freeSpins stoppedScene + award
          else freeSpins stoppedScene)%Q.
Proof.
  apply (free_spin_award_after_round stoppedPending stoppedScene exampleCells).
  exact exampleGrid_reads.
Defined.

(** The third example of the specification: with reel 0 held, reel 0 of
    the composed grid is a new column with exactly the contents WILD, K, Q
    of reel 0 of the previous grid. *)
Lemma C5_spinGrid_witness :
  exists result w2 l,
    spinGrid exampleModel (Some exampleGrid) (Some exampleHeld) None
      exampleWorld = Some (result, w2)
    /\ result !! 0%nat = Some l
    /\ (l ∉ exampleGrid)
    /\ heap w2 !! l = Some [Sym.WILD; Sym.K; Sym.Q].
Proof.
  eassert (Hspin : spin exampleModel None exampleWorld = Some (_, _))
    by (vm_compute; reflexivity).
  destruct (C5_spinGrid_composes exampleModel (Some exampleGrid)
              (Some exampleHeld) None exampleWorld _ _ Hspin)
    as (result & w2 & Hrun & _ & _ & _ & _ & Hcols).
  { intros prev held r [= <-] [= <-] Hr Hh.
    destruct r as [|r]; [|destruct r as [|[|[|[|r]]]]; discriminate Hh].
    exists 0%nat. split; [reflexivity|]. eexists; vm_compute; reflexivity. }
  specialize (Hcols exampleGrid exampleHeld 0%nat eq_refl eq_refl).
  assert (Hlt : (0 < length [5; 6; 7; 8; 9])%nat) by (cbn [length]; lia).
  specialize (Hcols Hlt).
  cbn [exampleHeld lookup list_lookup default] in Hcols.
  destruct Hcols as (l & pl & Hl & Hpl & (Hfresh & _ & c & Hc & Hcopy) & _).
  assert (Hpl0 : exampleGrid !! 0%nat = Some 0%nat) by (vm_compute; reflexivity).
  rewrite Hpl0 in Hpl. injection Hpl as <-.
  match type of Hc with
  | ?t = _ =>
      eassert (Hval : t = _) by (vm_compute; reflexivity);
      rewrite Hval in Hc; clear Hval
  end.
  injection Hc as <-.
  exists result, w2, l. split; [exact Hrun|]. split; [exact Hl|]. split.
  - intros Hin. apply Hfresh. apply elem_of_dom.
    assert (Hgrid : exampleGrid = [0; 1; 2; 3; 4]%nat)
      by (vm_compute; reflexivity).
    rewrite Hgrid in Hin.
    repeat (apply elem_of_cons in Hin as [->|Hin];
            [eexists; vm_compute; reflexivity|]).
    apply elem_of_nil in Hin. destruct Hin.
  - exact Hcopy.
Defined.
End Witnesses.

Section NumberFacts.

Lemma Math_round_near x :
  (x - (1 # 2) < inject_Z (Math_round x) <= x + (1 # 2))%Q.
Proof.
  unfold Math_round. split.
  - pose proof (Qlt_floor (x + (1 # 2))) as H.
    rewrite inject_Z_plus in H. change (inject_Z 1) with 1%Q in H. lra.
  - apply Qfloor_le.
Qed.

Lemma Math_round_Z k : Math_round (inject_Z k) = k.
Proof.
  pose proof (Math_round_near (inject_Z k)) as [Hlo Hhi].
  set (r := Math_round (inject_Z k)) in *.
  assert (H1 : (inject_Z r < inject_Z (k + 1))%Q).
  { rewrite inject_Z_plus. change (inject_Z 1) with 1%Q. lra. }
  assert (H2 : (inject_Z (k - 1) < inject_Z r)%Q).
  { unfold Z.sub. rewrite inject_Z_plus, inject_Z_opp.
    change (inject_Z 1) with 1%Q. lra. }
  rewrite <- Zlt_Qlt in H1, H2. lia.
Qed.

Lemma Math_round_mono x y : (x <= y)%Q -> Math_round x <= Math_round y.
Proof.
  intros Hxy. unfold Math_round. apply Qfloor_resp_le. lra.
Qed.

End NumberFacts.

Section ClampFacts.
Import SlotScene.

Lemma Qmax_one_pos step : (1 <= Qmax 1 step)%Q.
Proof. apply Q.le_max_l. Qed.

Lemma clamp_between v min max :
  (min <= max)%Q -> (min <= Qmax min (Qmin max v) <= max)%Q.
Proof.
  intros Hmm. split; [apply Q.le_max_l|].
  apply Q.max_lub; [done|apply Q.le_min_l].
Qed.

(** [clampToStep] returns a whole number of steps, the one nearest to the
    clamped value: it is within half a step of it. *)
Theorem clampToStep_near v min max step :
  let s := Qmax 1 step in
  let clamped := Qmax min (Qmin max v) in
  (exists k : Z, clampToStep v min max step = inject_Z k * s)%Q
  /\ (clamped - s / 2 < clampToStep v min max step <= clamped + s / 2)%Q.
Proof.
  cbv zeta. unfold clampToStep.
  set (s := Qmax 1 step). set (c := Qmax min (Qmin max v)).
  pose proof (Qmax_one_pos step) as Hs. fold s in Hs.
  split; [by eexists|].
  pose proof (Math_round_near (c / s)) as [Hlo Hhi].
  set (R := inject_Z (Math_round (c / s))) in *.
  assert (Hq : (c / s * s == c)%Q) by (field; lra).
  set (q := (c / s)%Q) in *. clearbody q R.
  assert (Hhalf : (s / 2 == s * (1 # 2))%Q) by (field).
  rewrite Hhalf. split; nra.
Qed.

Lemma clampToStep_between v min max step (a b : Z) :
  (min <= max)%Q ->
  (min == inject_Z a * Qmax 1 step)%Q -> (max == inject_Z b * Qmax 1 step)%Q ->
  (min <= clampToStep v min max step <= max)%Q.
Proof.
  intros Hmm Hmin Hmax. unfold clampToStep.
  set (s := Qmax 1 step) in *. set (c := Qmax min (Qmin max v)).
  pose proof (Qmax_one_pos step) as Hs. fold s in Hs.
  destruct (clamp_between v min max Hmm) as [Hlo Hhi]. fold c in Hlo, Hhi.
  assert (Ha : (inject_Z a <= c / s)%Q).
  { apply Qle_shift_div_l; [lra|]. by rewrite <- Hmin. }
  assert (Hb : (c / s <= inject_Z b)%Q).
  { apply Qle_shift_div_r; [lra|]. by rewrite <- Hmax. }
  apply Math_round_mono in Ha, Hb. rewrite Math_round_Z in Ha, Hb.
  rewrite Zle_Qle in Ha, Hb.
  set (R := inject_Z (Math_round (c / s))) in *. clearbody R.
  rewrite Hmin, Hmax. split; nra.
Qed.

(** When the bounds are themselves whole numbers of steps, the result
    stays inside the bounds, a value that is a whole number of steps
    inside the bounds is returned as it is, and clamping a second time
    changes nothing. *)
Theorem clampToStep_in_bounds v min max step (a b : Z) :
  let s := Qmax 1 step in
  let r := clampToStep v min max step in
  (min <= max)%Q -> (min == inject_Z a * s)%Q -> (max == inject_Z b * s)%Q ->
  (min <= r <= max)%Q
  /\ (forall k : Z, (v == inject_Z k * s)%Q -> (min <= v <= max)%Q ->
        (r == v)%Q)
  /\ (clampToStep r min max step == r)%Q.
Proof.
  cbv zeta. intros Hmm Hmin Hmax.
  pose proof (Qmax_one_pos step) as Hs.
  assert (Hfixed : forall u (k : Z),
            (u == inject_Z k * Qmax 1 step)%Q -> (min <= u <= max)%Q ->
            (clampToStep u min max step == u)%Q).
  { intros u k Hu [Hlo Hhi]. unfold clampToStep.
    assert (Hc : (Qmax min (Qmin max u) == u)%Q).
    { rewrite (Q.min_r max u) by done. by apply Q.max_r. }
    assert (Hq : (Qmax min (Qmin max u) / Qmax 1 step == inject_Z k)%Q).
    { rewrite Hc, Hu. field. lra. }
    rewrite (Math_round_comp _ _ Hq), Math_round_Z. by rewrite Hu. }
  pose proof (clampToStep_between v min max step a b Hmm Hmin Hmax) as Hin.
  split; [exact Hin|]. split; [intros k; apply Hfixed|].
  apply (Hfixed _ (Math_round (Qmax min (Qmin max v) / Qmax 1 step)));
    [reflexivity|exact Hin].
Qed.

Lemma clampToStep_in_bounds_witness :
  (10 <= clampToStep 25 10 1000 10 <= 1000)%Q
  /\ (forall k : Z, (25 == inject_Z k * Qmax 1 10)%Q -> (10 <= 25 <= 1000)%Q ->
        (clampToStep 25 10 1000 10 == 25)%Q)
  /\ (clampToStep (clampToStep 25 10 1000 10) 10 1000 10
      == clampToStep 25 10 1000 10)%Q.
Proof.
  apply (clampToStep_in_bounds 25 10 1000 10 1 100); vm_compute; try reflexivity.
  discriminate.
Defined.
End ClampFacts.

Section SceneMore.
Import SlotScene.

Lemma onStopped_reads p s s' eff :
  onStopped p s = Some (s', eff) ->
  exists cells, readGrid (heap (world s)) (p_grid p) = Some cells.
Proof.
  unfold onStopped, setState.
  destruct (StateMachine.set (machine s) RESULT) as [m1 f1]. simpl.
  destruct (readGrid (heap (world s)) (p_grid p)) as [cells|]; [|done].
  by exists cells.
Qed.

Lemma set_no_schedule st t :
  existsb isSchedule (snd (StateMachine.set (machineAt st) t)) = false.
Proof.
  unfold StateMachine.set.
  destruct (negb (StateMachine.can (machineAt st) t)); [done|].
  destruct (decide (t = StateMachine._state (machineAt st))); done.
Qed.

(** The stop callback changes neither the model nor the store, and it
    asks for the next spin by itself exactly when free spins remain in the
    pool. *)
Lemma onStopped_frame p s s' eff :
  onStopped p s = Some (s', eff) ->
  model s' = model s /\ world s' = world s
  /\ existsb isSchedule eff = Qlt_bool 0 (freeSpins s').
Proof.
  unfold onStopped, setState, math, machine.
  pose proof (set_no_schedule (state s) RESULT) as H1.
  destruct (StateMachine.set (machineAt (state s)) RESULT) as [m1 f1].
  simpl in H1 |- *.
  destruct (readGrid (heap (world s)) (p_grid p)) as [cells|] eqn:Hread;
    [|done]. simpl.
  set (inFS := Qlt_bool 0 (freeSpins s)). clearbody inFS.
  set (ev := Evaluator.evaluateGrid _ _ _ _). clearbody ev.
  set (award := (getBonusFreeSpinsAward _ _ + _)%Q). clearbody award.
  destruct (Qlt_bool 0 award); simpl;
    repeat (match goal with
            | |- context [StateMachine.set (machineAt ?st) ?t] =>
                let Hs := fresh "Hs" in
                pose proof (set_no_schedule st t) as Hs;
                destruct (StateMachine.set (machineAt st) t) as [? ?];
                simpl in Hs |- *
            end);
    destruct (0 <? winAmount ev)%Z; simpl;
    repeat (match goal with
            | |- context [StateMachine.set (machineAt ?st) ?t] =>
                let Hs := fresh "Hs" in
                pose proof (set_no_schedule st t) as Hs;
                destruct (StateMachine.set (machineAt st) t) as [? ?];
                simpl in Hs |- *
            end);
    intros [= <- <-]; simpl; (split; [reflexivity|]); (split; [reflexivity|]);
    repeat (rewrite ?existsb_app; simpl);
    repeat match goal with
           | H : existsb isSchedule _ = false |- _ => rewrite H; clear H
           end; simpl;
    repeat match goal with
           | |- context [existsb isSchedule (if ?c then _ else _)] =>
               destruct c; simpl
           end; reflexivity.
Qed.

(** What a request does to the scene: nothing when it is refused; when a
    spin starts, the machine was in IDLE, the spin counter grows by one,
    and the round is paid for by one free spin, or by nothing for a forced
    respin, or by the bet, which the balance covers. *)
Lemma requestSpin_result ff s s1 e started :
  requestSpin ff s = Some (s1, e, started) ->
  model s1 = model s /\ bet s1 = bet s
  /\ match started with
     | None => s1 = s
     | Some p =>
         state s = IDLE /\ totalSpins s1 = totalSpins s + 1
         /\ ((0 < freeSpins s)%Q /\ freeSpins s1 = (freeSpins s - 1)%Q
             /\ balance s1 = balance s
             \/ (freeSpins s <= 0)%Q /\ freeSpins s1 = freeSpins s
                /\ (ff = true /\ balance s1 = balance s
                    \/ ff = false /\ (bet s <= balance s)%Q
                       /\ balance s1 = (balance s - bet s)%Q))
     end.
Proof.
  unfold requestSpin.
  destruct (negb (StateMachine.can (machine s) SPINNING));
    [by intros [= <- <- <-]|].
  destruct (bool_decide (StateMachine.state (machine s) = IDLE)) eqn:Hidle;
    simpl; [|by intros [= <- <- <-]].
  apply bool_decide_eq_true in Hidle. change (state s = IDLE) in Hidle.
  destruct (Qlt_bool 0 (freeSpins s)) eqn:Hfree; simpl.
  - apply Qlt_bool_true in Hfree.
    unfold startSpinFlow, setState.
    destruct (StateMachine.set _ SPINNING) as [m f]. cbn.
    destruct (spinGrid _ _ _ _ _) as [[grid w']|]; [|done].
    cbn. intros [= <- <- <-]. cbn. repeat split; try done. left. done.
  - apply negb_false_iff, Qle_bool_iff in Hfree.
    destruct ff; simpl.
    + assert (Hle : Qle_bool (freeSpins s) 0 = true) by (by apply Qle_bool_iff).
      rewrite Hle. simpl.
      unfold startSpinFlow, setState.
      destruct (StateMachine.set _ SPINNING) as [m f]. cbn.
      destruct (spinGrid _ _ _ _ _) as [[grid w']|]; [|done].
      cbn. intros [= <- <- <-]. cbn. repeat split; try done.
      right. repeat split; try done. by left.
    + destruct (Qlt_bool (balance s) (bet s)) eqn:Hbal;
        [by intros [= <- <- <-]|].
      apply negb_false_iff, Qle_bool_iff in Hbal.
      unfold startSpinFlow, setState.
      destruct (StateMachine.set _ SPINNING) as [m f]. cbn.
      destruct (spinGrid _ _ _ _ _) as [[grid w']|]; [|done].
      cbn. intros [= <- <- <-]. cbn. repeat split; try done.
      right. repeat split; try done. by right.
Qed.

(** A round never takes the balance below zero: the bet is debited only
    when the balance covers it, and a win is only ever added.  A free spin
    costs nothing. *)
Theorem round_balance_nonneg ff s s' eff :
  playRound ff s = Some (s', eff) ->
  (0 <= balance s)%Q ->
  (0 <= balance s')%Q
  /\ ((0 < freeSpins s)%Q \/ ff = true -> (balance s <= balance s')%Q)
  /\ (balance s - Qmax 0 (bet s) <= balance s')%Q.
Proof.
  unfold playRound. intros Hrun Hbal.
  destruct (requestSpin ff s) as [[[s1 e1] started]|] eqn:Hreq; [|done].
  simpl in Hrun.
  destruct (requestSpin_result _ _ _ _ _ Hreq) as (_ & Hbet & Hstart).
  pose proof (Q.le_max_l 0 (bet s)) as Hm0.
  pose proof (Q.le_max_r 0 (bet s)) as Hm1.
  destruct started as [p|].
  - destruct (onStopped p s1) as [[s2 e2]|] eqn:Hstop; [|done].
    simpl in Hrun. injection Hrun as <- <-.
    destruct (onStopped_reads _ _ _ _ Hstop) as [cells Hread].
    destruct (onStopped_spec p s1 cells Hread)
      as (s2' & eff' & Hstop' & _ & _ & Hb2 & _).
    rewrite Hstop in Hstop'. injection Hstop' as <- <-.
    cbv zeta in Hb2.
    set (ev := Evaluator.evaluateGrid _ _ _ _) in Hb2. clearbody ev.
    assert (Hwin : (balance s1 <= balance s2)%Q).
    { rewrite Hb2. destruct (0 <? winAmount ev)%Z eqn:Hw; [|lra].
      apply Z.ltb_lt in Hw. rewrite Zlt_Qlt in Hw.
      change (inject_Z 0) with 0%Q in Hw. lra. }
    destruct Hstart as (_ & _ & [(Hfree & _ & Hb1)|(Hfree & _ & [[-> Hb1]|(-> & Hcover & Hb1)])]);
      rewrite Hb1 in Hwin.
    + repeat split; [lra|intros _; lra|lra].
    + repeat split; [lra|intros _; lra|lra].
    + repeat split; [lra| |lra].
      intros [Hf|Hf]; [lra|discriminate Hf].
  - injection Hrun as <- <-. subst s1. repeat split; [lra|intros; lra|lra].
Qed.

Lemma changeBet_result delta s :
  let s' := fst (changeBet delta s) in
  model s' = model s /\ balance s' = balance s /\ state s' = state s
  /\ freeSpins s' = freeSpins s /\ world s' = world s
  /\ prevGrid s' = prevGrid s
  /\ (bet s' = bet s
      \/ state s = IDLE /\ (freeSpins s <= 0)%Q
         /\ bet s' = clampToStep (bet s + delta) (betMin (math s))
                       (betMax (math s)) (betStep (math s))).
Proof.
  cbv zeta. unfold changeBet.
  destruct (bool_decide (StateMachine.state (machine s) = IDLE)) eqn:Hidle;
    simpl; [|repeat split; by left].
  apply bool_decide_eq_true in Hidle.
  destruct (Qlt_bool 0 (freeSpins s)) eqn:Hfree; [repeat split; by left|].
  apply negb_false_iff, Qle_bool_iff in Hfree.
  destruct (Qeq_bool _ (bet s)); simpl; [repeat split; by left|].
  repeat split. by right.
Qed.

Lemma changeBet_betOk delta s :
  betGrid (math s) -> betOk s -> betOk (fst (changeBet delta s)).
Proof.
  intros (Hmm & a & b & Ha & Hb) Hok.
  destruct (changeBet_result delta s) as (Hm & _ & _ & _ & _ & _ & Hbet).
  cbv zeta in Hm, Hbet. unfold betOk, math. rewrite Hm.
  destruct Hbet as [->|(_ & _ & ->)]; [exact Hok|].
  fold (math s). split.
  - by apply (clampToStep_between _ _ _ _ a b).
  - unfold clampToStep, stepOf. by eexists.
Qed.

(** While the machine is not in IDLE, a request for a spin and a press on
    a bet button change nothing and call no collaborator: input during a
    spin is ignored. *)
Theorem busy_ignores_input ff delta s :
  state s <> IDLE ->
  requestSpin ff s = Some (s, [], None) /\ changeBet delta s = (s, []).
Proof.
  intros Hbusy. split.
  - unfold requestSpin.
    destruct (negb (StateMachine.can (machine s) SPINNING)); [done|].
    change (StateMachine.state (machine s)) with (state s).
    by rewrite bool_decide_eq_false_2.
  - unfold changeBet.
    change (StateMachine.state (machine s)) with (state s).
    by rewrite bool_decide_eq_false_2.
Qed.

(** When the reels have stopped and the round is over, the scene is back
    in IDLE and exactly one of two things holds: free spins remain and the
    next spin is requested without the player, with the controls hidden; or
    none remains and the controls are shown. *)
Theorem round_end_control p s s' eff :
  state s = SPINNING ->
  onStopped p s = Some (s', eff) ->
  state s' = IDLE
  /\ (existsb isSchedule eff = true <-> (0 < freeSpins s')%Q)
  /\ fst (syncUi s') = negb (existsb isSchedule eff).
Proof.
  intros Hst Hstop.
  destruct (onStopped_reads _ _ _ _ Hstop) as [cells Hread].
  destruct (onStopped_returns p s cells Hst Hread)
    as (s2 & e2 & Hstop' & Hidle & _).
  rewrite Hstop in Hstop'. injection Hstop' as <- <-.
  destruct (onStopped_frame _ _ _ _ Hstop) as (_ & _ & Hsched).
  split; [exact Hidle|]. rewrite Hsched. split.
  - apply Qlt_bool_true.
  - unfold syncUi. simpl. change (StateMachine.state (machine s')) with (state s').
    rewrite Hidle. simpl. unfold Qlt_bool. by rewrite negb_involutive.
Qed.

(** Through a whole session the balance is never negative, the machine is
    in IDLE exactly when no reels are turning, the model is the one the
    scene was entered with, and, with bounds that are whole numbers of
    steps, the bet is a whole number of steps inside the bounds. *)
Theorem session_invariant model w s q :
  session model w s q ->
  (0 <= balance s)%Q
  /\ state s = match q with Some _ => SPINNING | None => IDLE end
  /\ SlotScene.model s = model
  /\ (betGrid (model_math model) -> betOk s).
Proof.
  induction 1 as [|s q Hs IH|s q Hs IH|s q Hs IH
                  |s q s1 e started Hs IH Hreq|s p s' eff Hs IH Hstop].
  - split; [simpl; lra|]. split; [done|]. split; [done|].
    intros (Hmm & a & b & Ha & Hb). unfold betOk, math, enter. simpl. split.
    + by apply (clampToStep_between _ _ _ _ a b).
    + unfold clampToStep, stepOf. by eexists.
  - destruct IH as (Hb & Hst & Hm & Hbet).
    destruct (changeBet_result (-10) s) as (Hm' & Hb' & Hst' & _).
    cbv zeta in Hm', Hb', Hst'. rewrite Hb', Hst', Hm'.
    split; [done|]. split; [done|]. split; [done|]. intros Hg.
    apply changeBet_betOk; [unfold math; by rewrite Hm|by apply Hbet].
  - destruct IH as (Hb & Hst & Hm & Hbet).
    destruct (changeBet_result 10 s) as (Hm' & Hb' & Hst' & _).
    cbv zeta in Hm', Hb', Hst'. rewrite Hb', Hst', Hm'.
    split; [done|]. split; [done|]. split; [done|]. intros Hg.
    apply changeBet_betOk; [unfold math; by rewrite Hm|by apply Hbet].
  - destruct IH as (Hb & Hst & Hm & Hbet). unfold addCredits. simpl.
    split; [lra|]. split; [done|]. split; [done|]. exact Hbet.
  - destruct IH as (Hb & Hst & Hm & Hbet).
    destruct (requestSpin_result _ _ _ _ _ Hreq) as (Hm1 & Hbet1 & Hstart).
    destruct started as [p|].
    + destruct Hstart as (Hidle & _ & Hpay).
      assert (Hst1 : state s1 = SPINNING).
      { revert Hreq. unfold requestSpin, machine. rewrite Hidle. simpl.
        destruct (negb (Qlt_bool 0 (freeSpins s) || false)
                  && Qlt_bool (balance s) (bet s)); [done|].
        unfold startSpinFlow, setState, machine.
        destruct (Qlt_bool 0 (freeSpins s)); simpl; rewrite Hidle; simpl;
          (destruct (spinGrid _ _ _ _ _) as [[grid w']|]; [|done]);
          simpl; by intros [= <- _ _]. }
      split; [|split; [exact Hst1|split; [congruence|]]].
      * destruct Hpay as [(_ & _ & ->)|(_ & _ & [[_ ->]|(_ & Hc & ->)])]; lra.
      * intros Hg. specialize (Hbet Hg). unfold betOk, math in *.
        by rewrite Hm1, Hbet1.
    + subst s1. done.
  - destruct IH as (Hb & Hst & Hm & Hbet). simpl in Hst.
    destruct (onStopped_frame _ _ _ _ Hstop) as (Hm' & _ & _).
    destruct (onStopped_reads _ _ _ _ Hstop) as [cells Hread].
    destruct (onStopped_returns p s cells Hst Hread)
      as (s3 & e3 & Hstop3 & Hidle & _).
    rewrite Hstop in Hstop3. injection Hstop3 as <- <-.
    destruct (onStopped_spec p s cells Hread)
      as (s2 & e2 & Hstop' & _ & _ & Hb2 & _ & Hbet2 & _).
    rewrite Hstop in Hstop'. injection Hstop' as <- <-.
    cbv zeta in Hb2.
    set (ev := Evaluator.evaluateGrid _ _ _ _) in Hb2. clearbody ev.
    split; [|split; [exact Hidle|split; [congruence|]]].
    + rewrite Hb2. destruct (0 <? winAmount ev)%Z eqn:Hw; [|lra].
      apply Z.ltb_lt in Hw. rewrite Zlt_Qlt in Hw.
      change (inject_Z 0) with 0%Q in Hw. lra.
    + intros Hg. specialize (Hbet Hg). unfold betOk, math in *.
      by rewrite Hm', Hbet2.
Qed.
End SceneMore.

Section EvaluatorMore.
Import Evaluator.

Lemma scan_cells math path base symbols :
  forall r c u ps,
    scan math path base r symbols = (c, u, ps) ->
    (forall i, (i < c)%nat ->
       exists s, symbols !! i = Some s
         /\ s <> Some Sym.SCATTER
         /\ (s = base
             \/ wildSubstitutes math = true /\ s = Some Sym.WILD
                /\ base <> Some Sym.WILD))
    /\ (u = true <-> exists i, (i < c)%nat /\ symbols !! i = Some (Some Sym.WILD))
    /\ (c = length symbols
        \/ exists s, symbols !! c = Some s
             /\ (s = Some Sym.SCATTER
                 \/ s <> base
                    /\ ~ (wildSubstitutes math = true /\ s = Some Sym.WILD
                          /\ base <> Some Sym.WILD))).
Proof.
  induction symbols as [|s rest IH]; intros r c u ps Hscan; simpl in Hscan.
  { injection Hscan as <- <- <-. split; [intros; lia|]. split; [|by left].
    split; [done|]. intros (i & Hi & _). lia. }
  destruct (isSym s Sym.SCATTER) eqn:Hsc.
  { injection Hscan as <- <- <-. apply isSym_true in Hsc.
    split; [intros; lia|]. split.
    - split; [done|]. intros (i & Hi & _). lia.
    - right. exists s. split; [done|]. by left. }
  apply isSym_false in Hsc.
  assert (Hstep : forall c' u' ps' (b : bool),
    scan math path base (S r) rest = (c', u', ps') ->
    c = S c' -> u = (b || u') ->
    (s = base \/ wildSubstitutes math = true /\ s = Some Sym.WILD
                 /\ base <> Some Sym.WILD) ->
    (b = true <-> s = Some Sym.WILD) ->
    (forall i, (i < c)%nat ->
       exists s0, (s :: rest) !! i = Some s0
         /\ s0 <> Some Sym.SCATTER
         /\ (s0 = base
             \/ wildSubstitutes math = true /\ s0 = Some Sym.WILD
                /\ base <> Some Sym.WILD))
    /\ (u = true <-> exists i, (i < c)%nat
                       /\ (s :: rest) !! i = Some (Some Sym.WILD))
    /\ (c = length (s :: rest)
        \/ exists s0, (s :: rest) !! c = Some s0
             /\ (s0 = Some Sym.SCATTER
                 \/ s0 <> base
                    /\ ~ (wildSubstitutes math = true /\ s0 = Some Sym.WILD
                          /\ base <> Some Sym.WILD)))).
  { intros c' u' ps' b Hrec -> -> Hs Hb.
    destruct (IH _ _ _ _ Hrec) as (Hcells & Hu & Hend). split; [|split].
    - intros [|i] Hi; simpl; [by exists s|]. apply Hcells. lia.
    - rewrite orb_true_iff, Hb, Hu. split.
      + intros [->|(i & Hi & Hw)]; [exists 0%nat; split; [lia|done]|].
        exists (S i). split; [lia|done].
      + intros ([|i] & Hi & Hw); simpl in Hw; [left; congruence|].
        right. exists i. split; [lia|done].
    - destruct Hend as [->|Hend]; [by left|by right]. }
  destruct (bool_decide (s = base)) eqn:Hbase.
  - apply bool_decide_eq_true in Hbase.
    destruct (scan math path base (S r) rest) as [[c' u'] ps'] eqn:Hrec.
    injection Hscan as <- <- <-.
    eapply Hstep; [done|done|done|by left|].
    rewrite andb_true_iff, !isSym_true. split; [by intros [? _]|].
    intros Hw. split; [done|congruence].
  - apply bool_decide_eq_false in Hbase.
    destruct (wildSubstitutes math && isSym s Sym.WILD
              && negb (isSym base Sym.WILD)) eqn:Hw.
    + apply andb_true_iff in Hw as [Hw Hnb].
      apply andb_true_iff in Hw as [Hsub Hw].
      apply isSym_true in Hw. apply negb_true_iff, isSym_false in Hnb.
      destruct (scan math path base (S r) rest) as [[c' u'] ps'] eqn:Hrec.
      injection Hscan as <- <- <-.
      eapply (Hstep _ _ _ true); [done|done|done|by right|done].
    + injection Hscan as <- <- <-.
      split; [intros; lia|]. split.
      * split; [done|]. intros (i & Hi & _). lia.
      * right. exists s. split; [done|]. right. split; [done|].
        intros (Hsub & Hs & Hb). rewrite Hsub in Hw. simpl in Hw.
        apply andb_false_iff in Hw as [Hw|Hw].
        -- apply isSym_false in Hw. done.
        -- apply negb_false_iff, isSym_true in Hw. done.
Qed.

Lemma wildBase_not_scatter rest : wildBase rest <> Some Sym.SCATTER.
Proof.
  induction rest as [|s rest IH]; simpl; [done|].
  destruct (isSym s Sym.SCATTER) eqn:Hsc; [done|].
  apply isSym_false in Hsc.
  destruct (isSym s Sym.WILD); simpl; done.
Qed.

Lemma lineCell_lookup grid path i s :
  lineSymbols grid path !! i = Some s -> lineCell grid path i = s.
Proof. unfold lineCell. by intros ->. Qed.

(** What a win line records.  It comes from one payline, starts at reel
    0 and counts a run of [n >= 3] cells along the path: every counted cell
    holds the line's symbol or a WILD that substitutes for it, none is
    SCATTER, the run cannot be extended, [count] is [n] capped at 5, the
    positions are the cells of the run, [usedWild] tells whether a counted
    cell is a WILD, and the amount is positive. *)
Theorem winLine_describes_run grid bet math inFreeSpins w :
  w ∈ winLines (evaluateGrid grid bet math inFreeSpins) ->
  exists line n,
    line ∈ PAYLINES_5X3 /\ lineId w = id line /\ pathRows w = line_rows line
    /\ fromReel w = 0%nat /\ toReel w = (Z.of_nat n - 1)%Z
    /\ (3 <= n <= length grid)%nat /\ count w = Nat.min 5 n
    /\ symbol w <> Some Sym.SCATTER
    /\ (forall i, (i < n)%nat ->
          lineCell grid (pathRows w) i <> Some Sym.SCATTER
          /\ (lineCell grid (pathRows w) i = symbol w
              \/ wildSubstitutes math = true
                 /\ lineCell grid (pathRows w) i = Some Sym.WILD
                 /\ symbol w <> Some Sym.WILD))
    /\ (n = length grid
        \/ lineCell grid (pathRows w) n = Some Sym.SCATTER
        \/ lineCell grid (pathRows w) n <> symbol w
           /\ ~ (wildSubstitutes math = true
                 /\ lineCell grid (pathRows w) n = Some Sym.WILD
                 /\ symbol w <> Some Sym.WILD))
    /\ positions w
       = map (fun i => {| reel := i; row := pathRows w !! i |}) (seq 0 n)
    /\ (usedWild w = true
        <-> exists i, (i < n)%nat
              /\ lineCell grid (pathRows w) i = Some Sym.WILD)
    /\ amount w = (bet * payMult math (symbol w) (count w))%Q
    /\ (0 < amount w)%Q.
Proof.
  intros Hw. apply winLine_origin in Hw as (line & Hline & Hev).
  revert Hev. unfold evalLine.
  set (path := line_rows line). set (symbols := lineSymbols grid path).
  set (s0 := mjoin (symbols !! 0%nat)).
  destruct (isSym s0 Sym.SCATTER) eqn:Hs0; [done|].
  apply isSym_false in Hs0.
  set (base := if isSym s0 Sym.WILD then wildBase (drop 1 symbols) else s0).
  assert (Hbase : base <> Some Sym.SCATTER).
  { unfold base. destruct (isSym s0 Sym.WILD); [|done].
    apply wildBase_not_scatter. }
  destruct (isSym s0 Sym.WILD && isSym base Sym.WILD
            && negb (wildPaysItself math)); [done|].
  destruct (scan math path base 0 symbols) as [[c u] ps] eqn:Hscan.
  destruct (3 <=? c)%nat eqn:Hc; [|done].
  destruct (Qlt_bool 0 (bet * payMult math base (Nat.min 5 c))) eqn:Hpos;
    [|done].
  apply Qlt_bool_true in Hpos. apply Nat.leb_le in Hc.
  intros [= <-]. cbn [lineId pathRows toReel count positions amount symbol
                       fromReel usedWild].
  destruct (scan_spec _ _ _ _ _ _ _ _ Hscan) as (Hps & Hlen & _).
  destruct (scan_cells _ _ _ _ _ _ _ _ Hscan) as (Hcells & Hu & Hend).
  unfold symbols in Hlen. rewrite lineSymbols_length in Hlen.
  exists line, c. split; [done|]. split; [done|]. split; [done|].
  split; [done|]. split; [done|]. split; [lia|]. split; [done|].
  split; [done|]. split; [|split; [|split; [done|split; [|done]]]].
  - intros i Hi. destruct (Hcells i Hi) as (s & Hs & Hns & Hor).
    rewrite (lineCell_lookup _ _ _ _ Hs). done.
  - destruct Hend as [Hend|(s & Hs & Hor)].
    + left. unfold symbols in Hend. by rewrite lineSymbols_length in Hend.
    + right. rewrite (lineCell_lookup _ _ _ _ Hs). destruct Hor; [by left|by right].
  - rewrite Hu. split.
    + intros (i & Hi & Hwild). exists i. split; [done|].
      by apply lineCell_lookup.
    + intros (i & Hi & Hwild). exists i. split; [done|].
      destruct (Hcells i Hi) as (s & Hs & _).
      rewrite (lineCell_lookup _ _ _ _ Hs) in Hwild. by subst.
Qed.

Lemma omap_lineId_sublist grid bet math lines :
  map lineId (omap (evalLine grid bet math) lines) `sublist_of` map id lines.
Proof.
  induction lines as [|line lines IH]; simpl; [constructor|].
  destruct (evalLine grid bet math line) as [w|] eqn:Hw; simpl.
  - destruct (evalLine_Some _ _ _ _ _ Hw) as (-> & _). by constructor.
  - by constructor.
Qed.

(** The win lines come in payline order, at most one for each payline:
    their line ids are taken in order from 1, 2, ..., 7. *)
Theorem winLines_in_payline_order grid bet math inFreeSpins :
  map lineId (winLines (evaluateGrid grid bet math inFreeSpins))
  `sublist_of` [1; 2; 3; 4; 5; 6; 7]%nat
  /\ (length (winLines (evaluateGrid grid bet math inFreeSpins)) <= 7)%nat.
Proof.
  rewrite winLines_evaluateGrid.
  pose proof (omap_lineId_sublist grid bet math PAYLINES_5X3) as Hsub.
  split; [exact Hsub|].
  apply sublist_length in Hsub. rewrite length_map in Hsub. exact Hsub.
Qed.

Lemma sumAmounts_nonneg ws :
  Forall (fun w => (0 < amount w)%Q) ws -> (0 <= sumAmounts ws)%Q.
Proof.
  induction 1 as [|w ws Hw _ IH]; [unfold sumAmounts; simpl; lra|].
  rewrite sumAmounts_cons. lra.
Qed.

Lemma Math_round_nonneg x : (0 <= x)%Q -> (0 <= Math_round x)%Z.
Proof.
  intros Hx. change 0%Z with (Math_round (inject_Z 0)) at 1.
  - apply Math_round_mono. exact Hx.
Qed.

(** With a bet, scatter pays and a free-spin multiplier that are not
    negative, the total win is never negative, whatever the paytable
    holds: a line is recorded only when its amount is positive. *)
Theorem winAmount_nonneg grid bet math inFreeSpins :
  (0 <= bet)%Q ->
  (forall c v, scatterPay math c = Some v -> (0 <= v)%Q) ->
  (0 <= freeSpinsWinMult math)%Q ->
  (0 <= winAmount (evaluateGrid grid bet math inFreeSpins))%Z.
Proof.
  intros Hbet Hsc Hmult. unfold evaluateGrid.
  destruct (lineLoop grid bet math PAYLINES_5X3) as [a ws] eqn:Hloop.
  cbn [winAmount].
  destruct (lineLoop_spec _ _ _ _ _ _ Hloop) as [Hws Ha].
  assert (Hall : Forall (fun w => (0 < amount w)%Q) ws).
  { rewrite Hws. apply Forall_forall. intros w Hw.
    apply list_elem_of_omap in Hw as (line & _ & Hev).
    by destruct (evalLine_Some _ _ _ _ _ Hev) as (_ & _ & _ & _ & _ & ?). }
  apply sumAmounts_nonneg in Hall.
  apply Math_round_nonneg.
  set (sc := length (scatterScan grid (scatterSymbol math))).
  assert (Hsw : (0 <= (if scatterPays math && (3 <=? sc)%nat
                       then bet * default 0 (scatterPay math (Nat.min 5 sc))
                       else 0))%Q).
  { destruct (scatterPays math && (3 <=? sc)%nat); [|lra].
    destruct (scatterPay math (Nat.min 5 sc)) as [v|] eqn:Hv; simpl; [|lra].
    specialize (Hsc _ _ Hv). nra. }
  set (sw := if scatterPays math && (3 <=? sc)%nat then _ else _) in *.
  clearbody sw. rewrite Ha.
  destruct inFreeSpins; nra.
Qed.
End EvaluatorMore.

Section ScatterCount.
Import Evaluator SpinGenerator.

Lemma occurrences_cons s x col :
  occurrences s (x :: col)
  = ((if bool_decide (x = s) then 1 else 0) + occurrences s col)%nat.
Proof.
  unfold occurrences. rewrite filter_cons.
  destruct (decide (x = s)) as [->|Hne].
  - by rewrite bool_decide_eq_true_2.
  - by rewrite bool_decide_eq_false_2.
Qed.

Lemma countColumn_acc s col :
  forall c0,
    fold_left (fun c x => if bool_decide (x = s) then S c else c) col c0
    = (c0 + occurrences s col)%nat.
Proof.
  induction col as [|x col IH]; intros c0; simpl.
  - unfold occurrences. simpl. lia.
  - rewrite IH, occurrences_cons. destruct (bool_decide (x = s)); lia.
Qed.

Lemma countScatter_sum grid s :
  countScatter grid s = sum_list (map (occurrences s) grid).
Proof.
  unfold countScatter.
  assert (H : forall c0,
    fold_left
      (fun c col =>
         fold_left (fun c x => if bool_decide (x = s) then S c else c) col c)
      grid c0
    = (c0 + sum_list (map (occurrences s) grid))%nat).
  { induction grid as [|col grid IH]; intros c0; simpl; [lia|].
    rewrite IH, countColumn_acc. lia. }
  by rewrite H.
Qed.

Lemma omap_seq_shift {X} (f : nat -> option X) n :
  forall k, omap f (seq (S k) n) = omap (fun y => f (S y)) (seq k n).
Proof.
  induction n as [|n IH]; intros k; simpl; [done|].
  rewrite IH. done.
Qed.

Lemma omap_ext_seq {X} (f g : nat -> option X) n :
  forall k, (forall y, f y = g y) -> omap f (seq k n) = omap g (seq k n).
Proof.
  induction n as [|n IH]; intros k Hfg; simpl; [done|].
  rewrite Hfg, (IH _ Hfg). done.
Qed.

Lemma hits_length {X} s n :
  forall col (g : nat -> X),
    length (omap (fun y => if isSym (col !! y) s then Some (g y) else None)
                 (seq 0 n))
    = occurrences s (take n col).
Proof.
  induction n as [|n IH]; intros col g; [by destruct col|].
  cbn [seq]. destruct col as [|x col].
  - cbn [omap list_omap]. rewrite lookup_nil.
    unfold isSym at 1. rewrite bool_decide_eq_false_2 by done.
    rewrite omap_seq_shift.
    rewrite (omap_ext_seq _ (fun y => if isSym (@nil SymbolId !! y) s
                                      then Some (g (S y)) else None));
      [|intros y; by rewrite !lookup_nil].
    rewrite (IH [] (fun y => g (S y))). by destruct n.
  - cbn [take]. rewrite occurrences_cons.
    cbn [omap list_omap]. rewrite omap_seq_shift.
    cbn [lookup list_lookup].
    rewrite <- (IH col (fun y => g (S y))).
    unfold isSym at 1.
    destruct (decide (x = s)) as [->|Hne].
    + rewrite !bool_decide_eq_true_2 by done. reflexivity.
    + rewrite (bool_decide_eq_false_2 (Some x = Some s)) by congruence.
      rewrite (bool_decide_eq_false_2 (x = s)) by done. reflexivity.
Qed.

Lemma columnHits_length s rows r col :
  length (columnHits s rows r col) = occurrences s (take rows col).
Proof. unfold columnHits. apply hits_length. Qed.

Lemma scatterScan_length grid s :
  length (scatterScan grid s)
  = sum_list (map (fun col => occurrences s (take (rowsOf grid) col)) grid).
Proof.
  unfold scatterScan. generalize (rowsOf grid). intros rows.
  assert (H : forall k,
    length (concat (imap (fun i => columnHits s rows (k + i)) grid))
    = sum_list (map (fun col => occurrences s (take rows col)) grid)).
  { induction grid as [|col grid IH]; intros k; [done|].
    cbn [imap concat map sum_list]. rewrite length_app, columnHits_length.
    f_equal. rewrite <- (IH (S k)). f_equal. f_equal.
    apply imap_ext. intros i x _. simpl. f_equal. lia. }
  exact (H 0%nat).
Qed.

(** The evaluator and the generator count the scatter symbols of a grid
    the same way when every column has the height of the first; in
    general the evaluator looks only at the first [rows] cells of each
    column, [rows] being the height of column 0. *)
Theorem scatterCount_countScatter grid bet math inFreeSpins :
  scatterCount (evaluateGrid grid bet math inFreeSpins)
  = countScatter (map (take (rowsOf grid)) grid) (scatterSymbol math)
  /\ (rectangular grid ->
      scatterCount (evaluateGrid grid bet math inFreeSpins)
      = countScatter grid (scatterSymbol math)).
Proof.
  assert (Hsc : scatterCount (evaluateGrid grid bet math inFreeSpins)
                = length (scatterScan grid (scatterSymbol math))).
  { unfold evaluateGrid. by destruct (lineLoop grid bet math PAYLINES_5X3). }
  rewrite Hsc, scatterScan_length, !countScatter_sum.
  split; [by rewrite <- list_fmap_compose|].
  intros Hrect. f_equal. apply list_fmap_ext. intros i col Hcol.
  unfold rectangular in Hrect. rewrite Forall_forall in Hrect.
  rewrite take_ge; [done|]. rewrite (Hrect col); [done|].
  by eapply list_elem_of_lookup_2.
Qed.
End ScatterCount.

Section ScatterPasses.
Import SpinGenerator.

Lemma occurrences_insert s col i old x :
  col !! i = Some old ->
  (occurrences s (<[i := x]> col) + hit s old
   = occurrences s col + hit s x)%nat.
Proof.
  revert i. induction col as [|a col IH]; intros i Hi; [done|].
  destruct i as [|i]; simpl in Hi |- *.
  - injection Hi as ->. rewrite !occurrences_cons. unfold hit. lia.
  - rewrite !occurrences_cons. specialize (IH i Hi). lia.
Qed.

Lemma sum_insert (f : list SymbolId -> nat) (grid : Grid) r col col' :
  grid !! r = Some col ->
  (sum_list (map f (<[r := col']> grid)) + f col
   = sum_list (map f grid) + f col')%nat.
Proof.
  revert r. induction grid as [|a grid IH]; intros r Hr; [done|].
  destruct r as [|r]; simpl in Hr |- *.
  - injection Hr as ->. lia.
  - specialize (IH r Hr). lia.
Qed.

Lemma grid_set_count grid r y x grid' s :
  grid_set grid r y x = Some grid' ->
  exists old,
    grid_get grid r y = Some (Some old)
    /\ (countScatter grid' s + hit s old = countScatter grid s + hit s x)%nat.
Proof.
  unfold grid_set, grid_get, arr_get, arr_set.
  destruct (decide (0 <= r)%Z) as [Hr|]; [|done].
  destruct (grid !! Z.to_nat r) as [col|] eqn:Hcol; [|done]. simpl.
  destruct (decide (0 <= y < Z.of_nat (length col))%Z) as [Hy|]; [|done].
  simpl.
  destruct (decide (0 <= r < Z.of_nat (length grid))%Z); [|done].
  intros [= <-].
  destruct (lookup_lt_is_Some_2 col (Z.to_nat y)) as [old Hold]; [lia|].
  exists old. destruct (decide (0 <= y)%Z); [|lia].
  split; [by rewrite Hold|].
  rewrite !countScatter_sum.
  pose proof (sum_insert (occurrences s) grid (Z.to_nat r) col
                (<[Z.to_nat y := x]> col) Hcol) as Hsum.
  pose proof (occurrences_insert s col (Z.to_nat y) old x Hold) as Hocc.
  lia.
Qed.

Lemma forceScatterLoop_count math reels rows desired budget :
  forall c grid g grid' g',
    forceScatterLoop math reels rows desired budget c grid g
    = Some (grid', g') ->
    c = Z.of_nat (countScatter grid (scatterSymbol math)) ->
    let n := countScatter grid (scatterSymbol math) in
    let n' := countScatter grid' (scatterSymbol math) in
    (n <= n')%nat
    /\ (n' = n \/ (inject_Z (Z.of_nat n') < desired + 1)%Q).
Proof.
  induction budget as [|budget IH]; intros c grid g grid' g' Hrun Hc;
    simpl in Hrun.
  { injection Hrun as <- <-. cbv zeta. split; [lia|by left]. }
  destruct (Qlt_bool (inject_Z c) desired) eqn:Hlt;
    [|injection Hrun as <- <-; cbv zeta; split; [lia|by left]].
  apply Qlt_bool_true in Hlt.
  apply gbind_Some in Hrun as (u1 & g1 & _ & Hrun).
  apply gbind_Some in Hrun as (u2 & g2 & _ & Hrun).
  apply gbind_Some in Hrun as (cell & g3 & Hcell & Hrun).
  apply gopt_Some in Hcell as [Hcell ->].
  destruct (isSym cell (scatterSymbol math)) eqn:Hsc; simpl in Hrun.
  { exact (IH _ _ _ _ _ Hrun Hc). }
  apply isSym_false in Hsc.
  apply gbind_Some in Hrun as (grid1 & g4 & Hset & Hrun).
  apply gopt_Some in Hset as [Hset ->].
  destruct (grid_set_count _ _ _ _ _ (scatterSymbol math) Hset)
    as (old & Hget & Hcount).
  rewrite Hcell in Hget. injection Hget as ->.
  unfold hit in Hcount.
  rewrite (bool_decide_eq_false_2 (old = scatterSymbol math)) in Hcount
    by congruence.
  rewrite bool_decide_eq_true_2 in Hcount by done.
  assert (Hc1 : (c + 1)%Z = Z.of_nat (countScatter grid1 (scatterSymbol math)))
    by lia.
  destruct (IH _ _ _ _ _ Hrun Hc1) as [Hle Hor]. cbv zeta in Hle, Hor |- *.
  split; [lia|]. right. destruct Hor as [->|Hor]; [|exact Hor].
  replace (Z.of_nat (countScatter grid1 (scatterSymbol math)))
    with (c + 1)%Z by lia.
  rewrite inject_Z_plus. change (inject_Z 1) with 1%Q. lra.
Qed.

Lemma limitScatterLoop_count math reels rows limit budget :
  forall c grid g grid' g',
    limitScatterLoop math reels rows limit budget c grid g
    = Some (grid', g') ->
    c = Z.of_nat (countScatter grid (scatterSymbol math)) ->
    let n := countScatter grid (scatterSymbol math) in
    let n' := countScatter grid' (scatterSymbol math) in
    (n' <= n)%nat
    /\ (n' = n \/ (limit <= inject_Z (Z.of_nat n') + 1)%Q).
Proof.
  induction budget as [|budget IH]; intros c grid g grid' g' Hrun Hc;
    simpl in Hrun.
  { injection Hrun as <- <-. cbv zeta. split; [lia|by left]. }
  destruct (Qle_bool limit (inject_Z c)) eqn:Hle;
    [|injection Hrun as <- <-; cbv zeta; split; [lia|by left]].
  apply Qle_bool_iff in Hle.
  apply gbind_Some in Hrun as (u1 & g1 & _ & Hrun).
  apply gbind_Some in Hrun as (u2 & g2 & _ & Hrun).
  apply gbind_Some in Hrun as (cell & g3 & Hcell & Hrun).
  apply gopt_Some in Hcell as [Hcell ->].
  destruct (isSym cell (scatterSymbol math)) eqn:Hsc; simpl in Hrun;
    [|exact (IH _ _ _ _ _ Hrun Hc)].
  apply isSym_true in Hsc.
  apply gbind_Some in Hrun as (s & g4 & Hpick & Hrun).
  apply gbind_Some in Hrun as (grid1 & g5 & Hset & Hrun).
  apply gopt_Some in Hset as [Hset ->].
  assert (Hs : s <> scatterSymbol math).
  { unfold glift in Hpick. injection Hpick as Hpick.
    pose proof (pickDifferentNonScatter_differs math
                  (Some (scatterSymbol math)) g2) as Hd.
    rewrite Hpick in Hd. simpl in Hd. congruence. }
  destruct (grid_set_count _ _ _ _ _ (scatterSymbol math) Hset)
    as (old & Hget & Hcount).
  rewrite Hcell in Hget. rewrite Hsc in Hget. injection Hget as <-.
  unfold hit in Hcount.
  rewrite bool_decide_eq_true_2 in Hcount by done.
  rewrite bool_decide_eq_false_2 in Hcount by done.
  assert (Hc1 : (c - 1)%Z = Z.of_nat (countScatter grid1 (scatterSymbol math)))
    by lia.
  destruct (IH _ _ _ _ _ Hrun Hc1) as [Hle' Hor]. cbv zeta in Hle', Hor |- *.
  split; [lia|]. right. destruct Hor as [->|Hor]; [|exact Hor].
  replace (Z.of_nat (countScatter grid1 (scatterSymbol math)))
    with (c - 1)%Z by lia.
  unfold Z.sub. rewrite inject_Z_plus, inject_Z_opp.
  change (inject_Z 1) with 1%Q. lra.
Qed.

(** Forcing scatters moves the number of scatter symbols up towards the
    target and never past it: no scatter is removed, and a grid that was
    changed holds fewer than [desired + 1] of them.  The shape of the grid
    is kept. *)
Theorem applyForcedScatter_count math grid desired g grid' g' :
  applyForcedScatter math grid desired g = Some (grid', g') ->
  let n := countScatter grid (scatterSymbol math) in
  let n' := countScatter grid' (scatterSymbol math) in
  (n <= n')%nat
  /\ (n' = n \/ (inject_Z (Z.of_nat n') < desired + 1)%Q)
  /\ dims grid' = dims grid.
Proof.
  intros Hrun. cbv zeta.
  assert (Hdims : dims grid' = dims grid)
    by (by eapply applyForcedScatter_dims).
  unfold applyForcedScatter in Hrun.
  apply gbind_Some in Hrun as (col0 & g1 & _ & Hrun).
  destruct (forceScatterLoop_count _ _ _ _ _ _ _ _ _ _ Hrun eq_refl)
    as [Hle Hor].
  split; [exact Hle|]. split; [exact Hor|exact Hdims].
Qed.

Lemma applyForcedScatter_count_witness :
  exists grid' g',
    applyForcedScatter defaultMath (uniformGrid Sym.A) 3 halves
    = Some (grid', g')
    /\ (countScatter (uniformGrid Sym.A) Sym.SCATTER
        <= countScatter grid' Sym.SCATTER)%nat.
Proof.
  eassert (Hrun : applyForcedScatter defaultMath (uniformGrid Sym.A) 3 halves
                  = Some (_, _)) by (vm_compute; reflexivity).
  eexists _, _. split; [exact Hrun|].
  exact (proj1 (applyForcedScatter_count _ _ _ _ _ _ Hrun)).
Defined.

(** Limiting scatters moves the number of scatter symbols down towards
    the limit and never past it: no scatter is added, a grid that is
    already below the limit is returned untouched without a draw, and a
    grid that was changed still holds at least [limit - 1] of them.  The
    shape of the grid is kept. *)
Theorem limitScatterBelow_count math grid limit g grid' g' :
  limitScatterBelow math grid limit g = Some (grid', g') ->
  let n := countScatter grid (scatterSymbol math) in
  let n' := countScatter grid' (scatterSymbol math) in
  (n' <= n)%nat
  /\ (n' = n \/ (limit <= inject_Z (Z.of_nat n') + 1)%Q)
  /\ dims grid' = dims grid
  /\ ((inject_Z (Z.of_nat n) < limit)%Q -> grid' = grid /\ g' = g).
Proof.
  intros Hrun. cbv zeta.
  assert (Hdims : dims grid' = dims grid)
    by (by eapply limitScatterBelow_dims).
  unfold limitScatterBelow in Hrun.
  destruct (Qlt_bool _ limit) eqn:Hlt.
  - injection Hrun as <- <-. split; [lia|]. split; [by left|]. done.
  - apply gbind_Some in Hrun as (col0 & g1 & _ & Hrun).
    destruct (limitScatterLoop_count _ _ _ _ _ _ _ _ _ _ Hrun eq_refl)
      as [Hle Hor].
    split; [exact Hle|]. split; [exact Hor|]. split; [exact Hdims|].
    intros Hbelow. apply Qlt_bool_true in Hbelow. congruence.
Qed.

Lemma limitScatterBelow_count_witness :
  exists grid' g',
    limitScatterBelow defaultMath (uniformGrid Sym.SCATTER) 3 halves
    = Some (grid', g')
    /\ (countScatter grid' Sym.SCATTER
        <= countScatter (uniformGrid Sym.SCATTER) Sym.SCATTER)%nat.
Proof.
  eassert (Hrun : limitScatterBelow defaultMath (uniformGrid Sym.SCATTER) 3
                    halves = Some (_, _)) by (vm_compute; reflexivity).
  eexists _, _. split; [exact Hrun|].
  exact (proj1 (limitScatterBelow_count _ _ _ _ _ _ Hrun)).
Defined.
End ScatterPasses.

Section ForcedLine.
Import SpinGenerator.

Lemma grid_set_cells grid r y x grid' :
  grid_set grid r y x = Some grid' ->
  (0 <= r)%Z /\ (0 <= y)%Z
  /\ is_Some (cellRC grid (Z.to_nat r) (Z.to_nat y))
  /\ forall r' y',
       cellRC grid' r' y'
       = if decide (r' = Z.to_nat r /\ y' = Z.to_nat y) then Some x
         else cellRC grid r' y'.
Proof.
  unfold grid_set, arr_get, arr_set.
  destruct (decide (0 <= r)%Z) as [Hr|]; [|done].
  destruct (grid !! Z.to_nat r) as [col|] eqn:Hcol; [|done]. simpl.
  destruct (decide (0 <= y < Z.of_nat (length col))%Z) as [Hy|]; [|done].
  simpl.
  destruct (decide (0 <= r < Z.of_nat (length grid))%Z) as [Hr'|]; [|done].
  intros [= <-]. split; [done|]. split; [lia|]. split.
  { unfold cellRC. rewrite Hcol. simpl. apply lookup_lt_is_Some_2. lia. }
  intros r' y'. unfold cellRC.
  destruct (decide (r' = Z.to_nat r)) as [->|Hne].
  - rewrite list_lookup_insert_eq by lia. rewrite Hcol. simpl.
    destruct (decide (y' = Z.to_nat y)) as [->|Hney].
    + rewrite list_lookup_insert_eq by lia.
      by rewrite decide_True.
    + rewrite list_lookup_insert_ne by done.
      rewrite decide_False; [done|]. intros [_ ?]. done.
  - rewrite list_lookup_insert_ne by done.
    rewrite decide_False; [done|]. intros [? _]. done.
Qed.

Lemma writeRow_cells sym row n :
  forall (r : nat) grid grid',
    writeRow n (Z.of_nat r) row sym grid = Some grid' ->
    (n = 0%nat \/ (0 <= row)%Z
                  /\ is_Some (cellRC grid r (Z.to_nat row)))
    /\ forall r' y',
         cellRC grid' r' y'
         = if decide ((r <= r' < r + n)%nat /\ y' = Z.to_nat row) then Some sym
           else cellRC grid r' y'.
Proof.
  induction n as [|n IH]; intros r grid grid' Hrun; simpl in Hrun.
  { injection Hrun as <-. split; [by left|]. intros r' y'.
    rewrite decide_False; [done|]. lia. }
  destruct (grid_set grid (Z.of_nat r) row sym) as [grid1|] eqn:Hset;
    [|done]. simpl in Hrun.
  replace (Z.of_nat r + 1)%Z with (Z.of_nat (S r)) in Hrun by lia.
  destruct (IH _ _ _ Hrun) as [_ Hcells].
  destruct (grid_set_cells _ _ _ _ _ Hset) as (_ & Hrow & Hsome & Hone).
  rewrite Nat2Z.id in Hsome, Hone.
  split; [right; done|]. intros r' y'. rewrite Hcells, Hone.
  repeat destruct (decide _); try reflexivity; lia.
Qed.

Lemma pickMatchCount_range g : (3 <= fst (pickMatchCount g) <= 5)%nat.
Proof.
  unfold pickMatchCount. simpl.
  repeat match goal with |- context [if ?c then _ else _] => destruct c end;
    simpl; lia.
Qed.

Lemma pickFruit_result math tries sym :
  forall g,
    let s := fst (pickFruit math tries sym g) in
    s = sym \/ (s <> scatterSymbol math /\ s <> Sym.WILD).
Proof.
  induction tries as [|tries IH]; intros g; simpl; [by left|].
  destruct (pickWeightedSymbol math g) as [s g1].
  destruct (bool_decide (s = scatterSymbol math)) eqn:Hsc; simpl;
    [apply IH|].
  destruct (bool_decide (s = Sym.WILD)) eqn:Hw; simpl; [apply IH|].
  apply bool_decide_eq_false in Hsc, Hw. by right.
Qed.

(** The forced win line.  The pass picks a row of the grid, a length of
    3, 4 or 5 and one symbol, and writes that symbol on the row from reel
    0 over that many reels (at most the reels there are); every other
    cell is left as it was.  The symbol is neither the configured scatter
    symbol nor WILD, unless ten draws in a row gave only those, in which
    case it is A. *)
Theorem applyForcedWinLine_writes math grid g grid' g' :
  applyForcedWinLine math grid g = Some (grid', g') ->
  exists (row n : nat) (sym : SymbolId),
    (3 <= n <= 5)%nat
    /\ is_Some (cellRC grid 0 row)
    /\ (sym = Sym.A \/ (sym <> scatterSymbol math /\ sym <> Sym.WILD))
    /\ (forall r y,
          cellRC grid' r y
          = if decide ((r < Nat.min (length grid) n)%nat /\ y = row)
            then Some sym else cellRC grid r y)
    /\ dims grid' = dims grid.
Proof.
  intros Hrun.
  assert (Hdims : dims grid' = dims grid)
    by (by eapply applyForcedWinLine_dims).
  unfold applyForcedWinLine in Hrun.
  apply gbind_Some in Hrun as (col0 & g1 & Hcol0 & Hrun).
  apply gopt_Some in Hcol0 as [Hcol0 ->].
  apply gbind_Some in Hrun as (u & g2 & _ & Hrun).
  apply gbind_Some in Hrun as (count & g3 & Hcount & Hrun).
  apply gbind_Some in Hrun as (sym & g4 & Hsym & Hrun).
  apply gopt_Some in Hrun as [Hrun ->].
  unfold glift in Hcount, Hsym.
  pose proof (pickMatchCount_range g2) as Hrange.
  destruct (pickMatchCount g2) as [count' g3']. injection Hcount as -> ->.
  pose proof (pickFruit_result math 10 Sym.A g3) as Hfruit.
  destruct (pickFruit math 10 Sym.A g3) as [sym' g4']. injection Hsym as -> ->.
  cbn [fst] in Hrange, Hfruit.
  set (row := toInt32 (u * ofNat (length col0))) in *.
  change 0%Z with (Z.of_nat 0) in Hrun.
  destruct (writeRow_cells _ _ _ _ _ _ Hrun) as [Hfirst Hcells].
  assert (Hlen : (0 < length grid)%nat) by (by eapply lookup_lt_Some).
  destruct Hfirst as [Hzero|[Hrow Hsome]]; [lia|].
  exists (Z.to_nat row), count, sym.
  split; [exact Hrange|]. split; [exact Hsome|]. split; [exact Hfruit|].
  split; [|exact Hdims].
  intros r y. rewrite Hcells.
  repeat destruct (decide _); try reflexivity; lia.
Qed.

Lemma applyForcedWinLine_writes_witness :
  exists grid' g' (row n : nat) (sym : SymbolId),
    applyForcedWinLine defaultMath (uniformGrid Sym.WILD) halves
    = Some (grid', g')
    /\ (3 <= n <= 5)%nat
    /\ (forall r y,
          cellRC grid' r y
          = if decide ((r < Nat.min (length (uniformGrid Sym.WILD)) n)%nat
                       /\ y = row)
            then Some sym else cellRC (uniformGrid Sym.WILD) r y).
Proof.
  eassert (Hrun : applyForcedWinLine defaultMath (uniformGrid Sym.WILD) halves
                  = Some (_, _)) by (vm_compute; reflexivity).
  destruct (applyForcedWinLine_writes _ _ _ _ _ Hrun)
    as (row & n & sym & Hn & _ & _ & Hcells & _).
  eexists _, _, row, n, sym. split; [exact Hrun|]. split; [exact Hn|].
  exact Hcells.
Defined.
End ForcedLine.

Section MoreWitnesses.
Import SlotScene.

Lemma busy_ignores_input_witness :
  requestSpin false stoppedScene = Some (stoppedScene, [], None)
  /\ changeBet 10 stoppedScene = (stoppedScene, []).
Proof. apply busy_ignores_input. discriminate. Defined.

Lemma round_balance_nonneg_witness :
  exists s' eff,
    playRound false freshScene = Some (s', eff)
    /\ (0 <= balance s')%Q
    /\ (balance freshScene - Qmax 0 (bet freshScene) <= balance s')%Q.
Proof.
  eassert (Hrun : playRound false freshScene = Some (_, _))
    by (vm_compute; reflexivity).
  eexists _, _. split; [exact Hrun|].
  destruct (round_balance_nonneg _ _ _ _ Hrun) as (H0 & _ & H1).
  { vm_compute. discriminate. }
  split; [exact H0|exact H1].
Defined.

Lemma round_end_control_witness :
  exists s' eff,
    onStopped stoppedPending stoppedScene = Some (s', eff)
    /\ state s' = IDLE
    /\ fst (syncUi s') = negb (existsb isSchedule eff).
Proof.
  eassert (Hrun : onStopped stoppedPending stoppedScene = Some (_, _))
    by (vm_compute; reflexivity).
  eexists _, _. split; [exact Hrun|].
  destruct (round_end_control stoppedPending stoppedScene _ _ eq_refl Hrun)
    as (H0 & _ & H1).
  split; [exact H0|exact H1].
Defined.

Lemma session_invariant_witness :
  (0 <= balance (fst (changeBet 10 freshScene)))%Q
  /\ state (fst (changeBet 10 freshScene)) = IDLE.
Proof.
  destruct (session_invariant _ _ _ _
              (session_betPlus _ _ _ _
                 (session_enter {| config := config5x3;
                                   model_math := defaultMath |} emptyWorld)))
    as (H0 & H1 & _).
  split; [exact H0|exact H1].
Defined.

Lemma winLine_describes_run_witness :
  exists w line n,
    w ∈ winLines (Evaluator.evaluateGrid (uniformGrid Sym.A) 10 defaultMath
                    false)
    /\ line ∈ PAYLINES_5X3 /\ lineId w = id line
    /\ (3 <= n <= length (uniformGrid Sym.A))%nat
    /\ count w = Nat.min 5 n /\ (0 < amount w)%Q.
Proof.
  eassert (Hw : winLines (Evaluator.evaluateGrid (uniformGrid Sym.A) 10
                            defaultMath false) = _ :: _)
    by (vm_compute; reflexivity).
  eassert (Hin : _ ∈ winLines (Evaluator.evaluateGrid (uniformGrid Sym.A) 10
                                 defaultMath false))
    by (rewrite Hw; apply list_elem_of_here).
  destruct (winLine_describes_run _ _ _ _ _ Hin)
    as (line & n & Hline & Hid & _ & _ & _ & Hn & Hc & _ & _ & _ & _ & _ & _
        & Hpos).
  eexists _, line, n. split; [exact Hin|]. split; [exact Hline|].
  split; [exact Hid|]. split; [exact Hn|]. split; [exact Hc|exact Hpos].
Defined.

Lemma defaultMath_scatterPay c v :
  scatterPay defaultMath c = Some v -> (0 <= v)%Q.
Proof.
  unfold defaultMath, EnvLoader.buildSpec. cbn [scatterPay].
  unfold EnvLoader.scatterPayOf.
  destruct (bool_decide (c ∈ EnvLoader.payCounts)); [|done].
  rewrite !env_get_absent by apply lookup_empty.
  cbn [EnvLoader.coalesce EnvLoader.payCell]. intros [= <-].
  destruct c as [|[|[|[|[|c]]]]]; vm_compute; discriminate.
Qed.

Lemma winAmount_nonneg_witness :
  (0 <= winAmount (Evaluator.evaluateGrid (uniformGrid Sym.A) 10 defaultMath
                     true))%Z.
Proof.
  apply winAmount_nonneg.
  - vm_compute. discriminate.
  - exact defaultMath_scatterPay.
  - vm_compute. discriminate.
Defined.
End MoreWitnesses.

Section ReelFacts.
Import ReelView.

Lemma ring_next top total k :
  (top < total)%nat -> (k < total)%nat ->
  (((top + k) mod total = top)%nat <-> k = 0%nat).
Proof.
  intros Htop Hk. split.
  - intros Hmod. destruct (decide (top + k < total)%nat) as [Hlt|Hge].
    + rewrite Nat.mod_small in Hmod by done. lia.
    + replace (top + k)%nat with ((top + k - total) + 1 * total)%nat in Hmod
        by lia.
      rewrite Nat.Div0.mod_add, Nat.mod_small in Hmod by lia. lia.
  - intros ->. rewrite Nat.add_0_r. by apply Nat.mod_small.
Qed.

Lemma ring_bottom top total :
  (top < total)%nat ->
  (((top + 1) mod total + total - 1) mod total = top)%nat.
Proof.
  intros Htop. destruct (decide (top + 1 < total)%nat) as [Hlt|Hge].
  - rewrite (Nat.mod_small (top + 1)) by done.
    replace (top + 1 + total - 1)%nat with (top + 1 * total)%nat by lia.
    rewrite Nat.Div0.mod_add. by apply Nat.mod_small.
  - assert (top + 1 = total)%nat as -> by lia.
    rewrite Nat.Div0.mod_same. simpl. rewrite Nat.mod_small by lia. lia.
Qed.

Lemma ring_shift top total i :
  (0 < total)%nat ->
  (((top + 1) mod total + i) mod total = (top + S i) mod total)%nat.
Proof.
  intros Ht. rewrite Nat.Div0.add_mod_idemp_l. f_equal. lia.
Qed.

(** One step of the strip: the pool keeps its size, every cell moves up
    one place, and the cell that becomes the bottom one shows the next
    symbol of the queue, or keeps its symbol when the queue has none. *)
Lemma shiftOne_spec r :
  reelOk r ->
  exists r',
    shiftOne r = Some r' /\ reelOk r'
    /\ queueRead r' = S (queueRead r) /\ queue r' = queue r
    /\ rows r' = rows r /\ buffer r' = buffer r
    /\ stepHeight r' = stepHeight r
    /\ spinPos r' = spinPos r /\ prevSpinPos r' = prevSpinPos r
    /\ kick r' = kick r /\ scale_x r' = scale_x r /\ index r' = index r
    /\ length (symbols r') = length (symbols r)
    /\ (forall i, (S i < length (symbols r))%nat ->
          stripId r' i = stripId r (S i))
    /\ (forall id, mjoin (queue r !! queueRead r) = Some id ->
          stripId r' (length (symbols r) - 1) = Some (Some id)).
Proof.
  intros (Hlen & Hpos & Htop). unfold shiftOne.
  set (total := length (symbols r)) in *.
  destruct (total =? 0)%nat eqn:Hz; [apply Nat.eqb_eq in Hz; lia|].
  rewrite (ring_bottom _ _ Htop).
  set (syms := match mjoin (queue r !! queueRead r) with
               | Some id => alter (setId (Some id)) (topIndex r) (symbols r)
               | None => symbols r
               end).
  assert (Hsl : length syms = total).
  { unfold syms. destruct (mjoin _); [by rewrite length_alter|done]. }
  eexists. split; [reflexivity|]. cbn.
  split.
  { unfold reelOk. cbn. rewrite Hsl. split; [done|]. split; [done|].
    apply Nat.mod_upper_bound. lia. }
  do 10 (split; [done|]). split; [exact Hsl|]. split.
  - intros i Hi. unfold stripId. cbn. rewrite Hsl. fold total.
    rewrite ring_shift by done.
    assert (Hne : ((topIndex r + S i) mod total)%nat <> topIndex r).
    { intros Heq. apply ring_next in Heq; [lia|done|lia]. }
    unfold syms. destruct (mjoin _); [|done].
    by rewrite list_lookup_alter_ne.
  - intros id Hid. unfold stripId. cbn. rewrite Hsl.
    rewrite ring_shift by done.
    replace (S (total - 1)) with total by lia.
    replace (topIndex r + total)%nat with (topIndex r + 1 * total)%nat by lia.
    rewrite Nat.Div0.mod_add, Nat.mod_small by done.
    unfold syms. rewrite Hid. rewrite list_lookup_alter_eq.
    destruct (lookup_lt_is_Some_2 (symbols r) (topIndex r) Htop) as [s ->].
    done.
Qed.

(** [n] steps: the cells move up [n] places, and a cell that came in
    during these steps shows the symbol the queue had for it. *)
Lemma shiftN_spec n :
  forall r,
    reelOk r ->
    exists r',
      shiftN n r = Some r' /\ reelOk r'
      /\ queueRead r' = (queueRead r + n)%nat /\ queue r' = queue r
      /\ rows r' = rows r /\ buffer r' = buffer r
      /\ stepHeight r' = stepHeight r
      /\ spinPos r' = spinPos r /\ prevSpinPos r' = prevSpinPos r
      /\ kick r' = kick r /\ scale_x r' = scale_x r /\ index r' = index r
      /\ length (symbols r') = length (symbols r)
      /\ (forall i, (i + n < length (symbols r))%nat ->
            stripId r' i = stripId r (i + n))
      /\ (forall i id,
            (i < length (symbols r))%nat ->
            (length (symbols r) <= i + n)%nat ->
            mjoin (queue r !! (queueRead r + (i + n - length (symbols r)))%nat)
            = Some id ->
            stripId r' i = Some (Some id)).
Proof.
  induction n as [|n IH]; intros r Hok.
  { exists r. split; [done|]. split; [done|]. split; [simpl; lia|].
    do 10 (split; [done|]). split.
    - intros i _. by rewrite Nat.add_0_r.
    - intros i id Hi Hge. lia. }
  destruct (shiftOne_spec r Hok)
    as (r1 & Hs1 & Hok1 & Hq1 & Hqu1 & Hr1 & Hb1 & Hst1 & Hsp1 & Hpr1 & Hk1
        & Hsc1 & Hi1 & Hl1 & Hup1 & Hin1).
  destruct (IH r1 Hok1)
    as (r2 & Hs2 & Hok2 & Hq2 & Hqu2 & Hr2 & Hb2 & Hst2 & Hsp2 & Hpr2 & Hk2
        & Hsc2 & Hi2 & Hl2 & Hup2 & Hin2).
  exists r2. simpl. rewrite Hs1. simpl.
  split; [exact Hs2|]. split; [exact Hok2|]. split; [lia|].
  do 9 (split; [congruence|]). split; [congruence|]. split.
  - intros i Hi. rewrite Hup2 by lia. rewrite Hup1 by lia. f_equal. lia.
  - intros i id Hi Hge Hid. rewrite Hl1 in Hup2, Hin2.
    destruct (decide (i + n < length (symbols r))%nat) as [Hlt|Hnlt].
    + rewrite Hup2 by done.
      assert (i + n = length (symbols r) - 1)%nat as -> by lia.
      apply Hin1.
      replace (queueRead r + (i + S n - length (symbols r)))%nat
        with (queueRead r) in Hid by lia.
      exact Hid.
    + replace (queueRead r + (i + S n - length (symbols r)))%nat
        with (S (queueRead r) + (i + n - length (symbols r)))%nat in Hid
        by lia.
      apply Hin2; [done|lia|]. by rewrite Hqu1, Hq1.
Qed.

Lemma getVisibleSymbol_strip r row :
  (0 < length (symbols r))%nat ->
  sv_id <$> getVisibleSymbol r row = stripId r (buffer r + row).
Proof.
  intros Hpos. unfold getVisibleSymbol, visibleIndex, stripId.
  destruct (length (symbols r) =? 0)%nat eqn:Hz;
    [apply Nat.eqb_eq in Hz; lia|]. done.
Qed.

Lemma getVisibleColumn_Some r (ids : list Cell) :
  (0 < length (symbols r))%nat ->
  length ids = rows r ->
  (forall row, (row < rows r)%nat ->
     stripId r (buffer r + row) = Some (default None (ids !! row))) ->
  getVisibleColumn r = Some ids.
Proof.
  intros Hpos Hlen Hrows. unfold getVisibleColumn. apply mapM_Some.
  apply Forall2_same_length_lookup_2.
  { by rewrite length_seq. }
  intros i row id Hrow Hid. apply lookup_seq in Hrow as [-> Hi].
  simpl. rewrite getVisibleSymbol_strip by done.
  rewrite (Hrows i Hi), Hid. done.
Qed.

(** The strip lands on the final column: after [prepareSpin] and as many
    steps as the queue is long, the visible rows show the final column from
    top to bottom. *)
Lemma shiftN_lands (finalColumn : list SymbolId) n r g :
  reelOk r -> length finalColumn = rows r ->
  let r1 := fst (prepareSpin finalColumn n r g) in
  length (queue r1) = (n + rows r + buffer r)%nat
  /\ queueRead r1 = 0%nat /\ reelOk r1
  /\ spinPos r1 = spinPos r /\ prevSpinPos r1 = prevSpinPos r
  /\ exists r2,
       shiftN (length (queue r1)) r1 = Some r2 /\ reelOk r2
       /\ getVisibleColumn r2 = Some (map Some finalColumn)
       /\ queueRead r2 = length (queue r2)
       /\ spinPos r2 = spinPos r /\ prevSpinPos r2 = prevSpinPos r.
Proof.
  intros Hok Hfin. cbv zeta. unfold prepareSpin.
  pose proof (fillArray_length n randomSymbol g) as Hpre.
  destruct (SpinGenerator.fillArray n randomSymbol g) as [pre g1].
  pose proof (fillArray_length (buffer r) randomSymbol g1) as Hpost.
  destruct (SpinGenerator.fillArray (buffer r) randomSymbol g1) as [post g2].
  simpl in Hpre, Hpost |- *.
  set (q := pre ++ map Some finalColumn ++ post).
  assert (Hq : length q = (n + rows r + buffer r)%nat).
  { unfold q. rewrite !length_app, length_map. lia. }
  split; [exact Hq|]. split; [done|]. split; [exact Hok|].
  split; [done|]. split; [done|].
  set (r1 := with_queue q 0 r).
  assert (Hok1 : reelOk r1) by exact Hok.
  destruct (shiftN_spec (length q) r1 Hok1)
    as (r2 & Hs2 & Hok2 & Hq2 & Hqu2 & Hr2 & Hb2 & _ & Hsp2 & Hpr2 & _ & _ & _
        & Hl2 & _ & Hin2).
  exists r2. split; [exact Hs2|]. split; [exact Hok2|].
  destruct Hok as (Hlen & Hpos & Htop).
  split; [|split; [|split; [exact Hsp2|exact Hpr2]]].
  - apply getVisibleColumn_Some.
    + rewrite Hl2. exact Hpos.
    + rewrite length_map, Hr2. exact Hfin.
    + intros row Hrow. rewrite Hr2 in Hrow. rewrite Hb2.
      change (buffer r1) with (buffer r). change (rows r1) with (rows r) in *.
      destruct (lookup_lt_is_Some_2 finalColumn row) as [id Hid]; [lia|].
      rewrite list_lookup_fmap, Hid. simpl.
      apply Hin2.
      * change (symbols r1) with (symbols r). lia.
      * change (symbols r1) with (symbols r). lia.
      * change (symbols r1) with (symbols r). change (queue r1) with q.
        change (queueRead r1) with 0%nat. rewrite Hq, Hlen. simpl.
        replace (buffer r + row + (n + rows r + buffer r)
                 - (rows r + (buffer r + (buffer r + 0))))%nat
          with (length pre + row)%nat by lia.
        unfold q. rewrite lookup_app_r by lia.
        replace (length pre + row - length pre)%nat with row by lia.
        rewrite lookup_app_l by (rewrite length_map; lia).
        by rewrite list_lookup_fmap, Hid.
  - rewrite Hq2, Hqu2. simpl. done.
Qed.
End ReelFacts.

Section StripFacts.
Import ReelView.

Lemma toInt32_floor x :
  (0 <= x)%Q -> (x < inject_Z (2 ^ 31))%Q -> toInt32 x = Qfloor x.
Proof.
  intros Hx0 Hx1. unfold toInt32. rewrite (Qtrunc_floor x Hx0).
  assert (Hf0 : (0 <= Qfloor x)%Z).
  { change 0%Z with (Qfloor 0). by apply Qfloor_resp_le. }
  assert (Hf1 : (Qfloor x < 2 ^ 31)%Z).
  { rewrite Zlt_Qlt. eapply Qle_lt_trans; [apply Qfloor_le|done]. }
  rewrite Z.mod_small by lia.
  destruct (Qfloor x <? 2 ^ 31)%Z eqn:Hlt; [done|].
  apply Z.ltb_ge in Hlt. lia.
Qed.

Lemma shiftN_add a :
  forall b r, shiftN (a + b) r = shiftN a r ≫= shiftN b.
Proof.
  induction a as [|a IH]; intros b r; simpl; [done|].
  destruct (shiftOne r) as [r1|]; simpl; [apply IH|done].
Qed.

Lemma sameStrip_refl r : sameStrip r r.
Proof. by repeat split. Qed.

Lemma sameStrip_trans a b c : sameStrip a b -> sameStrip b c -> sameStrip a c.
Proof.
  intros (H1 & H2 & H3 & H4 & H5 & H6) (K1 & K2 & K3 & K4 & K5 & K6).
  repeat split; congruence.
Qed.

Lemma sameStrip_sym a b : sameStrip a b -> sameStrip b a.
Proof. intros (H1 & H2 & H3 & H4 & H5 & H6). by repeat split. Qed.

Lemma ids_alter_setY y j (l : list SymbolView) :
  map sv_id (alter (setY y) j l) = map sv_id l.
Proof.
  rewrite (list_fmap_alter sv_id (setY y) (fun c => c))
    by (by apply Forall_true).
  by apply list_alter_id.
Qed.

Lemma ids_alter_setId c j (l : list SymbolView) :
  map sv_id (alter (setId c) j l) = alter (fun _ => c) j (map sv_id l).
Proof. apply list_fmap_alter. by apply Forall_true. Qed.

Lemma placeSymbols_same off r :
  sameStrip (placeSymbols off r) r
  /\ spinPos (placeSymbols off r) = spinPos r
  /\ prevSpinPos (placeSymbols off r) = prevSpinPos r
  /\ length (symbols (placeSymbols off r)) = length (symbols r).
Proof.
  unfold placeSymbols. cbn.
  assert (H : forall js (l : list SymbolView),
    map sv_id
      (fold_left
         (fun syms i =>
            alter (setY (inject_Z (Z.of_nat i - Z.of_nat (buffer r))
                         * stepHeight r + off)%Q)
                  ((topIndex r + i) mod length (symbols r))%nat syms)
         js l)
    = map sv_id l).
  { induction js as [|i js IH]; intros l; simpl; [done|].
    by rewrite IH, ids_alter_setY. }
  split; [|split; [done|split; [done|]]].
  - unfold sameStrip. cbn. by rewrite H.
  - rewrite <- (length_map sv_id), H. by rewrite length_map.
Qed.

Lemma placeSymbols_ok off r : reelOk r -> reelOk (placeSymbols off r).
Proof.
  intros (H1 & H2 & H3).
  destruct (placeSymbols_same off r) as ((Ht & _ & _ & _ & Hr & Hb) & _ & _ & Hl).
  unfold reelOk. by rewrite Hl, Ht, Hr, Hb.
Qed.

Lemma shiftOne_same a b a' :
  sameStrip a b -> shiftOne a = Some a' ->
  exists b', shiftOne b = Some b' /\ sameStrip a' b'.
Proof.
  intros (Htop & Hids & Hq & Hqr & Hrows & Hbuf). unfold shiftOne.
  assert (Hlen : length (symbols a) = length (symbols b)).
  { by rewrite <- (length_map sv_id), Hids, length_map. }
  rewrite <- Hlen, <- Htop, <- Hq, <- Hqr.
  destruct (length (symbols a) =? 0)%nat; [done|].
  intros [= <-]. eexists. split; [reflexivity|].
  unfold sameStrip. cbn. repeat split; try done.
  destruct (mjoin (queue a !! queueRead a)); [|done].
  by rewrite !ids_alter_setId, Hids.
Qed.

Lemma shiftN_same n :
  forall a b a',
    sameStrip a b -> shiftN n a = Some a' ->
    exists b', shiftN n b = Some b' /\ sameStrip a' b'.
Proof.
  induction n as [|n IH]; intros a b a' Hab Hrun; simpl in Hrun |- *.
  { injection Hrun as <-. by exists b. }
  destruct (shiftOne a) as [a1|] eqn:Ha1; [|done]. simpl in Hrun.
  destruct (shiftOne_same _ _ _ Hab Ha1) as (b1 & -> & Hab1). simpl.
  by eapply IH.
Qed.

Lemma getVisibleColumn_same a b :
  sameStrip a b -> getVisibleColumn a = getVisibleColumn b.
Proof.
  intros (Htop & Hids & Hq & Hqr & Hrows & Hbuf).
  assert (Hlen : length (symbols a) = length (symbols b)).
  { by rewrite <- (length_map sv_id), Hids, length_map. }
  unfold getVisibleColumn. rewrite Hrows. apply mapM_ext. intros row.
  unfold getVisibleSymbol, visibleIndex. rewrite Hlen, Htop, Hbuf.
  destruct (length (symbols b) =? 0)%nat; [done|]. simpl.
  assert (Hids' : sv_id <$> symbols a = sv_id <$> symbols b) by exact Hids.
  rewrite <- !list_lookup_fmap. by rewrite Hids'.
Qed.

Lemma shiftN_with_spinPos p n :
  forall r, shiftN n (with_spinPos p r) = with_spinPos p <$> shiftN n r.
Proof.
  induction n as [|n IH]; intros r; simpl; [done|].
  unfold shiftOne. cbn.
  destruct (length (symbols r) =? 0)%nat; [done|]. simpl.
  apply (IH (with_symbols _ (with_queue _ _ (with_topIndex _ r)))).
Qed.

(** One frame: the position is written and the strip is synchronised.  When
    the position has not gone back, the strip has taken exactly as many
    steps as whole positions were crossed. *)
Lemma moveTo_spec p r :
  reelOk r ->
  (0 <= prevSpinPos r)%Q -> (prevSpinPos r <= p)%Q ->
  (p < inject_Z (2 ^ 31))%Q ->
  exists r' rs,
    moveTo p r = Some r'
    /\ shiftN (Z.to_nat (Qfloor p - Qfloor (prevSpinPos r))) r = Some rs
    /\ sameStrip r' rs /\ reelOk r'
    /\ spinPos r' = p /\ prevSpinPos r' = p.
Proof.
  intros Hok Hprev Hle Hbig. unfold moveTo, syncStrip. cbn.
  rewrite (toInt32_floor p) by lra.
  rewrite (toInt32_floor (prevSpinPos r)) by lra.
  set (k := (Qfloor p - Qfloor (prevSpinPos r))%Z).
  assert (Hk : (0 <= k)%Z).
  { unfold k. pose proof (Qfloor_resp_le _ _ Hle). lia. }
  destruct (shiftN_spec (Z.to_nat k) r Hok)
    as (rs & Hrs & Hoks & _ & _ & _ & _ & _ & _ & _ & _ & _ & _ & Hls & _).
  assert (Hrun : (if (0 <? k)%Z
                  then shiftN (Z.to_nat k) (with_spinPos p r)
                  else Some (with_spinPos p r))
                 = Some (with_spinPos p rs)).
  { destruct (0 <? k)%Z eqn:Hpos.
    - by rewrite shiftN_with_spinPos, Hrs.
    - apply Z.ltb_ge in Hpos. assert (k = 0)%Z as Hk0 by lia.
      rewrite Hk0 in Hrs. simpl in Hrs. by injection Hrs as <-. }
  rewrite Hrun. simpl.
  eexists _, rs. split; [reflexivity|]. split; [exact Hrs|].
  destruct (placeSymbols_same
              (- (p - inject_Z (Qfloor p))
               * stepHeight (with_prevSpinPos p (with_spinPos p rs)))%Q
              (with_prevSpinPos p (with_spinPos p rs)))
    as (Hsame & Hsp & Hpr & Hlen).
  split; [|split; [|split; [exact Hsp|exact Hpr]]].
  - eapply sameStrip_trans; [exact Hsame|]. by repeat split.
  - apply placeSymbols_ok. exact Hoks.
Qed.

Lemma climbs_le start ps stop : climbs start ps stop -> (start <= stop)%Q.
Proof.
  revert start. induction ps as [|p ps IH]; intros start; simpl.
  - intros ->. apply Qle_refl.
  - intros [Hle Hrest]. apply IH in Hrest. lra.
Qed.

Lemma Qfloor_Qeq x y : (x == y)%Q -> Qfloor x = Qfloor y.
Proof. intros Hxy. by rewrite Hxy. Qed.

(** Frame after frame: however the way from the start to the stop is cut
    into frames, the strip has taken as many steps as whole positions lie
    between the two. *)
Lemma advance_spec ps :
  forall r stop,
    reelOk r -> (0 <= prevSpinPos r)%Q ->
    climbs (prevSpinPos r) ps stop -> (stop < inject_Z (2 ^ 31))%Q ->
    exists r' rs,
      advance ps r = Some r'
      /\ shiftN (Z.to_nat (Qfloor stop - Qfloor (prevSpinPos r))) r = Some rs
      /\ sameStrip r' rs /\ reelOk r'
      /\ (prevSpinPos r' == stop)%Q.
Proof.
  induction ps as [|p ps IH]; intros r stop Hok Hprev Hclimb Hbig;
    simpl in Hclimb.
  { exists r, r. split; [done|]. rewrite (Qfloor_Qeq _ _ Hclimb).
    rewrite Z.sub_diag. split; [done|]. split; [apply sameStrip_refl|].
    split; [done|exact Hclimb]. }
  destruct Hclimb as [Hle Hclimb].
  pose proof (climbs_le _ _ _ Hclimb) as Hpstop.
  destruct (moveTo_spec p r Hok Hprev Hle) as
    (r1 & rs1 & Hmove & Hs1 & Hsame1 & Hok1 & Hsp1 & Hpr1); [lra|].
  rewrite <- Hpr1 in Hclimb.
  destruct (IH r1 stop Hok1) as (r2 & rs2 & Hadv & Hs2 & Hsame2 & Hok2 & Hpr2);
    [rewrite Hpr1; lra|exact Hclimb|exact Hbig|].
  destruct (shiftN_same _ _ _ _ Hsame1 Hs2) as (rs & Hrs & Hsame).
  exists r2, rs. split; [simpl; by rewrite Hmove|]. split.
  - pose proof (Qfloor_resp_le _ _ Hle) as Hf1.
    pose proof (Qfloor_resp_le _ _ Hpstop) as Hf2.
    replace (Z.to_nat (Qfloor stop - Qfloor (prevSpinPos r)))
      with (Z.to_nat (Qfloor p - Qfloor (prevSpinPos r))
            + Z.to_nat (Qfloor stop - Qfloor p))%nat by lia.
    rewrite shiftN_add, Hs1. simpl. rewrite <- Hpr1. exact Hrs.
  - split; [by eapply sameStrip_trans|]. split; [exact Hok2|exact Hpr2].
Qed.
End StripFacts.

Section ReelTheorems.
Import ReelView.

Lemma Qfloor_plus_Z x (k : Z) : Qfloor (x + inject_Z k) = (Qfloor x + k)%Z.
Proof.
  pose proof (Qfloor_le x) as H1. pose proof (Qlt_floor x) as H2.
  pose proof (Qfloor_le (x + inject_Z k)) as H3.
  pose proof (Qlt_floor (x + inject_Z k)) as H4.
  rewrite inject_Z_plus in H2, H4. change (inject_Z 1) with 1%Q in H2, H4.
  assert (Ha : (inject_Z (Qfloor (x + inject_Z k))
                < inject_Z (Qfloor x + k + 1))%Q).
  { rewrite !inject_Z_plus. change (inject_Z 1) with 1%Q. lra. }
  assert (Hb : (inject_Z (Qfloor x + k)
                < inject_Z (Qfloor (x + inject_Z k) + 1))%Q).
  { rewrite !inject_Z_plus. change (inject_Z 1) with 1%Q. lra. }
  rewrite <- Zlt_Qlt in Ha, Hb. lia.
Qed.

(** The reel lands on the final column.  After [prepareSpin], let the
    position rise from where the strip was last synchronised by exactly the
    length of the queue, in frames of any size that never go back, with
    [syncStrip] run at each frame: the visible rows then show the final
    column from top to bottom, and the queue has been read to its end. *)
Theorem reel_lands_on_final_column finalColumn n r g ps :
  reelOk r -> length finalColumn = rows r ->
  (0 <= prevSpinPos r)%Q ->
  let r1 := fst (prepareSpin finalColumn n r g) in
  let stop := (prevSpinPos r + ofNat (length (queue r1)))%Q in
  (stop < inject_Z (2 ^ 31))%Q ->
  climbs (prevSpinPos r) ps stop ->
  exists r2,
    advance ps r1 = Some r2
    /\ getVisibleColumn r2 = Some (map Some finalColumn)
    /\ queueRead r2 = length (queue r2)
    /\ (prevSpinPos r2 == stop)%Q.
Proof.
  intros Hok Hfin Hprev. cbv zeta. intros Hbig Hclimb.
  destruct (shiftN_lands finalColumn n r g Hok Hfin)
    as (Hq & Hqr & Hok1 & Hsp1 & Hpr1 & r2 & Hs2 & Hok2 & Hvis & Hread & _).
  set (r1 := fst (prepareSpin finalColumn n r g)) in *.
  rewrite <- Hpr1 in Hclimb, Hprev, Hbig.
  destruct (advance_spec ps r1 _ Hok1 Hprev Hclimb Hbig)
    as (r' & rs & Hadv & Hrs & Hsame & Hok' & Hstop).
  unfold ofNat in Hrs.
  rewrite Qfloor_plus_Z in Hrs.
  replace (Z.to_nat (Qfloor (prevSpinPos r1) + Z.of_nat (length (queue r1))
                     - Qfloor (prevSpinPos r1)))
    with (length (queue r1)) in Hrs by lia.
  rewrite Hs2 in Hrs. injection Hrs as <-.
  exists r'. split; [exact Hadv|].
  rewrite (getVisibleColumn_same _ _ Hsame).
  split; [exact Hvis|]. split; [|by rewrite Hstop, Hpr1].
  destruct Hsame as (_ & _ & Hqs & Hqrs & _). by rewrite Hqs, Hqrs.
Qed.

Lemma reel_lands_on_final_column_witness :
  let r := fst (create 0 3 2 140 18 halves) in
  let r1 := fst (prepareSpin [Sym.A; Sym.K; Sym.Q] 2 r halves) in
  exists r2,
    advance [(1 # 2)%Q; 3%Q; 7%Q] r1 = Some r2
    /\ getVisibleColumn r2 = Some [Some Sym.A; Some Sym.K; Some Sym.Q].
Proof.
  cbv zeta.
  destruct (reel_lands_on_final_column [Sym.A; Sym.K; Sym.Q] 2
              (fst (create 0 3 2 140 18 halves)) halves
              [(1 # 2)%Q; 3%Q; 7%Q])
    as (r2 & Hadv & Hvis & _).
  - vm_compute. repeat split; lia.
  - reflexivity.
  - vm_compute. discriminate.
  - vm_compute. reflexivity.
  - vm_compute. repeat split; discriminate.
  - exists r2. split; [exact Hadv|exact Hvis].
Defined.
End ReelTheorems.

Section PlaceFacts.
Import ReelView.

Lemma ring_inj top total i j :
  (0 < total)%nat -> (i < total)%nat -> (j < total)%nat ->
  ((top + i) mod total = (top + j) mod total)%nat -> i = j.
Proof.
  intros Ht Hi Hj Heq.
  assert (Hi' : ((top + i) mod total = (top mod total + i) mod total)%nat)
    by (by rewrite Nat.Div0.add_mod_idemp_l).
  assert (Hj' : ((top + j) mod total = (top mod total + j) mod total)%nat)
    by (by rewrite Nat.Div0.add_mod_idemp_l).
  rewrite Hi', Hj' in Heq.
  pose proof (Nat.mod_upper_bound top total ltac:(lia)) as Hb.
  set (t := (top mod total)%nat) in *. clearbody t.
  destruct (decide (t + i < total)%nat) as [Hli|Hgi];
    destruct (decide (t + j < total)%nat) as [Hlj|Hgj].
  - rewrite !Nat.mod_small in Heq by done. lia.
  - rewrite (Nat.mod_small (t + i)) in Heq by done.
    replace (t + j)%nat with ((t + j - total) + 1 * total)%nat in Heq by lia.
    rewrite Nat.Div0.mod_add, Nat.mod_small in Heq by lia. lia.
  - rewrite (Nat.mod_small (t + j)) in Heq by done.
    replace (t + i)%nat with ((t + i - total) + 1 * total)%nat in Heq by lia.
    rewrite Nat.Div0.mod_add, Nat.mod_small in Heq by lia. lia.
  - replace (t + j)%nat with ((t + j - total) + 1 * total)%nat in Heq by lia.
    replace (t + i)%nat with ((t + i - total) + 1 * total)%nat in Heq by lia.
    rewrite !Nat.Div0.mod_add, !Nat.mod_small in Heq by lia. lia.
Qed.

(** A run of writes of vertical positions to cells at different places:
    the cell of [i0] ends with the position written for [i0]. *)
Lemma place_fold (f : nat -> number) (idx : nat -> nat) :
  forall (js : list nat) (l : list SymbolView) i0,
    NoDup js ->
    (forall i j, i ∈ js -> j ∈ js -> idx i = idx j -> i = j) ->
    i0 ∈ js ->
    fold_left (fun syms i => alter (setY (f i)) (idx i) syms) js l !! idx i0
    = setY (f i0) <$> l !! idx i0.
Proof.
  assert (Hout : forall (js : list nat) (l : list SymbolView) k,
    (forall j, j ∈ js -> idx j <> k) ->
    fold_left (fun syms i => alter (setY (f i)) (idx i) syms) js l !! k
    = l !! k).
  { induction js as [|j js IH]; intros l k Hk; simpl; [done|].
    rewrite IH by (intros j' Hj'; apply Hk; by right).
    apply list_lookup_alter_ne. apply Hk. by left. }
  induction js as [|j js IH]; intros l i0 Hnd Hinj Hin; simpl.
  { by apply elem_of_nil in Hin. }
  apply NoDup_cons in Hnd as [Hj Hnd].
  apply elem_of_cons in Hin as [->|Hin].
  - rewrite Hout.
    + by rewrite list_lookup_alter_eq.
    + intros j' Hj' Heq. apply Hj.
      assert (j' = j) as <-; [|done].
      apply Hinj; [by right|by left|done].
  - rewrite IH; [|done| |done].
    + rewrite list_lookup_alter_ne; [done|].
      intros Heq. apply Hj.
      assert (j = i0) as ->; [|done].
      apply Hinj; [by left|by right|done].
    + intros i j' Hi Hj'. apply Hinj; by right.
Qed.

Lemma placeSymbols_cell off r i :
  reelOk r -> (i < length (symbols r))%nat ->
  symbols (placeSymbols off r)
    !! ((topIndex r + i) mod length (symbols r))%nat
  = setY (inject_Z (Z.of_nat i - Z.of_nat (buffer r)) * stepHeight r + off)%Q
      <$> symbols r !! ((topIndex r + i) mod length (symbols r))%nat.
Proof.
  intros (Hlen & Hpos & Htop) Hi. unfold placeSymbols. cbn.
  apply (place_fold
           (fun i => (inject_Z (Z.of_nat i - Z.of_nat (buffer r))
                      * stepHeight r + off)%Q)
           (fun i => ((topIndex r + i) mod length (symbols r))%nat)).
  - apply NoDup_seq.
  - intros a b Ha Hb. apply elem_of_seq in Ha, Hb.
    apply ring_inj; lia.
  - apply elem_of_seq. lia.
Qed.

Lemma ring_onto top total j :
  (0 < total)%nat -> (j < total)%nat -> (top < total)%nat ->
  exists i, (i < total)%nat /\ ((top + i) mod total = j)%nat.
Proof.
  intros Ht Hj Htop.
  destruct (decide (top <= j)%nat) as [Hle|Hgt].
  - exists (j - top)%nat. split; [lia|].
    replace (top + (j - top))%nat with j by lia. by apply Nat.mod_small.
  - exists (j + total - top)%nat. split; [lia|].
    replace (top + (j + total - top))%nat with (j + 1 * total)%nat by lia.
    rewrite Nat.Div0.mod_add. by apply Nat.mod_small.
Qed.

Lemma placeSymbols_twice off r :
  reelOk r -> placeSymbols off (placeSymbols off r) = placeSymbols off r.
Proof.
  intros Hok.
  pose proof (placeSymbols_ok off r Hok) as Hok1.
  destruct (placeSymbols_same off r)
    as ((Htop & _ & Hq & Hqr & Hrows & Hbuf) & Hsp & Hpr & Hlen).
  assert (Hstep : stepHeight (placeSymbols off r) = stepHeight r) by done.
  assert (Hsyms : symbols (placeSymbols off (placeSymbols off r))
                  = symbols (placeSymbols off r)).
  { apply list_eq. intros j.
    destruct (decide (j < length (symbols r))%nat) as [Hj|Hj].
    - destruct Hok as (Hl & Hpos & Ht).
      destruct (ring_onto (topIndex r) _ j Hpos Hj Ht) as (i & Hi & <-).
      pose proof (placeSymbols_cell off (placeSymbols off r) i Hok1) as H2.
      rewrite Hlen, Htop, Hbuf, Hstep in H2. rewrite H2 by done.
      rewrite (placeSymbols_cell off r i) by (by repeat split).
      by destruct (symbols r !! _).
    - rewrite !lookup_ge_None_2; [done| |].
      + rewrite Hlen. lia.
      + destruct (placeSymbols_same off (placeSymbols off r))
          as (_ & _ & _ & Hlen2).
        rewrite Hlen2, Hlen. lia. }
  change (placeSymbols off (placeSymbols off r))
    with (with_symbols (symbols (placeSymbols off (placeSymbols off r)))
            (placeSymbols off r)).
  by rewrite Hsyms.
Qed.
End PlaceFacts.

Section MoreReelTheorems.
Import ReelView.

Lemma with_prevSpinPos_same r : with_prevSpinPos (prevSpinPos r) r = r.
Proof. by destruct r. Qed.

Lemma syncStrip_runs r :
  reelOk r ->
  exists r1,
    (if (0 <? toInt32 (spinPos r) - toInt32 (prevSpinPos r))%Z
     then shiftN (Z.to_nat (toInt32 (spinPos r) - toInt32 (prevSpinPos r))) r
     else Some r) = Some r1
    /\ reelOk r1 /\ spinPos r1 = spinPos r /\ stepHeight r1 = stepHeight r
    /\ rows r1 = rows r /\ buffer r1 = buffer r
    /\ syncStrip r
       = Some (placeSymbols
                 (- (spinPos r - inject_Z (toInt32 (spinPos r)))
                  * stepHeight r)%Q
                 (with_prevSpinPos (spinPos r) r1)).
Proof.
  intros Hok. unfold syncStrip.
  destruct (0 <? toInt32 (spinPos r) - toInt32 (prevSpinPos r))%Z.
  - destruct (shiftN_spec
                (Z.to_nat (toInt32 (spinPos r) - toInt32 (prevSpinPos r)))
                r Hok)
      as (r1 & Hrun & Hok1 & _ & _ & Hrows & Hbuf & Hstep & Hsp & _).
    exists r1. rewrite Hrun. cbn. rewrite Hstep.
    split; [done|]. split; [exact Hok1|]. by repeat split.
  - exists r. split; [done|]. split; [exact Hok|]. by repeat split.
Qed.

(** [syncStrip] places the visible rows and may be called again.  On a
    reel as its constructor builds it, [syncStrip] returns; the view of the
    visible row [row] then sits at [(row - frac) * stepHeight], where [frac]
    is what [spinPos] has beyond [spinPos | 0]; and a second call right
    after the first changes nothing at all. *)
Theorem syncStrip_places_rows r :
  reelOk r ->
  exists r',
    syncStrip r = Some r'
    /\ (forall row, (row < rows r)%nat ->
          exists s,
            getVisibleSymbol r' row = Some s
            /\ (sv_y s
                == (ofNat row - (spinPos r - inject_Z (toInt32 (spinPos r))))
                   * stepHeight r)%Q)
    /\ syncStrip r' = Some r'.
Proof.
  intros Hok.
  destruct (syncStrip_runs r Hok)
    as (r1 & _ & Hok1 & Hsp & Hstep & Hrows & Hbuf & ->).
  set (off := (- (spinPos r - inject_Z (toInt32 (spinPos r)))
               * stepHeight r)%Q).
  set (r2 := with_prevSpinPos (spinPos r) r1).
  assert (Hok2 : reelOk r2) by exact Hok1.
  assert (Hsp2 : spinPos r2 = spinPos r) by exact Hsp.
  assert (Hpr2 : prevSpinPos r2 = spinPos r) by reflexivity.
  assert (Hstep2 : stepHeight r2 = stepHeight r) by exact Hstep.
  assert (Hrows2 : rows r2 = rows r) by exact Hrows.
  clearbody r2. clear r1 Hok1 Hsp Hstep Hrows Hbuf.
  destruct (placeSymbols_same off r2)
    as ((Htop & _ & _ & _ & Hr & Hb) & Hsp3 & Hpr3 & Hlen).
  assert (Hstep3 : stepHeight (placeSymbols off r2) = stepHeight r2)
    by reflexivity.
  eexists. split; [reflexivity|]. split.
  - intros row Hrow.
    unfold getVisibleSymbol, visibleIndex. rewrite Hlen, Htop, Hb.
    pose proof Hok2 as (Hl & Hpos & Ht).
    destruct (length (symbols r2) =? 0)%nat eqn:Hz;
      [apply Nat.eqb_eq in Hz; lia|].
    cbn -[placeSymbols].
    rewrite (placeSymbols_cell off r2 (buffer r2 + row)) by (done || lia).
    destruct (symbols r2 !! _) as [s|] eqn:Hs.
    + eexists. split; [reflexivity|]. cbn.
      replace (Z.of_nat (buffer r2 + row) - Z.of_nat (buffer r2))%Z
        with (Z.of_nat row) by lia.
      rewrite Hstep2. unfold off, ofNat. ring.
    + apply lookup_ge_None in Hs.
      pose proof (Nat.mod_upper_bound (topIndex r2 + (buffer r2 + row))
                    (length (symbols r2)) ltac:(lia)). lia.
  - pose proof (placeSymbols_ok off r2 Hok2) as Hok3.
    destruct (syncStrip_runs _ Hok3) as (r4 & Hr4 & _ & _ & _ & _ & _ & ->).
    rewrite Hsp3, Hpr3, Hsp2, Hpr2, Z.sub_diag in Hr4.
    simpl in Hr4. injection Hr4 as <-.
    rewrite Hsp3, Hsp2, Hstep3, Hstep2. fold off.
    assert (Hpr : spinPos r = prevSpinPos (placeSymbols off r2))
      by (by rewrite Hpr3).
    rewrite Hpr at 1. rewrite with_prevSpinPos_same.
    by rewrite placeSymbols_twice.
Qed.

Lemma syncStrip_places_rows_witness :
  let r := ReelView.with_spinPos (5 # 2) (fst (create 0 3 2 140 18 halves)) in
  exists r', syncStrip r = Some r' /\ syncStrip r' = Some r'.
Proof.
  cbv zeta.
  destruct (syncStrip_places_rows
              (ReelView.with_spinPos (5 # 2)
                 (fst (create 0 3 2 140 18 halves))))
    as (r' & Hrun & _ & Hagain).
  - vm_compute. repeat split; lia.
  - exists r'. by split.
Defined.

Lemma applyFinalLoop_spec (finalColumn : list SymbolId) :
  forall rs r,
    reelOk r -> NoDup rs -> (forall row, row ∈ rs -> (row < rows r)%nat) ->
    exists r',
      applyFinalLoop finalColumn rs r = Some r'
      /\ reelOk r' /\ rows r' = rows r /\ buffer r' = buffer r
      /\ topIndex r' = topIndex r /\ queue r' = queue r
      /\ queueRead r' = queueRead r
      /\ spinPos r' = spinPos r /\ prevSpinPos r' = prevSpinPos r
      /\ (forall row, row ∈ rs ->
            stripId r' (buffer r + row) = Some (finalColumn !! row))
      /\ (forall row, (row < rows r)%nat -> row ∉ rs ->
            stripId r' (buffer r + row) = stripId r (buffer r + row)).
Proof.
  induction rs as [|row rs IH]; intros r Hok Hnd Hin; simpl.
  { exists r. do 9 (split; [done|]). split; [|done].
    intros row Hrow. by apply elem_of_nil in Hrow. }
  apply NoDup_cons in Hnd as [Hrow Hnd].
  pose proof Hok as (Hlen & Hpos & Htop).
  assert (Hr : (row < rows r)%nat) by (apply Hin; by left).
  unfold visibleIndex.
  destruct (length (symbols r) =? 0)%nat eqn:Hz;
    [apply Nat.eqb_eq in Hz; lia|].
  simpl.
  set (i := ((topIndex r + (buffer r + row)) mod length (symbols r))%nat).
  assert (Hi : (i < length (symbols r))%nat)
    by (apply Nat.mod_upper_bound; lia).
  destruct (lookup_lt_is_Some_2 _ _ Hi) as [s Hs]. rewrite Hs. simpl.
  set (r1 := with_symbols (alter (setId (finalColumn !! row)) i (symbols r)) r).
  assert (Hl1 : length (symbols r1) = length (symbols r))
    by (unfold r1; cbn; by rewrite length_alter).
  assert (Hok1 : reelOk r1).
  { unfold reelOk. rewrite Hl1. by repeat split. }
  destruct (IH r1 Hok1 Hnd) as (r' & Hrun & Hok' & Hrows & Hbuf & Htop' & Hq
                                 & Hqr & Hsp & Hpr & Hset & Hkeep).
  { intros row' Hrow'. apply Hin. by right. }
  exists r'. split; [exact Hrun|].
  split; [exact Hok'|]. split; [exact Hrows|]. split; [exact Hbuf|].
  split; [exact Htop'|]. split; [exact Hq|]. split; [exact Hqr|].
  split; [exact Hsp|]. split; [exact Hpr|].
  assert (Hstrip : forall row', (row' < rows r)%nat ->
            stripId r1 (buffer r + row')
            = if decide (row' = row) then Some (finalColumn !! row)
              else stripId r (buffer r + row')).
  { intros row' Hrow'. unfold stripId. rewrite Hl1. unfold r1. cbn.
    destruct (decide (row' = row)) as [->|Hne].
    - fold i. rewrite list_lookup_alter_eq, Hs. done.
    - rewrite list_lookup_alter_ne; [done|]. unfold i. intros Heq.
      apply ring_inj in Heq; lia. }
  split.
  - intros row' Hrow'. apply elem_of_cons in Hrow' as [->|Hrow'].
    + change (buffer r) with (buffer r1). rewrite Hkeep by done.
      change (buffer r1) with (buffer r). rewrite Hstrip by done.
      by rewrite decide_True.
    + change (buffer r) with (buffer r1). by apply Hset.
  - intros row' Hlt Hnot. apply not_elem_of_cons in Hnot as [Hne Hnot].
    change (buffer r) with (buffer r1). rewrite Hkeep by done.
    change (buffer r1) with (buffer r). rewrite Hstrip by done.
    by rewrite decide_False.
Qed.

(** Writing a column and reading it back.  On a reel as its constructor
    builds it, [applyFinalColumn] returns, [getVisibleColumn] then reads,
    row by row, what [finalColumn] holds at that row ([undefined] beyond
    its end), so a column of [rows] symbols comes back as it was given; the
    strip has not moved and the queue is untouched. *)
Theorem applyFinalColumn_reads_back (finalColumn : list SymbolId) r :
  reelOk r ->
  exists r',
    applyFinalColumn finalColumn r = Some r'
    /\ getVisibleColumn r'
       = Some (map (fun row => finalColumn !! row) (seq 0 (rows r)))
    /\ (length finalColumn = rows r ->
        getVisibleColumn r' = Some (map Some finalColumn))
    /\ topIndex r' = topIndex r /\ queue r' = queue r
    /\ queueRead r' = queueRead r.
Proof.
  intros Hok. unfold applyFinalColumn.
  destruct (applyFinalLoop_spec finalColumn (seq 0 (rows r)) r Hok)
    as (r' & Hrun & Hok' & Hrows & Hbuf & Htop & Hq & Hqr & _ & _ & Hset & _).
  { apply NoDup_seq. }
  { intros row Hrow. apply elem_of_seq in Hrow. lia. }
  assert (Hcol : getVisibleColumn r'
                 = Some (map (fun row => finalColumn !! row)
                           (seq 0 (rows r)))).
  { apply getVisibleColumn_Some.
    - by destruct Hok' as (_ & Hpos & _).
    - by rewrite length_map, length_seq.
    - intros row Hrow. rewrite Hrows in Hrow. rewrite Hbuf.
      rewrite Hset by (apply elem_of_seq; lia).
      rewrite list_lookup_fmap, lookup_seq_lt by done. done. }
  exists r'. split; [exact Hrun|]. split; [exact Hcol|].
  split; [|by repeat split].
  intros Hlen. rewrite Hcol. f_equal. rewrite <- Hlen.
  apply list_eq. intros i. rewrite !list_lookup_fmap.
  destruct (decide (i < length finalColumn)%nat) as [Hi|Hi].
  - rewrite lookup_seq_lt by done. simpl.
    destruct (lookup_lt_is_Some_2 _ _ Hi) as [x ->]. done.
  - rewrite lookup_seq_ge by lia. rewrite lookup_ge_None_2 by lia. done.
Qed.

Lemma applyFinalColumn_reads_back_witness :
  exists r',
    applyFinalColumn [Sym.A; Sym.K; Sym.Q] (fst (create 0 3 2 140 18 halves))
    = Some r'
    /\ getVisibleColumn r' = Some [Some Sym.A; Some Sym.K; Some Sym.Q].
Proof.
  destruct (applyFinalColumn_reads_back [Sym.A; Sym.K; Sym.Q]
              (fst (create 0 3 2 140 18 halves)))
    as (r' & Hrun & _ & Hcol & _).
  - vm_compute. repeat split; lia.
  - exists r'. split; [exact Hrun|]. apply Hcol. reflexivity.
Defined.
End MoreReelTheorems.

Section EasingFacts.
Import Easings.
Local Open Scope Q_scope.

Lemma Qpow3 a : a ^ 3 == a * a * a.
Proof. simpl. ring. Qed.

Lemma Qpow5 a : a ^ 5 == (a * a) * (a * a) * a.
Proof. simpl. ring. Qed.

Lemma cube_mono a b : 0 <= a -> a <= b -> a ^ 3 <= b ^ 3.
Proof.
  intros Ha Hab. rewrite !Qpow3.
  assert (H2 : a * a <= b * b) by nra.
  nra.
Qed.

Lemma quint_mono a b : 0 <= a -> a <= b -> a ^ 5 <= b ^ 5.
Proof.
  intros Ha Hab. rewrite !Qpow5.
  assert (H2 : a * a <= b * b) by nra.
  assert (H0 : 0 <= a * a) by nra.
  assert (H4 : (a * a) * (a * a) <= (b * b) * (b * b)) by nra.
  assert (H40 : 0 <= (a * a) * (a * a)) by nra.
  nra.
Qed.

Lemma outQuint_0 : outQuint 0 == 0.
Proof. reflexivity. Qed.

Lemma outQuint_1 : outQuint 1 == 1.
Proof. reflexivity. Qed.

Lemma outQuint_mono s t : 0 <= s -> s <= t -> t <= 1 -> outQuint s <= outQuint t.
Proof.
  intros Hs Hst Ht. unfold outQuint.
  pose proof (quint_mono (1 - t) (1 - s) ltac:(lra) ltac:(lra)). lra.
Qed.

#[local] Instance outQuint_proper : Proper (Qeq ==> Qeq) outQuint.
Proof. intros x y Hxy. unfold outQuint. by rewrite Hxy. Qed.

Lemma outCubic_mono s t : 0 <= s -> s <= t -> t <= 1 -> outCubic s <= outCubic t.
Proof.
  intros Hs Hst Ht. unfold outCubic.
  pose proof (cube_mono (1 - t) (1 - s) ltac:(lra) ltac:(lra)). lra.
Qed.

Lemma inCubic_mono s t : 0 <= s -> s <= t -> inCubic s <= inCubic t.
Proof.
  intros Hs Hst. unfold inCubic.
  pose proof (cube_mono s t Hs Hst) as H. by rewrite !Qpow3 in H.
Qed.

Lemma Qlt_bool_false x y : Qlt_bool x y = false <-> y <= x.
Proof.
  unfold Qlt_bool. rewrite negb_false_iff. apply Qle_bool_iff.
Qed.

Lemma inOutCubic_mono s t :
  0 <= s -> s <= t -> t <= 1 -> inOutCubic s <= inOutCubic t.
Proof.
  intros Hs Hst Ht. unfold inOutCubic.
  assert (Hdiv : forall x, x / 2 == x * (1 # 2)) by (intros x; field).
  destruct (Qlt_bool s (1 # 2)) eqn:Es; destruct (Qlt_bool t (1 # 2)) eqn:Et.
  - pose proof (inCubic_mono s t Hs Hst) as H. unfold inCubic in H. lra.
  - apply Qlt_bool_true in Es. apply Qlt_bool_false in Et.
    pose proof (inCubic_mono s (1 # 2) Hs ltac:(lra)) as H1.
    unfold inCubic in H1.
    pose proof (cube_mono (-2 * t + 2) 1 ltac:(lra) ltac:(lra)) as H2.
    rewrite Hdiv. rewrite (Qpow3 1) in H2. lra.
  - apply Qlt_bool_false in Es. apply Qlt_bool_true in Et. lra.
  - apply Qlt_bool_false in Es. apply Qlt_bool_false in Et.
    pose proof (cube_mono (-2 * t + 2) (-2 * s + 2) ltac:(lra) ltac:(lra)).
    rewrite !Hdiv. lra.
Qed.

(** The easings of the set that go straight from 0 to 1.  [linear],
    [outCubic], [inCubic], [inOutCubic] and [outQuint] give 0 at 0 and 1 at
    1 and never go back in between, so on the unit interval they stay in
    the unit interval. *)
Theorem easings_rise_from_0_to_1 (f : number -> number) :
  f ∈ [linear; outCubic; inCubic; inOutCubic; outQuint] ->
  f 0 == 0 /\ f 1 == 1
  /\ (forall s t, 0 <= s -> s <= t -> t <= 1 -> f s <= f t)
  /\ (forall t, 0 <= t -> t <= 1 -> 0 <= f t /\ f t <= 1).
Proof.
  intros Hf.
  assert (Hmain : f 0 == 0 /\ f 1 == 1
                  /\ (forall s t, 0 <= s -> s <= t -> t <= 1 -> f s <= f t)).
  { repeat (apply elem_of_cons in Hf as [->|Hf]).
    - split; [reflexivity|]. split; [reflexivity|]. intros s t _ Hst _.
      exact Hst.
    - split; [reflexivity|]. split; [reflexivity|]. apply outCubic_mono.
    - split; [reflexivity|]. split; [reflexivity|]. intros s t Hs Hst _.
      by apply inCubic_mono.
    - split; [reflexivity|]. split; [reflexivity|]. apply inOutCubic_mono.
    - split; [reflexivity|]. split; [reflexivity|]. apply outQuint_mono.
    - by apply elem_of_nil in Hf. }
  destruct Hmain as (H0 & H1 & Hmono). split; [exact H0|].
  split; [exact H1|]. split; [exact Hmono|].
  intros t Ht0 Ht1. split.
  - rewrite <- H0. apply Hmono; lra.
  - rewrite <- H1. apply Hmono; lra.
Qed.

Lemma easings_rise_from_0_to_1_witness :
  outQuint (1 # 2) <= outQuint (3 # 4).
Proof.
  apply (easings_rise_from_0_to_1 outQuint).
  - do 4 right. left.
  - done.
  - done.
  - done.
Defined.
End EasingFacts.

Section OvershootFacts.
Import Easings.
Local Open Scope Q_scope.

Lemma Qsquare_nonneg x : 0 <= x * x.
Proof.
  destruct (Qlt_le_dec x 0) as [Hneg|Hpos].
  - assert (E : x * x == (- x) * (- x)) by ring. rewrite E.
    apply Qmult_le_0_compat; lra.
  - by apply Qmult_le_0_compat.
Qed.

Lemma outBack_poly t :
  outBack t == 1 + (27 # 10) * ((t - 1) * (t - 1) * (t - 1))
               + (17 # 10) * ((t - 1) * (t - 1)).
Proof. unfold outBack. cbv zeta. simpl. ring. Qed.

Lemma outBack_range t : 0 <= t -> t <= 1 -> 0 <= outBack t /\ outBack t <= 11 # 10.
Proof.
  intros H0 H1. rewrite outBack_poly.
  set (u := t - 1). assert (Hu0 : -1 <= u) by (unfold u; lra).
  assert (Hu1 : u <= 0) by (unfold u; lra). clearbody u.
  split.
  - assert (E : 1 + (27 # 10) * (u * u * u) + (17 # 10) * (u * u)
                == (u + 1) * ((27 # 10) * (u * u) - u + 1)) by ring.
    rewrite E. apply Qmult_le_0_compat; [lra|]. nra.
  - assert (E : (11 # 10)
                - (1 + (27 # 10) * (u * u * u) + (17 # 10) * (u * u))
                == (27 # 10) * ((u + (34 # 81)) * (u + (34 # 81)))
                   * ((17 # 81) - u) + (31 # 196830)) by ring.
    pose proof (Qsquare_nonneg (u + (34 # 81))) as Hsq.
    assert (Hp : 0 <= (27 # 10) * ((u + (34 # 81)) * (u + (34 # 81)))
                      * ((17 # 81) - u)).
    { apply Qmult_le_0_compat; [|lra]. lra. }
    lra.
Qed.

Lemma outBounce_range t :
  0 <= t -> t <= 1 -> 0 <= outBounce t /\ outBounce t < 28 # 27.
Proof.
  intros H0 H1. unfold outBounce. cbv zeta.
  assert (Hd1 : 1 / (27 # 10) == 10 # 27) by reflexivity.
  assert (Hd2 : 2 / (27 # 10) == 20 # 27) by reflexivity.
  assert (Hd3 : (25 # 10) / (27 # 10) == 25 # 27) by reflexivity.
  assert (Hd4 : (15 # 10) / (27 # 10) == 15 # 27) by reflexivity.
  assert (Hd5 : (225 # 100) / (27 # 10) == 225 # 270) by reflexivity.
  assert (Hd6 : (2625 # 1000) / (27 # 10) == 2625 # 2700) by reflexivity.
  destruct (Qlt_bool t (1 / (27 # 10))) eqn:E1.
  { apply Qlt_bool_true in E1. rewrite Hd1 in E1. split; nra. }
  apply Qlt_bool_false in E1. rewrite Hd1 in E1.
  destruct (Qlt_bool t (2 / (27 # 10))) eqn:E2.
  { apply Qlt_bool_true in E2. rewrite Hd2 in E2. rewrite Hd4.
    set (u := t - (15 # 27)).
    assert (Hu0 : - (5 # 27) <= u) by (unfold u; lra).
    assert (Hu1 : u < 5 # 27) by (unfold u; lra). clearbody u. split; nra. }
  apply Qlt_bool_false in E2. rewrite Hd2 in E2.
  destruct (Qlt_bool t ((25 # 10) / (27 # 10))) eqn:E3.
  { apply Qlt_bool_true in E3. rewrite Hd3 in E3. rewrite Hd5.
    set (u := t - (225 # 270)).
    assert (Hu0 : - (25 # 270) <= u) by (unfold u; lra).
    assert (Hu1 : u < 25 # 270) by (unfold u; lra). clearbody u. split; nra. }
  apply Qlt_bool_false in E3. rewrite Hd3 in E3. rewrite Hd6.
  set (u := t - (2625 # 2700)).
  assert (Hu0 : - (125 # 2700) <= u) by (unfold u; lra).
  assert (Hu1 : u <= 75 # 2700) by (unfold u; lra). clearbody u. split; nra.
Qed.

(** The two easings that leave the unit interval.  [outBack] starts at 0
    and ends at 1, stays between 0 and 1.1 and is above 1 on the way.
    [outBounce], with the constants 7.56 and 2.7 of this file, stays
    between 0 and 28/27, is above 1 before its first bounce, and ends
    below 1: at 1 it gives 4753/4800. *)
Theorem easings_that_overshoot :
  (outBack 0 == 0 /\ outBack 1 == 1 /\ 1 < outBack (1 # 2)
   /\ forall t, 0 <= t -> t <= 1 -> 0 <= outBack t /\ outBack t <= 11 # 10)
  /\ (outBounce 0 == 0 /\ outBounce 1 == 4753 # 4800
      /\ 1 < outBounce (37 # 100)
      /\ forall t, 0 <= t -> t <= 1 ->
           0 <= outBounce t /\ outBounce t < 28 # 27).
Proof.
  split.
  - split; [reflexivity|]. split; [reflexivity|]. split; [reflexivity|].
    apply outBack_range.
  - split; [reflexivity|]. split; [reflexivity|]. split; [reflexivity|].
    apply outBounce_range.
Qed.
End OvershootFacts.

Section ReelMotion.
Import ReelView.

Lemma Qtrunc_neg x : (x <= 0)%Q -> Qtrunc x = (- Qfloor (- x))%Z.
Proof.
  destruct x as [n d]. unfold Qle, Qtrunc, Qfloor, Qopp. simpl. intros Hn.
  rewrite <- (Z.opp_involutive n) at 1. rewrite Z.quot_opp_l by lia.
  f_equal. apply Z.quot_div_nonneg; lia.
Qed.

Lemma Qtrunc_Qeq x y : (x == y)%Q -> Qtrunc x = Qtrunc y.
Proof.
  intros Hxy. destruct (Qlt_le_dec x 0) as [Hneg|Hpos].
  - rewrite !Qtrunc_neg by lra. f_equal. apply Qfloor_Qeq. by rewrite Hxy.
  - rewrite !Qtrunc_floor by lra. by apply Qfloor_Qeq.
Qed.

Lemma toInt32_Qeq x y : (x == y)%Q -> toInt32 x = toInt32 y.
Proof. intros Hxy. unfold toInt32. by rewrite (Qtrunc_Qeq x y Hxy). Qed.

Lemma reelOk_same a b : sameStrip a b -> reelOk a -> reelOk b.
Proof.
  intros (Htop & Hids & _ & _ & Hrows & Hbuf) (H1 & H2 & H3).
  assert (Hlen : length (symbols a) = length (symbols b)).
  { by rewrite <- (length_map sv_id), Hids, length_map. }
  unfold reelOk. by rewrite <- Hlen, <- Htop, <- Hrows, <- Hbuf.
Qed.

Lemma stripEq_refl r : stripEq r r.
Proof. split; [apply sameStrip_refl|]. split; reflexivity. Qed.

Lemma stripEq_sym a b : stripEq a b -> stripEq b a.
Proof.
  intros (H1 & H2 & H3). split; [by apply sameStrip_sym|].
  split; by symmetry.
Qed.

Lemma stripEq_trans a b c : stripEq a b -> stripEq b c -> stripEq a c.
Proof.
  intros (H1 & H2 & H3) (K1 & K2 & K3).
  split; [by eapply sameStrip_trans|]. split; etransitivity; done.
Qed.

Lemma synced_stripEq a b : stripEq a b -> synced a -> synced b.
Proof. intros (_ & H2 & H3) Hs. unfold synced in *. by rewrite <- H2, <- H3. Qed.

Lemma resting_stripEq col a b : stripEq a b -> resting col a -> resting col b.
Proof.
  intros Hab (Hok & Hs & Hcol). split; [|split].
  - destruct Hab as (Hsame & _). by eapply reelOk_same.
  - by eapply synced_stripEq.
  - destruct Hab as (Hsame & _).
    by rewrite <- (getVisibleColumn_same _ _ Hsame).
Qed.

Lemma moving_stripEq col start target d T a b :
  stripEq a b -> moving col start target d T a -> moving col start target d T b.
Proof.
  intros Hab (Hok & Hs & H0 & H1 & H2 & Hd & HT & Hpos & r1 & Hok1
              & (rs & Hrs & Hsame) & Hland).
  pose proof Hab as (Hsab & Hsp & Hpr).
  split; [by eapply reelOk_same|]. split; [by eapply synced_stripEq|].
  do 5 (split; [done|]). split; [by rewrite <- Hpr|].
  exists r1. split; [done|]. split; [|done].
  exists rs. rewrite <- (Qfloor_Qeq _ _ Hpr). split; [done|].
  eapply sameStrip_trans; [|exact Hsame]. by apply sameStrip_sym.
Qed.

Lemma with_kick_stripEq x r : stripEq r (with_kick x r).
Proof. split; [done|]. split; reflexivity. Qed.

(** The tick of a reel whose strip is in step with its position moves
    nothing. *)
Lemma update_synced dt r :
  reelOk r -> synced r ->
  exists r', ReelView.update dt r = Some r' /\ stripEq r r'.
Proof.
  intros Hok Hs. unfold ReelView.update.
  set (r0 := with_scale_x _ r).
  assert (Hok0 : reelOk r0) by exact Hok.
  destruct (syncStrip_runs r0 Hok0) as (r1 & Hr1 & _ & _ & _ & _ & _ & ->).
  change (spinPos r0) with (spinPos r) in *.
  change (prevSpinPos r0) with (prevSpinPos r) in *.
  rewrite (toInt32_Qeq _ _ Hs), Z.sub_diag in Hr1. simpl in Hr1.
  injection Hr1 as <-. eexists. split; [reflexivity|].
  destruct (placeSymbols_same
              (- (spinPos r - inject_Z (toInt32 (spinPos r)))
               * stepHeight r0)%Q (with_prevSpinPos (spinPos r) r0))
    as (Hsame & Hsp & Hpr & _).
  split; [|split].
  - apply sameStrip_sym. eapply sameStrip_trans; [exact Hsame|].
    by repeat split.
  - by rewrite Hsp.
  - rewrite Hpr. cbn. by symmetry.
Qed.

Lemma Qmin_unit x : (0 <= x)%Q -> (0 <= Qmin 1 x)%Q /\ (Qmin 1 x <= 1)%Q.
Proof.
  intros Hx. split.
  - apply Q.min_glb; lra.
  - apply Q.le_min_l.
Qed.

Lemma Qdiv_nonneg a d : (0 <= a)%Q -> (0 < d)%Q -> (0 <= a / d)%Q.
Proof.
  intros Ha Hd. apply Qle_shift_div_l; [done|]. lra.
Qed.

Lemma Qdiv_mono a b d : (a <= b)%Q -> (0 < d)%Q -> (a / d <= b / d)%Q.
Proof.
  intros Hab Hd. apply Qle_shift_div_l; [done|].
  assert (E : (a / d * d == a)%Q) by (field; lra). lra.
Qed.

Lemma posAt_range start target d T :
  (start <= target)%Q -> (0 < d)%Q -> (0 <= T)%Q ->
  (start <= posAt start target d T)%Q /\ (posAt start target d T <= target)%Q.
Proof.
  intros Hst Hd HT. unfold posAt.
  destruct (Qmin_unit (T / d) (Qdiv_nonneg _ _ HT Hd)) as [Hp0 Hp1].
  pose proof (outQuint_mono 0 (Qmin 1 (T / d)) ltac:(lra) Hp0 Hp1) as Hlo.
  pose proof (outQuint_mono (Qmin 1 (T / d)) 1 Hp0 Hp1 ltac:(lra)) as Hhi.
  rewrite outQuint_0 in Hlo. rewrite outQuint_1 in Hhi.
  set (e := Easings.outQuint _) in *. clearbody e.
  pose proof (Qmult_le_0_compat (target - start) e ltac:(lra) Hlo) as Ha.
  pose proof (Qmult_le_0_compat (target - start) (1 - e) ltac:(lra)
                ltac:(lra)) as Hb.
  assert (E : ((target - start) * (1 - e)
               == (target - start) - (target - start) * e)%Q) by ring.
  split; lra.
Qed.

Lemma posAt_mono start target d T T' :
  (start <= target)%Q -> (0 < d)%Q -> (0 <= T)%Q -> (T <= T')%Q ->
  (posAt start target d T <= posAt start target d T')%Q.
Proof.
  intros Hst Hd HT HTT. unfold posAt.
  destruct (Qmin_unit (T / d) (Qdiv_nonneg _ _ HT Hd)) as [Hp0 Hp1].
  assert (HT' : (0 <= T')%Q) by lra.
  destruct (Qmin_unit (T' / d) (Qdiv_nonneg _ _ HT' Hd)) as [Hq0 Hq1].
  assert (Hpq : (Qmin 1 (T / d) <= Qmin 1 (T' / d))%Q).
  { apply Q.min_le_compat_l. by apply Qdiv_mono. }
  pose proof (outQuint_mono _ _ Hp0 Hpq Hq1) as Hmono.
  set (e := Easings.outQuint (Qmin 1 (T / d))) in *.
  set (e' := Easings.outQuint (Qmin 1 (T' / d))) in *.
  clearbody e e'.
  pose proof (Qmult_le_0_compat (target - start) (e' - e) ltac:(lra)
                ltac:(lra)) as Ha.
  assert (E : ((target - start) * (e' - e)
               == (target - start) * e' - (target - start) * e)%Q) by ring.
  lra.
Qed.

Lemma posAt_end start target d T :
  (0 < d)%Q -> (d <= T)%Q -> (posAt start target d T == target)%Q.
Proof.
  intros Hd HT. unfold posAt.
  assert (H1 : (1 <= T / d)%Q).
  { apply Qle_shift_div_l; [done|]. lra. }
  assert (E : (Qmin 1 (T / d) == 1)%Q) by (by apply Q.min_l).
  rewrite (outQuint_proper _ _ E), outQuint_1. ring.
Qed.

Lemma posAt_start start target d :
  (0 < d)%Q -> (posAt start target d 0 == start)%Q.
Proof.
  intros Hd. unfold posAt.
  assert (E : (0 / d == 0)%Q) by (field; lra).
  assert (E' : (Qmin 1 (0 / d) == 0)%Q).
  { rewrite E. apply Q.min_r. lra. }
  rewrite (outQuint_proper _ _ E'), outQuint_0. ring.
Qed.

(** One update of the tween of a spin on its reel: the position for the
    time [T + dt] is written and [syncStrip] runs. *)
Lemma moving_step col start target d T dt r :
  moving col start target d T r -> (0 <= dt)%Q ->
  exists r',
    syncStrip (with_spinPos (posAt start target d (T + dt)) r) = Some r'
    /\ moving col start target d (T + dt) r'
    /\ ((d <= T + dt)%Q -> resting col (with_spinPos target r')).
Proof.
  intros (Hok & Hs & H0 & H1 & H2 & Hd & HT & Hpos & r1 & Hok1
          & (rs & Hrs & Hsame) & (r2 & Hr2 & Hcol)) Hdt.
  set (p := posAt start target d (T + dt)).
  destruct (posAt_range start target d T H1 Hd HT) as [Hlo Hhi].
  destruct (posAt_range start target d (T + dt) H1 Hd ltac:(lra))
    as [Hlo' Hhi'].
  pose proof (posAt_mono start target d T (T + dt) H1 Hd HT ltac:(lra))
    as Hmono.
  fold p in Hlo', Hhi', Hmono.
  destruct (moveTo_spec p r Hok) as (r' & rs' & Hmove & Hrs' & Hsame' & Hok'
                                      & Hsp' & Hpr'); [lra|lra|lra|].
  unfold moveTo in Hmove. exists r'. split; [exact Hmove|].
  assert (Hfl : (Qfloor start <= Qfloor (prevSpinPos r))%Z).
  { apply Qfloor_resp_le. lra. }
  assert (Hfl' : (Qfloor (prevSpinPos r) <= Qfloor p)%Z).
  { apply Qfloor_resp_le. lra. }
  assert (Hstrip : exists rs2,
            shiftN (Z.to_nat (Qfloor p - Qfloor start)) r1 = Some rs2
            /\ sameStrip r' rs2).
  { replace (Z.to_nat (Qfloor p - Qfloor start))
      with (Z.to_nat (Qfloor (prevSpinPos r) - Qfloor start)
            + Z.to_nat (Qfloor p - Qfloor (prevSpinPos r)))%nat by lia.
    rewrite shiftN_add, Hrs. simpl.
    destruct (shiftN_same _ _ _ _ Hsame Hrs') as (rs2 & Hrs2 & Hsame2).
    exists rs2. split; [exact Hrs2|]. by eapply sameStrip_trans. }
  split.
  - split; [exact Hok'|]. split; [unfold synced; by rewrite Hsp', Hpr'|].
    do 4 (split; [done|]). split; [lra|]. split; [by rewrite Hpr'|].
    exists r1. split; [done|]. split; [|by exists r2].
    by rewrite Hpr'.
  - intros Hend.
    pose proof (posAt_end start target d (T + dt) Hd Hend) as Hp.
    fold p in Hp. destruct Hstrip as (rs2 & Hrs2 & Hsame2).
    rewrite (Qfloor_Qeq _ _ Hp), Hr2 in Hrs2. injection Hrs2 as <-.
    split; [exact Hok'|]. split.
    + unfold synced. cbn. by rewrite Hpr', Hp.
    + rewrite <- Hcol. apply getVisibleColumn_same.
      eapply sameStrip_trans; [|exact Hsame2]. by repeat split.
Qed.
End ReelMotion.

Section SpinTargets.
Import TweenManager SlotMachineView.

Local Abbreviation Item := (TweenItem Target Callback).

Lemma spinTargets_app (l1 l2 : list Item) :
  spinTargets (l1 ++ l2) = spinTargets l1 ++ spinTargets l2.
Proof. apply omap_app. Qed.

Lemma alter_split (f : Item -> Item) i (l : list Item) t :
  l !! i = Some t ->
  l = take i l ++ t :: drop (S i) l
  /\ alter f i l = take i l ++ f t :: drop (S i) l.
Proof.
  revert i. induction l as [|x l IH]; intros i Hi; [done|].
  destruct i as [|i]; simpl in *.
  - injection Hi as ->. by rewrite drop_0.
  - destruct (IH i Hi) as [E1 E2]. split; by f_equal.
Qed.

Lemma alter_None (f : Item -> Item) i (l : list Item) :
  l !! i = None -> alter f i l = l.
Proof.
  intros Hi. apply list_eq. intros j. rewrite list_lookup_alter.
  destruct (decide (i = j)) as [<-|]; [|done]. by rewrite Hi.
Qed.

Lemma spinTargets_alter_keep (f : Item -> Item) i (l : list Item) :
  (forall t, l !! i = Some t ->
     t_active (f t) && isSpin (f t) = t_active t && isSpin t
     /\ t_target (f t) = t_target t) ->
  spinTargets (alter f i l) = spinTargets l.
Proof.
  intros Hf. destruct (l !! i) as [t|] eqn:Hi.
  - destruct (alter_split f i l t Hi) as [E1 E2].
    rewrite E2. rewrite E1 at 3. rewrite !spinTargets_app. f_equal.
    unfold spinTargets. simpl.
    destruct (Hf t eq_refl) as (-> & ->). done.
  - by rewrite alter_None.
Qed.

Lemma spinTargets_cons (t : Item) (l : list Item) :
  spinTargets (t :: l)
  = (if t_active t && isSpin t then [t_target t] else []) ++ spinTargets l.
Proof.
  unfold spinTargets. simpl. by destruct (t_active t && isSpin t).
Qed.

Lemma spinTargets_alter_stop i (l : list Item) t :
  l !! i = Some t -> t_active t = true -> isSpin t = true ->
  NoDup (spinTargets l) ->
  NoDup (spinTargets (alter (with_active false) i l))
  /\ length (spinTargets l)
     = S (length (spinTargets (alter (with_active false) i l)))
  /\ (forall x, x ∈ spinTargets (alter (with_active false) i l)
                <-> x ∈ spinTargets l /\ x <> t_target t).
Proof.
  intros Hi Hact Hspin Hnd.
  destruct (alter_split (with_active false) i l t Hi) as [E1 E2].
  rewrite E2. clear E2.
  set (l1 := take i l) in *. set (l2 := drop (S i) l) in *.
  clearbody l1 l2. subst l.
  rewrite !spinTargets_app, !spinTargets_cons in *.
  change (t_active (with_active false t)) with false.
  rewrite Hact, Hspin in *. simpl in *.
  apply NoDup_app in Hnd as (Hnd1 & Hdisj & Hnd2).
  apply NoDup_cons in Hnd2 as [Hnot Hnd2].
  split; [|split].
  - apply NoDup_app. split; [done|]. split; [|done].
    intros x Hx Hx'. apply (Hdisj x Hx). by right.
  - rewrite !length_app. simpl. lia.
  - intros x. rewrite !elem_of_app, elem_of_cons. split.
    + intros [Hx|Hx].
      * split; [by left|]. intros ->. apply (Hdisj _ Hx). by left.
      * split; [by right; right|]. by intros ->.
    + intros [[Hx|[->|Hx]] Hne]; [by left|done|by right].
Qed.

Lemma spinTargets_elem (l : list Item) x :
  x ∈ spinTargets l
  <-> exists j t, l !! j = Some t /\ t_active t = true /\ isSpin t = true
                  /\ t_target t = x.
Proof.
  unfold spinTargets. rewrite list_elem_of_omap. split.
  - intros (t & Ht & Hx). apply list_elem_of_lookup in Ht as [j Hj].
    exists j, t. split; [done|].
    destruct (t_active t), (isSpin t); simpl in Hx; try done.
    by injection Hx as <-.
  - intros (j & t & Hj & Ha & Hs & <-). exists t.
    split; [by eapply list_elem_of_lookup_2|]. by rewrite Ha, Hs.
Qed.

Lemma spin_targets_distinct (l : list Item) i j t t' :
  NoDup (spinTargets l) ->
  l !! i = Some t -> l !! j = Some t' -> i <> j ->
  t_active t = true -> isSpin t = true ->
  t_active t' = true -> isSpin t' = true ->
  t_target t <> t_target t'.
Proof.
  intros Hnd Hi Hj Hij Ha Hs Ha' Hs' Heq.
  destruct (spinTargets_alter_stop i l t Hi Ha Hs Hnd) as (_ & _ & Hiff).
  assert (Hin : t_target t' ∈ spinTargets (alter (with_active false) i l)).
  { apply spinTargets_elem. exists j, t'.
    rewrite list_lookup_alter_ne by done. done. }
  apply Hiff in Hin as [_ Hne]. by apply Hne.
Qed.

Lemma spinTargets_filter (l : list Item) :
  spinTargets (filter (fun t => t_active t = true) l) = spinTargets l.
Proof.
  induction l as [|t l IH]; [done|].
  rewrite filter_cons. destruct (decide (t_active t = true)) as [Ha|Ha].
  - by rewrite !spinTargets_cons, IH.
  - rewrite spinTargets_cons, IH. by destruct (t_active t).
Qed.
End SpinTargets.

Section SpinSteps.
Import TweenManager SlotMachineView.

Local Abbreviation Item := (TweenItem Target Callback).

Variable grid : Grid.
Variable freeze : option (list bool).
Variable speedMul stepsMul : number.
Variable log0 : list (list ReelView.t).

Lemma itemOk_reels cols (m m' : View) T (t : Item) :
  itemOk cols freeze speedMul m T t ->
  length (reels m') = length (reels m) ->
  (forall i r, t_target t = Reel i -> t_active t = true -> isSpin t = true ->
     reels m !! i = Some r ->
     exists r', reels m' !! i = Some r' /\ stripEq r r') ->
  itemOk cols freeze speedMul m' T t.
Proof.
  intros Hok Hlen Hre. destruct (t_active t) eqn:Hact; [|by left].
  destruct Hok as [Hoff|[Hh|Hs]]; [congruence| |].
  - right; left. destruct Hh as (H1 & H2 & H3). split; [done|].
    split; [done|]. destruct (t_target t); [|done]. by rewrite Hlen.
  - right; right.
    destruct Hs as (i & start & target & col & r & Htg & Hto & Hfrom & Hease
                    & Hup & Hdone & Hdelay & Hel & Hlt & Hr & Hcol & Hmov
                    & Hnf & Hdur).
    assert (Hspin : isSpin t = true).
    { unfold isSpin. rewrite Hdone. by apply bool_decide_eq_true. }
    destruct (Hre i r Htg eq_refl Hspin Hr) as (r' & Hr' & Heq).
    exists i, start, target, col, r'. do 9 (split; [done|]).
    split; [done|]. split; [done|]. split; [|done].
    by eapply moving_stripEq.
Qed.

Lemma isSpin_harmless (m : View) (t : Item) : harmless m t -> isSpin t = false.
Proof.
  intros (_ & H & _). unfold isSpin. rewrite H. by apply bool_decide_eq_false.
Qed.

Lemma isSpin_spinOk cols (m : View) T (t : Item) :
  spinOk cols freeze speedMul m T t -> isSpin t = true.
Proof.
  intros (i & start & target & col & r & _ & _ & _ & _ & _ & H & _).
  unfold isSpin. rewrite H. by apply bool_decide_eq_true.
Qed.

(** A change of the state that starts and ends no spin. *)
Lemma spinInv_step k now time time' (st st' : St) :
  spinInv grid freeze speedMul stepsMul log0 k now time st ->
  k = length (reels (objects st)) ->
  length (reels (objects st')) = length (reels (objects st)) ->
  (forall j t', tweens st' !! j = Some t' ->
     itemOk (map (map Some) grid) freeze speedMul (objects st') (time' j) t') ->
  spinTargets (tweens st') = spinTargets (tweens st) ->
  remaining (objects st') = remaining (objects st) ->
  completions (objects st') = completions (objects st) ->
  (forall i r', reels (objects st') !! i = Some r' ->
     reelOk r' /\ synced r'
     /\ (Reel i ∉ spinTargets (tweens st) ->
         exists r, reels (objects st) !! i = Some r /\ stripEq r r')) ->
  spinInv grid freeze speedMul stepsMul log0 k now time' st'.
Proof.
  intros [Hitems Hnd Hstarted Hrem Hreels Hlog Hgrid Hk] -> Hlen Hitems' Htg
    Hrem' Hcomp' Hreels'.
  split.
  - exact Hitems'.
  - by rewrite Htg.
  - rewrite Htg. exact Hstarted.
  - by rewrite Hrem', Htg, Hlen.
  - intros i r' Hr'. destruct (Hreels' i r' Hr') as (Hok & Hs & Hrest).
    split; [done|]. split; [done|].
    assert (Hi : (i < length (reels (objects st)))%nat).
    { rewrite <- Hlen. by eapply lookup_lt_Some. }
    rewrite decide_True by done. rewrite Htg. intros Hnot.
    destruct (Hrest Hnot) as (r & Hr & Heq).
    destruct (Hreels i r Hr) as (_ & _ & Hcase).
    rewrite decide_True in Hcase by done.
    destruct (Hcase Hnot) as (col & Hcol & Hresting & Hwhen).
    exists col. split; [done|]. split; [|done]. by eapply resting_stripEq.
  - by rewrite Hrem', Hcomp'.
  - by rewrite Hlen.
  - by rewrite Hlen.
Qed.

Lemma viewEq_refl (m : View) : viewEq m m.
Proof.
  split; [|done]. apply Forall_Forall2_diag, Forall_forall.
  intros r _. apply stripEq_refl.
Qed.

Lemma viewEq_trans (a b c : View) : viewEq a b -> viewEq b c -> viewEq a c.
Proof.
  intros (H1 & H2 & H3) (K1 & K2 & K3). split; [|split; congruence].
  clear -H1 K1. revert K1. generalize (reels c).
  induction H1 as [|x y l k Hxy _ IH]; intros l' K1.
  - inversion K1. constructor.
  - inversion K1 as [|y' z k' l'' Hyz Hkl]; subst. constructor.
    + by eapply stripEq_trans.
    + by apply IH.
Qed.

Lemma viewEq_insert (m : View) i r r' :
  reels m !! i = Some r -> stripEq r r' ->
  viewEq m (with_reels (<[i := r']> (reels m)) m).
Proof.
  intros Hr Heq. split; [|done]. cbn.
  rewrite <- (list_insert_id (reels m) i r Hr) at 1.
  apply Forall2_insert; [|done].
  apply Forall_Forall2_diag, Forall_forall. intros x _. apply stripEq_refl.
Qed.

Lemma viewEq_lookup (m m' : View) i r :
  viewEq m m' -> reels m !! i = Some r ->
  exists r', reels m' !! i = Some r' /\ stripEq r r'.
Proof.
  intros (H & _) Hr. by eapply Forall2_lookup_l.
Qed.

Lemma viewEq_lookup_r (m m' : View) i r' :
  viewEq m m' -> reels m' !! i = Some r' ->
  exists r, reels m !! i = Some r /\ stripEq r r'.
Proof.
  intros (H & _) Hr. by eapply Forall2_lookup_r.
Qed.

Lemma viewEq_length (m m' : View) :
  viewEq m m' -> length (reels m') = length (reels m).
Proof. intros (H & _). symmetry. by eapply Forall2_length. Qed.

(** A change of the state that moves no strip and starts and ends no
    spin. *)
Lemma spinInv_quiet_step k now time time' (st : St) (m' : View)
    (l' : list Item) :
  spinInv grid freeze speedMul stepsMul log0 k now time st ->
  k = length (reels (objects st)) ->
  viewEq (objects st) m' ->
  spinTargets l' = spinTargets (tweens st) ->
  (forall j t', l' !! j = Some t' ->
     itemOk (map (map Some) grid) freeze speedMul m' (time' j) t') ->
  spinInv grid freeze speedMul stepsMul log0 k now time'
    {| objects := m'; tweens := l' |}.
Proof.
  intros Hinv Hk Heq Htg Hitems.
  apply (spinInv_step k now time time' st); try done.
  - by apply viewEq_length.
  - by destruct Heq as (_ & ? & _).
  - by destruct Heq as (_ & _ & ?).
  - intros i r' Hr'. cbn in Hr'.
    destruct (viewEq_lookup_r _ _ _ _ Heq Hr') as (r & Hr & Hrr).
    destruct (inv_reels _ _ _ _ _ _ _ _ _ Hinv i r Hr) as (Hok & Hs & _).
    split; [|split].
    + destruct Hrr as (Hsame & _). by eapply reelOk_same.
    + by eapply synced_stripEq.
    + intros _. by exists r.
Qed.

Lemma timeAt_other T dt i j : j <> i -> timeAt T dt (S i) j = timeAt T dt i j.
Proof.
  intros Hne. unfold timeAt.
  destruct (j <? S i)%nat eqn:E1; destruct (j <? i)%nat eqn:E2; try done.
  - apply Nat.ltb_lt in E1. apply Nat.ltb_ge in E2. lia.
  - apply Nat.ltb_ge in E1. apply Nat.ltb_lt in E2. lia.
Qed.

Lemma timeAt_here T dt i : timeAt T dt i i = T /\ timeAt T dt (S i) i = (T + dt)%Q.
Proof.
  unfold timeAt. rewrite Nat.ltb_irrefl.
  by destruct (Nat.ltb_lt i (S i)) as [_ ->]; [|lia].
Qed.

Lemma writeProps_other o vals :
  forall m : View,
    exists m', writeProps setProp (Other o) vals m = Some m'
               /\ reels m' = reels m /\ remaining m' = remaining m
               /\ completions m' = completions m.
Proof.
  induction vals as [|[k v] vals IH]; intros m; simpl.
  { by exists m. }
  destruct (IH (with_others
                  (fun o' k' => if decide (o' = o /\ k' = k) then v
                                else others m o' k') m))
    as (m' & Hrun & H1 & H2 & H3).
  exists m'. by rewrite Hrun.
Qed.

Lemma writeProps_kick i x (m : View) r :
  reels m !! i = Some r ->
  writeProps setProp (Reel i) [("kick"%string, Some x)] m
  = Some (with_reels (<[i := ReelView.with_kick x r]> (reels m)) m).
Proof. intros Hr. simpl. rewrite Hr. simpl. done. Qed.

Lemma writeProps_spinPos i x (m : View) r :
  reels m !! i = Some r ->
  writeProps setProp (Reel i) [("spinPos"%string, Some x)] m
  = Some (with_reels (<[i := ReelView.with_spinPos x r]> (reels m)) m).
Proof. intros Hr. simpl. rewrite Hr. simpl. done. Qed.

(** The writes of a tween that the spin does not have to know. *)
Lemma writeProps_harmless (m0 m : View) (t : Item) e :
  harmless m0 t -> length (reels m) = length (reels m0) ->
  (exists h, writeProps setProp (t_target t) (eased t e) m = Some h
             /\ viewEq m h)
  /\ (exists h, writeProps setProp (t_target t) (final t) m = Some h
                /\ viewEq m h).
Proof.
  intros (_ & _ & Htg) Hlen. destruct (t_target t) as [i|o].
  - destruct Htg as (Hi & x & y & Hto & Hfrom).
    rewrite <- Hlen in Hi.
    destruct (lookup_lt_is_Some_2 _ _ Hi) as [r Hr].
    unfold eased, final. rewrite Hto, Hfrom. simpl.
    split; eexists; (split; [by apply writeProps_kick|]);
      apply (viewEq_insert m i r _ Hr), with_kick_stripEq.
  - split.
    + destruct (writeProps_other o (eased t e) m) as (h & -> & H1 & H2 & H3).
      exists h. split; [done|]. split; [|done]. rewrite H1.
      apply Forall_Forall2_diag, Forall_forall. intros r _.
      apply stripEq_refl.
    + destruct (writeProps_other o (final t) m) as (h & -> & H1 & H2 & H3).
      exists h. split; [done|]. split; [|done]. rewrite H1.
      apply Forall_Forall2_diag, Forall_forall. intros r _.
      apply stripEq_refl.
Qed.

Lemma stepItem_off dt i (t : Item) (st : St) :
  t_active t = false -> stepItem setProp run dt i t st = Some st.
Proof. intros H. unfold stepItem. by rewrite H. Qed.

Lemma stepItem_delayed dt i (t : Item) (st : St) :
  t_active t = true -> Qlt_bool 0 (t_delay t) = true ->
  stepItem setProp run dt i t st
  = Some (with_tweens
            (alter (fun t => with_delay (t_delay t - dt)%Q t) i (tweens st))
            st).
Proof. intros H1 H2. unfold stepItem. by rewrite H1, H2. Qed.

Lemma stepItem_plain dt i (t : Item) (st : St) h2 h4 :
  t_active t = true -> Qlt_bool 0 (t_delay t) = false ->
  t_onUpdate t = None -> t_onComplete t = None ->
  let p := Qmin 1 ((t_elapsed t + dt) / t_duration t)%Q in
  writeProps setProp (t_target t) (eased t (t_ease t p)) (objects st)
  = Some h2 ->
  writeProps setProp (t_target t) (final t) h2 = Some h4 ->
  stepItem setProp run dt i t st
  = Some (if Qle_bool 1 p
          then {| objects := h4;
                  tweens :=
                    alter (with_active false) i
                      (alter (fun t => with_elapsed (t_elapsed t + dt)%Q t) i
                         (tweens st)) |}
          else {| objects := h2;
                  tweens :=
                    alter (fun t => with_elapsed (t_elapsed t + dt)%Q t) i
                      (tweens st) |}).
Proof.
  intros H1 H2 H3 H4 p Hw2 Hw4. unfold stepItem.
  rewrite H1, H2, H3, H4. cbn. fold p. rewrite Hw2. cbn.
  destruct (Qle_bool 1 p); [|done]. rewrite Hw4. done.
Qed.

(** A step of [update] on a tween that is not the running tween of a
    spin. *)
Lemma stepItem_inv_quiet T dt i (t : Item) (st : St) :
  spinInv grid freeze speedMul stepsMul log0
    (length (reels (objects st))) (T + dt)%Q
    (timeAt T dt i) st ->
  tweens st !! i = Some t ->
  t_active t = false \/ harmless (objects st) t ->
  exists st',
    stepItem setProp run dt i t st = Some st'
    /\ spinInv grid freeze speedMul stepsMul log0
    (length (reels (objects st))) (T + dt)%Q
         (timeAt T dt (S i)) st'
    /\ length (tweens st') = length (tweens st)
    /\ length (reels (objects st')) = length (reels (objects st)).
Proof.
  intros Hinv Hi Hcase.
  assert (Hothers : forall (m' : View) (l' : list Item) j t',
            viewEq (objects st) m' ->
            (forall j, j <> i -> l' !! j = tweens st !! j) ->
            j <> i -> l' !! j = Some t' ->
            itemOk (map (map Some) grid) freeze speedMul m' (timeAt T dt (S i) j) t').
  { intros m' l' j t' Heq Hl' Hne Hj. rewrite Hl' in Hj by done.
    rewrite timeAt_other by done.
    pose proof (inv_items _ _ _ _ _ _ _ _ _ Hinv j t' Hj) as Hok.
    apply (itemOk_reels _ (objects st)); [done|by apply viewEq_length|].
    intros i0 r _ _ _ Hr. by eapply viewEq_lookup. }
  destruct (t_active t) eqn:Hact; cycle 1.
  { exists st. rewrite stepItem_off by done. split; [done|].
    split; [|done]. destruct st as [m l]. cbn in *.
    apply (spinInv_quiet_step _ _ (timeAt T dt i) _
             {| objects := m; tweens := l |});
      try done.
    - apply viewEq_refl.
    - intros j t' Hj. destruct (decide (j = i)) as [->|Hne].
      + left. cbn in Hi. congruence.
      + by apply (Hothers m l j t' (viewEq_refl m)). }
  destruct Hcase as [Hoff|Hh]; [done|].
  pose proof (isSpin_harmless _ _ Hh) as Hnospin.
  destruct (Qlt_bool 0 (t_delay t)) eqn:Hdelay.
  { rewrite stepItem_delayed by done. eexists. split; [reflexivity|].
    split; [|split; [cbn; by rewrite length_alter|done]].
    destruct st as [m l]. cbn in *.
    apply (spinInv_quiet_step _ _ (timeAt T dt i) _
             {| objects := m; tweens := l |});
      try done.
    - apply viewEq_refl.
    - cbn. apply spinTargets_alter_keep. intros t0 Ht0. done.
    - intros j t' Hj. destruct (decide (j = i)) as [->|Hne].
      + rewrite list_lookup_alter_eq, Hi in Hj. injection Hj as <-.
        right; left. exact Hh.
      + eapply (Hothers m); [apply viewEq_refl| |exact Hne|exact Hj].
        intros j' Hj'. by apply list_lookup_alter_ne. }
  set (p := Qmin 1 ((t_elapsed t + dt) / t_duration t)%Q).
  destruct (writeProps_harmless (objects st) (objects st) t (t_ease t p) Hh
              eq_refl) as ((h2 & Hw2 & Heq2) & _).
  destruct (writeProps_harmless (objects st) h2 t (t_ease t p) Hh
              (viewEq_length _ _ Heq2)) as (_ & (h4 & Hw4 & Heq4)).
  pose proof Hh as (Hup & Hcomp & Htarget).
  rewrite (stepItem_plain dt i t st h2 h4) by done. fold p.
  assert (Hh' : forall (m' : View) (f : Item -> Item),
            viewEq (objects st) m' ->
            t_onUpdate (f t) = None -> t_onComplete (f t) = None ->
            t_target (f t) = t_target t -> t_to (f t) = t_to t ->
            t_from (f t) = t_from t -> harmless m' (f t)).
  { intros m' f Heq E1 E2 E3 E4 E5. split; [done|]. split; [done|].
    rewrite E3, E4, E5. destruct (t_target t); [|done].
    by rewrite (viewEq_length _ _ Heq). }
  destruct st as [m l]. cbn in *.
  destruct (Qle_bool 1 p).
  - eexists. split; [reflexivity|].
    split; [|split; [cbn; by rewrite !length_alter|
                     cbn; apply viewEq_length;
                     by eapply viewEq_trans]].
    assert (Heq : viewEq m h4) by (by eapply viewEq_trans).
    apply (spinInv_quiet_step _ _ (timeAt T dt i) _
             {| objects := m; tweens := l |});
      try done.
    + cbn. rewrite list_alter_alter_eq. apply spinTargets_alter_keep.
      intros t0 Ht0. cbn. assert (t0 = t) as -> by congruence.
      by rewrite Hnospin, andb_false_r.
    + intros j t' Hj. destruct (decide (j = i)) as [->|Hne].
      * rewrite list_alter_alter_eq, list_lookup_alter_eq, Hi in Hj.
        injection Hj as <-. right; left.
        by apply (Hh' h4 (with_active false
                          ∘ (fun t => with_elapsed (t_elapsed t + dt)%Q t))).
      * eapply (Hothers h4); [exact Heq| |exact Hne|exact Hj].
        intros j' Hj'. by rewrite !list_lookup_alter_ne.
  - eexists. split; [reflexivity|].
    split; [|split; [cbn; by rewrite !length_alter|
                     cbn; by apply viewEq_length]].
    apply (spinInv_quiet_step _ _ (timeAt T dt i) _
             {| objects := m; tweens := l |});
      try done.
    + cbn. apply spinTargets_alter_keep. intros t0 Ht0. done.
    + intros j t' Hj. destruct (decide (j = i)) as [->|Hne].
      * rewrite list_lookup_alter_eq, Hi in Hj. injection Hj as <-.
        right; left.
        by apply (Hh' h2 (fun t => with_elapsed (t_elapsed t + dt)%Q t)).
      * eapply (Hothers h2); [exact Heq2| |exact Hne|exact Hj].
        intros j' Hj'. by rewrite !list_lookup_alter_ne.
Qed.

Lemma Qle_bool_min_true x d :
  (0 < d)%Q -> Qle_bool 1 (Qmin 1 (x / d)) = true -> (d <= x)%Q.
Proof.
  intros Hd H. apply Qle_bool_iff in H.
  assert (H1 : (1 <= x / d)%Q).
  { eapply Qle_trans; [exact H|]. apply Q.le_min_r. }
  assert (E : (x / d * d == x)%Q) by (field; lra).
  pose proof (Qmult_le_compat_r 1 (x / d) d H1 ltac:(lra)) as H2.
  lra.
Qed.

Lemma Qle_bool_min_false x d :
  (0 < d)%Q -> Qle_bool 1 (Qmin 1 (x / d)) = false -> (x < d)%Q.
Proof.
  intros Hd H. apply Qnot_le_lt. intros Hle.
  assert (H1 : (1 <= x / d)%Q).
  { apply Qle_shift_div_l; [done|]. lra. }
  assert (H2 : Qle_bool 1 (Qmin 1 (x / d)) = true).
  { apply Qle_bool_iff. apply Q.min_glb; [lra|done]. }
  congruence.
Qed.

Lemma run_SyncStrip i (st : St) r r' :
  reels (objects st) !! i = Some r -> ReelView.syncStrip r = Some r' ->
  run (SyncStrip i) st
  = Some (with_objects (with_reels (<[i := r']> (reels (objects st)))
                          (objects st)) st).
Proof. intros H1 H2. unfold run. rewrite H1. simpl. by rewrite H2. Qed.

(** What a step of [update] does with the running tween of a spin. *)
Lemma stepItem_spin dt i (t : Item) (m : View) (l : list Item) i0 start target
    r r' :
  t_active t = true -> Qlt_bool 0 (t_delay t) = false ->
  t_target t = Reel i0 ->
  t_to t = [("spinPos"%string, target)] ->
  t_from t = [("spinPos"%string, Some start)] ->
  t_ease t = Easings.outQuint ->
  t_onUpdate t = Some (SyncStrip i0) -> t_onComplete t = Some Done ->
  reels m !! i0 = Some r ->
  ReelView.syncStrip
    (ReelView.with_spinPos
       (posAt start target (t_duration t) (t_elapsed t + dt)) r)
  = Some r' ->
  let l1 := alter (fun t => with_elapsed (t_elapsed t + dt)%Q t) i l in
  stepItem setProp run dt i t {| objects := m; tweens := l |}
  = Some
      (if Qle_bool 1 (Qmin 1 ((t_elapsed t + dt) / t_duration t))
       then done
              {| objects :=
                   with_reels
                     (<[i0 := ReelView.with_spinPos target r']> (reels m)) m;
                 tweens := alter (with_active false) i l1 |}
       else {| objects := with_reels (<[i0 := r']> (reels m)) m;
               tweens := l1 |}).
Proof.
  intros Hact Hdelay Htg Hto Hfrom Hease Hup Hdone Hr Hsync l1.
  assert (Hi0 : (i0 < length (reels m))%nat) by (by eapply lookup_lt_Some).
  assert (Heased : forall e,
            eased t e
            = [("spinPos"%string, Some (start + (target - start) * e)%Q)]).
  { intros e. unfold eased. rewrite Hto, Hfrom. reflexivity. }
  assert (Hfinal : final t = [("spinPos"%string, Some target)]).
  { unfold final. by rewrite Hto. }
  unfold stepItem. rewrite Hact, Hdelay. cbv zeta.
  rewrite Heased, Hfinal, Htg, Hease, Hup, Hdone.
  change (objects (with_tweens ?l0 ?s)) with (objects s).
  change (objects {| objects := m; tweens := l |}) with m.
  rewrite (writeProps_spinPos i0 _ m r Hr).
  unfold posAt in Hsync.
  change (negb true) with false. cbv iota.
  change (Some ?x ≫= ?f) with (f x). cbv beta.
  unfold runOpt.
  erewrite (run_SyncStrip i0);
    [|cbn; by apply list_lookup_insert_eq|exact Hsync].
  change (Some ?x ≫= ?f) with (f x). cbv beta.
  destruct (Qle_bool 1 (Qmin 1 ((t_elapsed t + dt) / t_duration t))).
  - cbn [objects with_objects with_tweens reels with_reels tweens].
    rewrite list_insert_insert_eq.
    rewrite (writeProps_spinPos i0 _ _ r')
      by (cbn; by rewrite list_lookup_insert_eq).
    change (Some ?x ≫= ?f) with (f x). cbv beta.
    cbn [objects with_objects with_tweens reels with_reels tweens runOpt run].
    by rewrite list_insert_insert_eq.
  - cbn [objects with_objects with_tweens reels with_reels tweens].
    by rewrite list_insert_insert_eq.
Qed.

Lemma cols_lookup i (col : list Cell) :
  map (map Some) grid !! i = Some col ->
  exists gc, grid !! i = Some gc /\ col = map Some gc.
Proof.
  intros H. change (map (map Some) grid) with (map Some <$> grid) in H.
  rewrite list_lookup_fmap in H. destruct (grid !! i) as [gc|]; [|done].
  injection H as <-. by exists gc.
Qed.

(** A step of [update] on the running tween of a spin. *)
Lemma stepItem_inv_spin T dt i (t : Item) (st : St) :
  (0 <= dt)%Q ->
  spinInv grid freeze speedMul stepsMul log0
    (length (reels (objects st))) (T + dt)%Q
    (timeAt T dt i) st ->
  tweens st !! i = Some t ->
  t_active t = true ->
  spinOk (map (map Some) grid) freeze speedMul (objects st) T t ->
  exists st',
    stepItem setProp run dt i t st = Some st'
    /\ spinInv grid freeze speedMul stepsMul log0
    (length (reels (objects st))) (T + dt)%Q
         (timeAt T dt (S i)) st'
    /\ length (tweens st') = length (tweens st)
    /\ length (reels (objects st')) = length (reels (objects st)).
Proof.
  intros Hdt Hinv Hi Hact Hspin. pose proof Hspin as Hspin0.
  destruct Hspin as (i0 & start & target & col & r & Htg & Hto & Hfrom & Hease
                     & Hup & Hdone & Hdelay & Hel & Hlt & Hr & Hcol & Hmov
                     & Hnf & Hdur).
  destruct (moving_step _ _ _ _ _ dt _ Hmov Hdt) as (r' & Hsync & Hmov' & Hend).
  destruct st as [m l]. cbn in *.
  pose proof Hsync as Hsync0. rewrite <- Hel in Hsync0.
  rewrite (stepItem_spin dt i t m l i0 start target r r') by done.
  rewrite Hel.
  assert (Hi0 : (i0 < length (reels m))%nat) by (by eapply lookup_lt_Some).
  assert (Hisspin : isSpin t = true) by (by eapply isSpin_spinOk).
  assert (Hin0 : Reel i0 ∈ spinTargets l).
  { apply spinTargets_elem. by exists i, t. }
  set (l1 := alter (fun t => with_elapsed (t_elapsed t + dt)%Q t) i l).
  assert (Htg1 : spinTargets l1 = spinTargets l).
  { apply spinTargets_alter_keep. by intros t0 _. }
  assert (Hl1 : l1 !! i = Some (with_elapsed (t_elapsed t + dt)%Q t)).
  { unfold l1. by rewrite list_lookup_alter_eq, Hi. }
  assert (Hothers : forall (m' : View) (l' : list Item) rx j t',
            reels m' = <[i0 := rx]> (reels m) ->
            (forall j, j <> i -> l' !! j = l !! j) ->
            j <> i -> l' !! j = Some t' ->
            itemOk (map (map Some) grid) freeze speedMul m' (timeAt T dt (S i) j) t').
  { intros m' l' rx j t' Hm' Hl' Hne Hj. rewrite Hl' in Hj by done.
    rewrite timeAt_other by done.
    pose proof (inv_items _ _ _ _ _ _ _ _ _ Hinv j t' Hj) as Hok. cbn in Hok.
    apply (itemOk_reels _ m); [done|by rewrite Hm', length_insert|].
    intros i1 r1 Htg' Hact' Hspin' Hr1.
    assert (Hne' : i1 <> i0).
    { intros ->.
      apply (spin_targets_distinct l i j t t'
               (inv_nodup _ _ _ _ _ _ _ _ _ Hinv) Hi Hj); try done.
      congruence. }
    exists r1. rewrite Hm', list_lookup_insert_ne by done.
    split; [done|apply stripEq_refl]. }
  destruct (Qle_bool 1 (Qmin 1 ((T + dt) / t_duration t))) eqn:Hp.
  - (* the tween ends *)
    destruct Hmov as (_ & _ & _ & _ & _ & Hd & _).
    pose proof (Qle_bool_min_true _ _ Hd Hp) as Hge.
    specialize (Hend Hge).
    set (m4 := with_reels (<[i0 := ReelView.with_spinPos target r']> (reels m))
                 m).
    set (l5 := alter (with_active false) i l1).
    destruct (spinTargets_alter_stop i l1 _ Hl1 Hact Hisspin) as
      (Hnd5 & Hlen5 & Hiff5).
    { rewrite Htg1. exact (inv_nodup _ _ _ _ _ _ _ _ _ Hinv). }
    fold l5 in Hnd5, Hlen5, Hiff5. rewrite Htg1 in Hlen5, Hiff5.
    change (t_target (with_elapsed (t_elapsed t + dt)%Q t))
      with (t_target t) in Hiff5. rewrite Htg in Hiff5.
    pose proof (inv_remaining _ _ _ _ _ _ _ _ _ Hinv) as Hrem.
    cbn [objects tweens] in Hrem. rewrite Nat.sub_diag in Hrem.
    assert (Hreels5 : forall i1 r1,
              reels m4 !! i1 = Some r1 ->
              reelOk r1 /\ synced r1
              /\ (Reel i1 ∉ spinTargets l5 ->
                  exists gc,
                    grid !! i1 = Some gc /\ resting (map Some gc) r1
                    /\ (frozen freeze i1 = true
                        \/ (spinTime speedMul i1 <= T + dt)%Q))).
    { intros i1 r1 Hr1. unfold m4 in Hr1. cbn in Hr1.
      destruct (decide (i1 = i0)) as [->|Hne].
      - rewrite list_lookup_insert_eq in Hr1 by done. injection Hr1 as <-.
        destruct Hend as (Hok & Hs & Hvis). split; [done|]. split; [done|].
        intros _. destruct (cols_lookup _ _ Hcol) as (gc & Hgc & ->).
        exists gc. split; [done|]. split; [by split|].
        right. by rewrite <- Hdur.
      - rewrite list_lookup_insert_ne in Hr1 by done.
        destruct (inv_reels _ _ _ _ _ _ _ _ _ Hinv i1 r1 Hr1) as (Hok & Hs & Hc).
        cbn in Hc. split; [done|]. split; [done|]. intros Hnot.
        rewrite decide_True in Hc by (by eapply lookup_lt_Some).
        apply Hc. intros Hin. apply Hnot, Hiff5. split; [done|congruence]. }
    eexists. split; [reflexivity|].
    split; [|split; [cbn; unfold l5, l1; by rewrite !length_alter|
                     unfold done; cbn;
                     destruct (_ =? 0)%Z; cbn; by rewrite length_insert]].
    assert (Hlenm4 : length (reels m4) = length (reels m))
      by (unfold m4; cbn; by rewrite length_insert).
    assert (Hobj : reels (objects (done {| objects := m4; tweens := l5 |}))
                   = reels m4
                   /\ remaining
                        (objects (done {| objects := m4; tweens := l5 |}))
                      = (remaining m - 1)%Z
                   /\ tweens (done {| objects := m4; tweens := l5 |}) = l5).
    { unfold done. cbn. by destruct (_ =? 0)%Z. }
    destruct Hobj as (Hre & Hrm & Htw).
    split.
    + intros j t'. rewrite Htw. intros Hj.
      destruct (decide (j = i)) as [->|Hne].
      * left. unfold l5 in Hj. rewrite list_lookup_alter_eq, Hl1 in Hj.
        by injection Hj as <-.
      * eapply (Hothers _ l5 (ReelView.with_spinPos target r'));
          [by rewrite Hre| |exact Hne|exact Hj].
        intros j' Hj'. unfold l5, l1. by rewrite !list_lookup_alter_ne.
    + by rewrite Htw.
    + rewrite Htw. intros i1 Hin. apply Hiff5 in Hin as [Hin _].
      by apply (inv_started _ _ _ _ _ _ _ _ _ Hinv).
    + rewrite Hrm, Hre, Htw, Hlenm4, Nat.sub_diag. lia.
    + rewrite Hre, Htw. intros i1 r1 Hr1.
      destruct (Hreels5 i1 r1 Hr1) as (Hok & Hs & Hc).
      split; [done|]. split; [done|].
      rewrite decide_True; [done|].
      rewrite <- Hlenm4. by eapply lookup_lt_Some.
    + pose proof (inv_log _ _ _ _ _ _ _ _ _ Hinv) as Hlog. cbn in Hlog.
      assert (Hnz : (remaining m =? 0)%Z = false) by (apply Z.eqb_neq; lia).
      rewrite Hnz in Hlog. unfold done. cbn.
      destruct (remaining m - 1 =? 0)%Z eqn:Hz; cbn; rewrite Hz; [|done].
      apply Z.eqb_eq in Hz. exists (reels m4). split; [by rewrite Hlog|].
      apply Forall2_same_length_lookup_2.
      { rewrite Hlenm4. symmetry. exact (inv_grid _ _ _ _ _ _ _ _ _ Hinv). }
      intros i1 r1 gc Hr1 Hgc.
      destruct (Hreels5 i1 r1 Hr1) as (_ & _ & Hc).
      destruct Hc as (gc' & Hgc' & Hrest & _).
      { assert (Hnil : spinTargets l5 = []).
        { apply length_zero_iff_nil. lia. }
        rewrite Hnil. apply not_elem_of_nil. }
      congruence.
    + rewrite Hre, Hlenm4. exact (inv_grid _ _ _ _ _ _ _ _ _ Hinv).
    + rewrite Hre, Hlenm4. done.
  - (* the tween goes on *)
    destruct Hmov as (_ & _ & _ & _ & _ & Hd & _).
    pose proof (Qle_bool_min_false _ _ Hd Hp) as Hlt'.
    eexists. split; [reflexivity|].
    split; [|split; [cbn; unfold l1; by rewrite length_alter|
                     cbn; by rewrite length_insert]].
    apply (spinInv_step _ _ (timeAt T dt i) _ {| objects := m; tweens := l |});
      try done.
    + cbn. by rewrite length_insert.
    + cbn. intros j t' Hj. destruct (decide (j = i)) as [->|Hne].
      * rewrite Hl1 in Hj. injection Hj as <-.
        destruct (timeAt_here T dt i) as [_ ->].
        right; right. exists i0, start, target, col, r'.
        do 7 (split; [done|]). split; [cbn; by rewrite Hel|].
        split; [done|]. split; [by apply list_lookup_insert_eq|].
        split; [done|]. split; [exact Hmov'|]. by split.
      * eapply (Hothers _ l1 r'); [done| |exact Hne|exact Hj].
        intros j' Hj'. unfold l1. by rewrite list_lookup_alter_ne.
    + cbn. intros i1 r1 Hr1. destruct (decide (i1 = i0)) as [->|Hne].
      * rewrite list_lookup_insert_eq in Hr1 by done. injection Hr1 as <-.
        destruct Hmov' as (Hok & Hs & _). split; [done|]. split; [done|].
        intros Hnot. by destruct Hnot.
      * rewrite list_lookup_insert_ne in Hr1 by done.
        destruct (inv_reels _ _ _ _ _ _ _ _ _ Hinv i1 r1 Hr1) as (Hok & Hs & _).
        split; [done|]. split; [done|]. intros _. exists r1.
        split; [done|apply stripEq_refl].
Qed.

(** A step of [update] keeps the invariant of the spin. *)
Lemma stepItem_inv T dt i (t : Item) (st : St) :
  (0 <= dt)%Q ->
  spinInv grid freeze speedMul stepsMul log0
    (length (reels (objects st))) (T + dt)%Q
    (timeAt T dt i) st ->
  tweens st !! i = Some t ->
  exists st',
    stepItem setProp run dt i t st = Some st'
    /\ spinInv grid freeze speedMul stepsMul log0
         (length (reels (objects st'))) (T + dt)%Q
         (timeAt T dt (S i)) st'
    /\ length (tweens st') = length (tweens st)
    /\ length (reels (objects st')) = length (reels (objects st)).
Proof.
  intros Hdt Hinv Hi.
  pose proof (inv_items _ _ _ _ _ _ _ _ _ Hinv i t Hi) as Hok.
  destruct (timeAt_here T dt i) as [HT _]. rewrite HT in Hok.
  assert (Hcase : (t_active t = false \/ harmless (objects st) t)
                  \/ (t_active t = true
                      /\ spinOk (map (map Some) grid) freeze speedMul (objects st) T t)).
  { destruct (t_active t) eqn:Hact; [|by left; left].
    destruct Hok as [Hoff|[Hh|Hs]]; [congruence|by left; right|by right]. }
  destruct Hcase as [Hq|[Hact Hs]].
  - destruct (stepItem_inv_quiet T dt i t st Hinv Hi Hq)
      as (st' & Hrun & Hinv' & Hl & Hr).
    exists st'. rewrite Hr. split; [done|]. split; [done|]. by split.
  - destruct (stepItem_inv_spin T dt i t st Hdt Hinv Hi Hact Hs)
      as (st' & Hrun & Hinv' & Hl & Hr).
    exists st'. rewrite Hr. split; [done|]. split; [done|]. by split.
Qed.

Lemma spinInv_weaken k now now' time time' (st : St) :
  spinInv grid freeze speedMul stepsMul log0 k now time st ->
  (now <= now')%Q ->
  (forall j, (j < length (tweens st))%nat -> time' j = time j) ->
  spinInv grid freeze speedMul stepsMul log0 k now' time' st.
Proof.
  intros [Hitems Hnd Hstarted Hrem Hreels Hlog Hgrid Hk] Hnow Htime.
  split; try done.
  - intros j t Hj. rewrite Htime by (by eapply lookup_lt_Some).
    by apply Hitems.
  - intros i r Hr. destruct (Hreels i r Hr) as (Hok & Hs & Hc).
    split; [done|]. split; [done|].
    destruct (decide (i < k)%nat); [|done].
    intros Hnot. destruct (Hc Hnot) as (col & Hcol & Hrest & Hwhen).
    exists col. split; [done|]. split; [done|].
    destruct Hwhen as [Hf|Hle]; [by left|right; lra].
Qed.

(** The loop of [update] keeps the invariant of the spin. *)
Lemma updateLoop_inv T dt :
  (0 <= dt)%Q ->
  forall fuel i (st : St),
    spinInv grid freeze speedMul stepsMul log0
      (length (reels (objects st))) (T + dt)%Q (timeAt T dt i) st ->
    (length (tweens st) <= i + fuel)%nat ->
    exists st',
      updateLoop setProp run fuel dt i st = Some st'
      /\ spinInv grid freeze speedMul stepsMul log0
           (length (reels (objects st'))) (T + dt)%Q (fun _ => (T + dt)%Q) st'
      /\ length (tweens st') = length (tweens st)
      /\ length (reels (objects st')) = length (reels (objects st)).
Proof.
  intros Hdt. induction fuel as [|fuel IH]; intros i st Hinv Hlen.
  - assert (Hnone : tweens st !! i = None)
      by (apply lookup_ge_None; lia).
    exists st. simpl. rewrite Hnone. split; [done|]. split; [|done].
    eapply spinInv_weaken; [exact Hinv|lra|].
    intros j Hj. unfold timeAt.
    destruct (Nat.ltb_lt j i) as [_ ->]; [done|lia].
  - simpl. destruct (tweens st !! i) as [t|] eqn:Hi.
    + destruct (stepItem_inv T dt i t st Hdt Hinv Hi)
        as (st1 & Hrun & Hinv1 & Hl1 & Hr1).
      rewrite Hrun. simpl.
      destruct (IH (S i) st1 Hinv1) as (st' & Hrun' & Hinv' & Hl' & Hr');
        [lia|].
      exists st'. split; [done|]. split; [done|]. split; congruence.
    + exists st. split; [done|]. split; [|done].
      eapply spinInv_weaken; [exact Hinv|lra|].
      intros j Hj. unfold timeAt. apply lookup_ge_None in Hi.
      destruct (Nat.ltb_lt j i) as [_ ->]; [done|lia].
Qed.

Lemma compact_inv k now T (st : St) :
  spinInv grid freeze speedMul stepsMul log0 k now (fun _ => T) st ->
  k = length (reels (objects st)) ->
  spinInv grid freeze speedMul stepsMul log0 k now (fun _ => T) (compact st)
  /\ (length (tweens (compact st)) <= length (tweens st))%nat
  /\ objects (compact st) = objects st.
Proof.
  intros Hinv Hk. unfold compact.
  destruct (_ && _); [|done]. split; [|split; [|done]].
  - destruct st as [m l]. cbn in *.
    apply (spinInv_quiet_step k now (fun _ => T) (fun _ => T)
             {| objects := m; tweens := l |}); try done.
    + apply viewEq_refl.
    + cbn. apply spinTargets_filter.
    + intros j t Hj. apply list_elem_of_lookup_2 in Hj.
      apply list_elem_of_filter in Hj as [_ Hin].
      apply list_elem_of_lookup in Hin as [j' Hj'].
      exact (inv_items _ _ _ _ _ _ _ _ _ Hinv j' t Hj').
  - cbn. apply length_filter.
Qed.

(** The tick of the machine moves no strip. *)
Lemma update_inv dt k now time (st : St) :
  spinInv grid freeze speedMul stepsMul log0 k now time st ->
  exists m', SlotMachineView.update dt (objects st) = Some m'
             /\ viewEq (objects st) m'.
Proof.
  intros Hinv. unfold SlotMachineView.update.
  assert (Hall : forall rs : list ReelView.t,
            Forall (fun r => reelOk r /\ synced r) rs ->
            exists rs', mapM (ReelView.update dt) rs = Some rs'
                        /\ Forall2 stripEq rs rs').
  { induction rs as [|r rs IH]; intros Hrs.
    - exists []. by split.
    - apply Forall_cons in Hrs as [[Hok Hs] Hrs].
      destruct (update_synced dt r Hok Hs) as (r' & Hr' & Heq).
      destruct (IH Hrs) as (rs' & Hrs' & Hall).
      exists (r' :: rs'). cbn. rewrite Hr'. cbn. rewrite Hrs'. cbn.
      split; [done|]. by constructor. }
  destruct (Hall (reels (objects st))) as (rs' & Hrs' & Heq).
  { apply Forall_lookup. intros i r Hr.
    destruct (inv_reels _ _ _ _ _ _ _ _ _ Hinv i r Hr) as (Hok & Hs & _).
    done. }
  rewrite Hrs'. eexists. split; [reflexivity|]. by split.
Qed.

(** A frame keeps the invariant of the spin. *)
Lemma frame_inv T dt fuel (st : St) :
  (0 <= dt)%Q ->
  spinInv grid freeze speedMul stepsMul log0 (length (reels (objects st))) T
    (fun _ => T) st ->
  (length (tweens st) <= fuel)%nat ->
  exists st',
    frame fuel dt st = Some st'
    /\ spinInv grid freeze speedMul stepsMul log0
         (length (reels (objects st'))) (T + dt)%Q (fun _ => (T + dt)%Q) st'
    /\ (length (tweens st') <= fuel)%nat.
Proof.
  intros Hdt Hinv Hfuel. unfold frame, TweenManager.update.
  destruct (updateLoop_inv T dt Hdt fuel 0 st) as (st1 & Hrun & Hinv1 & Hl1 & Hr1).
  { eapply spinInv_weaken; [exact Hinv|lra|]. intros j _. done. }
  { lia. }
  rewrite Hrun. cbn.
  destruct (compact_inv _ _ _ st1 Hinv1 eq_refl) as (Hinv2 & Hl2 & Hobj2).
  destruct (update_inv dt _ _ _ _ Hinv2) as (m' & Hup & Heq).
  rewrite Hup. cbn. eexists. split; [reflexivity|].
  split; [|cbn; lia].
  destruct (compact st1) as [m2 l2] eqn:Hc. cbn in *. subst m2.
  rewrite (viewEq_length _ _ Heq).
  apply (spinInv_quiet_step _ _ (fun _ => (T + dt)%Q) _
           {| objects := objects st1; tweens := l2 |}); try done.
  intros j t Hj.
  pose proof (inv_items _ _ _ _ _ _ _ _ _ Hinv2 j t Hj) as Hok. cbn in Hok.
  apply (itemOk_reels _ (objects st1)); [done|by apply viewEq_length|].
  intros i0 r _ _ _ Hr. by eapply viewEq_lookup.
Qed.

(** The frames keep the invariant of the spin. *)
Lemma frames_inv fuel dts :
  Forall (fun dt => (0 <= dt)%Q) dts ->
  forall T (st : St),
    spinInv grid freeze speedMul stepsMul log0
      (length (reels (objects st))) T (fun _ => T) st ->
    (length (tweens st) <= fuel)%nat ->
    exists st',
      frames fuel dts st = Some st'
      /\ spinInv grid freeze speedMul stepsMul log0
           (length (reels (objects st'))) (fold_left Qplus dts T)
           (fun _ => fold_left Qplus dts T) st'.
Proof.
  induction 1 as [|dt dts Hdt _ IH]; intros T st Hinv Hfuel; simpl.
  { by exists st. }
  destruct (frame_inv T dt fuel st Hdt Hinv Hfuel) as (st1 & -> & Hinv1 & Hl1).
  simpl. by apply IH.
Qed.

Lemma spinTargets_quiet (m : View) (l : list Item) :
  Forall (fun t => t_active t = false \/ harmless m t) l ->
  spinTargets l = [].
Proof.
  induction 1 as [|t l Ht _ IH]; [done|].
  rewrite spinTargets_cons, IH.
  destruct Ht as [->|Hh]; [done|].
  by rewrite (isSpin_harmless _ _ Hh), andb_false_r.
Qed.

Lemma spinTargets_kill_list k (l : list Item) :
  Reel k ∉ spinTargets l ->
  spinTargets
    (map (fun t : Item => if t_active t && bool_decide (t_target t = Reel k)
                          then with_active false t else t) l)
  = spinTargets l.
Proof.
  induction l as [|t l IH]; intros Hnot; [done|].
  rewrite map_cons, !spinTargets_cons.
  rewrite spinTargets_cons in Hnot.
  rewrite IH by (intros Hin; apply Hnot, elem_of_app; by right).
  f_equal.
  destruct (t_active t && bool_decide (t_target t = Reel k)) eqn:Hkill;
    [|done].
  apply andb_true_iff in Hkill as [Hact Htg].
  apply bool_decide_eq_true in Htg. cbn. rewrite Hact in *.
  destruct (isSpin t) eqn:Hspin; [|done].
  exfalso. apply Hnot. cbn. rewrite Htg. by left.
Qed.

Lemma spinTargets_kill k (st : St) :
  Reel k ∉ spinTargets (tweens st) ->
  spinTargets (tweens (killTweensOf (Reel k) st)) = spinTargets (tweens st).
Proof. apply spinTargets_kill_list. Qed.

(** What [ReelView.spin] does on a reel that has steps to go. *)
Lemma spin_runs k dur (st : St) r1 :
  reels (objects st) !! k = Some r1 ->
  (ReelView.queueRead r1 < length (ReelView.queue r1))%nat ->
  SlotMachineView.spin k dur Done st
  = Some
      {| objects :=
           with_reels (<[k := ReelView.with_kick 0 r1]> (reels (objects st)))
             (objects st);
         tweens :=
           tweens (killTweensOf (Reel k) st)
           ++ [kickUp k; kickDown k;
               spinTween k (ReelView.spinPos r1)
                 (Z.of_nat (length (ReelView.queue r1))
                  - Z.of_nat (ReelView.queueRead r1)) dur] |}.
Proof.
  intros Hr Hsteps. unfold SlotMachineView.spin. rewrite Hr. cbn [mbind option_bind].
  assert (Hk : (k < length (reels (objects st)))%nat)
    by (by eapply lookup_lt_Some).
  destruct (Z.leb_spec (Z.of_nat (length (ReelView.queue r1))
                        - Z.of_nat (ReelView.queueRead r1)) 0) as [Hle|_];
    [lia|].
  f_equal. unfold TweenManager.to.
  cbn [objects with_objects with_tweens tweens reels with_reels killTweensOf
       map fst snd getProp default o_delay o_ease o_onUpdate o_onComplete].
  rewrite list_lookup_insert_eq by done.
  cbn [mbind option_bind ReelView.kick ReelView.spinPos ReelView.with_kick].
  rewrite <- !app_assoc. reflexivity.
Qed.

Lemma waiting_ok i r :
  waiting grid freeze stepsMul i r -> reelOk r /\ synced r.
Proof. intros (H1 & H2 & _). by split. Qed.

(** [done] for a frozen reel. *)
Lemma done_inv k (st : St) r :
  spinInv grid freeze speedMul stepsMul log0 k 0 (fun _ => 0%Q) st ->
  reels (objects st) !! k = Some r ->
  frozen freeze k = true ->
  spinInv grid freeze speedMul stepsMul log0 (S k) 0 (fun _ => 0%Q) (done st).
Proof.
  intros Hinv Hr Hfr.
  pose proof Hinv as [Hitems Hnd Hstarted Hrem Hreels Hlog Hgrid Hk].
  assert (Hkn : (k < length (reels (objects st)))%nat)
    by (by eapply lookup_lt_Some).
  assert (Hobj : reels (objects (done st)) = reels (objects st)
                 /\ remaining (objects (done st))
                    = (remaining (objects st) - 1)%Z
                 /\ tweens (done st) = tweens st).
  { unfold done. cbn. by destruct (remaining (objects st) - 1 =? 0)%Z. }
  destruct Hobj as (Hre & Hrm & Htw).
  assert (Hreels' : forall i r0,
            reels (objects st) !! i = Some r0 ->
            reelOk r0 /\ synced r0
            /\ (if decide (i < S k)%nat
                then Reel i ∉ spinTargets (tweens st) ->
                     exists col,
                       grid !! i = Some col /\ resting (map Some col) r0
                       /\ (frozen freeze i = true
                           \/ (spinTime speedMul i <= 0)%Q)
                else waiting grid freeze stepsMul i r0)).
  { intros i r0 Hr0. destruct (Hreels i r0 Hr0) as (Hok & Hs & Hc).
    split; [done|]. split; [done|].
    destruct (decide (i < S k)%nat) as [Hlt|Hge].
    - destruct (decide (i < k)%nat) as [Hlt'|Hge']; [done|].
      assert (i = k) as -> by lia. intros _.
      destruct Hc as (_ & _ & col & Hcol & Hcase). rewrite Hfr in Hcase.
      exists col. split; [done|]. split; [by split|by left].
    - destruct (decide (i < k)%nat); [lia|done]. }
  split.
  - intros j t. rewrite Htw. intros Hj.
    apply (itemOk_reels _ (objects st));
      [exact (Hitems j t Hj)|by rewrite Hre|].
    intros i r0 _ _ _ Hr0. exists r0. rewrite Hre.
    split; [done|apply stripEq_refl].
  - by rewrite Htw.
  - rewrite Htw. intros i Hin. apply Hstarted in Hin. lia.
  - rewrite Hrm, Hre, Htw, Hrem. lia.
  - rewrite Hre, Htw. exact Hreels'.
  - unfold done. cbn.
    assert (Hnz : (remaining (objects st) =? 0)%Z = false).
    { apply Z.eqb_neq. rewrite Hrem. lia. }
    rewrite Hnz in Hlog.
    destruct (remaining (objects st) - 1 =? 0)%Z eqn:Hz; cbn; rewrite Hz;
      [|done].
    apply Z.eqb_eq in Hz. exists (reels (objects st)).
    split; [by rewrite Hlog|].
    apply Forall2_same_length_lookup_2; [done|].
    intros i r0 gc Hr0 Hgc. destruct (Hreels' i r0 Hr0) as (_ & _ & Hc).
    assert (Hi : (i < length (reels (objects st)))%nat)
      by (by eapply lookup_lt_Some).
    rewrite decide_True in Hc by lia.
    destruct Hc as (gc' & Hgc' & Hrest & _); [|congruence].
    assert (Hnil : spinTargets (tweens st) = []).
    { apply length_zero_iff_nil. lia. }
    rewrite Hnil. apply not_elem_of_nil.
  - by rewrite Hre.
  - rewrite Hre. lia.
Qed.

Lemma harmless_kickUp (m : View) k :
  (k < length (reels m))%nat -> harmless m (kickUp k).
Proof.
  intros Hk. split; [done|]. split; [done|]. split; [done|].
  by exists 1%Q, 0%Q.
Qed.

Lemma harmless_kickDown (m : View) k :
  (k < length (reels m))%nat -> harmless m (kickDown k).
Proof.
  intros Hk. split; [done|]. split; [done|]. split; [done|].
  by exists 0%Q, 0%Q.
Qed.

(** The reel after [prepareSpin], at the moment its tween is made. *)
Lemma moving_start (col : list SymbolId) n r g d :
  reelOk r -> synced r -> length col = ReelView.rows r ->
  (0 <= ReelView.spinPos r)%Q ->
  (ReelView.spinPos r + ofNat (n + ReelView.rows r + ReelView.buffer r)
   < inject_Z (2 ^ 31))%Q ->
  (0 < d)%Q ->
  let r1 := fst (ReelView.prepareSpin col n r g) in
  (ReelView.queueRead r1 < length (ReelView.queue r1))%nat
  /\ moving (map Some col) (ReelView.spinPos r1)
       (ReelView.spinPos r1
        + inject_Z (Z.of_nat (length (ReelView.queue r1))
                    - Z.of_nat (ReelView.queueRead r1)))
       d 0 (ReelView.with_kick 0 r1).
Proof.
  intros Hok Hs Hlen Hpos Hbig Hd. cbv zeta.
  destruct (shiftN_lands col n r g Hok Hlen)
    as (Hq & Hqr & Hok1 & Hsp1 & Hpr1 & r2 & Hr2 & _ & Hvis & _).
  set (r1 := fst (ReelView.prepareSpin col n r g)) in *.
  rewrite Hq, Hqr, Hsp1.
  replace (Z.of_nat (n + ReelView.rows r + ReelView.buffer r) - Z.of_nat 0)%Z
    with (Z.of_nat (n + ReelView.rows r + ReelView.buffer r)) by lia.
  fold (ofNat (n + ReelView.rows r + ReelView.buffer r)).
  set (steps := (n + ReelView.rows r + ReelView.buffer r)%nat) in *.
  assert (Hsteps : (0 < steps)%nat).
  { destruct Hok as (Hl & Hp & _). unfold steps. lia. }
  split; [lia|].
  assert (Hst : (0 <= ofNat steps)%Q).
  { unfold ofNat. rewrite <- (Zle_Qle 0). lia. }
  unfold synced in Hs.
  split; [exact Hok1|]. split; [unfold synced; cbn; by rewrite Hsp1, Hpr1|].
  split; [done|]. split; [lra|]. split; [done|]. split; [done|].
  split; [lra|]. split.
  { cbn. rewrite posAt_start by done. by rewrite Hpr1. }
  exists r1. split; [done|]. split.
  - exists r1. cbn. rewrite Hpr1, (Qfloor_Qeq _ _ (Qeq_sym _ _ Hs)).
    rewrite Z.sub_diag. split; [done|]. by repeat split.
  - exists r2. unfold ofNat. rewrite Qfloor_plus_Z.
    replace (Z.to_nat (Qfloor (ReelView.spinPos r) + Z.of_nat steps
                       - Qfloor (ReelView.spinPos r))) with steps by lia.
    rewrite <- Hq. by split.
Qed.

(** The start of the spin of a reel that is not frozen. *)
Lemma start_inv k (st : St) r (col : list SymbolId) g :
  spinInv grid freeze speedMul stepsMul log0 k 0 (fun _ => 0%Q) st ->
  reels (objects st) !! k = Some r ->
  frozen freeze k = false ->
  grid !! k = Some col ->
  let r1 := fst (ReelView.prepareSpin col (randomStepsOf stepsMul k) r g) in
  let st1 :=
    with_objects (with_reels (<[k := r1]> (reels (objects st))) (objects st))
      st in
  exists st2,
    SlotMachineView.spin k
      ((Config.baseDuration + ofNat k * Config.durationStagger) * speedMul)%Q
      Done st1 = Some st2
    /\ spinInv grid freeze speedMul stepsMul log0 (S k) 0 (fun _ => 0%Q) st2
    /\ length (reels (objects st2)) = length (reels (objects st))
    /\ length (tweens st2) = (length (tweens st) + 3)%nat.
Proof.
  intros Hinv Hr Hfr Hcol. cbv zeta.
  pose proof Hinv as [Hitems Hnd Hstarted Hrem Hreels Hlog Hgrid Hk].
  assert (Hkn : (k < length (reels (objects st)))%nat)
    by (by eapply lookup_lt_Some).
  destruct (Hreels k r Hr) as (Hok & Hs & Hw).
  rewrite decide_False in Hw by lia.
  destruct Hw as (_ & _ & col' & Hcol' & Hcase).
  rewrite Hfr in Hcase. assert (col' = col) as -> by congruence.
  destruct Hcase as (Hlen & Hpos & Hbig).
  set (d := Qmax (1 # 10000)
              ((Config.baseDuration + ofNat k * Config.durationStagger)
               * speedMul)%Q).
  assert (Hd : (0 < d)%Q).
  { pose proof (Q.le_max_l (1 # 10000)
                  ((Config.baseDuration + ofNat k * Config.durationStagger)
                   * speedMul)%Q) as H. fold d in H. lra. }
  destruct (moving_start col (randomStepsOf stepsMul k) r g d Hok Hs Hlen Hpos
              Hbig Hd) as (Hsteps & Hmov).
  set (r1 := fst (ReelView.prepareSpin col (randomStepsOf stepsMul k) r g))
    in *.
  set (st1 := with_objects
                (with_reels (<[k := r1]> (reels (objects st))) (objects st))
                st).
  assert (Hr1 : reels (objects st1) !! k = Some r1).
  { unfold st1. cbn. by apply list_lookup_insert_eq. }
  rewrite (spin_runs k _ st1 r1 Hr1 Hsteps).
  eexists. split; [reflexivity|].
  assert (Hnotin : Reel k ∉ spinTargets (tweens st)).
  { intros Hin. apply Hstarted in Hin. lia. }
  assert (Hkill : spinTargets (tweens (killTweensOf (Reel k) st1))
                  = spinTargets (tweens st)).
  { by apply (spinTargets_kill k st1). }
  set (tsp := spinTween k (ReelView.spinPos r1)
                (Z.of_nat (length (ReelView.queue r1))
                 - Z.of_nat (ReelView.queueRead r1))
                ((Config.baseDuration + ofNat k * Config.durationStagger)
                 * speedMul)%Q).
  set (m2 := with_reels (<[k := ReelView.with_kick 0 r1]> (reels (objects st1)))
               (objects st1)).
  assert (Hm2 : reels m2 = <[k := ReelView.with_kick 0 r1]> (reels (objects st))).
  { unfold m2, st1. cbn. by rewrite list_insert_insert_eq. }
  assert (Hlen2 : length (reels m2) = length (reels (objects st)))
    by (by rewrite Hm2, length_insert).
  assert (Htargets : spinTargets
                       (tweens (killTweensOf (Reel k) st1)
                        ++ [kickUp k; kickDown k; tsp])
                     = spinTargets (tweens st) ++ [Reel k]).
  { by rewrite spinTargets_app, Hkill. }
  split; [|split; [exact Hlen2|]]; cycle 1.
  { cbn. rewrite length_app, length_map. cbn. lia. }
  split; cbn [objects tweens].
  - (* the tweens *)
    assert (Hall : Forall (itemOk (map (map Some) grid) freeze speedMul m2 0)
                     (tweens (killTweensOf (Reel k) st1)
                      ++ [kickUp k; kickDown k; tsp])).
    { apply Forall_app. split.
      - unfold killTweensOf. cbn [tweens with_tweens]. apply Forall_fmap.
        apply Forall_lookup. intros j t Hj. cbn.
        destruct (t_active t && bool_decide (t_target t = Reel k)) eqn:Hkl;
          [by left|].
        apply (itemOk_reels _ (objects st)); [exact (Hitems j t Hj)|done|].
        intros i r0 Htg Hact Hspin Hr0.
        assert (Hne : i <> k).
        { intros ->. apply Hnotin. apply spinTargets_elem. by exists j, t. }
        exists r0. rewrite Hm2, list_lookup_insert_ne by done.
        split; [done|apply stripEq_refl].
      - constructor; [|constructor; [|constructor; [|constructor]]].
        + right; left. apply harmless_kickUp. lia.
        + right; left. apply harmless_kickDown. lia.
        + right; right.
          exists k, (ReelView.spinPos r1),
            (ReelView.spinPos r1
             + inject_Z (Z.of_nat (length (ReelView.queue r1))
                         - Z.of_nat (ReelView.queueRead r1)))%Q,
            (map Some col), (ReelView.with_kick 0 r1).
          do 7 (split; [reflexivity|]). split; [reflexivity|].
          split; [exact Hd|].
          split; [rewrite Hm2; by apply list_lookup_insert_eq|].
          split.
          { change (map (map Some) grid) with (map Some <$> grid).
            by rewrite list_lookup_fmap, Hcol. }
          split; [exact Hmov|]. by split. }
    intros j t Hj. by eapply Forall_lookup_1.
  - rewrite Htargets. apply NoDup_app. split; [done|].
    split; [|apply NoDup_singleton].
    intros x Hx Hx'. apply list_elem_of_singleton in Hx' as ->. done.
  - rewrite Htargets. intros i Hin. apply elem_of_app in Hin as [Hin|Hin].
    + apply Hstarted in Hin. lia.
    + apply list_elem_of_singleton in Hin. injection Hin as ->. lia.
  - rewrite Htargets, Hlen2, length_app. cbn.
    change (remaining m2) with (remaining (objects st)). rewrite Hrem. lia.
  - rewrite Htargets. intros i r0 Hr0. rewrite Hm2 in Hr0.
    destruct (decide (i = k)) as [->|Hne].
    + rewrite list_lookup_insert_eq in Hr0 by done. injection Hr0 as <-.
      destruct Hmov as (Hok' & Hs' & _). split; [done|]. split; [done|].
      rewrite decide_True by lia. intros Hnot. exfalso. apply Hnot.
      apply elem_of_app. right. by left.
    + rewrite list_lookup_insert_ne in Hr0 by done.
      destruct (Hreels i r0 Hr0) as (Hok' & Hs' & Hc).
      split; [done|]. split; [done|].
      destruct (decide (i < S k)%nat) as [Hlt|Hge].
      * rewrite decide_True in Hc by lia. intros Hnot. apply Hc.
        intros Hin. apply Hnot, elem_of_app. by left.
      * by rewrite decide_False in Hc by lia.
  - change (remaining m2) with (remaining (objects st)).
    change (completions m2) with (completions (objects st)). exact Hlog.
  - by rewrite Hlen2.
  - rewrite Hlen2. lia.
Qed.

(** The loop of [spinTo] sets up the invariant of the spin. *)
Lemma spinToLoop_inv n :
  forall k (st : St) g,
    spinInv grid freeze speedMul stepsMul log0 k 0 (fun _ => 0%Q) st ->
    (k + n = length (reels (objects st)))%nat ->
    exists st' g',
      spinToLoop grid freeze speedMul stepsMul n k st g = Some (st', g')
      /\ spinInv grid freeze speedMul stepsMul log0
           (length (reels (objects st'))) 0 (fun _ => 0%Q) st'
      /\ length (reels (objects st')) = length (reels (objects st))
      /\ (length (tweens st') <= length (tweens st) + 3 * n)%nat.
Proof.
  induction n as [|n IH]; intros k st g Hinv Hkn; simpl.
  { exists st, g. split; [done|]. split; [|split; [done|lia]].
    by replace (length (reels (objects st))) with k by lia. }
  assert (Hk : (k < length (reels (objects st)))%nat) by lia.
  destruct (lookup_lt_is_Some_2 _ _ Hk) as [r Hr]. rewrite Hr. simpl.
  destruct (frozen freeze k) eqn:Hfr.
  - pose proof (done_inv k st r Hinv Hr Hfr) as Hinv1.
    assert (Hobj : reels (objects (done st)) = reels (objects st)
                   /\ tweens (done st) = tweens st).
    { unfold done. cbn.
      by destruct (remaining (objects st) - 1 =? 0)%Z. }
    destruct Hobj as (Hre & Htw).
    destruct (IH (S k) (done st) g Hinv1) as (st' & g' & Hrun & Hinv' & Hl & Ht).
    { rewrite Hre. lia. }
    exists st', g'. split; [done|]. split; [done|].
    split; [congruence|]. rewrite Htw in Ht. lia.
  - destruct (inv_reels _ _ _ _ _ _ _ _ _ Hinv k r Hr) as (_ & _ & Hw).
    rewrite decide_False in Hw by lia.
    destruct Hw as (_ & _ & col & Hcol & _). rewrite Hcol. simpl.
    fold (randomStepsOf stepsMul k).
    destruct (start_inv k st r col g Hinv Hr Hfr Hcol)
      as (st2 & Hspin & Hinv2 & Hl2 & Ht2).
    destruct (ReelView.prepareSpin col (randomStepsOf stepsMul k) r g)
      as [r1 g1] eqn:Hp.
    cbn [fst] in Hspin. rewrite Hspin. simpl.
    destruct (IH (S k) st2 g1 Hinv2) as (st' & g' & Hrun & Hinv' & Hl & Ht).
    { rewrite Hl2. lia. }
    exists st', g'. split; [done|]. split; [done|].
    split; [congruence|]. lia.
Qed.

Lemma spinInv_init (st : St) :
  quiet st ->
  reels (objects st) <> [] ->
  length grid = length (reels (objects st)) ->
  (forall i r, reels (objects st) !! i = Some r ->
     waiting grid freeze stepsMul i r) ->
  completions (objects st) = log0 ->
  spinInv grid freeze speedMul stepsMul log0 0 0 (fun _ => 0%Q)
    (with_objects
       (with_remaining (Z.of_nat (length (reels (objects st)))) (objects st))
       st).
Proof.
  intros Hq Hne Hgrid Hw Hlog.
  assert (Hnil : spinTargets (tweens st) = [])
    by (by eapply spinTargets_quiet).
  split; cbn [objects tweens with_objects with_remaining reels remaining
              completions].
  - intros j t Hj. pose proof (Forall_lookup_1 _ _ _ _ Hq Hj) as [Hoff|Hh].
    + by left.
    + right; left. exact Hh.
  - rewrite Hnil. apply NoDup_nil_2.
  - rewrite Hnil. intros i Hin. by apply elem_of_nil in Hin.
  - rewrite Hnil. cbn. lia.
  - intros i r Hr. destruct (waiting_ok i r (Hw i r Hr)) as [Hok Hs].
    split; [done|]. split; [done|]. rewrite decide_False by lia.
    by apply Hw.
  - assert (Hnz : (Z.of_nat (length (reels (objects st))) =? 0)%Z = false).
    { apply Z.eqb_neq. destruct (reels (objects st)); [done|]. cbn. lia. }
    by rewrite Hnz.
  - done.
  - lia.
Qed.

(** At the end of the frames: [onAllComplete] has been called once if the
    time has come for every reel that spins, and not at all if it has not
    come for one of them. *)
Lemma spinInv_result T (st : St) :
  spinInv grid freeze speedMul stepsMul log0 (length (reels (objects st))) T
    (fun _ => T) st ->
  ((forall i, (i < length (reels (objects st)))%nat ->
      frozen freeze i = false -> (spinTime speedMul i <= T)%Q) ->
   (exists snap,
      completions (objects st) = log0 ++ [snap]
      /\ Forall2 (fun r col => resting (map Some col) r) snap grid)
   /\ Forall2 (fun r col => resting (map Some col) r)
        (reels (objects st)) grid)
  /\ ((exists i, (i < length (reels (objects st)))%nat
                 /\ frozen freeze i = false /\ (T < spinTime speedMul i)%Q) ->
      completions (objects st) = log0).
Proof.
  intros [Hitems Hnd Hstarted Hrem Hreels Hlog Hgrid Hk].
  rewrite Nat.sub_diag in Hrem. split.
  - intros Hall.
    assert (Hnil : spinTargets (tweens st) = []).
    { destruct (spinTargets (tweens st)) as [|x l] eqn:Hx; [done|]. exfalso.
      assert (Hin : x ∈ spinTargets (tweens st)) by (rewrite Hx; by left).
      apply spinTargets_elem in Hin as (j & t & Hj & Hact & Hspin & Htg).
      destruct (Hitems j t Hj) as [Hoff|[Hh|Hs]]; [congruence| |].
      - by rewrite (isSpin_harmless _ _ Hh) in Hspin.
      - destruct Hs as (i & start & target & col & r & _ & _ & _ & _ & _ & _
                        & _ & _ & Hlt & Hr & _ & _ & Hnf & Hdur).
        pose proof (Hall i (lookup_lt_Some _ _ _ Hr) Hnf) as Hle.
        rewrite Hdur in Hlt. lra. }
    rewrite Hnil in Hrem. cbn in Hrem. rewrite Hrem in Hlog. cbn in Hlog.
    split; [exact Hlog|].
    apply Forall2_same_length_lookup_2; [done|].
    intros i r gc Hr Hgc. destruct (Hreels i r Hr) as (_ & _ & Hc).
    rewrite decide_True in Hc by (by eapply lookup_lt_Some).
    destruct Hc as (gc' & Hgc' & Hrest & _); [|congruence].
    rewrite Hnil. apply not_elem_of_nil.
  - intros (i & Hi & Hnf & Hlt).
    assert (Hin : Reel i ∈ spinTargets (tweens st)).
    { destruct (decide (Reel i ∈ spinTargets (tweens st))) as [|Hnot]; [done|].
      exfalso. destruct (lookup_lt_is_Some_2 _ _ Hi) as [r Hr].
      destruct (Hreels i r Hr) as (_ & _ & Hc).
      rewrite decide_True in Hc by done.
      destruct (Hc Hnot) as (_ & _ & _ & [Hf|Hle]); [congruence|lra]. }
    assert (Hnz : (remaining (objects st) =? 0)%Z = false).
    { apply Z.eqb_neq. rewrite Hrem.
      destruct (spinTargets (tweens st)); [by apply elem_of_nil in Hin|].
      cbn. lia. }
    by rewrite Hnz in Hlog.
Qed.
End SpinSteps.

Section SpinTheorem.
Import TweenManager SlotMachineView.

(** What is on the reels when [onAllComplete] is called.  Take a machine
    with at least one reel, each reel as its constructor builds it, in step
    with its position and not too far on; a tween manager that holds only
    finished tweens, tweens without callbacks on other targets and tweens
    of [kick]; a grid with a column for every reel, of the height of the
    reel; frozen reels that show their column of the grid already.  Then
    [spinTo] returns, and so does every frame after it, whatever the
    sequence of the time steps (none negative).  When the time since
    [spinTo] has reached the duration of the spin of every reel that is
    not frozen, [onAllComplete] has been called exactly once, and at that
    call every reel showed its column of the grid, top to bottom, as it
    still does; while the time has not come for one of these reels,
    [onAllComplete] has not been called. *)
Theorem spinTo_shows_the_grid (grid : Grid) (freeze : option (list bool))
    (speedMul stepsMul : option number) (st : St) (g : Rng)
    (dts : list number) (fuel : nat) :
  quiet st ->
  reels (objects st) <> [] ->
  length grid = length (reels (objects st)) ->
  (forall i r, reels (objects st) !! i = Some r ->
     waiting grid freeze (default 1%Q stepsMul) i r) ->
  Forall (fun dt => (0 <= dt)%Q) dts ->
  (length (tweens st) + 3 * length (reels (objects st)) <= fuel)%nat ->
  exists st1 g1 st2,
    spinTo grid freeze speedMul stepsMul st g = Some (st1, g1)
    /\ frames fuel dts st1 = Some st2
    /\ ((forall i, (i < length (reels (objects st)))%nat ->
           frozen freeze i = false ->
           (spinTime (default 1%Q speedMul) i <= elapsedAfter dts)%Q) ->
        (exists snap,
           completions (objects st2) = completions (objects st) ++ [snap]
           /\ Forall2 (fun r col =>
                         ReelView.getVisibleColumn r = Some (map Some col))
                snap grid)
        /\ Forall2 (fun r col =>
                      ReelView.getVisibleColumn r = Some (map Some col))
             (reels (objects st2)) grid)
    /\ ((exists i, (i < length (reels (objects st)))%nat
                   /\ frozen freeze i = false
                   /\ (elapsedAfter dts < spinTime (default 1%Q speedMul) i)%Q)
        -> completions (objects st2) = completions (objects st)).
Proof.
  intros Hq Hne Hgrid Hw Hdts Hfuel. unfold spinTo.
  set (sm := default 1%Q speedMul). set (tm := default 1%Q stepsMul).
  pose proof (spinInv_init grid freeze sm tm (completions (objects st)) st Hq
                Hne Hgrid Hw eq_refl) as Hinv0.
  destruct (spinToLoop_inv grid freeze sm tm (completions (objects st))
              (length (reels (objects st))) 0 _ g Hinv0)
    as (st1 & g1 & Hrun & Hinv1 & Hl1 & Ht1); [done|].
  cbn [objects tweens with_objects with_remaining reels] in Hl1, Ht1.
  destruct (frames_inv grid freeze sm tm (completions (objects st)) fuel dts
              Hdts 0 st1 Hinv1) as (st2 & Hframes & Hinv2); [lia|].
  exists st1, g1, st2. split; [exact Hrun|]. split; [exact Hframes|].
  assert (Hl2 : length (reels (objects st2)) = length (reels (objects st))).
  { rewrite <- (inv_grid _ _ _ _ _ _ _ _ _ Hinv2). done. }
  destruct (spinInv_result grid freeze sm tm (completions (objects st))
              _ st2 Hinv2) as [Hyes Hno].
  rewrite Hl2 in Hyes, Hno. fold (elapsedAfter dts) in Hyes, Hno.
  split.
  - intros Hall. destruct (Hyes Hall) as ((snap & Hlog & Hsnap) & Hnow).
    split.
    + exists snap. split; [done|].
      eapply Forall2_impl; [exact Hsnap|]. by intros r col (_ & _ & ?).
    + eapply Forall2_impl; [exact Hnow|]. by intros r col (_ & _ & ?).
  - exact Hno.
Qed.
End SpinTheorem.

Section SpinWitness.
Import TweenManager SlotMachineView.

Lemma spinTo_shows_the_grid_witness :
  let grid :=
    [[Sym.A; Sym.K; Sym.Q]; [Sym.SKULL; Sym.SKULL; Sym.SKULL];
     [Sym.A; Sym.K; Sym.Q]; [Sym.A; Sym.K; Sym.Q]; [Sym.A; Sym.K; Sym.Q]] in
  exists st1 g1 st2 snap,
    spinTo grid (Some [false; true]) None None freshMachine halves
    = Some (st1, g1)
    /\ frames 16 [1%Q; (1 # 2)%Q; (1 # 2)%Q] st1 = Some st2
    /\ completions (objects st2) = [snap]
    /\ Forall2 (fun r col => ReelView.getVisibleColumn r = Some (map Some col))
         snap grid.
Proof.
  cbv zeta.
  destruct (spinTo_shows_the_grid
              [[Sym.A; Sym.K; Sym.Q]; [Sym.SKULL; Sym.SKULL; Sym.SKULL];
               [Sym.A; Sym.K; Sym.Q]; [Sym.A; Sym.K; Sym.Q];
               [Sym.A; Sym.K; Sym.Q]]
              (Some [false; true]) None None freshMachine halves
              [1%Q; (1 # 2)%Q; (1 # 2)%Q] 16)
    as (st1 & g1 & st2 & Hrun & Hframes & Hyes & _).
  - constructor; [|constructor]. right.
    split; [reflexivity|]. split; [reflexivity|]. exact I.
  - vm_compute. discriminate.
  - reflexivity.
  - intros i r Hr. vm_compute in Hr.
    do 5 (destruct i as [|i];
          [injection Hr as <-;
           (split; [vm_compute; repeat split; lia|]);
           (split; [reflexivity|]);
           eexists; (split; [reflexivity|]); vm_compute;
           first [reflexivity
                 | split; [reflexivity|split; [discriminate|reflexivity]]]|]).
    discriminate Hr.
  - constructor; [vm_compute; discriminate|].
    constructor; [vm_compute; discriminate|].
    constructor; [vm_compute; discriminate|]. constructor.
  - vm_compute. lia.
  - destruct Hyes as ((snap & Hlog & Hsnap) & _).
    + intros i Hi _. vm_compute in Hi.
      do 5 (destruct i as [|i]; [vm_compute; discriminate|]). lia.
    + exists st1, g1, st2, snap.
      split; [exact Hrun|]. split; [exact Hframes|].
      split; [exact Hlog|exact Hsnap].
Defined.
End SpinWitness.

Section ConstructorFacts.
Import ReelView.

Lemma randomSymbol_ok g :
  rngValid g ->
  exists id,
    fst (randomSymbol g) = Some id /\ id ∈ Sym.DefaultSymbolIds
    /\ draws (snd (randomSymbol g)) = draws g
    /\ cursor (snd (randomSymbol g)) = S (cursor g).
Proof.
  intros Hg. unfold randomSymbol, rng_next. cbn [fst snd draws cursor].
  pose proof (toInt32_index (draws g (cursor g))
                (length Sym.DefaultSymbolIds) (Hg (cursor g))
                ltac:(cbn; lia) ltac:(cbn; lia)) as [H0 H1].
  set (i := toInt32 _) in *. unfold arr_get.
  destruct (decide (0 <= i)%Z); [|lia].
  destruct (lookup_lt_is_Some_2 Sym.DefaultSymbolIds (Z.to_nat i)) as [id Hid];
    [lia|].
  exists id. split; [done|]. split; [|done].
  by eapply list_elem_of_lookup_2.
Qed.

Lemma newSymbols_S n i b h g :
  newSymbols (S n) i b h g
  = (let '(id, g1) := randomSymbol g in
     let '(rest, g2) := newSymbols n (S i) b h g1 in
     ({| sv_id := id;
         sv_y := (inject_Z (Z.of_nat i - Z.of_nat b) * h)%Q |} :: rest, g2)).
Proof. reflexivity. Qed.

Lemma newSymbols_spec n :
  forall i b h g,
    rngValid g ->
    length (fst (newSymbols n i b h g)) = n
    /\ Forall (fun s => exists id, sv_id s = Some id
                                   /\ id ∈ Sym.DefaultSymbolIds)
         (fst (newSymbols n i b h g))
    /\ draws (snd (newSymbols n i b h g)) = draws g
    /\ cursor (snd (newSymbols n i b h g)) = (cursor g + n)%nat.
Proof.
  induction n as [|n IH]; intros i b h g Hg.
  { simpl. repeat split; [constructor|lia]. }
  rewrite newSymbols_S.
  destruct (randomSymbol_ok g Hg) as (id & Hid & Hin & Hd & Hc).
  destruct (randomSymbol g) as [c g1]. cbn [fst snd] in *. subst c.
  assert (Hg1 : rngValid g1) by (intros k; rewrite Hd; apply Hg).
  destruct (IH (S i) b h g1 Hg1) as (Hl & Hall & Hd' & Hc').
  destruct (newSymbols n (S i) b h g1) as [rest g2]. cbn [fst snd] in *.
  split; [cbn; by f_equal|]. split; [|split; [congruence|lia]].
  constructor; [|done]. by exists id.
Qed.

Lemma collect_cells (f : nat -> option Cell) n :
  (forall row, (row < n)%nat -> exists id : SymbolId, f row = Some (Some id)) ->
  exists col : list SymbolId,
    length col = n
    /\ forall row, (row < n)%nat -> f row = Some (col !! row).
Proof.
  induction n as [|n IH]; intros Hcells.
  - exists []. split; [done|]. intros row Hrow. lia.
  - destruct IH as (col & Hlen & Hcol).
    { intros row Hrow. apply Hcells. lia. }
    destruct (Hcells n ltac:(lia)) as (id & Hid).
    exists (col ++ [id]). split; [rewrite length_app; cbn; lia|].
    intros row Hrow. destruct (decide (row = n)) as [->|Hne].
    + rewrite Hid. f_equal. rewrite lookup_app_r by lia.
      by rewrite Hlen, Nat.sub_diag.
    + rewrite Hcol by lia. f_equal. by rewrite lookup_app_l by lia.
Qed.

(** A reel as the constructor leaves it.  With a random source that keeps
    its contract and a pool of at least one cell, the new reel has its
    [rows + 2 * buffer] cells, every one showing a symbol of the default
    list, none [undefined]; it is at position 0 with its strip in step, so
    its visible column can be read; and the constructor has drawn once per
    cell. *)
Theorem create_reel_ready index rows buffer size gap g :
  (0 < rows + 2 * buffer)%nat -> rngValid g ->
  let r := fst (create index rows buffer size gap g) in
  let g' := snd (create index rows buffer size gap g) in
  reelOk r /\ synced r /\ ReelView.spinPos r = 0%Q
  /\ ReelView.rows r = rows /\ ReelView.buffer r = buffer
  /\ Forall (fun s => exists id, sv_id s = Some id
                                 /\ id ∈ Sym.DefaultSymbolIds) (symbols r)
  /\ (exists col : list SymbolId,
        length col = rows /\ getVisibleColumn r = Some (map Some col))
  /\ draws g' = draws g
  /\ cursor g' = (cursor g + (rows + 2 * buffer))%nat.
Proof.
  intros Hpos Hg. cbv zeta. unfold create.
  destruct (newSymbols_spec (rows + buffer * 2) 0 buffer (size + gap)%Q g Hg)
    as (Hl & Hall & Hd & Hc).
  destruct (newSymbols (rows + buffer * 2) 0 buffer (size + gap)%Q g)
    as [syms g1]. cbn [fst snd] in *.
  assert (Hok : reelOk
                  {| index := index; rows := rows; buffer := buffer;
                     stepHeight := (size + gap)%Q; symbols := syms;
                     topIndex := 0; queue := []; queueRead := 0;
                     spinPos := 0; prevSpinPos := 0; kick := 0;
                     scale_x := 1 |}).
  { unfold reelOk. cbn. rewrite Hl. lia. }
  split; [exact Hok|]. split; [reflexivity|]. do 3 (split; [reflexivity|]).
  split; [exact Hall|]. split; [|split; [done|lia]].
  set (r := {| index := index; symbols := syms |}) in *.
  assert (Hcells : forall row, (row < rows)%nat ->
            exists id, stripId r (buffer + row) = Some (Some id)).
  { intros row Hrow. unfold stripId.
    change (symbols r) with syms. change (topIndex r) with 0%nat.
    assert (Hi : ((0 + (buffer + row)) mod length syms < length syms)%nat)
      by (apply Nat.mod_upper_bound; lia).
    destruct (lookup_lt_is_Some_2 _ _ Hi) as [s Hs].
    rewrite Hs. cbn.
    destruct (proj1 (Forall_forall _ _) Hall s
                (list_elem_of_lookup_2 _ _ _ Hs)) as (id & -> & _).
    by exists id. }
  pose proof (collect_cells (fun row => stripId r (buffer + row)) rows Hcells)
    as Hcol.
  destruct Hcol as (col & Hlen & Hcol). exists col. split; [done|].
  apply getVisibleColumn_Some.
  - by destruct Hok as (_ & ? & _).
  - by rewrite length_map.
  - intros row Hrow. cbn in Hrow. change (ReelView.buffer r) with buffer.
    rewrite Hcol by done. f_equal. rewrite list_lookup_fmap.
    destruct (col !! row) eqn:E; [done|].
    apply lookup_ge_None in E. lia.
Qed.

Lemma create_reel_ready_witness :
  exists col : list SymbolId,
    getVisibleColumn (fst (create 0 3 2 140 18 halves)) = Some (map Some col).
Proof.
  destruct (create_reel_ready 0 3 2 140 18 halves)
    as (_ & _ & _ & _ & _ & _ & (col & _ & Hcol) & _).
  - lia.
  - intros n. vm_compute. split; [discriminate|reflexivity].
  - by exists col.
Defined.
End ConstructorFacts.

Section FitFacts.
Import FitScaler.
Local Open Scope Q_scope.

(** The design fitted to the viewport.  With positive design and viewport
    sizes, [apply] gives the root one scale for both axes and centres the
    scaled design in the viewport.  In the mode [contain] the scaled design
    lies inside the viewport and fills it in one direction; in the mode
    [cover] it covers the viewport and matches it in one direction.  When
    one of the four sizes is not positive, the root is left as it is. *)
Theorem apply_fits (s : t) (root : Root) vw vh :
  let r := apply s root vw vh in
  let w := designWidth s * scale_x r in
  let h := designHeight s * scale_y r in
  (0 < designWidth s /\ 0 < designHeight s /\ 0 < vw /\ 0 < vh ->
   scale_x r = scale_y r /\ 0 < scale_x r
   /\ x r + w + x r == vw /\ y r + h + y r == vh
   /\ (w == vw \/ h == vh)
   /\ match mode s with
      | contain => w <= vw /\ h <= vh /\ 0 <= x r /\ 0 <= y r
      | cover => vw <= w /\ vh <= h /\ x r <= 0 /\ y r <= 0
      end)
  /\ (designWidth s <= 0 \/ designHeight s <= 0 \/ vw <= 0 \/ vh <= 0 ->
      r = root).
Proof.
  cbv zeta. unfold apply. split.
  - intros (Hdw & Hdh & Hvw & Hvh).
    destruct (Qle_bool (designWidth s) 0) eqn:E1;
      [apply Qle_bool_iff in E1; lra|].
    destruct (Qle_bool (designHeight s) 0) eqn:E2;
      [apply Qle_bool_iff in E2; lra|].
    destruct (Qle_bool vw 0) eqn:E3; [apply Qle_bool_iff in E3; lra|].
    destruct (Qle_bool vh 0) eqn:E4; [apply Qle_bool_iff in E4; lra|].
    cbn [orb scale_x scale_y x y].
    set (dw := designWidth s) in *. set (dh := designHeight s) in *.
    assert (Hsx : dw * (vw / dw) == vw) by (field; lra).
    assert (Hsy : dh * (vh / dh) == vh) by (field; lra).
    assert (Hsx0 : 0 < vw / dw) by (apply Qlt_shift_div_l; lra).
    assert (Hsy0 : 0 < vh / dh) by (apply Qlt_shift_div_l; lra).
    destruct (mode s).
    + destruct (Q.min_spec (vw / dw) (vh / dh)) as [[Hlt Heq]|[Hle Heq]].
      * set (sc := Qmin (vw / dw) (vh / dh)) in *. clearbody sc.
        split; [done|]. split; [lra|].
        assert (Hh : dh * sc <= vh).
        { rewrite Heq. rewrite <- Hsy.
          apply Qmult_le_l; [done|]. lra. }
        assert (Hw : dw * sc == vw) by (by rewrite Heq).
        split; [lra|]. split; [lra|]. split; [by left|].
        split; [lra|]. split; [done|]. split; lra.
      * set (sc := Qmin (vw / dw) (vh / dh)) in *. clearbody sc.
        split; [done|]. split; [lra|].
        assert (Hw : dw * sc <= vw).
        { rewrite Heq. rewrite <- Hsx.
          apply Qmult_le_l; [done|]. lra. }
        assert (Hh : dh * sc == vh) by (by rewrite Heq).
        split; [lra|]. split; [lra|]. split; [by right|].
        split; [done|]. split; [lra|]. split; lra.
    + destruct (Q.max_spec (vw / dw) (vh / dh)) as [[Hlt Heq]|[Hle Heq]].
      * set (sc := Qmax (vw / dw) (vh / dh)) in *. clearbody sc.
        split; [done|]. split; [lra|].
        assert (Hw : vw <= dw * sc).
        { rewrite Heq. rewrite <- Hsx at 1.
          apply Qmult_le_l; [done|]. lra. }
        assert (Hh : dh * sc == vh) by (by rewrite Heq).
        split; [lra|]. split; [lra|]. split; [by right|].
        split; [done|]. split; [lra|]. split; lra.
      * set (sc := Qmax (vw / dw) (vh / dh)) in *. clearbody sc.
        split; [done|]. split; [lra|].
        assert (Hh : vh <= dh * sc).
        { rewrite Heq. rewrite <- Hsy at 1.
          apply Qmult_le_l; [done|]. lra. }
        assert (Hw : dw * sc == vw) by (by rewrite Heq).
        split; [lra|]. split; [lra|]. split; [by left|].
        split; [lra|]. split; [done|]. split; lra.
  - intros Hcase.
    destruct (Qle_bool (designWidth s) 0) eqn:E1; [done|].
    destruct (Qle_bool (designHeight s) 0) eqn:E2; [done|].
    destruct (Qle_bool vw 0) eqn:E3; [done|].
    destruct (Qle_bool vh 0) eqn:E4; [done|].
    apply Qle_bool_false in E1, E2, E3, E4. lra.
Qed.
End FitFacts.

Section MainWitnesses.
Import SlotScene.

Lemma halves_valid : rngValid halves.
Proof. intros n. vm_compute. split; [discriminate|reflexivity]. Qed.

Lemma generateSpin_total_witness :
  exists gs g',
    SpinGenerator.generateSpin defaultMath 5 3 None halves = Some (gs, g')
    /\ dims (SpinGenerator.grid gs) = replicate 5 3%nat.
Proof.
  destruct (generateSpin_total defaultMath 5 3 None halves)
    as (gs & g' & Hrun & Hd & _).
  - lia.
  - lia.
  - lia.
  - lia.
  - exact halves_valid.
  - exists gs, g'. split; [exact Hrun|exact Hd].
Defined.


End MainWitnesses.
